(** * The Region Vectorizer (rv): control linearization, loop normalization,
      masks and the shape decoder of the driver

    A shallow embedding of
    - [Mask.cpp] (struct [rv::Mask]),
    - [rvTool.cpp] (the shape-string decoder of the command line driver),
    - [Linearizer.cpp] (block index, definition promotion, live-out
      trackers, loop normalization, phi folding, branch processing),
    together with the properties of these functions that the design
    document of the vectorizer states.

    C++ pointers become references into explicit stores, nullable pointers
    become [option], and a run that hits an [assert], an [abort()], a null
    dereference or an out-of-bounds access ends in [Crash]. *)

From Stdlib Require Import ZArith Lia Bool Ascii String.
From stdpp Require Import base option list gmap strings.

Set Default Proof Using "Type".
Set Warnings "-register-all".
Open Scope Z_scope.

(** ** Outcomes of a run *)

(** Why a run stopped before its end. *)
Inductive failure : Type :=
| AssertionFailed (msg : string)   (* assert(...) *)
| Aborted (msg : string)           (* abort(), fail(...) *)
| NullDeref (what : string)        (* use of a null pointer *)
| OutOfBounds (what : string)      (* index outside a std::vector *)
| OutOfFuel.                       (* a loop that does not come to an end *)

Inductive outcome (A : Type) : Type :=
| Done (a : A)
| Crash (f : failure).
Arguments Done {A} a.
Arguments Crash {A} f.

(** ** [rv::Mask] (Mask.cpp) *)

Module Mask.

(** The [llvm::Value]s a mask can hold, as far as [Mask.cpp] inspects them:
    integer constants of a bit width, constant vectors of such integers, and
    everything that is no [llvm::Constant]. *)
Inductive Value : Type :=
| ConstantInt (width : N) (val : Z)
| ConstantVector (width : N) (elems : list Z)
| NonConstant (id : N).

Definition isConstant (v : Value) : bool :=
  match v with NonConstant _ => false | _ => true end.

Definition isConstantInt (v : Value) : bool :=
  match v with ConstantInt _ _ => true | _ => false end.

(** [Constant::isNullValue]: every bit is zero. *)
Definition isNullValue (v : Value) : bool :=
  match v with
  | ConstantInt w x => (x mod 2 ^ Z.of_N w =? 0)
  | ConstantVector w xs => forallb (fun x => x mod 2 ^ Z.of_N w =? 0) xs
  | NonConstant _ => false
  end.

(** [Constant::isAllOnesValue]: every bit is one. *)
Definition isAllOnesValue (v : Value) : bool :=
  match v with
  | ConstantInt w x => (x mod 2 ^ Z.of_N w =? 2 ^ Z.of_N w - 1)
  | ConstantVector w xs =>
      forallb (fun x => x mod 2 ^ Z.of_N w =? 2 ^ Z.of_N w - 1) xs
  | NonConstant _ => false
  end.

(** [dyn_cast<T>(p)]: the argument must not be null ([dyn_cast] asserts it);
    the result is null when the value is no [T]. *)
Definition dyn_cast (isT : Value -> bool) (p : option Value)
  : outcome (option Value) :=
  match p with
  | None => Crash (AssertionFailed "dyn_cast on a non-existent value")
  | Some v => Done (if isT v then Some v else None)
  end.

(** [struct Mask { Value *Predicate; Value *ActiveVectorLength; }] *)
Record Mask : Type := mkMask {
  Predicate : option Value;
  ActiveVectorLength : option Value
}.

Definition getPred (m : Mask) : option Value := Predicate m.
Definition getAVL (m : Mask) : option Value := ActiveVectorLength m.

(** Modelled from the spec: [Mask::getAllTrue] is declared in [Mask.h],
    which is not among the sources; the canonical all-true mask is the one
    [knownAllTrue] recognises: no predicate and no vector length. *)
Definition getAllTrue : Mask := mkMask None None.

Definition inferFromPredicate (Pred : Value) : Mask :=
  let ConstPred := if isConstant Pred then Some Pred else None in
  match ConstPred with
  | Some c => if isAllOnesValue c then getAllTrue else mkMask (Some Pred) None
  | None => mkMask (Some Pred) None
  end.

Definition fromVectorLength (EVLen : Value) : Mask := mkMask None (Some EVLen).

(** [Mask::getAllFalse]: the vector length [i32 0]. *)
Definition getAllFalse : Mask := fromVectorLength (ConstantInt 32 0).

Definition knownAllTrue (m : Mask) : bool :=
  match getPred m, getAVL m with
  | None, None => true
  | _, _ => false
  end.

(** [Mask::knownAllFalse], statement by statement. The second test casts
    [getAVL()] although it is guarded by [getPred()]. *)
Definition knownAllFalse (m : Mask) : outcome bool :=
  let avlZero :=
    match getAVL m with
    | Some _ =>
        match dyn_cast isConstantInt (getAVL m) with
        | Crash f => Crash f
        | Done ConstAVL =>
            Done (match ConstAVL with Some c => isNullValue c | None => false end)
        end
    | None => Done false
    end in
  match avlZero with
  | Crash f => Crash f
  | Done true => Done true
  | Done false =>
      match getPred m with
      | Some _ =>
          match dyn_cast isConstant (getAVL m) with
          | Crash f => Crash f
          | Done ConstPred =>
              Done (match ConstPred with Some c => isNullValue c | None => false end)
          end
      | None => Done false
      end
  end.

(** What the comment [// Pred == 0] announces: the predicate is a constant
    all-zero value. *)
Definition predIsConstantZero (m : Mask) : bool :=
  match getPred m with
  | Some p => isConstant p && isNullValue p
  | None => false
  end.

End Mask.

(** *** Properties of [Mask] *)

Section MaskFacts.
Import Mask.

Lemma knownAllTrue_getAllTrue : knownAllTrue getAllTrue = true.
Proof. reflexivity. Qed.

Lemma knownAllFalse_getAllFalse : knownAllFalse getAllFalse = Done true.
Proof. reflexivity. Qed.

(** A constant-zero vector length is recognised whatever the predicate. *)
Lemma knownAllFalse_avl_zero (p : option Value) (w : N) :
  knownAllFalse (mkMask p (Some (ConstantInt w 0))) = Done true.
Proof.
  unfold knownAllFalse; cbn. rewrite Z.mod_0_l; [reflexivity|].
  apply Z.pow_nonzero; lia.
Qed.

(** A mask that only carries a predicate never reaches an answer: the
    second test dereferences the absent vector length. *)
Lemma knownAllFalse_pred_only (p : Value) :
  knownAllFalse (mkMask (Some p) None)
  = Crash (AssertionFailed "dyn_cast on a non-existent value").
Proof. reflexivity. Qed.

(** C10 (code defect). The mask inferred from the constant [i1 false] has a
    constant all-zero predicate and no vector length; [knownAllFalse] does
    not answer [true] on it: it casts the null vector length. *)
Theorem C10_knownAllFalse_false_predicate :
  Mask.inferFromPredicate (Mask.ConstantInt 1 0)
    = Mask.mkMask (Some (Mask.ConstantInt 1 0)) None
  /\ Mask.predIsConstantZero (Mask.inferFromPredicate (Mask.ConstantInt 1 0)) = true
  /\ Mask.knownAllFalse (Mask.inferFromPredicate (Mask.ConstantInt 1 0))
     = Crash (AssertionFailed "dyn_cast on a non-existent value").
Proof. repeat split. Qed.

(** With a vector length that is no constant, the zero predicate is
    overlooked without any crash: the answer is [false]. *)
Lemma knownAllFalse_false_predicate_with_avl :
  Mask.predIsConstantZero
    (Mask.mkMask (Some (Mask.ConstantInt 1 0)) (Some (Mask.NonConstant 7))) = true
  /\ Mask.knownAllFalse
       (Mask.mkMask (Some (Mask.ConstantInt 1 0)) (Some (Mask.NonConstant 7)))
     = Done false.
Proof. split; reflexivity. Qed.

(** The answer never depends on the predicate's value: only on whether
    there is one. *)
Lemma knownAllFalse_ignores_predicate (p q : Value) (avl : option Value) :
  knownAllFalse (mkMask (Some p) avl) = knownAllFalse (mkMask (Some q) avl).
Proof. reflexivity. Qed.

End MaskFacts.

(** ** Vector shapes *)

Module Shape.

(** Modelled from the spec: [rv/shape/vectorShape.h] is not among the
    sources. A shape is one of [Undef], [Uniform(align)],
    [Contiguous(align)], [Strided(s, align)], [Varying(align)]. *)
Inductive VectorShape : Type :=
| Undef
| Uniform (align : N)
| Contiguous (align : N)
| Strided (stride : Z) (align : N)
| Varying (align : N).

#[global] Instance VectorShape_eq_dec : EqDecision VectorShape.
Proof. solve_decision. Defined.

Definition undef : VectorShape := Undef.
Definition uni (alignment : N) : VectorShape := Uniform alignment.
Definition cont (alignment : N) : VectorShape := Contiguous alignment.
(** [strided]: by the spec [Strided(1)] collapses to [Contiguous], so a
    stride of 1 is built as the contiguous shape. *)
Definition strided (stride : Z) (alignment : N) : VectorShape :=
  if (stride =? 1)%Z then Contiguous alignment else Strided stride alignment.
Definition varying (alignment : N) : VectorShape := Varying alignment.

(** [isUniform]: the spec warns that [Undef] must not count as uniform. *)
Definition isUniform (s : VectorShape) : bool :=
  match s with Uniform _ => true | _ => false end.

Definition getAlignment (s : VectorShape) : N :=
  match s with
  | Undef => 1
  | Uniform a | Contiguous a | Strided _ a | Varying a => a
  end.

End Shape.

(** ** The shape decoder of the driver (rvTool.cpp) *)

Module RvTool.
Import Shape.

Definition BOTCHAR : ascii := "B"%char.
Definition UNICHAR : ascii := "U"%char.
Definition CONTCHAR : ascii := "C"%char.
Definition STRIDEDCHAR : ascii := "S"%char.
Definition VARCHAR : ascii := "T"%char.
Definition LISTSEPERATOR : ascii := "_"%char.
Definition RETURNSHAPESEPERATOR : ascii := "r"%char.

(** *** [std::stringstream], as far as the decoder uses it

    The get area is split at the read position: [consumed] holds the
    characters already read, last one first. [failbit] stands for
    [fail()], that is [failbit] or [badbit]. *)
Record stringstream : Type := mkStream {
  consumed : list ascii;
  pending : list ascii;
  eofbit : bool;
  failbit : bool
}.

Definition stream_of (s : string) : stringstream :=
  mkStream [] (list_ascii_of_string s) false false.

Definition good (s : stringstream) : bool := negb (eofbit s) && negb (failbit s).
Definition fail (s : stringstream) : bool := failbit s.

Definition setstate (eof bad : bool) (s : stringstream) : stringstream :=
  mkStream (consumed s) (pending s) (eofbit s || eof) (failbit s || bad).

(** [int get()]: [None] is [EOF]. At the end of the input [eofbit] and
    [failbit] are set; on a stream that is not [good()] nothing is read. *)
Definition get (s : stringstream) : option ascii * stringstream :=
  if good s then
    match pending s with
    | c :: r => (Some c, mkStream (c :: consumed s) r false false)
    | [] => (None, setstate true true s)
    end
  else (None, setstate false true s).

(** [int peek()]: reads nothing; at the end of the input [eofbit] is set. *)
Definition peek (s : stringstream) : option ascii * stringstream :=
  if good s then
    match pending s with
    | c :: _ => (Some c, s)
    | [] => (None, setstate true false s)
    end
  else (None, setstate false true s).

(** [unget()]: clears [eofbit], then steps one character back unless the
    stream has failed. *)
Definition unget (s : stringstream) : stringstream :=
  let s1 := mkStream (consumed s) (pending s) false (failbit s) in
  if failbit s1 then s1
  else
    match consumed s1 with
    | c :: r => mkStream r (c :: pending s1) false false
    | [] => setstate false true s1
    end.

(** [ignore(1)] *)
Definition ignore1 (s : stringstream) : stringstream :=
  if good s then
    match pending s with
    | c :: r => mkStream (c :: consumed s) r false false
    | [] => setstate true false s
    end
  else setstate false true s.

Definition isspace (c : ascii) : bool :=
  let n := nat_of_ascii c in
  (n =? 32)%nat || ((9 <=? n)%nat && (n <=? 13)%nat).

Definition digit_of (c : ascii) : option Z :=
  let n := Z.of_nat (nat_of_ascii c) in
  if (48 <=? n) && (n <=? 57) then Some (n - 48) else None.

(** The longest prefix of decimal digits, its value accumulated from
    [acc], the number of digits read and the rest. *)
Fixpoint read_digits (l : list ascii) (acc : Z) (n : nat)
  : Z * nat * list ascii * list ascii :=
  match l with
  | c :: r =>
      match digit_of c with
      | Some d =>
          let '(v, k, seen, rest) := read_digits r (10 * acc + d) (S n) in
          (v, k, seen ++ [c], rest)
      | None => (acc, n, [], l)
      end
  | [] => (acc, n, [], [])
  end.

Fixpoint skip_ws (l : list ascii) (seen : list ascii) : list ascii * list ascii :=
  match l with
  | c :: r => if isspace c then skip_ws r (c :: seen) else (seen, l)
  | [] => (seen, [])
  end.

Definition UINT_MAX : Z := 2 ^ 32 - 1.

(** [shapeText >> number] for [unsigned number]: leading white space is
    skipped, an optional sign and decimal digits are read. Without a digit
    the extraction fails and stores 0; a value above [UINT_MAX] fails and
    stores [UINT_MAX]; a minus sign negates modulo [2^32]. Reaching the end
    of the input sets [eofbit]. *)
Definition extract_unsigned (s : stringstream) : Z * stringstream :=
  if good s then
    let '(seen, l) := skip_ws (pending s) (consumed s) in
    match l with
    | [] => (0, mkStream seen [] true true)
    | c :: r =>
        let signed := (Ascii.eqb c "-" || Ascii.eqb c "+")%bool in
        let negative := Ascii.eqb c "-" in
        let body := if signed then r else l in
        let seen1 := if signed then c :: seen else seen in
        let '(v, k, ds, rest) := read_digits body 0 0%nat in
        let eof := match rest with [] => true | _ => false end in
        match k with
        | O => (0, mkStream seen1 rest eof true)
        | S _ =>
            if UINT_MAX <? v
            then (UINT_MAX, mkStream (ds ++ seen1) rest eof true)
            else ((if negative then (2 ^ 32 - v) mod 2 ^ 32 else v),
                  mkStream (ds ++ seen1) rest eof false)
        end
    end
  else (0, setstate false true s).

(** The decoder's functions thread the stream; [fail(...)] and a failed
    [assert] stop the run. *)
Definition parser (A : Type) : Type := stringstream -> outcome (A * stringstream).

Definition readNumber : parser Z := fun shapeText =>
  let '(number, s) := extract_unsigned shapeText in
  if fail s then Crash (AssertionFailed "expected a number!")
  else Done (number, s).

Definition decodeAlignment : parser Z := fun shapeText =>
  let '(c, s) := get shapeText in
  if bool_decide (c = Some "a"%char) then readNumber s
  else Done (1, unget s).

Definition decodeShape : parser VectorShape := fun shapestream =>
  let '(c, s) := get shapestream in
  if bool_decide (c = Some BOTCHAR) then Done (undef, s)
  else
    match decodeAlignment s with
    | Crash f => Crash f
    | Done (alignment, s) =>
        if bool_decide (c = Some CONTCHAR) then Done (cont (Z.to_N alignment), s)
        else if bool_decide (c = Some VARCHAR) then Done (varying (Z.to_N alignment), s)
        else if bool_decide (c = Some UNICHAR) then Done (uni (Z.to_N alignment), s)
        else
          match readNumber s with
          | Crash f => Crash f
          | Done (stridedOf, s) =>
              if bool_decide (c = Some STRIDEDCHAR)
              then Done (strided stridedOf (Z.to_N alignment), s)
              else Crash (Aborted "Expected stride specifier.")
          end
    end.

(** [readList<LISTSEPERATOR>(listText, vec, decodeShape)]: a do-while loop
    that ends at the first element not followed by the separator. Each
    round reads at least one character, which bounds the rounds. *)
Fixpoint readList_loop (fuel : nat) (vec : list VectorShape)
  : parser (list VectorShape) := fun listText =>
  match fuel with
  | O => Crash OutOfFuel
  | S fuel =>
      match decodeShape listText with
      | Crash f => Crash f
      | Done (x, s) =>
          let vec := vec ++ [x] in
          let '(c, s) := peek s in
          if bool_decide (c = Some LISTSEPERATOR)
          then readList_loop fuel vec (ignore1 s)
          else Done (vec, s)
      end
  end.

Definition readList : parser (list VectorShape) := fun listText =>
  readList_loop (S (length (pending listText))) [] listText.

(** The [-s] option in [main]: the argument shapes, padded with uniform
    shapes up to the kernel's arity, and the optional result shape. A
    default-constructed [VectorShape] is the undefined shape. *)
Definition decodeShapeOption (arity : nat) (shapeText : string)
  : outcome (VectorShape * list VectorShape) :=
  match readList (stream_of shapeText) with
  | Crash f => Crash f
  | Done (argShapes, s) =>
      if (arity <? length argShapes)%nat
      then Crash (Aborted "too many arg shapes specified")
      else
        let argShapes := argShapes ++ replicate (arity - length argShapes) (uni 1) in
        let '(c, s) := peek s in
        match c with
        | None => Done (undef, argShapes)
        | Some _ =>
            let '(c, s) := get s in
            if bool_decide (c = Some RETURNSHAPESEPERATOR) then
              match decodeShape s with
              | Crash f => Crash f
              | Done (resShape, _) => Done (resShape, argShapes)
              end
            else Crash (Aborted "expected return shape")
        end
  end.

(** The decoded shape and the characters left unread. *)
Definition decode (text : string) : outcome (VectorShape * string) :=
  match decodeShape (stream_of text) with
  | Crash f => Crash f
  | Done (sh, s) => Done (sh, string_of_list_ascii (pending s))
  end.

End RvTool.

Section RvToolFacts.
Import Shape RvTool.

Example decode_B : decode "B" = Done (Undef, ""%string).
Proof. reflexivity. Qed.
Example decode_U : decode "U" = Done (Uniform 1, ""%string).
Proof. reflexivity. Qed.
Example decode_Ua16 : decode "Ua16" = Done (Uniform 16, ""%string).
Proof. reflexivity. Qed.
Example decode_Ca8_rest : decode "Ca8_T" = Done (Contiguous 8, "_T"%string).
Proof. reflexivity. Qed.
Example decode_Ta4 : decode "Ta4" = Done (Varying 4, ""%string).
Proof. reflexivity. Qed.
Example decode_S4 : decode "S4" = Done (Strided 4 1, ""%string).
Proof. reflexivity. Qed.
Example decode_S12_rest : decode "S12_U" = Done (Strided 12 1, "_U"%string).
Proof. reflexivity. Qed.
Example decode_S1 : decode "S1" = Done (Contiguous 1, ""%string).
Proof. reflexivity. Qed.

(** The alignment of a strided shape is read before the stride, so it only
    parses when white space keeps the two numbers apart. *)
Example decode_Sa8_4 : decode "Sa8 4" = Done (Strided 4 8, ""%string).
Proof. reflexivity. Qed.
Example decode_Sa84 : decode "Sa84" = Crash (AssertionFailed "expected a number!").
Proof. reflexivity. Qed.

Example decode_list : 
  decodeShapeOption 3 "C_Ta4_S2rU" = Done (Uniform 1, [Contiguous 1; Varying 4; Strided 2 1]).
Proof. reflexivity. Qed.

(** C9 (code defect). On ["S4a8"] the decoder returns [Strided 4] with
    alignment 1 and leaves ["a8"] unread, where the grammar asks for
    alignment 8; the driver then stops with "expected return shape". The
    suffix is honoured after [U], [C] and [T]. *)
Theorem C9_decodeShape_strided_alignment_suffix :
  RvTool.decode "S4a8" = Done (Shape.Strided 4 1, "a8"%string)
  /\ RvTool.decodeShapeOption 1 "S4a8" = Crash (Aborted "expected return shape")
  /\ RvTool.decode "Ua8" = Done (Shape.Uniform 8, ""%string)
  /\ RvTool.decode "Ca8" = Done (Shape.Contiguous 8, ""%string)
  /\ RvTool.decode "Ta8" = Done (Shape.Varying 8, ""%string).
Proof. repeat split. Qed.

End RvToolFacts.

(** ** The intermediate representation, as far as the linearizer reads and
       writes it *)

Module IR.
Import Shape.

(** [BasicBlock*] and [Instruction*]: references into the function. *)
Abbreviation BlockRef := nat (only parsing).
Abbreviation InstRef := nat (only parsing).

Inductive Ty : Type :=
| VoidTy | IntTy (bits : N) | FloatTy | DoubleTy | PointerTy.

#[global] Instance Ty_eq_dec : EqDecision Ty.
Proof. solve_decision. Defined.

Inductive Value : Type :=
| UndefValue (ty : Ty)
| Constant (ty : Ty) (c : Z)
| GlobalValue (name : string)
| Argument (ty : Ty) (n : nat)
| InstValue (i : InstRef)
| ConstantSelect (cond ifTrue ifFalse : Value).   (* a constant expression *)

#[global] Instance Value_eq_dec : EqDecision Value.
Proof. solve_decision. Defined.

Inductive Opcode : Type :=
| PHINode (incoming : list (Value * BlockRef))
| SelectInst (cond ifTrue ifFalse : Value)
| CallInst (callee : string) (args : list Value)
| BranchInst (dest : BlockRef)
| CondBranchInst (cond : Value) (ifTrue ifFalse : BlockRef)
| ReturnInst (v : option Value)
| UnreachableInst
| SwitchInst (cond : Value) (dflt : BlockRef) (cases : list BlockRef)
| OtherInst (opname : string) (operands : list Value).

#[global] Instance Opcode_eq_dec : EqDecision Opcode.
Proof. solve_decision. Defined.

Record Instruction : Type := mkInst {
  itype : Ty;
  iname : string;
  parent : BlockRef;
  opcode : Opcode
}.

#[global] Instance Instruction_eq_dec : EqDecision Instruction.
Proof. solve_decision. Defined.

Definition isPHI (o : Opcode) : bool :=
  match o with PHINode _ => true | _ => false end.

Definition isTerminator (o : Opcode) : bool :=
  match o with
  | BranchInst _ | CondBranchInst _ _ _ | ReturnInst _
  | UnreachableInst | SwitchInst _ _ _ => true
  | _ => false
  end.

(** [getSuccessor(0)], [getSuccessor(1)], ... *)
Definition successorsOf (o : Opcode) : list BlockRef :=
  match o with
  | BranchInst d => [d]
  | CondBranchInst _ t f => [t; f]
  | SwitchInst _ d cs => d :: cs
  | _ => []
  end.

(** The value operands of an instruction. *)
Definition operandsOf (o : Opcode) : list Value :=
  match o with
  | PHINode inc => inc.*1
  | SelectInst c a b => [c; a; b]
  | CallInst _ args => args
  | BranchInst _ => []
  | CondBranchInst c _ _ => [c]
  | ReturnInst v => match v with Some x => [x] | None => [] end
  | UnreachableInst => []
  | SwitchInst c _ _ => [c]
  | OtherInst _ ops => ops
  end.

Definition substValue (old new : Value) (v : Value) : Value :=
  if decide (v = old) then new else v.

(** Every operand equal to [old] becomes [new]. *)
Definition substOperands (old new : Value) (o : Opcode) : Opcode :=
  let f := substValue old new in
  match o with
  | PHINode inc => PHINode (map (fun p => (f p.1, p.2)) inc)
  | SelectInst c a b => SelectInst (f c) (f a) (f b)
  | CallInst g args => CallInst g (map f args)
  | BranchInst d => BranchInst d
  | CondBranchInst c t e => CondBranchInst (f c) t e
  | ReturnInst v => ReturnInst (f <$> v)
  | UnreachableInst => UnreachableInst
  | SwitchInst c d cs => SwitchInst (f c) d cs
  | OtherInst n ops => OtherInst n (map f ops)
  end.

(** Every successor equal to [old] becomes [new]: what [setOperand] does
    over all uses of a block. *)
Definition substSuccessor (old new : BlockRef) (o : Opcode) : Opcode :=
  let f := fun b : BlockRef => if decide (b = old) then new else b in
  match o with
  | BranchInst d => BranchInst (f d)
  | CondBranchInst c t e => CondBranchInst c (f t) (f e)
  | SwitchInst c d cs => SwitchInst c (f d) (map f cs)
  | o => o
  end.

Definition withOpcode (o : Opcode) (i : Instruction) : Instruction :=
  mkInst (itype i) (iname i) (parent i) o.

Definition withParent (b : BlockRef) (i : Instruction) : Instruction :=
  mkInst (itype i) (iname i) b (opcode i).

(** [llvm::Function]: the blocks in layout order, the instructions of each
    block in order, the instructions themselves, the next unused reference
    (blocks and instructions draw from the same counter) and the names of
    the functions the module declares. *)
Record Function : Type := mkFunction {
  layout : list BlockRef;
  body : gmap BlockRef (list InstRef);
  insts : gmap InstRef Instruction;
  fresh : nat;
  declared : list string
}.

Definition instsOf (f : Function) (b : BlockRef) : list InstRef :=
  default [] (body f !! b).

Definition opcodeOf (f : Function) (i : InstRef) : option Opcode :=
  opcode <$> insts f !! i.

Definition isPHIRef (f : Function) (i : InstRef) : bool :=
  match opcodeOf f i with Some o => isPHI o | None => false end.

(** [BasicBlock::getTerminator]: the last instruction when it is a
    terminator, null otherwise. *)
Definition getTerminator (f : Function) (b : BlockRef) : option InstRef :=
  match last (instsOf f b) with
  | Some t =>
      match opcodeOf f t with
      | Some o => if isTerminator o then Some t else None
      | None => None
      end
  | None => None
  end.

Definition terminatorOpcode (f : Function) (b : BlockRef) : option Opcode :=
  match getTerminator f b with
  | Some t => opcodeOf f t
  | None => None
  end.

Definition successors (f : Function) (b : BlockRef) : list BlockRef :=
  match terminatorOpcode f b with
  | Some o => successorsOf o
  | None => []
  end.

(** [predecessors(b)]: one entry per use of [b] by a terminator. LLVM
    lists them in use-list order; the model takes the layout order. *)
Definition predecessors (f : Function) (b : BlockRef) : list BlockRef :=
  flat_map (fun p => map (fun _ => p) (filter (fun x => x = b) (successors f p)))
           (layout f).

(** The leading phi nodes of a block and the rest: the rest starts at
    [getFirstInsertionPt]. *)
Fixpoint splitPhis (f : Function) (l : list InstRef) : list InstRef * list InstRef :=
  match l with
  | i :: r =>
      if isPHIRef f i then let '(ps, rest) := splitPhis f r in (i :: ps, rest)
      else ([], l)
  | [] => ([], [])
  end.

Definition phisOf (f : Function) (b : BlockRef) : list InstRef :=
  (splitPhis f (instsOf f b)).1.

Definition setBody (b : BlockRef) (l : list InstRef) (f : Function) : Function :=
  mkFunction (layout f) (<[b := l]> (body f)) (insts f) (fresh f) (declared f).

Definition setInst (i : InstRef) (x : Instruction) (f : Function) : Function :=
  mkFunction (layout f) (body f) (<[i := x]> (insts f)) (fresh f) (declared f).

Definition setOpcode (i : InstRef) (o : Opcode) (f : Function) : Function :=
  mkFunction (layout f) (body f) (alter (withOpcode o) i (insts f)) (fresh f)
             (declared f).

Definition mapInsts (g : Instruction -> Instruction) (f : Function) : Function :=
  mkFunction (layout f) (body f) (g <$> insts f) (fresh f) (declared f).

Definition bumpFresh (f : Function) : Function :=
  mkFunction (layout f) (body f) (insts f) (S (fresh f)) (declared f).

(** A new instruction placed at position [pos] of block [b]; its
    reference is [fresh f]. *)
Definition insertInst (b : BlockRef) (pos : nat) (ty : Ty) (name : string)
    (o : Opcode) (f : Function) : Function :=
  let r := fresh f in
  let l := instsOf f b in
  mkFunction (layout f)
    (<[b := take pos l ++ r :: drop pos l]> (body f))
    (<[r := mkInst ty name b o]> (insts f))
    (S (fresh f)) (declared f).

(** [eraseFromParent] of an instruction. *)
Definition eraseInst (i : InstRef) (f : Function) : Function :=
  match insts f !! i with
  | Some x =>
      mkFunction (layout f)
        (<[parent x := filter (fun j => j <> i) (instsOf f (parent x))]> (body f))
        (delete i (insts f)) (fresh f) (declared f)
  | None => f
  end.

(** [replaceAllUsesWith]. *)
Definition replaceAllUsesWith (old : InstRef) (new : Value) (f : Function) : Function :=
  mapInsts (fun x => withOpcode (substOperands (InstValue old) new (opcode x)) x) f.

(** [BasicBlock::Create(..., &func)]: a new empty block at the end of the
    function; its reference is [fresh f]. *)
Definition addBlock (f : Function) : Function :=
  let r := fresh f in
  mkFunction (layout f ++ [r]) (<[r := []]> (body f)) (insts f)
    (S (fresh f)) (declared f).

(** [eraseFromParent] of a block, with the instructions it still holds. *)
Definition eraseBlock (b : BlockRef) (f : Function) : Function :=
  mkFunction (filter (fun x => x <> b) (layout f)) (delete b (body f))
    (foldr delete (insts f) (instsOf f b)) (fresh f) (declared f).

Fixpoint typeOf (f : Function) (v : Value) : Ty :=
  match v with
  | UndefValue ty | Constant ty _ | Argument ty _ => ty
  | GlobalValue _ => PointerTy
  | InstValue i => default VoidTy (itype <$> insts f !! i)
  | ConstantSelect _ a _ => typeOf f a
  end.

(** [isa<Constant>] *)
Definition isConstantValue (v : Value) : bool :=
  match v with
  | InstValue _ | Argument _ _ => false
  | _ => true
  end.

Definition bitsOf (ty : Ty) : Z :=
  match ty with IntTy b => Z.of_N b | _ => 0 end.

(** What the constant folder of [IRBuilder<>] makes of a select over three
    constants: a null condition picks the second value, an all-ones
    condition the first, an undefined condition or value gives way to a
    defined value, equal values need no choice; what remains is a constant
    expression. *)
Definition foldSelect (c a b : Value) : Value :=
  match c with
  | Constant ty z =>
      if z mod 2 ^ bitsOf ty =? 0 then b
      else if z mod 2 ^ bitsOf ty =? 2 ^ bitsOf ty - 1 then a
      else ConstantSelect c a b
  | UndefValue _ => match a with UndefValue _ => a | _ => b end
  | _ =>
      match a, b with
      | UndefValue _, _ => b
      | _, UndefValue _ => a
      | _, _ => if decide (a = b) then a else ConstantSelect c a b
      end
  end.

Definition nameOf (f : Function) (v : Value) : string :=
  match v with
  | InstValue i => default EmptyString (iname <$> insts f !! i)
  | GlobalValue n => n
  | _ => EmptyString
  end.

(** *** Loops ([llvm::Loop], [llvm::LoopInfo])

    A loop is identified by its header. [loopBlocks] lists every block of
    the loop, those of its sub-loops included, the header first. *)
Inductive Loop : Type :=
| MkLoop (header : BlockRef) (blocks : list BlockRef) (subLoops : list Loop).

Definition getHeader (L : Loop) : BlockRef := let 'MkLoop h _ _ := L in h.
Definition loopBlocks (L : Loop) : list BlockRef := let 'MkLoop _ bs _ := L in bs.
Definition getSubLoops (L : Loop) : list Loop := let 'MkLoop _ _ ss := L in ss.

Definition contains (L : Loop) (b : BlockRef) : bool :=
  bool_decide (b ∈ loopBlocks L).

(** Pointer equality of loops. *)
Definition sameLoop (a b : option Loop) : bool :=
  match a, b with
  | None, None => true
  | Some x, Some y => bool_decide (getHeader x = getHeader y)
  | _, _ => false
  end.

(** The innermost loop of the tree [L] that contains [b]. *)
Fixpoint innermost (L : Loop) (b : BlockRef) : option Loop :=
  let 'MkLoop _ bs subs := L in
  if bool_decide (b ∈ bs) then
    let fix first (ls : list Loop) : option Loop :=
      match ls with
      | [] => None
      | c :: r => match innermost c b with Some x => Some x | None => first r end
      end in
    match first subs with Some x => Some x | None => Some L end
  else None.

(** [LoopInfo]: the top-level loops. *)
Definition LoopInfo : Type := list Loop.

Fixpoint getLoopFor (li : LoopInfo) (b : BlockRef) : option Loop :=
  match li with
  | [] => None
  | L :: r => match innermost L b with Some x => Some x | None => getLoopFor r b end
  end.

(** [Loop::getLoopLatch]: the single predecessor of the header inside the
    loop; null when there is none or more than one. *)
Definition getLoopLatch (f : Function) (L : Loop) : option BlockRef :=
  match filter (fun p => contains L p = true) (predecessors f (getHeader L)) with
  | [l] => Some l
  | _ => None
  end.

(** [Loop::getExitBlocks]: the successors outside the loop, one entry per
    exit edge. *)
Definition getExitBlocks (f : Function) (L : Loop) : list BlockRef :=
  flat_map (fun b => filter (fun x => contains L x = false) (successors f b))
           (loopBlocks L).

(** [Loop::getExitingBlocks]: the blocks with a successor outside. *)
Definition getExitingBlocks (f : Function) (L : Loop) : list BlockRef :=
  filter (fun b => existsb (fun x => negb (contains L x)) (successors f b) = true)
         (loopBlocks L).

Arguments insertInst : simpl never.
Arguments setOpcode : simpl never.
Arguments setInst : simpl never.
Arguments setBody : simpl never.
Arguments mapInsts : simpl never.
Arguments eraseInst : simpl never.
Arguments eraseBlock : simpl never.
Arguments addBlock : simpl never.
Arguments replaceAllUsesWith : simpl never.
Arguments typeOf : simpl never.
Arguments nameOf : simpl never.
Arguments instsOf : simpl never.
Arguments phisOf : simpl never.
Arguments getTerminator : simpl never.
Arguments terminatorOpcode : simpl never.
Arguments successors : simpl never.
Arguments predecessors : simpl never.
Arguments getLoopLatch : simpl never.
Arguments getExitBlocks : simpl never.
Arguments getExitingBlocks : simpl never.

End IR.

(** ** The linearizer's state *)

Module Lin.
Import Shape IR.

(** [VectorizationInfo]: the shapes of instructions, the loops flagged
    divergent (by header) and the exit blocks flagged mandatory. *)
Record VectorizationInfo : Type := mkVecInfo {
  shapes : gmap InstRef VectorShape;
  divergentLoops : gset BlockRef;
  mandatoryBlocks : gset BlockRef
}.

(** [MaskAnalysis] is an external analysis. The linearizer reads the mask
    of an outgoing edge of a block, by successor index or by successor
    block (two views of the mask graph of the analysis), and the combined
    exit mask of a loop, and stores new exit masks for a latch. *)
Record MaskAnalysis : Type := mkMaskAnalysis {
  exitMasks : gmap (BlockRef * nat) Value;
  exitMasksTo : gmap (BlockRef * BlockRef) Value;
  combinedLoopExitMasks : gmap BlockRef Value
}.

(** Modelled from the spec: [Linearizer.h] is not among the sources. A
    relay node is a tuple (id, block, next?): [rhead] is the block with
    topological index [rid]; [rblock] is the fresh empty relay block that
    stands in for it while branches wait for its emission, if any; [rnext]
    is the id of the next target on the chain. *)
Record RelayNode : Type := mkRelay {
  rhead : BlockRef;
  rid : Z;
  rblock : option BlockRef;
  rnext : option Z
}.

Record State : Type := mkState {
  func : Function;
  vecInfo : VectorizationInfo;
  maskAnalysis : MaskAnalysis;
  (** [DominatorTree]: the immediate dominator of each node; the root has
      none. *)
  dt : gmap BlockRef (option BlockRef);
  blockIndex : gmap BlockRef Z;
  relays : list RelayNode;
  edgeMasks : gmap (BlockRef * BlockRef) Value
}.

Definition withFunc (g : Function -> Function) (s : State) : State :=
  mkState (g (func s)) (vecInfo s) (maskAnalysis s) (dt s) (blockIndex s)
          (relays s) (edgeMasks s).
Definition withVecInfo (g : VectorizationInfo -> VectorizationInfo) (s : State) : State :=
  mkState (func s) (g (vecInfo s)) (maskAnalysis s) (dt s) (blockIndex s)
          (relays s) (edgeMasks s).
Definition withMaskAnalysis (g : MaskAnalysis -> MaskAnalysis) (s : State) : State :=
  mkState (func s) (vecInfo s) (g (maskAnalysis s)) (dt s) (blockIndex s)
          (relays s) (edgeMasks s).
Definition withDt (g : gmap BlockRef (option BlockRef) -> gmap BlockRef (option BlockRef))
    (s : State) : State :=
  mkState (func s) (vecInfo s) (maskAnalysis s) (g (dt s)) (blockIndex s)
          (relays s) (edgeMasks s).
Definition withBlockIndex (g : gmap BlockRef Z -> gmap BlockRef Z) (s : State) : State :=
  mkState (func s) (vecInfo s) (maskAnalysis s) (dt s) (g (blockIndex s))
          (relays s) (edgeMasks s).
Definition withRelays (g : list RelayNode -> list RelayNode) (s : State) : State :=
  mkState (func s) (vecInfo s) (maskAnalysis s) (dt s) (blockIndex s)
          (g (relays s)) (edgeMasks s).
Definition withEdgeMasks
    (g : gmap (BlockRef * BlockRef) Value -> gmap (BlockRef * BlockRef) Value)
    (s : State) : State :=
  mkState (func s) (vecInfo s) (maskAnalysis s) (dt s) (blockIndex s)
          (relays s) (g (edgeMasks s)).

(** *** The monad of the pass: state and crashes *)

Definition Lin (A : Type) : Type := State -> outcome (A * State).

#[global] Instance Lin_ret : MRet Lin := fun A a s => Done (a, s).
#[global] Instance Lin_bind : MBind Lin := fun A B k m s =>
  match m s with
  | Done (a, s') => k a s'
  | Crash f => Crash f
  end.

Definition crash {A : Type} (f : failure) : Lin A := fun _ => Crash f.
Definition gets {A : Type} (g : State -> A) : Lin A := fun s => Done (g s, s).
Definition modify (g : State -> State) : Lin unit := fun s => Done ((), g s).
Definition getState : Lin State := fun s => Done (s, s).

Definition liftOutcome {A : Type} (o : outcome A) : Lin A := fun s =>
  match o with
  | Done a => Done (a, s)
  | Crash e => Crash e
  end.

Definition assert (b : bool) (msg : string) : Lin unit :=
  if b then mret () else crash (AssertionFailed msg).

(** Dereference of a pointer that may be null. *)
Definition deref {A : Type} (p : option A) (what : string) : Lin A :=
  match p with
  | Some x => mret x
  | None => crash (NullDeref what)
  end.

(** A new instruction at position [pos] of block [b]. *)
Definition createInst (b : BlockRef) (pos : nat) (ty : Ty) (name : string)
    (o : Opcode) : Lin InstRef := fun s =>
  Done (fresh (func s), withFunc (insertInst b pos ty name o) s).

(** A new empty block. *)
Definition createBlock : Lin BlockRef := fun s =>
  Done (fresh (func s), withFunc addBlock s).

Fixpoint forM {A : Type} (l : list A) (body : A -> Lin unit) : Lin unit :=
  match l with
  | [] => mret ()
  | x :: r => _ ← body x; forM r body
  end.

Fixpoint foldM {A B : Type} (body : B -> A -> Lin B) (acc : B) (l : list A) : Lin B :=
  match l with
  | [] => mret acc
  | x :: r => acc' ← body acc x; foldM body acc' r
  end.

(** The integers [lo], [lo+1], ..., [hi-1]. *)
Definition range (lo hi : Z) : list Z :=
  map (fun k => lo + Z.of_nat k) (seq 0 (Z.to_nat (hi - lo))).

(** *** [std::vector] with checked accesses *)

Definition at_ {A : Type} (v : list A) (i : Z) (what : string) : Lin A :=
  if (0 <=? i) && (i <? Z.of_nat (length v)) then
    match v !! Z.to_nat i with
    | Some x => mret x
    | None => crash (OutOfBounds what)
    end
  else crash (OutOfBounds what).

Definition put_ {A : Type} (v : list A) (i : Z) (x : A) (what : string) : Lin (list A) :=
  if (0 <=? i) && (i <? Z.of_nat (length v)) then mret (<[Z.to_nat i := x]> v)
  else crash (OutOfBounds what).

(** *** Accessors declared in [Linearizer.h]

    Modelled from the spec: [Linearizer.h] is not among the sources. The
    block index maps every block of the region to its topological index,
    and the relay table holds one node per index, with the block of that
    index as its head. *)

(** [getNumBlocks()]: the number of indexed blocks. *)
Definition getNumBlocks (s : State) : Z := Z.of_nat (length (relays s)).

(** [getBlock(id)]: the block with topological index [id]. *)
Definition getBlock (id : Z) : Lin BlockRef :=
  rs ← gets relays; n ← at_ rs id "relays"; mret (rhead n).

(** [getIndex(block)]. The assertions [latchIndex >= 0] and "branch leaves
    the region!" of the source show that a block without index yields a
    negative number. *)
Definition getIndex (s : State) (b : BlockRef) : Z :=
  default (-1) (blockIndex s !! b).

(** *** [VectorizationInfo] *)

(** [getVectorShape]: [Undef] when nothing is known. *)
Definition getVectorShape (s : State) (i : InstRef) : VectorShape :=
  default Undef (shapes (vecInfo s) !! i).

(** [setVectorShape] stores unconditionally: [setPinnedShape] pins a value
    and then sets its shape through this very function. *)
Definition setVectorShape (i : InstRef) (sh : VectorShape) : Lin unit :=
  modify (withVecInfo (fun v =>
    mkVecInfo (<[i := sh]> (shapes v)) (divergentLoops v) (mandatoryBlocks v))).

Definition dropVectorShape (i : InstRef) : Lin unit :=
  modify (withVecInfo (fun v =>
    mkVecInfo (delete i (shapes v)) (divergentLoops v) (mandatoryBlocks v))).

Definition isDivergentLoop (s : State) (L : Loop) : bool :=
  bool_decide (getHeader L ∈ divergentLoops (vecInfo s)).

(** [setLoopDivergence(loop, false)] *)
Definition clearLoopDivergence (L : Loop) : Lin unit :=
  modify (withVecInfo (fun v =>
    mkVecInfo (shapes v) (divergentLoops v ∖ {[getHeader L]}) (mandatoryBlocks v))).

Definition isMandatory (s : State) (b : BlockRef) : bool :=
  bool_decide (b ∈ mandatoryBlocks (vecInfo s)).

(** *** [MaskAnalysis] *)

(** [getExitMask(block, succIdx)] *)
Definition getExitMask (s : State) (b : BlockRef) (succIdx : nat) : option Value :=
  exitMasks (maskAnalysis s) !! (b, succIdx).

(** [getExitMask(block, succBlock)] *)
Definition getExitMaskTo (s : State) (b succ : BlockRef) : option Value :=
  exitMasksTo (maskAnalysis s) !! (b, succ).

Definition getCombinedLoopExitMask (s : State) (L : Loop) : option Value :=
  combinedLoopExitMasks (maskAnalysis s) !! getHeader L.

(** [updateExitMasks(block, value0, value1, insertPoint)]: the masks of the
    two outgoing edges of [block] become [value0] and [value1]. *)
Definition updateExitMasks (b : BlockRef) (value0 : Value) (value1 : option Value)
  : Lin unit :=
  modify (withMaskAnalysis (fun m =>
    mkMaskAnalysis
      (match value1 with
       | Some v1 => <[(b, 1%nat) := v1]> (<[(b, 0%nat) := value0]> (exitMasks m))
       | None => delete (b, 1%nat) (<[(b, 0%nat) := value0]> (exitMasks m))
       end)
      (exitMasksTo m) (combinedLoopExitMasks m))).

(** *** Instructions *)

(** Position of [getFirstInsertionPt]: behind the leading phi nodes. *)
Definition firstInsertionPt (f : Function) (b : BlockRef) : nat :=
  length (phisOf f b).

(** A builder positioned before the terminator. *)
Definition terminatorPos (f : Function) (b : BlockRef) : nat :=
  match getTerminator f b with
  | Some _ => pred (length (instsOf f b))
  | None => length (instsOf f b)
  end.

Definition getOpcode (i : InstRef) (what : string) : Lin Opcode :=
  s ← getState; deref (opcodeOf (func s) i) what.

Definition getIncoming (phi : InstRef) : Lin (list (Value * BlockRef)) :=
  o ← getOpcode phi "phi";
  match o with
  | PHINode inc => mret inc
  | _ => crash (AssertionFailed "cast<PHINode>")
  end.

Definition setIncoming (phi : InstRef) (inc : list (Value * BlockRef)) : Lin unit :=
  modify (withFunc (setOpcode phi (PHINode inc))).

(** [PHINode::addIncoming] *)
Definition addIncoming (phi : InstRef) (v : Value) (b : BlockRef) : Lin unit :=
  inc ← getIncoming phi; setIncoming phi (inc ++ [(v, b)]).

(** [PHINode::getBasicBlockIndex]: the first incoming position of [b], or
    -1. *)
Definition getBasicBlockIndex (inc : list (Value * BlockRef)) (b : BlockRef) : Z :=
  match list_find (fun p => p.2 = b) inc with
  | Some (k, _) => Z.of_nat k
  | None => -1
  end.

Arguments firstInsertionPt : simpl never.
Arguments terminatorPos : simpl never.
Arguments getIndex : simpl never.
Arguments getVectorShape : simpl never.

End Lin.

(** ** The linearizer (Linearizer.cpp) *)

Module Linearizer.
Import Shape IR Lin.

(** *** [Linearizer::promoteDefinition] *)

(** The body of the loop over the predecessors of [block]: [k] is the
    position of [predBlock] among them, [acc] holds [localDef] and
    [localPhi]. *)
Definition promoteIncoming (type : Ty) (defBlockId blockId : Z) (block : BlockRef)
    (preds : list BlockRef) (defs : list (option Value))
    (acc : option Value * option InstRef) (kp : nat * BlockRef)
  : Lin (option Value * option InstRef) :=
  let '(localDef, localPhi) := acc in
  let '(k, predBlock) := kp in
  s ← getState;
  let predIndex := getIndex s predBlock in
  (* turn incoming value into an explicit value (nullptr -> Undef) *)
  inVal ←
    (if predIndex <? defBlockId then mret (Some (UndefValue type))
     else if blockId <=? predIndex then mret None (* reaching backedge -> ignore *)
     else
       reachingDef ← at_ defs (predIndex - defBlockId) "defs";
       mret (Some (default (UndefValue type) reachingDef)));
  match inVal with
  | None => mret acc
  | Some inVal =>
      (* first reaching def OR reaching def is the same *)
      if bool_decide (localDef = None) || bool_decide (localDef = Some inVal)
      then mret (Some inVal, localPhi)
      else
        (* Otw, we need a phi node *)
        '(localDef, phi) ←
          match localPhi with
          | Some phi => mret (localDef, phi)
          | None =>
              f ← gets func;
              let pos := firstInsertionPt f block in
              _ ← assert (bool_decide (pos < length (instsOf f block))%nat)
                         "getFirstInsertionPt of a block without terminator";
              phi ← createInst block pos type "" (PHINode []);
              _ ← forM (take k preds) (fun passedPred =>
                         addIncoming phi (default (UndefValue type) localDef) passedPred);
              mret (Some (InstValue phi), phi)
          end;
        (* attach the incoming value *)
        _ ← addIncoming phi inVal predBlock;
        mret (localDef, Some phi)
  end.

(** One round of the loop [for (int i = 1; i < span + 1; ++i)]. *)
Definition promoteBlock (type : Ty) (defBlockId : Z) (defs : list (option Value))
    (i : Z) : Lin (list (option Value)) :=
  let blockId := defBlockId + i in
  block ← getBlock blockId;
  f ← gets func;
  let preds := predecessors f block in
  '(localDef, _) ←
    foldM (promoteIncoming type defBlockId blockId block preds defs)
          (None, None) (imap pair preds);
  (* register as final definition at this point *)
  put_ defs i localDef "defs".

Definition promoteDefinition (inst : Value) (defBlockId destBlockId : Z) : Lin Value :=
  _ ← assert (defBlockId <=? destBlockId) "defBlockId <= destBlockId";
  if defBlockId =? destBlockId then mret inst
  else
    let span := destBlockId - defBlockId + 1 in
    f ← gets func;
    let type := typeOf f inst in
    (* std::vector<Value*> defs(span, nullptr); defs[0] = &inst; *)
    defs ← put_ (replicate (Z.to_nat span) None) 0 (Some inst) "defs";
    defs ← foldM (promoteBlock type defBlockId) defs (range 1 (span + 1));
    d ← at_ defs span "defs";
    deref d "defs[span]".

(** *** [IRBuilder<>::CreateSelect]

    The builder folds a select whose three operands are constants and
    inserts an instruction otherwise. *)
Definition createSelect (b : BlockRef) (pos : nat) (c x y : Value) (name : string)
  : Lin Value :=
  if isConstantValue c && isConstantValue x && isConstantValue y
  then mret (foldSelect c x y)
  else
    f ← gets func;
    r ← createInst b pos (typeOf f x) name (SelectInst c x y);
    mret (InstValue r).

(** [vecInfo.setVectorShape] for a value that is an instruction. The shape recorded for a folded constant is read by no
    query of the linearizer and is left out of the model. *)
Definition setValueShape (v : Value) (sh : VectorShape) : Lin unit :=
  match v with
  | InstValue i => setVectorShape i sh
  | _ => mret ()
  end.

(** [phi.setIncomingValue(idx, v)] *)
Definition setIncomingValue (phi : InstRef) (idx : Z) (v : Value) : Lin unit :=
  inc ← getIncoming phi;
  '(_, b) ← at_ inc idx "incoming";
  setIncoming phi (<[Z.to_nat idx := (v, b)]> inc).

(** [phi.setIncomingBlock(idx, b)] *)
Definition setIncomingBlock (phi : InstRef) (idx : Z) (b : BlockRef) : Lin unit :=
  inc ← getIncoming phi;
  '(v, _) ← at_ inc idx "incoming";
  setIncoming phi (<[Z.to_nat idx := (v, b)]> inc).

(** The latch, dereferenced. *)
Definition theLatch (L : Loop) : Lin BlockRef :=
  f ← gets func; deref (getLoopLatch f L) "getLoopLatch".

(** *** [class LiveValueTracker]

    The members [loop] and [preHeader] are arguments; the map
    [liveOutPhis] from live-out values to their tracker phis is threaded
    through the member functions that change it. *)

(** The incoming index of the exit block. *)
Definition getLoopBlockIndex (L : Loop) (inc : list (Value * BlockRef)) : Z :=
  match list_find (fun p => contains L p.2 = true) inc with
  | Some (k, _) => Z.of_nat k
  | None => -1
  end.

Definition requestTracker (L : Loop) (preHeader : BlockRef)
    (liveOutPhis : gmap InstRef InstRef) (inst : InstRef)
  : Lin (InstRef * gmap InstRef InstRef) :=
  match liveOutPhis !! inst with
  | Some phi => mret (phi, liveOutPhis)
  | None =>
      f ← gets func;
      let header := getHeader L in
      let type := typeOf f (InstValue inst) in
      let pos := firstInsertionPt f header in
      _ ← assert (bool_decide (pos < length (instsOf f header))%nat)
                 "getFirstInsertionPt of a block without terminator";
      phi ← createInst header pos type
               ("track_" ++ nameOf f (InstValue inst)) (PHINode []);
      _ ← setVectorShape phi (varying 1);
      (* the builder at the latch's terminator *)
      latch ← theLatch L;
      f ← gets func;
      _ ← deref (getTerminator f latch) "getTerminator";
      (* all liveouts are initially undef *)
      _ ← addIncoming phi (UndefValue type) preHeader;
      latch ← theLatch L;
      _ ← addIncoming phi (InstValue phi) latch;
      mret (phi, <[inst := phi]> liveOutPhis)
  end.

Definition addTrackerUpdate (L : Loop) (tracker : InstRef)
    (exiting exit : BlockRef) (val : Value) : Lin unit :=
  latch ← theLatch L;
  inc ← getIncoming tracker;
  let latchId := getBasicBlockIndex inc latch in
  (* last tracker state *)
  '(lastTrackerState, _) ← at_ inc latchId "incoming";
  (* get exit predicate *)
  s ← getState;
  exitMask ← deref (getCombinedLoopExitMask s L) "getCombinedLoopExitMask";
  (* chain in the update *)
  _ ← deref (getTerminator (func s) latch) "getTerminator";
  updateInst ← createSelect latch (terminatorPos (func s) latch) exitMask val
                  lastTrackerState ("update_" ++ nameOf (func s) val);
  _ ← setValueShape updateInst (varying 1);
  setIncomingValue tracker latchId updateInst.

(** The last update to [tracker]. *)
Definition getLastTrackerState (L : Loop) (tracker : InstRef) : Lin Value :=
  latch ← theLatch L;
  inc ← getIncoming tracker;
  '(v, _) ← at_ inc (getBasicBlockIndex inc latch) "incoming";
  mret v.

Definition getTrackerStateForLiveOut (L : Loop) (liveOutPhis : gmap InstRef InstRef)
    (liveOutInst : InstRef) : Lin Value :=
  match liveOutPhis !! liveOutInst with
  | None => crash (AssertionFailed "not a tracked value!")
  | Some tracker => getLastTrackerState L tracker
  end.

Definition getExitingBlock (L : Loop) (exitBlock : BlockRef) : Lin BlockRef :=
  f ← gets func;
  match filter (fun p => contains L p = true) (predecessors f exitBlock) with
  | p :: _ => mret p
  | [] => crash (Aborted "abort()")
  end.

(** Every operand [inInst] of an instruction outside the loop becomes
    [liveOut]. *)
Definition replaceOutsideUses (L : Loop) (inInst : InstRef) (liveOut : Value)
  : Lin unit :=
  modify (withFunc (mapInsts (fun user =>
    if contains L (parent user) then user
    else withOpcode (substOperands (InstValue inInst) liveOut (opcode user)) user))).

(** The body of the loop over the phi nodes of the exit block. *)
Definition trackLiveOut (L : Loop) (preHeader exitingBlock exitBlock : BlockRef)
    (finalExit : bool) (liveOutPhis : gmap InstRef InstRef) (lcPhi : InstRef)
  : Lin (gmap InstRef InstRef) :=
  inc ← getIncoming lcPhi;
  _ ← assert (bool_decide (length inc = 1%nat)) "not a LCSSA PHI";
  (* do not track non-live carried values *)
  let loopIncomingId := getLoopBlockIndex L inc in
  _ ← assert (0 <=? loopIncomingId) "not an LCSSA node";
  '(v, b) ← at_ inc loopIncomingId "incoming";
  _ ← assert (bool_decide (exitingBlock = b)) "exiting block";
  f ← gets func;
  match v with
  | InstValue inInst =>
      x ← deref (insts f !! inInst) "getParent";
      if negb (contains L (parent x)) then mret liveOutPhis
      else
        (* request a tracker PHI for this loop-dependent live out *)
        '(tracker, liveOutPhis) ← requestTracker L preHeader liveOutPhis inInst;
        (* update the tracker with inInst whenever the exit edge is taken *)
        _ ← addTrackerUpdate L tracker exitingBlock exitBlock (InstValue inInst);
        if finalExit then mret liveOutPhis
        else
          (* replace outside uses with tracker *)
          liveOut ← getTrackerStateForLiveOut L liveOutPhis inInst;
          _ ← setIncomingValue lcPhi loopIncomingId liveOut;
          _ ← replaceOutsideUses L inInst liveOut;
          mret liveOutPhis
  | _ => mret liveOutPhis (* live out value not loop carried *)
  end.

Definition trackLiveOuts (L : Loop) (preHeader : BlockRef)
    (liveOutPhis : gmap InstRef InstRef) (exitBlock : BlockRef)
  : Lin (gmap InstRef InstRef) :=
  exitingBlock ← getExitingBlock L exitBlock;
  (* if this branch always finishes the loop off *)
  s ← getState;
  let finalExit := negb (isMandatory s exitBlock) in
  _ ← assert (negb (contains L exitBlock)) "!loop.contains(&exitBlock)";
  foldM (trackLiveOut L preHeader exitingBlock exitBlock finalExit) liveOutPhis
        (phisOf (func s) exitBlock).

(** *** Edge masks (declared in [Linearizer.h]) *)

Definition getEdgeMask (s : State) (from to : BlockRef) : option Value :=
  edgeMasks s !! (from, to).

Definition setEdgeMask (from to : BlockRef) (mask : option Value) : Lin unit :=
  modify (withEdgeMasks (fun m =>
    match mask with
    | Some v => <[(from, to) := v]> m
    | None => delete (from, to) m
    end)).

(** *** [Linearizer::needsFolding(PHINode&)] and [Linearizer::foldPhis] *)

Definition needsFoldingPhi (phi : InstRef) : Lin bool :=
  f ← gets func;
  x ← deref (insts f !! phi) "phi";
  inc ← getIncoming phi;
  let preds := predecessors f (parent x) in
  (* there are predecessors that are unknown to the PHI, or incoming
     blocks in the PHI node are no longer predecessors *)
  mret (existsb (fun inBlock => getBasicBlockIndex inc inBlock <? 0) preds
        || existsb (fun p => negb (bool_decide (p.2 ∈ preds))) inc).

(** One round of the loop over the incoming values 1, 2, ...: [acc] holds
    [defValue] and the position of the builder. *)
Definition foldIncoming (block : BlockRef) (phiShape : VectorShape)
    (acc : Value * nat) (p : Value * BlockRef) : Lin (Value * nat) :=
  let '(defValue, pos) := acc in
  let '(inVal, inBlock) := p in
  s ← getState;
  edgeMask ← deref (getEdgeMask s inBlock block) "getEdgeMask";
  d ← createSelect block pos edgeMask inVal defValue "";
  _ ← setValueShape d phiShape;
  mret (d, match d with InstValue _ => S pos | _ => pos end).

(** The body of the loop over the phi nodes of [block]. *)
Definition foldPhi (block : BlockRef) (phi : InstRef) : Lin unit :=
  f ← gets func;
  let pos := firstInsertionPt f block in
  inc ← getIncoming phi;
  '(v0, _) ← at_ inc 0 "incoming";
  s ← getState;
  let phiShape := getVectorShape s phi in
  '(defValue, _) ← foldM (foldIncoming block phiShape) (v0, pos) (drop 1 inc);
  _ ← assert (negb (bool_decide (defValue = InstValue phi)))
             "replaceAllUsesWith(expr(this)) is NOT valid!";
  _ ← modify (withFunc (replaceAllUsesWith phi defValue));
  modify (withFunc (eraseInst phi)).

Definition foldPhis (block : BlockRef) : Lin unit :=
  f ← gets func;
  match instsOf f block with
  | [] => crash (NullDeref "block.begin()")
  | first :: _ =>
      (* no PHis, no folding *)
      if negb (isPHIRef f first) then mret ()
      else
        (* check if PHIs need to be folded at all *)
        nf ← needsFoldingPhi first;
        if negb nf then mret ()
        else forM (phisOf f block) (foldPhi block)
  end.

(** *** [Linearizer::addUndefInputs] *)

Definition addUndefInputs (block : BlockRef) : Lin unit :=
  f ← gets func;
  forM (phisOf f block) (fun phi =>
    forM (predecessors f block) (fun predBlock =>
      inc ← getIncoming phi;
      if 0 <=? getBasicBlockIndex inc predBlock then mret ()
      else
        f ← gets func;
        addIncoming phi (UndefValue (typeOf f (InstValue phi))) predBlock)).

(** *** [Linearizer::needsFolding(TerminatorInst&)] *)

Definition needsFoldingTerm (s : State) (term : InstRef) : outcome bool :=
  match opcodeOf (func s) term with
  | None => Crash (NullDeref "terminator")
  | Some (SwitchInst _ _ _) =>
      Crash (AssertionFailed "switches unsupported at the moment")
  | Some (ReturnInst _) | Some UnreachableInst => Done false
  | Some (BranchInst _) => Done false
  | Some (CondBranchInst _ _ _) =>
      (* the branch condition is immediately divergent *)
      Done (negb (isUniform (getVectorShape s term)))
  | Some _ => Crash (AssertionFailed "cast<BranchInst>")
  end.

(** *** [requestReductionFunc], [createReduction], [dropLoopExit] *)

(** The function [name] is declared in the module if it is not yet. *)
Definition requestReductionFunc (name : string) : Lin string :=
  f ← gets func;
  if bool_decide (name ∈ declared f) then mret name
  else
    _ ← modify (withFunc (fun f =>
          mkFunction (layout f) (body f) (insts f) (fresh f) (declared f ++ [name])));
    mret name.

(** [CallInst::Create(redFunc, &pred, "reduce", &atEnd)]: the call is
    appended to the block. *)
Definition createReduction (pred : Value) (name : string) (atEnd : BlockRef)
  : Lin InstRef :=
  redFunc ← requestReductionFunc name;
  f ← gets func;
  call ← createInst atEnd (length (instsOf f atEnd)) (IntTy 1) "reduce"
           (CallInst redFunc [pred]);
  _ ← setVectorShape call (uni 1);
  mret call.

Definition dropLoopExit (block : BlockRef) (L : Loop) : Lin unit :=
  f ← gets func;
  term ← deref (getTerminator f block) "getTerminator";
  o ← getOpcode term "terminator";
  _ ← assert (contains L block)
        "can not drop loop exit edge from block that is not in loop";
  _ ← assert (bool_decide (1 < length (successorsOf o))%nat)
        "these must be an edge to drop here";
  (* find a successor within this loop *)
  match filter (fun succ => contains L succ = true) (successorsOf o) with
  | [] => crash (AssertionFailed "could not find successor within loop")
  | uniqueLoopSucc :: _ =>
      (* send all loop exiting edges to that successor inside the loop *)
      loopBranch ← createInst block (terminatorPos f block) VoidTy ""
                     (BranchInst uniqueLoopSucc);
      _ ← modify (withFunc (eraseInst term));
      _ ← dropVectorShape term;
      setVectorShape loopBranch (uni 1)
  end.

(** *** The dominator tree ([llvm::DominatorTree]) *)

(** [IDom] of a node. *)
Definition getIDom (s : State) (b : BlockRef) : option BlockRef :=
  match dt s !! b with Some (Some d) => Some d | _ => None end.

(** The walk up the tree from [b] towards [a]: whether [a] is met. *)
Fixpoint dominatedBySlowTreeWalk (fuel : nat) (s : State) (a b : BlockRef) : bool :=
  match fuel with
  | O => false
  | S fuel =>
      match getIDom s b with
      | None => false
      | Some d =>
          if bool_decide (d = a) then true
          else if bool_decide (d = b) then true
          else dominatedBySlowTreeWalk fuel s a d
      end
  end.

(** [dt.dominates(A, B)] on blocks: a block dominates itself, an
    unreachable block is dominated by anything and dominates nothing. *)
Definition dominates (s : State) (a b : BlockRef) : bool :=
  if bool_decide (a = b) then true
  else
    match dt s !! b, dt s !! a with
    | None, _ => true
    | _, None => false
    | Some _, Some _ => dominatedBySlowTreeWalk (S (size (dt s))) s a b
    end.

(** The dominators of [b], [b] first. *)
Fixpoint domChain (fuel : nat) (s : State) (b : BlockRef) : list BlockRef :=
  match fuel with
  | O => [b]
  | S fuel =>
      match getIDom s b with
      | Some d => b :: domChain fuel s d
      | None => [b]
      end
  end.

(** [dt.findNearestCommonDominator(A, B)] *)
Definition findNearestCommonDominator (s : State) (a b : BlockRef) : option BlockRef :=
  match layout (func s) with
  | entry :: _ =>
      if bool_decide (a = entry) || bool_decide (b = entry) then Some entry
      else if dominates s b a then Some b
      else if dominates s a b then Some a
      else
        match dt s !! a, dt s !! b with
        | Some _, Some _ =>
            let da := domChain (size (dt s)) s a in
            head (filter (fun x => x ∈ da) (domChain (size (dt s)) s b))
        | _, _ => None
        end
  | [] => None
  end.

Definition setIDom (b : BlockRef) (d : BlockRef) : Lin unit :=
  modify (withDt (fun t => <[b := Some d]> t)).

(** *** The relay chain

    Modelled from the spec: the relay operations are declared in
    [Linearizer.h], which is not among the sources. Relays form a
    singly-linked chain ordered by ascending id; a new relay comes with a
    fresh empty block; [addTargetToRelay] chains a target into the chain
    that starts at the anchor and yields the head of the chain, the relay
    control has to reach first. *)

(** [getRelay(id)]: the node of target [id] if a relay block stands in for
    it. *)
Definition getRelay (s : State) (id : Z) : option RelayNode :=
  if (0 <=? id) then
    match relays s !! Z.to_nat id with
    | Some n => match rblock n with Some _ => Some n | None => None end
    | None => None
    end
  else None.

(** The ids on the chain that starts at [start]. *)
Fixpoint chainFrom (fuel : nat) (s : State) (start : option Z) : list Z :=
  match fuel, start with
  | S fuel, Some id =>
      match getRelay s id with
      | Some n => id :: chainFrom fuel s (rnext n)
      | None => []
      end
  | _, _ => []
  end.

(** Ascending insertion; an id already on the chain stays once. *)
Fixpoint insertSorted (id : Z) (chain : list Z) : list Z :=
  match chain with
  | [] => [id]
  | x :: r =>
      if id <? x then id :: chain
      else if id =? x then chain
      else x :: insertSorted id r
  end.

Fixpoint mergeSorted (a b : list Z) : list Z :=
  match a with
  | [] => b
  | x :: r => insertSorted x (mergeSorted r b)
  end.

Definition setNext (id : Z) (next : option Z) : Lin unit :=
  modify (withRelays (fun rs =>
    match rs !! Z.to_nat id with
    | Some n => <[Z.to_nat id := mkRelay (rhead n) (rid n) (rblock n) next]> rs
    | None => rs
    end)).

(** The next pointers along [chain]. *)
Fixpoint linkChain (chain : list Z) : Lin unit :=
  match chain with
  | [] => mret ()
  | [x] => setNext x None
  | x :: (y :: _) as r => _ ← setNext x (Some y); linkChain r
  end.

(** A relay for [id], with a fresh empty block. *)
Definition requestRelay (id : Z) : Lin RelayNode :=
  s ← getState;
  match getRelay s id with
  | Some n => mret n
  | None =>
      rs ← gets relays;
      n ← at_ rs id "relays";
      b ← createBlock;
      let n' := mkRelay (rhead n) (rid n) (Some b) None in
      _ ← modify (withRelays (fun rs => <[Z.to_nat id := n']> rs));
      mret n'
  end.

Definition addTargetToRelay (anchor : option RelayNode) (targetId : Z)
  : Lin RelayNode :=
  _ ← assert (0 <=? targetId) "invalid target id";
  _ ← requestRelay targetId;
  s ← getState;
  let fuel := S (length (relays s)) in
  let chain :=
    mergeSorted (chainFrom fuel s (rid <$> anchor)) (chainFrom fuel s (Some targetId)) in
  _ ← linkChain chain;
  s ← getState;
  deref (h ← head chain; getRelay s h) "relay".

(** [advanceScheduleHead(targetId, relayBlock)]: the relay block that was
    standing in for the target and the next relay on the chain; the
    target's node is reset. *)
Definition advanceScheduleHead (targetId : Z)
  : Lin (option BlockRef * option RelayNode) :=
  s ← getState;
  match getRelay s targetId with
  | None => mret (None, None)
  | Some n =>
      _ ← modify (withRelays (fun rs =>
            <[Z.to_nat targetId := mkRelay (rhead n) (rid n) None None]> rs));
      mret (rblock n, n' ← rnext n; getRelay s n')
  end.

(** *** [Linearizer::emitBlock] *)

(** Every branch to [relayBlock] goes to [target] instead; a user that is
    no [BranchInst] fails the cast. *)
Definition isBranchInst (o : Opcode) : bool :=
  match o with
  | BranchInst _ | CondBranchInst _ _ _ => true
  | _ => false
  end.

Definition forwardBranches (relayBlock target : BlockRef) : Lin unit :=
  f ← gets func;
  _ ← assert (forallb (fun ix : nat * Instruction =>
                 negb (bool_decide (relayBlock ∈ successorsOf (opcode ix.2)))
                 || isBranchInst (opcode ix.2))
                (map_to_list (insts f)))
             "cast<BranchInst>";
  modify (withFunc (mapInsts (fun x =>
    withOpcode (substSuccessor relayBlock target (opcode x)) x))).

(** [isa<TerminatorInst>] on a listed instruction. *)
Definition isaTerminatorInst (f : Function) (i : InstRef) : bool :=
  match opcodeOf f i with Some o => isTerminator o | None => false end.

(** The instructions of a list that come before its first terminator: the
    ones that the loop over [relayBlock], which starts again at
    [relayBlock->begin()] after each step and stops at the end of the block
    or at a [TerminatorInst], takes. *)
Fixpoint beforeTerminator (f : Function) (l : list InstRef) : list InstRef :=
  match l with
  | [] => []
  | i :: l' => if isaTerminatorInst f i then [] else i :: beforeTerminator f l'
  end.

(** The instructions stuck in the relay block move to the front of the
    target, one after the other: each is taken from the head of the relay
    block and put first in the target, so they arrive in reverse order. The
    loop stops at the first terminator, which stays in the relay block with
    all that follows it. When the target is the relay block itself the
    loop takes and puts back the same instruction for ever. *)
Definition moveToFront (relayBlock target : BlockRef) : Lin unit :=
  f ← gets func;
  let stuck := beforeTerminator f (instsOf f relayBlock) in
  if bool_decide (relayBlock = target) && negb (bool_decide (stuck = []))
  then crash OutOfFuel
  else
    modify (withFunc (fun f =>
      mkFunction (layout f)
        (<[relayBlock := drop (length stuck) (instsOf f relayBlock)]>
           (<[target := rev stuck ++ instsOf f target]> (body f)))
        (foldr (fun i m => alter (withParent target) i m) (insts f) stuck)
        (fresh f) (declared f))).

Definition emitBlock (targetId : Z) : Lin (option RelayNode) :=
  target ← getBlock targetId;
  (* advance all relays for target *)
  '(relayBlock, advancedRelay) ← advanceScheduleHead targetId;
  match relayBlock with
  | None => mret None (* there is no relay for this head *)
  | Some relayBlock =>
      (* dom node of emitted target block *)
      s ← getState;
      _ ← assert (bool_decide (is_Some (dt s !! target))) "targetDom";
      (* make all predecessors of relayBlock branch to target instead *)
      _ ← forwardBranches relayBlock target;
      (* search for a new idom *)
      s ← getState;
      commonDomBlock ←
        foldM (fun (common : option BlockRef) predBlock =>
                 match common with
                 | None => mret (Some predBlock)
                 | Some c =>
                     s ← getState;
                     match findNearestCommonDominator s c predBlock with
                     | Some d => mret (Some d)
                     | None => crash (AssertionFailed
                         "domtree repair: did not reach a common dom node!")
                     end
                 end)
              None (predecessors (func s) target);
      (* domtree update: least common dominator of all incoming branches *)
      s ← getState;
      match commonDomBlock with
      | Some c =>
          _ ← assert (bool_decide (is_Some (dt s !! c))) "nextCommonDom";
          _ ← setIDom target c;
          (* if there are any instructions stuck in relayBlock move them *)
          _ ← moveToFront relayBlock target;
          (* free up the relayBlock *)
          _ ← modify (withFunc (eraseBlock relayBlock));
          (* remaining exits after this block *)
          mret advancedRelay
      | None => crash (AssertionFailed "nextCommonDom")
      end
  end.

Section WithLoopInfo.

(** [li], the loop information, and [region], the blocks of the region. *)
Context (li : LoopInfo) (region : gset nat).

Definition inRegion (b : BlockRef) : bool := bool_decide (b ∈ region).

(** *** [Linearizer::convertToSingleExitLoop] *)

(** The static [GetExitingBlock]. *)
Definition GetExitingBlock (L : Loop) (exitBlock : BlockRef) : Lin BlockRef :=
  getExitingBlock L exitBlock.

(** First loop over the exit blocks: a relay for each exit and trackers
    for the live-outs of the exits of this loop level. [acc] holds
    [loopExitRelay] and the tracker map. *)
Definition collectExit (L : Loop) (preHeader : BlockRef)
    (acc : option RelayNode * gmap InstRef InstRef) (exitBlock : BlockRef)
  : Lin (option RelayNode * gmap InstRef InstRef) :=
  let '(loopExitRelay, liveOutPhis) := acc in
  s ← getState;
  let exitId := getIndex s exitBlock in
  (* all exit blocks must be visited after the loop *)
  loopExitRelay ← addTargetToRelay loopExitRelay exitId;
  (* track all values that live across this exit edge *)
  exitingBlock ← GetExitingBlock L exitBlock;
  let innerMostExitLoop := getLoopFor li exitingBlock in
  if sameLoop innerMostExitLoop (Some L) then
    (* only consider exits of the current loop level *)
    liveOutPhis ← trackLiveOuts L preHeader liveOutPhis exitBlock;
    mret (Some loopExitRelay, liveOutPhis)
  else mret (Some loopExitRelay, liveOutPhis).

(** The loop over the incoming values of a closed-SSA phi node in an old
    exit block. *)
Definition repairIncoming (L : Loop) (latch block : BlockRef) (latchIndex : Z)
    (lcPhi : InstRef) (i : nat) : Lin unit :=
  inc ← getIncoming lcPhi;
  '(v, inBlock) ← at_ inc (Z.of_nat i) "incoming";
  _ ← assert (contains L inBlock) "not an LCSSA Phi node";
  match v with
  | InstValue inst =>
      f ← gets func;
      x ← deref (insts f !! inst) "getParent";
      let defBlock := parent x in
      (* branch will start from the latch *)
      _ ← setIncomingBlock lcPhi (Z.of_nat i) latch;
      s ← getState;
      (* def dominates exit block and will continue to do so *)
      if dominates s defBlock block then mret ()
      else
        (* def does not dominate latch: create a dominating def by
           inserting PHI nodes with incoming undefs *)
        let defIndex := getIndex s defBlock in
        _ ← assert ((getIndex s (getHeader L) <=? defIndex) && (defIndex <=? latchIndex))
                   "non-dominating def not in loop";
        dominatingDef ← promoteDefinition (InstValue inst) defIndex latchIndex;
        (* replace incoming value with new dominating def *)
        setIncomingValue lcPhi (Z.of_nat i) dominatingDef
  | _ => mret () (* the incoming value is globally available *)
  end.

(** One round of the loop over the phi nodes at the head of an old exit
    block: the incoming definitions are repaired, then the phi node is
    eliminated ("we eliminate LCSSA Phis instead of fixing their
    predecessor blocks"). *)
Definition eliminateLCSSAPhi (L : Loop) (latch block : BlockRef) (latchIndex : Z)
    (lcPhi : InstRef) : Lin unit :=
  inc ← getIncoming lcPhi;
  (* for all exiting edges *)
  _ ← forM (seq 0 (length inc)) (repairIncoming L latch block latchIndex lcPhi);
  inc ← getIncoming lcPhi;
  '(v0, _) ← at_ inc 0 "incoming";
  _ ← assert (negb (bool_decide (v0 = InstValue lcPhi)))
             "replaceAllUsesWith(expr(this)) is NOT valid!";
  _ ← modify (withFunc (replaceAllUsesWith lcPhi v0));
  modify (withFunc (eraseInst lcPhi)).

(** The loop [for (it = block->begin(); isa<PHINode>(it) ...; it =
    block->begin())]: as long as the block starts with a phi node, that
    node is handled. The fuel bounds the rounds by the number of
    instructions of the block. *)
Fixpoint eliminateLCSSAPhis (fuel : nat) (L : Loop) (latch block : BlockRef)
    (latchIndex : Z) : Lin unit :=
  f ← gets func;
  match instsOf f block with
  | lcPhi :: _ =>
      if isPHIRef f lcPhi then
        match fuel with
        | O => crash OutOfFuel
        | S fuel =>
            _ ← eliminateLCSSAPhi L latch block latchIndex lcPhi;
            eliminateLCSSAPhis fuel L latch block latchIndex
        end
      else mret ()
  | [] => crash (NullDeref "block->begin()")
  end.

(** Lines 591 to 642: "move LCSSA nodes to exitBlockRelay". *)
Definition moveLCSSANodes (L : Loop) (latch : BlockRef) (latchIndex : Z)
    (loopExitBlocks : list BlockRef) (loopExitRelay : option RelayNode) : Lin unit :=
  forM loopExitBlocks (fun block =>
    (* skip over the exit we are keeping *)
    if bool_decide ((loopExitRelay ≫= rblock) = Some block) then mret ()
    else
      f ← gets func;
      eliminateLCSSAPhis (length (instsOf f block)) L latch block latchIndex).

(** Lines 644 to 650: "drop all loop exiting blocks". *)
Definition dropExitingBlocks (L : Loop) : Lin unit :=
  f ← gets func;
  forM (getExitingBlocks f L) (fun exitingBlock => dropLoopExit exitingBlock L).

(** Lines 652 to 677: the latch exit. *)
Definition createLatchExit (L : Loop) (latch : BlockRef)
    (loopExitRelay : option RelayNode) : Lin RelayNode :=
  let header := getHeader L in
  (* query exit mask (before dropping the latch which destroys the
     terminator) *)
  s ← getState;
  let liveCond := getExitMaskTo s latch header in
  (* drop old latch *)
  latchTerm ← deref (getTerminator (func s) latch) "latchTerm";
  o ← getOpcode latchTerm "latchTerm";
  _ ← assert (bool_decide (length (successorsOf o) = 1%nat))
             "latchTerm->getNumSuccessors() == 1";
  _ ← dropVectorShape latchTerm;
  _ ← modify (withFunc (eraseInst latchTerm));
  (* create a new if-all-threads-have-left exit branch
     cond == rv_any(<loop live mask>) *)
  liveCond ← deref liveCond "liveCond";
  anyThreadLiveCond ← createReduction liveCond "rv_any" latch;
  loopExitRelay ← deref loopExitRelay "loopExitRelay";
  exitRelayBlock ← deref (rblock loopExitRelay) "loopExitRelay->block";
  f ← gets func;
  branch ← createInst latch (length (instsOf f latch)) VoidTy ""
             (CondBranchInst (InstValue anyThreadLiveCond) header exitRelayBlock);
  (* mark loop and its latch exit as non-divergent *)
  _ ← setVectorShape branch (uni 1);
  _ ← clearLoopDivergence L;
  (* Update mask analysis information. *)
  s ← getState;
  let loopExitCond := getCombinedLoopExitMask s L in
  _ ← updateExitMasks latch (InstValue anyThreadLiveCond) loopExitCond;
  mret loopExitRelay.

Definition convertToSingleExitLoop (L : Loop) (exitRelay : option RelayNode)
  : Lin RelayNode :=
  (* look-ahead for the preheader *)
  s ← getState;
  relay ← deref (getRelay s (getIndex s (getHeader L))) "getRelay";
  relayBlock ← deref (rblock relay) "relay.block";
  preHeader ← deref (head (predecessors (func s) relayBlock)) "pred_begin";
  (* query the live mask on the latch *)
  latch ← theLatch L;
  let latchIndex := getIndex s latch in
  _ ← assert (0 <=? latchIndex) "latchIndex >= 0";
  _ ← assert (0 <=? getIndex s (getHeader L)) "getIndex(header) >= 0";
  (* create a relay for the single exit block that this loop will have
     after the conversion; while at it create tracker PHIs and updates to
     them for all live-out values *)
  let loopExitBlocks := getExitBlocks (func s) L in
  '(loopExitRelay, _) ← foldM (collectExit L preHeader) (exitRelay, ∅) loopExitBlocks;
  (* move LCSSA nodes to exitBlockRelay *)
  _ ← moveLCSSANodes L latch latchIndex loopExitBlocks loopExitRelay;
  (* drop all loop exiting blocks *)
  _ ← dropExitingBlocks L;
  createLatchExit L latch loopExitRelay.

(** *** [Linearizer::processBranch] *)

(** [branch->setSuccessor(idx, b)] on a conditional branch: successor 0 is
    the target taken when the condition holds. *)
Definition setSuccessor (term : InstRef) (idx : nat) (b : BlockRef) : Lin unit :=
  o ← getOpcode term "terminator";
  match o with
  | CondBranchInst c t e =>
      modify (withFunc (setOpcode term
        (if (idx =? 0)%nat then CondBranchInst c b e else CondBranchInst c t b)))
  | _ => crash (AssertionFailed "cast<BranchInst>")
  end.

Definition processBranch (head : BlockRef) (exitRelay : option RelayNode)
    (parentLoop : option Loop) : Lin unit :=
  f ← gets func;
  term ← deref (getTerminator f head) "getTerminator";
  o ← getOpcode term "terminator";
  match o with
  | ReturnInst _ | UnreachableInst => mret () (* control sink *)
  | BranchInst nextBlock =>
      (* Unconditional branch case *)
      s ← getState;
      relay ← addTargetToRelay exitRelay (getIndex s nextBlock);
      s ← getState;
      _ ← setEdgeMask head nextBlock (getExitMask s head 0);
      relayBlock ← deref (rblock relay) "relay.block";
      modify (withFunc (setOpcode term (BranchInst relayBlock)))
  | CondBranchInst cond ifTrue ifFalse =>
      (* whether this branch must be eliminated from the CFG *)
      s ← getState;
      match needsFoldingTerm s term with
      | Crash e => crash e
      | Done mustFoldBranch =>
      (* order successors by global topologic order; successor 0 is
         [ifTrue], successor 1 is [ifFalse] *)
      let swap := getIndex s ifFalse <? getIndex s ifTrue in
      let firstSuccIdx := if swap then 1%nat else 0%nat in
      let secondSuccIdx := if swap then 0%nat else 1%nat in
      let firstBlock := if swap then ifFalse else ifTrue in
      let secondBlock := if swap then ifTrue else ifFalse in
      let firstId := getIndex s firstBlock in
      let secondId := getIndex s secondBlock in
      _ ← assert ((0 <? firstId) && (0 <? secondId)) "branch leaves the region!";
      (* track exit masks *)
      _ ← setEdgeMask head firstBlock (getExitMask s head firstSuccIdx);
      _ ← setEdgeMask head secondBlock (getExitMask s head secondSuccIdx);
      (* process the first successor; if this branch is folded then
         secondBlock is a must-have after firstBlock *)
      firstRelay ← addTargetToRelay exitRelay firstId;
      firstRelay ←
        (if mustFoldBranch then
           firstRelay ← addTargetToRelay (Some firstRelay) secondId;
           b ← deref (rblock firstRelay) "firstRelay->block";
           _ ← setSuccessor term secondSuccIdx b;
           mret firstRelay
         else mret firstRelay);
      (* relay the first branch to its relay block *)
      b ← deref (rblock firstRelay) "firstRelay->block";
      _ ← setSuccessor term firstSuccIdx b;
      (* domtree repair: if there is no relay node for B then A will
         dominate B after the transformation *)
      s ← getState;
      _ ← (if dominates s head secondBlock
              && negb (bool_decide (is_Some (getRelay s secondId)))
           then
             _ ← deref (dt s !! secondBlock) "secondDom";
             _ ← assert (bool_decide (is_Some (dt s !! firstBlock))) "firstDom";
             setIDom secondBlock firstBlock
           else mret ());
      (* process the second successor *)
      secondRelay ← addTargetToRelay exitRelay secondId;
      _ ← (if mustFoldBranch then (mret () : Lin unit)
           else
             b ← deref (rblock secondRelay) "secondRelay.block";
             setSuccessor term secondSuccIdx b);
      (* mark branch as non-divergent *)
      setVectorShape term (uni 1)
      end
  | _ => crash (NullDeref "dyn_cast<BranchInst>")
  end.

(** *** [processLoop], [processBlock], [processRange]

    The three functions call each other; the fuel bounds the depth of the
    calls and the rounds of the loop in [processRange]. *)
Fixpoint processLoop (fuel : nat) (headId : Z) (loop : option Loop) : Lin Z :=
  match fuel with
  | O => crash OutOfFuel
  | S fuel =>
      loopHead ← getBlock headId;
      L ← (match loop with
           | Some L => mret L
           | None => crash (AssertionFailed "not actually part of a loop")
           end : Lin Loop);
      _ ← assert (bool_decide (getHeader L = loopHead))
                 "not actually the header of the loop";
      latch ← theLatch L;
      s ← getState;
      let latchIndex := getIndex s latch in
      let loopHeadIndex := getIndex s loopHead in
      _ ← (if isDivergentLoop s L then
             (* inherited relays from the pre-header edge: all targets
                except loop header *)
             let exitRelay := r ← getRelay s headId; n ← rnext r; getRelay s n in
             (* convert loop into a non-divergent form *)
             _ ← convertToSingleExitLoop L exitRelay;
             mret ()
           else mret ());
      (* emit all blocks within the loop (except the latch) *)
      latchNodeId ← processRange fuel loopHeadIndex latchIndex (Some L);
      (* now emit the latch (without descending into its successors) *)
      _ ← emitBlock latchIndex;
      _ ← foldPhis latch;
      (* emit loop header again to re-wire the latch to the header *)
      _ ← emitBlock loopHeadIndex;
      (* attach undef inputs for all preheader edges to loopHead *)
      _ ← addUndefInputs loopHead;
      mret (latchNodeId + 1) (* continue after the latch *)
  end

with processBlock (fuel : nat) (headId : Z) (parentLoop : option Loop) : Lin Z :=
  match fuel with
  | O => crash OutOfFuel
  | S fuel =>
      (* pending blocks at this point *)
      head ← getBlock headId;
      (* descend into loop, if any *)
      let loop := getLoopFor li head in
      if negb (sameLoop loop parentLoop) then processLoop fuel headId loop
      else
        (* all dependencies satisfied -> emit this block *)
        advancedExitRelay ← emitBlock headId;
        (* convert phis to selects *)
        _ ← foldPhis head;
        (* materialize all relays *)
        _ ← processBranch head advancedExitRelay parentLoop;
        mret (headId + 1)
  end

with processRange (fuel : nat) (i endId : Z) (parentLoop : option Loop) : Lin Z :=
  match fuel with
  | O => crash OutOfFuel
  | S fuel =>
      if i <? endId then
        b ← getBlock i;
        _ ← assert (match parentLoop with
                    | Some P => contains P b
                    | None => true
                    end) "!parentLoop || parentLoop->contains(&getBlock(i))";
        i' ← processBlock fuel i parentLoop;
        processRange fuel i' endId parentLoop
      else mret endId
  end.

(** *** [Linearizer::addToBlockIndex], [Linearizer::buildBlockIndex] *)

Definition INT_MAX : Z := 2 ^ 31 - 1.

Definition addToBlockIndex (block : BlockRef) : Lin unit :=
  s ← getState;
  _ ← assert (getNumBlocks s <? INT_MAX) "relays.size() < INT_MAX";
  let id := getNumBlocks s in
  _ ← modify (withBlockIndex (fun m => <[block := id]> m));
  modify (withRelays (fun rs => rs ++ [mkRelay block id None None])).

(** [blockIndex.count(block)] *)
Definition indexed (s : State) (b : BlockRef) : bool :=
  bool_decide (is_Some (blockIndex s !! b)).

(** The predecessors a block waits for that have no index yet, in the
    order in which they are pushed. For a loop header ([filterLoop]) the
    predecessors inside the loop do not count. *)
Definition pendingPreds (s : State) (filterLoop : option Loop) (block : BlockRef)
  : list BlockRef :=
  filter (fun pred =>
            inRegion pred
            && match filterLoop with
               | Some L => negb (contains L pred)
               | None => true
               end
            && negb (indexed s pred) = true)
         (predecessors (func s) block).

(** The loop [while (!stack.empty())]. The top of the stack is the head
    of the list. *)
Fixpoint indexStack (fuel : nat) (stack : list BlockRef) (pushedLoops : gset nat)
  : Lin (gset nat) :=
  match stack with
  | [] => mret pushedLoops
  | block :: rest =>
      match fuel with
      | O => crash OutOfFuel
      | S fuel =>
          s ← getState;
          if indexed s block then indexStack fuel rest pushedLoops
          else
            let loop := getLoopFor li block in
            let firstSeen :=
              match loop with
              | Some L => negb (bool_decide (getHeader L ∈ pushedLoops))
              | None => false
              end in
            match loop with
            | Some L =>
                if firstSeen then
                  (* we are seeing this loop for the first time: drop this
                     block, push first the latch and then all predecessors
                     of the header on top *)
                  latch ← theLatch L;
                  let stack :=
                    rev (pendingPreds s (Some L) (getHeader L)) ++ latch :: rest in
                  indexStack fuel stack ({[getHeader L]} ∪ pushedLoops)
                else
                  (* filter out all dependences to loop-carried blocks if we
                     are looking at the loop header *)
                  let filterLoop :=
                    if bool_decide (getHeader L = block) then Some L else None in
                  match pendingPreds s filterLoop block with
                  | [] =>
                      (* all dependences satisfied -> assign topo index *)
                      _ ← addToBlockIndex block;
                      (* now its time to schedule the remainder of the loop
                         before any other outside block *)
                      match filterLoop with
                      | Some F =>
                          f ← gets func;
                          match getLoopLatch f F with
                          | None => crash (AssertionFailed "loop does not have a latch")
                          | Some loopLatch =>
                              s ← getState;
                              if indexed s loopLatch
                              then indexStack fuel rest pushedLoops
                              else indexStack fuel (loopLatch :: rest) pushedLoops
                          end
                      | None => indexStack fuel rest pushedLoops
                      end
                  | pending => indexStack fuel (rev pending ++ stack) pushedLoops
                  end
            | None =>
                match pendingPreds s None block with
                | [] =>
                    _ ← addToBlockIndex block;
                    indexStack fuel rest pushedLoops
                | pending => indexStack fuel (rev pending ++ stack) pushedLoops
                end
            end
      end
  end.

Definition buildBlockIndex (fuel : nat) : Lin unit :=
  f ← gets func;
  _ ← foldM (fun (pushedLoops : gset nat) block =>
               (* seek unprocessed blocks *)
               s ← getState;
               if negb (inRegion block) then mret pushedLoops
               else if indexed s block then mret pushedLoops
               else indexStack fuel [block] pushedLoops)
            ∅ (layout f);
  mret ().

(** *** [Linearizer::verifyLoopIndex], [Linearizer::verifyBlockIndex] *)

Fixpoint verifyLoopIndex (L : Loop) : Lin unit :=
  let 'MkLoop header blocks subLoops := L in
  _ ← (fix children (ls : list Loop) : Lin unit :=
         match ls with
         | [] => mret ()
         | childLoop :: r => _ ← verifyLoopIndex childLoop; children r
         end) subLoops;
  s ← getState;
  let startId := foldl (fun a b => Z.min (getIndex s b) a) (getNumBlocks s) blocks in
  let endId := foldl (fun a b => Z.max (getIndex s b) a) 0 blocks in
  (* there are no blocks in the range that are not part of the loop *)
  _ ← forM (range startId (endId + 1)) (fun i =>
        b ← getBlock i;
        assert (contains L b) "non-loop block in topo range of loop");
  (* the header has startId, the latch has endId *)
  _ ← assert (startId =? getIndex s header) "startId == getIndex(header)";
  latch ← theLatch L;
  assert (endId =? getIndex s latch) "endId == getIndex(latch)".

Definition verifyBlockIndex : Lin unit := forM li verifyLoopIndex.

(** *** [Linearizer::linearizeControl], [Linearizer::cleanup],
        [Linearizer::run] *)

Definition linearizeControl (fuel : nat) : Lin unit :=
  s ← getState;
  lastId ← processRange fuel 0 (getNumBlocks s) None;
  s ← getState;
  assert (lastId =? getNumBlocks s) "lastId == getNumBlocks()".

(** Terminators of the form "br i1 cond %blockA %blockA" become simple
    branches. *)
Definition cleanup : Lin unit :=
  f ← gets func;
  forM (layout f) (fun block =>
    f ← gets func;
    match getTerminator f block with
    | None => mret ()
    | Some term =>
        o ← getOpcode term "terminator";
        match successorsOf o with
        | singleSucc :: (_ :: _) as succs =>
            if forallb (fun x => bool_decide (x = singleSucc)) succs then
              simpleBranch ← createInst block (terminatorPos f block) VoidTy ""
                               (BranchInst singleSucc);
              _ ← setVectorShape simpleBranch (uni 1);
              _ ← dropVectorShape term;
              modify (withFunc (eraseInst term))
            else mret ()
        | _ => mret () (* already as simple as it gets *)
        end
    end).

(** [Linearizer::run]. The statements under [IF_DEBUG_LIN] (the dumps and
    the final [verify()]) belong to debug builds only and are left out.
    [fuel] bounds the loops of the model. *)
Definition run (fuel : nat) : Lin unit :=
  (* initialize with a global topologic enumeration *)
  _ ← buildBlockIndex fuel;
  (* verify the integrity of the block index *)
  _ ← verifyBlockIndex;
  (* early exit on trivial cases *)
  s ← getState;
  if getNumBlocks s <=? 1 then mret ()
  else
    (* fold divergent branches and convert divergent loops to fix point
       iteration form *)
    _ ← linearizeControl fuel;
    (* simplify branches *)
    cleanup.

End WithLoopInfo.

End Linearizer.

(** Projections of updated states, and nothing else, are computed. *)
Ltac simpl_state :=
  cbn [Lin.func Lin.vecInfo Lin.maskAnalysis Lin.dt Lin.blockIndex Lin.relays
       Lin.edgeMasks Lin.withFunc Lin.withVecInfo Lin.withMaskAnalysis Lin.withDt
       Lin.withBlockIndex Lin.withRelays Lin.withEdgeMasks Lin.shapes
       Lin.divergentLoops Lin.mandatoryBlocks Lin.exitMasks Lin.exitMasksTo
       Lin.combinedLoopExitMasks fst snd] in *.

(** *** Generic facts about the monad *)

Section MonadFacts.
Import Lin.

Lemma bind_Done {A B : Type} (m : Lin A) (k : A -> Lin B) (s : State) (r : B * State) :
  (m ≫= k) s = Done r ->
  exists a s', m s = Done (a, s') /\ k a s' = Done r.
Proof.
  unfold mbind, Lin_bind. destruct (m s) as [[a s']|f]; [|discriminate].
  intros H. exists a, s'. split; [reflexivity|exact H].
Qed.

Lemma bind_Crash_l {A B : Type} (m : Lin A) (k : A -> Lin B) (s : State) (f : failure) :
  m s = Crash f -> (m ≫= k) s = Crash f.
Proof. unfold mbind, Lin_bind. intros ->. reflexivity. Qed.

Lemma bind_Done_l {A B : Type} (m : Lin A) (k : A -> Lin B) (s s' : State) (a : A) :
  m s = Done (a, s') -> (m ≫= k) s = k a s'.
Proof. unfold mbind, Lin_bind. intros ->. reflexivity. Qed.

Lemma foldM_app {A B : Type} (body : B -> A -> Lin B) (acc : B) (l1 l2 : list A) (s : State) :
  foldM body acc (l1 ++ l2) s = (foldM body acc l1 ≫= fun acc' => foldM body acc' l2) s.
Proof.
  revert acc s. induction l1 as [|x l1 IH]; intros acc s; simpl.
  - reflexivity.
  - unfold mbind, Lin_bind in *.
    destruct (body acc x s) as [[a s']|f]; [|reflexivity]. apply IH.
Qed.

Lemma range_snoc (lo hi : Z) :
  lo <= hi -> range lo (hi + 1) = range lo hi ++ [hi].
Proof.
  intros H. unfold range.
  replace (Z.to_nat (hi + 1 - lo)) with (S (Z.to_nat (hi - lo))) by lia.
  rewrite seq_S, map_app. simpl. f_equal. f_equal. lia.
Qed.

Lemma put_Done {A : Type} (v : list A) (i : Z) (x : A) (what : string) (s : State) r :
  put_ v i x what s = Done r ->
  0 <= i < Z.of_nat (length v) /\ r = (<[Z.to_nat i := x]> v, s).
Proof.
  unfold put_. destruct ((0 <=? i) && (i <? Z.of_nat (length v))) eqn:E.
  - intros [= <-]. split; [lia|reflexivity].
  - discriminate.
Qed.

Lemma at_Done {A : Type} (v : list A) (i : Z) (what : string) (s : State) r :
  at_ v i what s = Done r ->
  0 <= i < Z.of_nat (length v) /\ v !! Z.to_nat i = Some r.1 /\ r.2 = s.
Proof.
  unfold at_. destruct ((0 <=? i) && (i <? Z.of_nat (length v))) eqn:E; [|discriminate].
  destruct (v !! Z.to_nat i) eqn:E2; [|discriminate].
  intros [= <-]. split; [lia|]. split; reflexivity.
Qed.

End MonadFacts.

(** *** [promoteDefinition] *)

Section PromoteFacts.
Import IR Lin Linearizer.

Lemma foldM_invariant {A B : Type} (P : B -> Prop) (body : B -> A -> Lin B)
    (l : list A) (acc : B) (s : State) (r : B * State) :
  P acc ->
  (forall acc x s r, P acc -> body acc x s = Done r -> P r.1) ->
  foldM body acc l s = Done r -> P r.1.
Proof.
  intros HP Hstep. revert acc s HP.
  induction l as [|x l IH]; intros acc s HP; simpl.
  - intros [= <-]. exact HP.
  - intros H. apply bind_Done in H as (a & s' & H1 & H2).
    apply (IH a s'); [|exact H2]. apply (Hstep _ _ _ _ HP H1).
Qed.

(** A round of the outer loop keeps the size of [defs] and only completes
    when its slot exists. *)
Lemma promoteBlock_Done (type : Ty) (defBlockId : Z) (defs : list (option Value))
    (i : Z) (s : State) (r : list (option Value) * State) :
  promoteBlock type defBlockId defs i s = Done r ->
  0 <= i < Z.of_nat (length defs) /\ length r.1 = length defs.
Proof.
  unfold promoteBlock. intros H.
  apply bind_Done in H as (block & s1 & _ & H).
  apply bind_Done in H as (f & s2 & _ & H).
  apply bind_Done in H as ([localDef localPhi] & s3 & _ & H).
  apply put_Done in H as [Hi ->]. split; [exact Hi|].
  simpl. apply length_insert.
Qed.

(** When the definition already sits in the destination block, it is
    returned unchanged and nothing is touched. *)
Lemma promoteDefinition_same (inst : Value) (blockId : Z) (s : State) :
  promoteDefinition inst blockId blockId s = Done (inst, s).
Proof.
  unfold promoteDefinition, assert. rewrite Z.leb_refl, Z.eqb_refl. reflexivity.
Qed.

(** The vector [defs] has [destBlockId - defBlockId + 1] slots, numbered
    from 0 to [destBlockId - defBlockId]; the loop runs one round further,
    so a promotion over at least one block never returns: it leaves the
    block index or writes behind the last slot. *)
Lemma promoteDefinition_never_returns (inst : Value) (defBlockId destBlockId : Z)
    (s : State) :
  defBlockId < destBlockId ->
  exists f, promoteDefinition inst defBlockId destBlockId s = Crash f.
Proof.
  intros Hlt.
  destruct (promoteDefinition inst defBlockId destBlockId s) as [r|f] eqn:E;
    [exfalso|eauto].
  unfold promoteDefinition, assert in E.
  replace (defBlockId <=? destBlockId) with true in E by (symmetry; lia).
  replace (defBlockId =? destBlockId) with false in E by (symmetry; lia).
  set (span := destBlockId - defBlockId + 1) in *.
  assert (Hspan : 2 <= span) by (unfold span; lia).
  apply bind_Done in E as (u & s0 & [= <- <-] & E).
  apply bind_Done in E as (f & s1 & [= <- <-] & E).
  apply bind_Done in E as (defs0 & s2 & H0 & E).
  apply put_Done in H0 as [_ [= -> ->]].
  apply bind_Done in E as (defs & s3 & Hloop & _).
  rewrite (range_snoc 1 span) in Hloop by lia.
  rewrite foldM_app in Hloop.
  apply bind_Done in Hloop as (defs1 & s4 & H1 & H2).
  assert (Hlen : length defs1 = Z.to_nat span).
  { refine (foldM_invariant (fun d => length d = Z.to_nat span) _ _ _ _ _ _ _ H1).
    - rewrite length_insert, length_replicate. reflexivity.
    - intros acc x s' r' Hacc Hb. apply promoteBlock_Done in Hb.
      destruct Hb as [_ ->]. exact Hacc. }
  simpl in H2. apply bind_Done in H2 as (d & s5 & Hlast & _).
  apply promoteBlock_Done in Hlast as [Hi _]. lia.
Qed.

(** Three blocks in a row, indexed 0, 1, 2; the value [%x] is defined in
    the first one. *)
Definition chain3 : State :=
  mkState
    (mkFunction [0; 1; 2]%nat
       (list_to_map [(0, [10; 11]); (1, [12]); (2, [13])]%nat)
       (list_to_map
          [(10, mkInst (IntTy 32) "x" 0 (OtherInst "add" []));
           (11, mkInst VoidTy "" 0 (BranchInst 1));
           (12, mkInst VoidTy "" 1 (BranchInst 2));
           (13, mkInst VoidTy "" 2 (ReturnInst None))]%nat)
       14 [])
    (mkVecInfo ∅ ∅ ∅) (mkMaskAnalysis ∅ ∅ ∅)
    (list_to_map [(0, None); (1, Some 0); (2, Some 1)]%nat)
    (list_to_map [(0%nat, 0); (1%nat, 1); (2%nat, 2)])
    [mkRelay 0 0 None None; mkRelay 1 1 None None; mkRelay 2 2 None None]
    ∅.

(** C5 (code defect). Promoting [%x] from block 0 to block 1 gives [defs]
    two slots (0 and 1), but the loop also visits block 2, past the
    destination, and writes [defs[2]]: an access out of bounds instead of
    the definition at the destination. When both ids agree the value is
    returned as it is. *)
Theorem C5_promoteDefinition_out_of_bounds :
  Linearizer.promoteDefinition (IR.InstValue 10) 0 1 chain3
    = Crash (OutOfBounds "defs")
  /\ Linearizer.promoteDefinition (IR.InstValue 10) 1 2 chain3
    = Crash (OutOfBounds "relays")
  /\ Linearizer.promoteDefinition (IR.InstValue 10) 1 1 chain3
    = Done (IR.InstValue 10, chain3).
Proof. repeat split; vm_compute; reflexivity. Qed.

End PromoteFacts.

(** *** An example: a while loop with one exit

    [[
      pre:    br header
      header: %i = phi [0, pre], [%n, latch]
              %c = icmp %i
              br %c, latch, exit
      latch:  %n = add %i, 1
              br header
      exit:   %lc = phi [%i, header]
              ret %lc
    ]]
    The blocks are 0 (pre), 1 (header), 2 (latch), 3 (exit). *)

Section WhileLoop.
Import Shape IR Lin.

Definition whileLoopFunction : Function :=
  mkFunction [0; 1; 2; 3]%nat
    (list_to_map [(0, [10]); (1, [20; 21; 22]); (2, [30; 31]); (3, [40; 41])]%nat)
    (list_to_map
       [(10, mkInst VoidTy "" 0 (BranchInst 1));
        (20, mkInst (IntTy 32) "i" 1
               (PHINode [(Constant (IntTy 32) 0, 0%nat); (InstValue 30, 2%nat)]));
        (21, mkInst (IntTy 1) "c" 1 (OtherInst "icmp" [InstValue 20]));
        (22, mkInst VoidTy "" 1 (CondBranchInst (InstValue 21) 2 3));
        (30, mkInst (IntTy 32) "n" 2
               (OtherInst "add" [InstValue 20; Constant (IntTy 32) 1]));
        (31, mkInst VoidTy "" 2 (BranchInst 1));
        (40, mkInst (IntTy 32) "lc" 3 (PHINode [(InstValue 20, 1%nat)]));
        (41, mkInst VoidTy "" 3 (ReturnInst (Some (InstValue 40))))]%nat)
    50 [].

Definition whileLoopL : Loop := MkLoop 1 [1; 2]%nat [].

(** The mask values are function arguments: [%live] (0), [%exit] (1) and
    [%all] (2). *)
Definition whileLoopState (mandatory : gset BlockRef) : State :=
  mkState whileLoopFunction
    (mkVecInfo (list_to_map [(22%nat, Varying 1)]) {[1%nat]} mandatory)
    (mkMaskAnalysis
       (list_to_map [((0, 0)%nat, Argument (IntTy 1) 2);
                     ((1, 0)%nat, Argument (IntTy 1) 0);
                     ((1, 1)%nat, Argument (IntTy 1) 1);
                     ((2, 0)%nat, Argument (IntTy 1) 0)])
       (list_to_map [((0, 1)%nat, Argument (IntTy 1) 2);
                     ((1, 2)%nat, Argument (IntTy 1) 0);
                     ((1, 3)%nat, Argument (IntTy 1) 1);
                     ((2, 1)%nat, Argument (IntTy 1) 0)])
       (list_to_map [(1%nat, Argument (IntTy 1) 1)]))
    (list_to_map [(0, None); (1, Some 0); (2, Some 1); (3, Some 1)]%nat)
    (list_to_map [(0%nat, 0); (1%nat, 1); (2%nat, 2); (3%nat, 3)])
    [mkRelay 0 0 None None; mkRelay 1 1 None None;
     mkRelay 2 2 None None; mkRelay 3 3 None None]
    ∅.

Example whileLoop_latch :
  getLoopLatch whileLoopFunction whileLoopL = Some 2%nat.
Proof. reflexivity. Qed.

Example whileLoop_exits :
  getExitBlocks whileLoopFunction whileLoopL = [3%nat]
  /\ getExitingBlocks whileLoopFunction whileLoopL = [1%nat].
Proof. split; reflexivity. Qed.

End WhileLoop.


(** *** Frame properties of the operations on functions *)

Section FunctionFacts.
Import Shape IR Lin Linearizer.

(** Every instruction has a reference below the allocation counter. *)
Definition wfFresh (f : Function) : Prop :=
  map_Forall (fun i _ => (i < fresh f)%nat) (insts f).

#[global] Instance wfFresh_dec (f : Function) : Decision (wfFresh f).
Proof. unfold wfFresh. apply _. Defined.

Lemma wfFresh_lookup (f : Function) (i : InstRef) :
  wfFresh f -> (fresh f <= i)%nat -> insts f !! i = None.
Proof.
  intros Hwf Hi. destruct (insts f !! i) as [x|] eqn:E; [|reflexivity].
  apply Hwf in E. simpl in E. lia.
Qed.

Lemma wfFresh_lt (f : Function) (i : InstRef) (x : Instruction) :
  wfFresh f -> insts f !! i = Some x -> (i < fresh f)%nat.
Proof. intros Hwf E. apply Hwf in E. exact E. Qed.

(** Two functions with the same control flow graph. *)
Definition sameCFG (f f' : Function) : Prop :=
  layout f' = layout f /\ forall b, terminatorOpcode f' b = terminatorOpcode f b.

Lemma sameCFG_refl (f : Function) : sameCFG f f.
Proof. split; [reflexivity|intros; reflexivity]. Qed.

Lemma sameCFG_trans (f g h : Function) : sameCFG f g -> sameCFG g h -> sameCFG f h.
Proof.
  intros [L1 T1] [L2 T2]. split; [congruence|].
  intros b. rewrite T2. apply T1.
Qed.

Lemma sameCFG_successors (f f' : Function) (b : BlockRef) :
  sameCFG f f' -> successors f' b = successors f b.
Proof. intros [_ T]. unfold successors. rewrite T. reflexivity. Qed.

Lemma sameCFG_predecessors (f f' : Function) (b : BlockRef) :
  sameCFG f f' -> predecessors f' b = predecessors f b.
Proof.
  intros H. unfold predecessors. destruct H as [-> T].
  induction (layout f) as [|p l IH]; [reflexivity|]. simpl.
  rewrite IH. unfold successors. rewrite T. reflexivity.
Qed.

Lemma sameCFG_getLoopLatch (f f' : Function) (L : Loop) :
  sameCFG f f' -> getLoopLatch f' L = getLoopLatch f L.
Proof.
  intros H. unfold getLoopLatch. rewrite (sameCFG_predecessors f f') by exact H.
  reflexivity.
Qed.

Lemma sameCFG_getExitBlocks (f f' : Function) (L : Loop) :
  sameCFG f f' -> getExitBlocks f' L = getExitBlocks f L.
Proof.
  intros H. unfold getExitBlocks.
  induction (loopBlocks L) as [|b l IH]; [reflexivity|]. simpl.
  rewrite IH, (sameCFG_successors f f') by exact H. reflexivity.
Qed.

(** The instruction list of a block and the instruction table after an
    insertion. *)
Lemma insertInst_instsOf b pos ty name o f b' :
  instsOf (insertInst b pos ty name o f) b'
  = if decide (b' = b)
    then take pos (instsOf f b) ++ fresh f :: drop pos (instsOf f b)
    else instsOf f b'.
Proof.
  unfold insertInst, instsOf at 1. simpl.
  destruct (decide (b' = b)) as [->|Hne].
  - rewrite lookup_insert_eq. reflexivity.
  - rewrite lookup_insert_ne by congruence. reflexivity.
Qed.

Lemma insertInst_insts b pos ty name o f i :
  insts (insertInst b pos ty name o f) !! i
  = if decide (i = fresh f) then Some (mkInst ty name b o) else insts f !! i.
Proof.
  unfold insertInst. simpl.
  destruct (decide (i = fresh f)) as [->|Hne].
  - rewrite lookup_insert_eq. reflexivity.
  - rewrite lookup_insert_ne by congruence. reflexivity.
Qed.

Lemma insertInst_wfFresh b pos ty name o f :
  wfFresh f -> wfFresh (insertInst b pos ty name o f).
Proof.
  intros Hwf i x E. rewrite insertInst_insts in E. simpl.
  case_decide as Hd; [lia|].
  apply Hwf in E. simpl in E. lia.
Qed.

Lemma last_insert_middle {A : Type} (l : list A) (pos : nat) (x : A) :
  (pos < length l)%nat -> last (take pos l ++ x :: drop pos l) = last l.
Proof.
  intros H. rewrite !last_lookup.
  rewrite length_app, length_take, length_cons, length_drop.
  rewrite lookup_app_r by (rewrite length_take; lia).
  rewrite length_take.
  replace (pred (pos `min` length l + S (length l - pos)) - pos `min` length l)%nat
    with (S (length l - pos - 1)) by lia.
  simpl. rewrite lookup_drop. f_equal. lia.
Qed.

(** A new instruction that is no terminator and does not go behind the
    last instruction of its block changes no terminator. *)
Lemma insertInst_getTerminator b pos ty name o f b' :
  wfFresh f -> isTerminator o = false -> (pos < length (instsOf f b))%nat ->
  getTerminator (insertInst b pos ty name o f) b' = getTerminator f b'.
Proof.
  intros Hwf Ho Hpos. unfold getTerminator.
  rewrite insertInst_instsOf.
  assert (Hlast : last (if decide (b' = b)
                        then take pos (instsOf f b) ++ fresh f :: drop pos (instsOf f b)
                        else instsOf f b') = last (instsOf f b')).
  { destruct (decide (b' = b)) as [->|]; [|reflexivity].
    apply last_insert_middle. exact Hpos. }
  rewrite Hlast. clear Hlast. destruct (last (instsOf f b')) as [t|]; [|reflexivity].
  unfold opcodeOf. rewrite insertInst_insts.
  case_decide as Hd; [subst t|reflexivity].
  rewrite (wfFresh_lookup f (fresh f)) by (auto; lia). simpl. rewrite Ho. reflexivity.
Qed.

Lemma insertInst_sameCFG b pos ty name o f :
  wfFresh f -> isTerminator o = false -> (pos < length (instsOf f b))%nat ->
  sameCFG f (insertInst b pos ty name o f).
Proof.
  intros Hwf Ho Hpos. split; [reflexivity|]. intros b'.
  unfold terminatorOpcode. rewrite insertInst_getTerminator by assumption.
  destruct (getTerminator f b') as [t|] eqn:E; [|reflexivity].
  unfold opcodeOf. rewrite insertInst_insts.
  case_decide as Hd; [subst t|reflexivity].
  unfold getTerminator in E. destruct (last (instsOf f b')) as [t0|]; [|discriminate].
  unfold opcodeOf in E.
  destruct (insts f !! t0) as [x|] eqn:E2; simpl in E; [|discriminate].
  destruct (isTerminator (opcode x)); [|discriminate].
  injection E as ->. rewrite wfFresh_lookup in E2 by (auto; lia). discriminate.
Qed.

(** Rewriting the opcode of an instruction that is no terminator into one
    that is none either. *)
Lemma setOpcode_insts i o f j :
  insts (setOpcode i o f) !! j
  = if decide (j = i) then withOpcode o <$> insts f !! i else insts f !! j.
Proof.
  unfold setOpcode. simpl. destruct (decide (j = i)) as [->|Hne].
  - apply lookup_alter_eq.
  - apply lookup_alter_ne. congruence.
Qed.

Lemma setOpcode_instsOf i o f b : instsOf (setOpcode i o f) b = instsOf f b.
Proof. reflexivity. Qed.

Lemma setOpcode_wfFresh i o f : wfFresh f -> wfFresh (setOpcode i o f).
Proof.
  intros Hwf j x E. rewrite setOpcode_insts in E. simpl.
  case_decide as Hd.
  - subst j. destruct (insts f !! i) eqn:E2; [|simpl in E; discriminate].
    apply Hwf in E2. exact E2.
  - apply Hwf in E. exact E.
Qed.

Lemma setOpcode_opcodeOf i o f j :
  opcodeOf (setOpcode i o f) j
  = if decide (j = i) then (fun _ => o) <$> insts f !! i else opcodeOf f j.
Proof.
  unfold opcodeOf. rewrite setOpcode_insts.
  case_decide; [|reflexivity].
  destruct (insts f !! i); reflexivity.
Qed.

Lemma setOpcode_getTerminator i o o0 f b :
  opcodeOf f i = Some o0 -> isTerminator o0 = false -> isTerminator o = false ->
  getTerminator (setOpcode i o f) b = getTerminator f b.
Proof.
  intros Hi H0 Ho. unfold getTerminator. rewrite setOpcode_instsOf.
  destruct (last (instsOf f b)) as [t|]; [|reflexivity].
  rewrite setOpcode_opcodeOf. case_decide as Hd; [subst t|reflexivity].
  rewrite Hi, H0. unfold opcodeOf in Hi.
  destruct (insts f !! i); [|discriminate]. simpl. rewrite Ho. reflexivity.
Qed.

Lemma setOpcode_sameCFG i o o0 f :
  opcodeOf f i = Some o0 -> isTerminator o0 = false -> isTerminator o = false ->
  sameCFG f (setOpcode i o f).
Proof.
  intros Hi H0 Ho. split; [reflexivity|]. intros b.
  unfold terminatorOpcode. rewrite (setOpcode_getTerminator i o o0) by assumption.
  destruct (getTerminator f b) as [t|] eqn:E; [|reflexivity].
  rewrite setOpcode_opcodeOf. case_decide as Hd; [subst t|reflexivity].
  unfold getTerminator in E. destruct (last (instsOf f b)) as [t0|]; [|discriminate].
  destruct (opcodeOf f t0) as [o1|] eqn:E2; [|discriminate].
  destruct (isTerminator o1) eqn:E3; [|discriminate].
  injection E as ->. congruence.
Qed.

Lemma opcodeOf_insertInst_fresh b pos ty name o f :
  opcodeOf (insertInst b pos ty name o f) (fresh f) = Some o.
Proof. unfold opcodeOf. rewrite insertInst_insts. case_decide; [reflexivity|congruence]. Qed.

Lemma setOpcode_opcodeOf_eq i o o0 f :
  opcodeOf f i = Some o0 -> opcodeOf (setOpcode i o f) i = Some o.
Proof.
  intros H. rewrite setOpcode_opcodeOf. case_decide; [|congruence].
  unfold opcodeOf in H. destruct (insts f !! i); [reflexivity|discriminate].
Qed.

Lemma getTerminator_last f b t :
  getTerminator f b = Some t ->
  exists l0, instsOf f b = l0 ++ [t] /\ terminatorPos f b = length l0
    /\ exists o, opcodeOf f t = Some o /\ isTerminator o = true.
Proof.
  intros H. unfold terminatorPos. rewrite H. unfold getTerminator in H.
  destruct (last (instsOf f b)) as [t0|] eqn:E; [|discriminate].
  destruct (opcodeOf f t0) as [o|] eqn:E2; [|discriminate].
  destruct (isTerminator o) eqn:E3; [|discriminate]. injection H as ->.
  apply last_Some in E as [l0 E]. exists l0. rewrite E.
  split; [reflexivity|]. split; [rewrite length_app; simpl; lia|eauto].
Qed.

Lemma splitPhis_app f l : l = (splitPhis f l).1 ++ (splitPhis f l).2.
Proof.
  induction l as [|i l IH]; [reflexivity|]. simpl.
  destruct (isPHIRef f i); [|reflexivity].
  destruct (splitPhis f l) as [ps rest]. simpl in *. congruence.
Qed.

Lemma take_firstInsertionPt f b :
  take (firstInsertionPt f b) (instsOf f b) = phisOf f b.
Proof.
  unfold firstInsertionPt, phisOf.
  rewrite (splitPhis_app f (instsOf f b)) at 2.
  rewrite take_app_length. reflexivity.
Qed.

Lemma getLoopLatch_contains f L latch :
  getLoopLatch f L = Some latch -> contains L latch = true.
Proof.
  unfold getLoopLatch.
  destruct (filter _ _) as [|l [|]] eqn:E; try discriminate.
  intros [= <-].
  assert (H : l ∈ filter (fun p => contains L p = true) (predecessors f (getHeader L)))
    by (rewrite E; left).
  apply list_elem_of_filter in H as [H _]. exact H.
Qed.

Lemma wfFresh_decide f : bool_decide (wfFresh f) = true -> wfFresh f.
Proof. apply bool_decide_eq_true_1. Qed.

(** Every instruction listed in a block names that block as its parent. *)
Definition wfParents (f : Function) : Prop :=
  map_Forall (fun b l => Forall (fun i => parent <$> insts f !! i = Some b) l) (body f).

#[global] Instance wfParents_dec (f : Function) : Decision (wfParents f).
Proof. unfold wfParents. apply _. Defined.

Lemma wfParents_decide f : bool_decide (wfParents f) = true -> wfParents f.
Proof. apply bool_decide_eq_true_1. Qed.

Lemma wfParents_parent f b i :
  wfParents f -> i ∈ instsOf f b -> parent <$> insts f !! i = Some b.
Proof.
  intros Hwf Hi. unfold instsOf in Hi.
  destruct (body f !! b) as [l|] eqn:E; simpl in Hi; [|inversion Hi].
  apply Hwf in E. rewrite Forall_forall in E. apply E, Hi.
Qed.

Lemma getTerminator_elem f b t : getTerminator f b = Some t -> t ∈ instsOf f b.
Proof.
  intros H. apply getTerminator_last in H as (l0 & -> & _).
  apply elem_of_app. right. left.
Qed.

Lemma eraseInst_insts i f j :
  insts (eraseInst i f) !! j = if decide (j = i) then None else insts f !! j.
Proof.
  unfold eraseInst. destruct (insts f !! i) as [x|] eqn:E; simpl.
  - case_decide as Hd; [subst; apply lookup_delete_eq|apply lookup_delete_ne; congruence].
  - case_decide as Hd; [subst; exact E|reflexivity].
Qed.

Lemma eraseInst_instsOf i f x b :
  insts f !! i = Some x ->
  instsOf (eraseInst i f) b
  = if decide (b = parent x) then filter (fun j => j <> i) (instsOf f b) else instsOf f b.
Proof.
  intros E. unfold eraseInst. rewrite E. unfold instsOf at 1. simpl.
  case_decide as Hd.
  - subst. rewrite lookup_insert_eq. reflexivity.
  - rewrite lookup_insert_ne by congruence. reflexivity.
Qed.

Lemma eraseInst_fresh i f : fresh (eraseInst i f) = fresh f.
Proof. unfold eraseInst. destruct (insts f !! i); reflexivity. Qed.

Lemma eraseInst_wfFresh i f : wfFresh f -> wfFresh (eraseInst i f).
Proof.
  intros Hwf j x E. rewrite eraseInst_insts in E. rewrite eraseInst_fresh.
  case_decide; [discriminate|]. apply Hwf in E. exact E.
Qed.

Lemma eraseInst_declared i f : declared (eraseInst i f) = declared f.
Proof. unfold eraseInst. destruct (insts f !! i); reflexivity. Qed.

End FunctionFacts.


(** *** Inversion of completed runs *)

Section Inversion.
Import Shape IR Lin Linearizer.

Lemma ret_Done {A : Type} (a : A) (s : State) (r : A * State) :
  (mret a : Lin A) s = Done r -> r = (a, s).
Proof. intros [= <-]. reflexivity. Qed.

Lemma gets_Done {A : Type} (g : State -> A) (s : State) (r : A * State) :
  gets g s = Done r -> r = (g s, s).
Proof. intros [= <-]. reflexivity. Qed.

Lemma getState_Done (s : State) (r : State * State) :
  getState s = Done r -> r = (s, s).
Proof. intros [= <-]. reflexivity. Qed.

Lemma modify_Done (g : State -> State) (s : State) (r : unit * State) :
  modify g s = Done r -> r = ((), g s).
Proof. intros [= <-]. reflexivity. Qed.

Lemma assert_Done (b : bool) (msg : string) (s : State) (r : unit * State) :
  assert b msg s = Done r -> b = true /\ r = ((), s).
Proof. unfold assert. destruct b; [|discriminate]. intros [= <-]. auto. Qed.

Lemma deref_Done {A : Type} (p : option A) (what : string) (s : State) (r : A * State) :
  deref p what s = Done r -> p = Some r.1 /\ r.2 = s.
Proof. unfold deref. destruct p; [|discriminate]. intros [= <-]. auto. Qed.

Lemma createInst_Done b pos ty name o s r :
  createInst b pos ty name o s = Done r ->
  r = (fresh (func s), withFunc (insertInst b pos ty name o) s).
Proof. intros [= <-]. reflexivity. Qed.

Lemma getOpcode_Done i what s r :
  getOpcode i what s = Done r -> opcodeOf (func s) i = Some r.1 /\ r.2 = s.
Proof.
  unfold getOpcode. intros H. apply bind_Done in H as (a & s1 & H1 & H).
  apply gets_Done in H1 as [= -> ->]. apply deref_Done in H. exact H.
Qed.

Lemma getIncoming_Done phi s r :
  getIncoming phi s = Done r -> opcodeOf (func s) phi = Some (PHINode r.1) /\ r.2 = s.
Proof.
  unfold getIncoming. intros H. apply bind_Done in H as (o & s1 & H1 & H).
  apply getOpcode_Done in H1 as [H1 H2]. simpl in *. subst s1.
  destruct o; try discriminate. apply ret_Done in H. subst r. auto.
Qed.

Lemma addIncoming_Done phi v b s r :
  addIncoming phi v b s = Done r ->
  exists inc, opcodeOf (func s) phi = Some (PHINode inc)
    /\ r = ((), withFunc (setOpcode phi (PHINode (inc ++ [(v, b)]))) s).
Proof.
  unfold addIncoming. intros H. apply bind_Done in H as (inc & s1 & H1 & H).
  apply getIncoming_Done in H1 as [H1 H2]. simpl in *. subst s1.
  apply modify_Done in H. eauto.
Qed.

Lemma setIncomingValue_Done phi idx v s r :
  setIncomingValue phi idx v s = Done r ->
  exists inc old b, opcodeOf (func s) phi = Some (PHINode inc)
    /\ 0 <= idx /\ inc !! Z.to_nat idx = Some (old, b)
    /\ r = ((), withFunc (setOpcode phi (PHINode (<[Z.to_nat idx := (v, b)]> inc))) s).
Proof.
  unfold setIncomingValue. intros H. apply bind_Done in H as (inc & s1 & H1 & H).
  apply getIncoming_Done in H1 as [H1 H2]. simpl in *. subst s1.
  apply bind_Done in H as ([old b] & s1 & H2 & H).
  apply at_Done in H2 as (Hi & Hl & <-). simpl in *.
  apply modify_Done in H. exists inc, old, b. repeat split; [assumption|lia|assumption|assumption].
Qed.

Lemma theLatch_Done L s r :
  theLatch L s = Done r -> getLoopLatch (func s) L = Some r.1 /\ r.2 = s.
Proof.
  unfold theLatch. intros H. apply bind_Done in H as (f & s1 & H1 & H).
  apply gets_Done in H1 as [= -> ->]. apply deref_Done in H. exact H.
Qed.

Lemma setVectorShape_Done i sh s r :
  setVectorShape i sh s = Done r ->
  r = ((), withVecInfo (fun v =>
        mkVecInfo (<[i := sh]> (shapes v)) (divergentLoops v) (mandatoryBlocks v)) s).
Proof. apply modify_Done. Qed.

(** A select over a value that is no constant is a new instruction. *)
Lemma createSelect_Done b pos c x y name s r :
  isConstantValue x = false ->
  createSelect b pos c x y name s = Done r ->
  r = (InstValue (fresh (func s)),
       withFunc (insertInst b pos (typeOf (func s) x) name (SelectInst c x y)) s).
Proof.
  intros Hx. unfold createSelect. rewrite Hx, andb_false_r. simpl.
  intros H. apply bind_Done in H as (f & s1 & H1 & H).
  apply gets_Done in H1 as [= -> ->].
  apply bind_Done in H as (i & s1 & H1 & H).
  apply createInst_Done in H1 as [= -> ->]. apply ret_Done in H. subst r.
  reflexivity.
Qed.

Lemma dropVectorShape_Done i s r :
  dropVectorShape i s = Done r ->
  r = ((), withVecInfo (fun v =>
        mkVecInfo (delete i (shapes v)) (divergentLoops v) (mandatoryBlocks v)) s).
Proof. apply modify_Done. Qed.

Lemma createReduction_Done pred name atEnd s r :
  createReduction pred name atEnd s = Done r ->
  let f0 := func s in
  let f1 := if bool_decide (name ∈ declared f0) then f0
            else mkFunction (layout f0) (body f0) (insts f0) (fresh f0) (declared f0 ++ [name]) in
  r = (fresh f0,
       withVecInfo (fun v => mkVecInfo (<[fresh f0 := uni 1]> (shapes v))
                               (divergentLoops v) (mandatoryBlocks v))
         (withFunc (fun _ => insertInst atEnd (length (instsOf f0 atEnd)) (IntTy 1) "reduce"
                               (CallInst name [pred]) f1) s)).
Proof.
  unfold createReduction, requestReductionFunc. intros H.
  apply bind_Done in H as (redFunc & s1 & H1 & H).
  apply bind_Done in H1 as (f & s0 & H0 & H1). apply gets_Done in H0 as [= -> ->].
  cbv zeta. destruct (bool_decide (name ∈ declared (func s))) eqn:Ed.
  - apply ret_Done in H1 as [= -> ->].
    apply bind_Done in H as (f & s0 & H0 & H). apply gets_Done in H0 as [= -> ->].
    apply bind_Done in H as (call & s0 & H0 & H). apply createInst_Done in H0 as [= -> ->].
    apply bind_Done in H as (u & s0 & H0 & H). apply setVectorShape_Done in H0 as [= -> ->].
    apply ret_Done in H. subst r. destruct s; reflexivity.
  - apply bind_Done in H1 as (u & s0 & H0 & H1). apply modify_Done in H0 as [= -> ->].
    apply ret_Done in H1 as [= -> ->].
    apply bind_Done in H as (f & s0 & H0 & H). apply gets_Done in H0 as [= -> ->].
    apply bind_Done in H as (call & s0 & H0 & H). apply createInst_Done in H0 as [= -> ->].
    apply bind_Done in H as (u & s0 & H0 & H). apply setVectorShape_Done in H0 as [= -> ->].
    apply ret_Done in H. subst r. destruct s; reflexivity.
Qed.

End Inversion.

(** *** Live-out tracking *)

Section TrackerFacts.
Import Shape IR Lin Linearizer.

Lemma getBasicBlockIndex_lookup (inc : list (Value * BlockRef)) (b : BlockRef) (p : Value * BlockRef) :
  0 <= getBasicBlockIndex inc b ->
  inc !! Z.to_nat (getBasicBlockIndex inc b) = Some p -> p.2 = b.
Proof.
  unfold getBasicBlockIndex. destruct (list_find _ inc) as [[k q]|] eqn:E; [|lia].
  intros _. rewrite Nat2Z.id. apply list_find_Some in E as (Hk & Hq & _).
  rewrite Hk. intros [= <-]. exact Hq.
Qed.

(** What a first request for a tracker does. *)
Lemma requestTracker_Done L preHeader lo inst s phi lo' s' :
  wfFresh (func s) ->
  lo !! inst = None ->
  requestTracker L preHeader lo inst s = Done ((phi, lo'), s') ->
  exists latch,
    let header := getHeader L in
    let type := typeOf (func s) (InstValue inst) in
    let pos := firstInsertionPt (func s) header in
    getLoopLatch (func s) L = Some latch
    /\ phi = fresh (func s)
    /\ lo' = <[inst := phi]> lo
    /\ (pos < length (instsOf (func s) header))%nat
    /\ instsOf (func s') header
       = take pos (instsOf (func s) header) ++ phi :: drop pos (instsOf (func s) header)
    /\ insts (func s') !! phi
       = Some (mkInst type ("track_" ++ nameOf (func s) (InstValue inst)) header
                 (PHINode [(UndefValue type, preHeader); (InstValue phi, latch)]))
    /\ getVectorShape s' phi = Varying 1
    /\ sameCFG (func s) (func s')
    /\ wfFresh (func s')
    /\ fresh (func s') = S (fresh (func s))
    /\ maskAnalysis s' = maskAnalysis s
    /\ (forall i, i <> phi -> insts (func s') !! i = insts (func s) !! i)
    /\ (forall b, b <> header -> instsOf (func s') b = instsOf (func s) b).
Proof.
  intros Hwf Hlo H. unfold requestTracker in H. rewrite Hlo in H.
  apply bind_Done in H as (f & s1 & H1 & H). apply gets_Done in H1 as [= -> ->].
  apply bind_Done in H as (u & s1 & H1 & H). apply assert_Done in H1 as [Hpos [= -> ->]].
  apply bool_decide_eq_true_1 in Hpos.
  apply bind_Done in H as (phi0 & s1 & H1 & H). apply createInst_Done in H1 as [= -> ->].
  apply bind_Done in H as (u & s2 & H1 & H). apply setVectorShape_Done in H1 as [= -> ->].
  apply bind_Done in H as (latch & s3 & H1 & H). apply theLatch_Done in H1 as [Hl1 Hs]. simpl_state. subst s3.
  apply bind_Done in H as (f & s3 & H1 & H). apply gets_Done in H1 as [= -> ->].
  apply bind_Done in H as (t & s3 & H1 & H). apply deref_Done in H1 as [Ht Hs]. simpl_state. subst s3.
  apply bind_Done in H as (u & s3 & H1 & H). apply addIncoming_Done in H1 as (inc & Hinc & [= -> ->]).
  apply bind_Done in H as (latch2 & s4 & H1 & H). apply theLatch_Done in H1 as [Hl2 Hs]. simpl_state. subst s4.
  apply bind_Done in H as (u & s4 & H1 & H). apply addIncoming_Done in H1 as (inc2 & Hinc2 & [= -> ->]).
  apply ret_Done in H. injection H as -> -> ->.
  simpl_state.
  set (header := getHeader L) in *.
  set (type := typeOf (func s) (InstValue inst)) in *.
  set (pos := firstInsertionPt (func s) header) in *.
  set (name := ("track_" +:+ nameOf (func s) (InstValue inst))) in *.
  set (f1 := insertInst header pos type name (PHINode []) (func s)) in *.
  assert (O1 : opcodeOf f1 (fresh (func s)) = Some (PHINode []))
    by apply opcodeOf_insertInst_fresh.
  rewrite O1 in Hinc. injection Hinc as <-.
  assert (C1 : sameCFG (func s) f1) by (apply insertInst_sameCFG; auto).
  set (f2 := setOpcode (fresh (func s)) (PHINode ([] ++ [(UndefValue type, preHeader)])) f1) in *.
  assert (C2 : sameCFG f1 f2) by (eapply setOpcode_sameCFG; eauto).
  assert (O2 : opcodeOf f2 (fresh (func s)) = Some (PHINode [(UndefValue type, preHeader)])).
  { unfold f2. apply (setOpcode_opcodeOf_eq _ _ _ _ O1). }
  rewrite O2 in Hinc2. injection Hinc2 as <-.
  rewrite (sameCFG_getLoopLatch _ _ _ C1) in Hl1.
  rewrite (sameCFG_getLoopLatch _ _ _ C2), (sameCFG_getLoopLatch _ _ _ C1), Hl1 in Hl2.
  injection Hl2 as <-.
  exists latch. cbv zeta. simpl_state.
  set (f3 := setOpcode (fresh (func s))
               (PHINode ([(UndefValue type, preHeader)] ++ [(InstValue (fresh (func s)), latch)])) f2).
  assert (C3 : sameCFG f2 f3) by (eapply setOpcode_sameCFG; eauto).
  split; [exact Hl1|]. split; [reflexivity|]. split; [reflexivity|].
  split; [exact Hpos|].
  split. { unfold f3, f2, f1. rewrite !setOpcode_instsOf, insertInst_instsOf. case_decide; [reflexivity|congruence]. }
  split. { unfold f3. rewrite setOpcode_insts. case_decide; [|congruence].
           unfold f2. rewrite setOpcode_insts. case_decide; [|congruence].
           unfold f1. rewrite insertInst_insts. case_decide; [|congruence]. reflexivity. }
  split. { unfold getVectorShape. simpl_state. rewrite lookup_insert_eq. reflexivity. }
  split. { eapply sameCFG_trans; [exact C1|]. eapply sameCFG_trans; [exact C2|exact C3]. }
  split. { unfold f3, f2, f1. apply setOpcode_wfFresh, setOpcode_wfFresh, insertInst_wfFresh, Hwf. }
  split. { reflexivity. }
  split. { reflexivity. }
  split. { intros i Hi. unfold f3. rewrite setOpcode_insts. case_decide; [congruence|].
           unfold f2. rewrite setOpcode_insts. case_decide; [congruence|].
           unfold f1. rewrite insertInst_insts. case_decide; [congruence|]. reflexivity. }
  intros b Hb. unfold f3, f2, f1. rewrite !setOpcode_instsOf, insertInst_instsOf.
  case_decide; [congruence|reflexivity].
Qed.

(** What an update of a tracker with an instruction does. *)
Lemma addTrackerUpdate_Done L tracker exiting exit v s s' :
  wfFresh (func s) ->
  addTrackerUpdate L tracker exiting exit (InstValue v) s = Done ((), s') ->
  exists latch mask inc k last l0 t,
    let upd := fresh (func s) in
    getLoopLatch (func s) L = Some latch
    /\ getCombinedLoopExitMask s L = Some mask
    /\ opcodeOf (func s) tracker = Some (PHINode inc)
    /\ getBasicBlockIndex inc latch = Z.of_nat k
    /\ inc !! k = Some (last, latch)
    /\ instsOf (func s) latch = l0 ++ [t]
    /\ getTerminator (func s) latch = Some t
    /\ insts (func s') !! upd
       = Some (mkInst (typeOf (func s) (InstValue v))
                 ("update_" ++ nameOf (func s) (InstValue v)) latch
                 (SelectInst mask (InstValue v) last))
    /\ instsOf (func s') latch = l0 ++ [upd; t]
    /\ getVectorShape s' upd = Varying 1
    /\ opcodeOf (func s') tracker
       = Some (PHINode (<[k := (InstValue upd, latch)]> inc))
    /\ sameCFG (func s) (func s')
    /\ wfFresh (func s').
Proof.
  intros Hwf H. unfold addTrackerUpdate in H.
  apply bind_Done in H as (latch & s1 & H1 & H). apply theLatch_Done in H1 as [Hl Hs]. simpl_state. subst s1.
  apply bind_Done in H as (inc & s1 & H1 & H). apply getIncoming_Done in H1 as [Hinc Hs]. simpl_state. subst s1.
  apply bind_Done in H as ([last b0] & s1 & H1 & H). apply at_Done in H1 as (Hk & Hlk & Hs). simpl_state. subst s1.
  pose proof (getBasicBlockIndex_lookup _ _ _ (proj1 Hk) Hlk) as Hb0. simpl in Hb0. subst b0.
  apply bind_Done in H as (s0 & s1 & H1 & H). apply gets_Done in H1 as [= -> ->].
  apply bind_Done in H as (mask & s1 & H1 & H). apply deref_Done in H1 as [Hm Hs]. simpl_state. subst s1.
  apply bind_Done in H as (t & s1 & H1 & H). apply deref_Done in H1 as [Ht Hs]. simpl_state. subst s1.
  apply bind_Done in H as (upd & s1 & H1 & H).
  apply createSelect_Done in H1; [|reflexivity]. injection H1 as -> ->.
  apply bind_Done in H as (u & s2 & H1 & H). apply setVectorShape_Done in H1 as [= -> ->].
  apply setIncomingValue_Done in H as (inc' & old & b' & Hinc' & _ & Hold & [= ->]).
  simpl_state.
  destruct (getTerminator_last _ _ _ Ht) as (l0 & Hl0 & Hpos & o & Ho & Hot).
  rewrite Hpos in *.
  set (ty := typeOf (func s) (InstValue v)) in *.
  set (name := ("update_" +:+ nameOf (func s) (InstValue v))) in *.
  set (f1 := insertInst latch (length l0) ty name (SelectInst mask (InstValue v) last) (func s)) in *.
  assert (Hlen : (length l0 < length (instsOf (func s) latch))%nat)
    by (rewrite Hl0, length_app; simpl; lia).
  assert (C1 : sameCFG (func s) f1) by (apply insertInst_sameCFG; auto).
  assert (Hne : tracker <> fresh (func s)).
  { unfold opcodeOf in Hinc. destruct (insts (func s) !! tracker) eqn:E; [|discriminate].
    apply (wfFresh_lt _ _ _ Hwf) in E. lia. }
  assert (O1 : opcodeOf f1 tracker = Some (PHINode inc)).
  { unfold opcodeOf, f1. rewrite insertInst_insts. case_decide; [congruence|exact Hinc]. }
  rewrite O1 in Hinc'. injection Hinc' as <-.
  set (k := Z.to_nat (getBasicBlockIndex inc latch)) in *.
  rewrite Hlk in Hold. injection Hold as <- <-.
  exists latch, mask, inc, k, last, l0, t. cbv zeta.
  set (f2 := setOpcode tracker _ f1).
  assert (C2 : sameCFG f1 f2) by (eapply setOpcode_sameCFG; eauto).
  split; [exact Hl|]. split; [exact Hm|]. split; [exact Hinc|].
  split; [unfold k; lia|]. split; [exact Hlk|]. split; [exact Hl0|]. split; [exact Ht|].
  split. { unfold f2. rewrite setOpcode_insts. case_decide; [congruence|].
           unfold f1. rewrite insertInst_insts. case_decide; [reflexivity|congruence]. }
  split. { unfold f2, f1. rewrite setOpcode_instsOf, insertInst_instsOf.
           case_decide; [|congruence]. rewrite Hl0.
           rewrite take_app_length, drop_app_length. reflexivity. }
  split. { unfold getVectorShape. simpl_state. rewrite lookup_insert_eq. reflexivity. }
  split. { unfold f2. apply (setOpcode_opcodeOf_eq _ _ _ _ O1). }
  split. { eapply sameCFG_trans; [exact C1|exact C2]. }
  unfold f2, f1. apply setOpcode_wfFresh, insertInst_wfFresh, Hwf.
Qed.

(** C4. A first request for the tracker of a live-out [v] puts a phi node
    with shape varying behind the phi nodes of the loop header, with the
    incoming values (preHeader -> undef, latch -> the phi itself); the
    update that follows inserts [select(combinedLoopExitMask, v, phi)] with
    shape varying in front of the latch's terminator and makes it the
    latch-incoming value of the tracker. *)
Theorem C4_tracker_phi_and_update (L : Loop) (preHeader exiting exit : BlockRef)
    (lo lo' : gmap InstRef InstRef) (v phi : InstRef) (s s1 s2 : State) :
  wfFresh (func s) ->
  contains L preHeader = false ->
  lo !! v = None ->
  requestTracker L preHeader lo v s = Done ((phi, lo'), s1) ->
  addTrackerUpdate L phi exiting exit (InstValue v) s1 = Done ((), s2) ->
  exists latch mask upd l0 t,
    let header := getHeader L in
    let ty := typeOf (func s) (InstValue v) in
    getLoopLatch (func s) L = Some latch
    /\ getCombinedLoopExitMask s L = Some mask
    (* the tracker phi, behind the phi nodes of the header *)
    /\ instsOf (func s1) header
       = phisOf (func s) header ++ phi
           :: drop (firstInsertionPt (func s) header) (instsOf (func s) header)
    /\ opcodeOf (func s1) phi
       = Some (PHINode [(UndefValue ty, preHeader); (InstValue phi, latch)])
    /\ getVectorShape s1 phi = Varying 1
    (* its update, in front of the terminator of the latch *)
    /\ getTerminator (func s1) latch = Some t
    /\ instsOf (func s1) latch = l0 ++ [t]
    /\ instsOf (func s2) latch = l0 ++ [upd; t]
    /\ opcodeOf (func s2) upd = Some (SelectInst mask (InstValue v) (InstValue phi))
    /\ getVectorShape s2 upd = Varying 1
    /\ opcodeOf (func s2) phi
       = Some (PHINode [(UndefValue ty, preHeader); (InstValue upd, latch)]).
Proof.
  intros Hwf Hpre Hlo Hreq Hupd.
  destruct (requestTracker_Done _ _ _ _ _ _ _ _ Hwf Hlo Hreq)
    as (latch & Hl & -> & -> & Hpos & Hins & Hphi & Hsh & C1 & Hwf1 & Hfr & Hma & _ & _).
  destruct (addTrackerUpdate_Done _ _ _ _ _ _ _ Hwf1 Hupd)
    as (latch' & mask & inc & k & last & l0 & t & Hl' & Hm & Hinc & Hk & Hlk & Hl0 & Ht
        & Hu & Hins2 & Hsh2 & Hphi2 & _ & _).
  rewrite (sameCFG_getLoopLatch _ _ _ C1), Hl in Hl'. injection Hl' as <-.
  unfold opcodeOf in Hinc. rewrite Hphi in Hinc. simpl in Hinc. injection Hinc as <-.
  assert (Hne : preHeader <> latch).
  { intros ->. apply getLoopLatch_contains in Hl. congruence. }
  assert (Hk1 : k = 1%nat).
  { unfold getBasicBlockIndex in Hk. simpl in Hk.
    rewrite decide_False in Hk by exact Hne. rewrite decide_True in Hk by reflexivity.
    simpl in Hk. lia. }
  subst k. simpl in Hlk. injection Hlk as <-.
  exists latch, mask, (fresh (func s1)), l0, t. cbv zeta.
  split; [exact Hl|].
  split. { unfold getCombinedLoopExitMask in *. rewrite <- Hma. exact Hm. }
  split. { rewrite Hins, take_firstInsertionPt. reflexivity. }
  split. { unfold opcodeOf. rewrite Hphi. reflexivity. }
  split; [exact Hsh|]. split; [exact Ht|]. split; [exact Hl0|]. split; [exact Hins2|].
  split. { unfold opcodeOf. rewrite Hu. reflexivity. }
  split; [exact Hsh2|]. exact Hphi2.
Qed.

(** The while loop after the request and after the update. *)
Definition trackedOnce : State :=
  match requestTracker whileLoopL 0 ∅ 20 (whileLoopState {[3%nat]}) with
  | Done (_, s) => s
  | Crash _ => whileLoopState {[3%nat]}
  end.

Definition trackedAndUpdated : State :=
  match addTrackerUpdate whileLoopL 50 1 3 (InstValue 20) trackedOnce with
  | Done (_, s) => s
  | Crash _ => trackedOnce
  end.

Lemma C4_tracker_phi_and_update_witness :
  opcodeOf (func trackedAndUpdated) 50
    = Some (PHINode [(UndefValue (IntTy 32), 0%nat); (InstValue 51, 2%nat)])
  /\ opcodeOf (func trackedAndUpdated) 51
    = Some (SelectInst (Argument (IntTy 1) 1) (InstValue 20) (InstValue 50)).
Proof.
  destruct (C4_tracker_phi_and_update whileLoopL 0 1 3 ∅ {[20%nat := 50%nat]} 20 50
              (whileLoopState {[3%nat]}) trackedOnce trackedAndUpdated)
    as (latch & mask & upd & l0 & t & Hl & Hm & _ & _ & _ & _ & _ & _ & Hu & _ & Hp).
  - apply wfFresh_decide. vm_compute. reflexivity.
  - vm_compute. reflexivity.
  - vm_compute. reflexivity.
  - vm_compute. reflexivity.
  - vm_compute. reflexivity.
  - split; vm_compute; reflexivity.
Defined.

(** C2 (code defect). The exit of the while loop is not mandatory: it is a
    kill exit ("this exit kills the loop so we do not need to track any
    values for it"). [trackLiveOuts] nevertheless creates the tracker phi
    (50) at the header and inserts its update (51) at the latch before it
    skips the exit; only the closed-SSA phi (40) is left as it was. *)
Theorem C2_trackLiveOuts_kill_exit_still_tracked :
  Lin.isMandatory (whileLoopState ∅) 3 = false
  /\ exists s',
      Linearizer.trackLiveOuts whileLoopL 0 ∅ 3 (whileLoopState ∅)
        = Done ({[20%nat := 50%nat]}, s')
      /\ instsOf (func s') 1 = [20; 50; 21; 22]%nat
      /\ opcodeOf (func s') 50
         = Some (PHINode [(UndefValue (IntTy 32), 0%nat); (InstValue 51, 2%nat)])
      /\ instsOf (func s') 2 = [30; 51; 31]%nat
      /\ opcodeOf (func s') 51
         = Some (SelectInst (Argument (IntTy 1) 1) (InstValue 20) (InstValue 50))
      /\ opcodeOf (func s') 40 = opcodeOf whileLoopFunction 40.
Proof.
  split; [reflexivity|].
  eexists. split; [vm_compute; reflexivity|].
  repeat split; vm_compute; reflexivity.
Qed.

(** On a mandatory exit the closed-SSA phi is rewired to the last tracker
    state as well. *)
Example trackLiveOuts_mandatory_exit :
  exists s',
    trackLiveOuts whileLoopL 0 ∅ 3 (whileLoopState {[3%nat]})
      = Done ({[20%nat := 50%nat]}, s')
    /\ opcodeOf (func s') 40 = Some (PHINode [(InstValue 51, 1%nat)]).
Proof.
  eexists. split; [vm_compute; reflexivity|]. vm_compute; reflexivity.
Qed.

End TrackerFacts.

(** *** The latch exit of a normalized loop *)

Section LatchExitFacts.
Import Shape IR Lin Linearizer.

(** The last step of [convertToSingleExitLoop] (the source from "query
    exit mask" to the end): the terminator of the latch is deleted, the
    live mask is the exit mask of the edge from the latch to the header, a
    call of [rv_any] on that mask is appended to the latch, followed by a
    conditional branch on the call whose true successor is the header and
    whose false successor is the block of the exit relay; call and branch
    get the uniform shape and the loop is no longer flagged divergent. *)
Lemma createLatchExit_Done (L : Loop) (latch : BlockRef) (loopExitRelay : option RelayNode)
    (s s' : State) (r : RelayNode) :
  wfFresh (func s) -> wfParents (func s) ->
  createLatchExit L latch loopExitRelay s = Done (r, s') ->
  exists latchTerm liveMask call branch relayBlock,
    getTerminator (func s) latch = Some latchTerm
    /\ insts (func s') !! latchTerm = None
    /\ getExitMaskTo s latch (getHeader L) = Some liveMask
    /\ loopExitRelay = Some r /\ rblock r = Some relayBlock
    /\ instsOf (func s') latch
       = filter (fun j => j <> latchTerm) (instsOf (func s) latch) ++ [call; branch]
    /\ opcodeOf (func s') call = Some (CallInst "rv_any" [liveMask])
    /\ "rv_any"%string ∈ declared (func s')
    /\ opcodeOf (func s') branch
       = Some (CondBranchInst (InstValue call) (getHeader L) relayBlock)
    /\ getVectorShape s' call = Uniform 1
    /\ getVectorShape s' branch = Uniform 1
    /\ isDivergentLoop s' L = false.
Proof.
  intros Hwf Hpar H. unfold createLatchExit in H.
  apply bind_Done in H as (s0 & s1 & H1 & H). apply getState_Done in H1 as [= -> ->].
  apply bind_Done in H as (latchTerm & s1 & H1 & H). apply deref_Done in H1 as [Ht Hs]. simpl_state. subst s1.
  apply bind_Done in H as (o & s1 & H1 & H). apply getOpcode_Done in H1 as [Ho Hs]. simpl_state. subst s1.
  apply bind_Done in H as (u & s1 & H1 & H). apply assert_Done in H1 as [_ [= -> ->]].
  apply bind_Done in H as (u & s1 & H1 & H). apply dropVectorShape_Done in H1 as [= -> ->].
  apply bind_Done in H as (u & s1 & H1 & H). apply modify_Done in H1 as [= -> ->].
  apply bind_Done in H as (liveMask & s1 & H1 & H). apply deref_Done in H1 as [Hm Hs]. simpl_state. subst s1.
  apply bind_Done in H as (call & s1 & H1 & H). apply createReduction_Done in H1. cbv zeta in H1.
  simpl_state. injection H1 as -> ->.
  apply bind_Done in H as (r0 & s1 & H1 & H). apply deref_Done in H1 as [Hr Hs]. simpl_state. subst s1.
  apply bind_Done in H as (relayBlock & s1 & H1 & H). apply deref_Done in H1 as [Hrb Hs]. simpl_state. subst s1.
  apply bind_Done in H as (f & s1 & H1 & H). apply gets_Done in H1 as [= -> ->].
  apply bind_Done in H as (branch & s1 & H1 & H). apply createInst_Done in H1 as [= -> ->].
  apply bind_Done in H as (u & s1 & H1 & H). apply setVectorShape_Done in H1 as [= -> ->].
  apply bind_Done in H as (u & s1 & H1 & H). apply modify_Done in H1 as [= -> ->].
  apply bind_Done in H as (s0 & s1 & H1 & H). apply getState_Done in H1 as [= -> ->].
  apply bind_Done in H as (u & s1 & H1 & H). apply modify_Done in H1 as [= -> ->].
  apply ret_Done in H. injection H as -> ->.
  simpl_state.
  (* the function after each step *)
  set (f0 := func s) in *.
  set (f1 := eraseInst latchTerm f0) in *.
  set (f2 := if bool_decide ("rv_any"%string ∈ declared f1) then f1
             else mkFunction (layout f1) (body f1) (insts f1) (fresh f1)
                    (declared f1 ++ ["rv_any"%string])) in *.
  set (f3 := insertInst latch (length (instsOf f1 latch)) (IntTy 1) "reduce"
               (CallInst "rv_any" [liveMask]) f2) in *.
  set (f4 := insertInst latch (length (instsOf f3 latch)) VoidTy ""
               (CondBranchInst (InstValue (fresh f1)) (getHeader L) relayBlock) f3) in *.
  assert (Hx : exists x, insts f0 !! latchTerm = Some x /\ parent x = latch).
  { pose proof (wfParents_parent _ _ _ Hpar (getTerminator_elem _ _ _ Ht)) as P.
    fold f0 in P. destruct (insts f0 !! latchTerm) as [x|]; [|discriminate].
    exists x. split; [reflexivity|]. simpl in P. congruence. }
  destruct Hx as (x & Hx & Hpx).
  assert (I2 : insts f2 = insts f1) by (unfold f2; destruct (bool_decide _); reflexivity).
  assert (B2 : forall b, instsOf f2 b = instsOf f1 b)
    by (intros b; unfold f2; destruct (bool_decide _); reflexivity).
  assert (F2 : fresh f2 = fresh f0)
    by (unfold f2; destruct (bool_decide _); simpl; unfold f1; apply eraseInst_fresh).
  assert (F1 : fresh f1 = fresh f0) by apply eraseInst_fresh.
  assert (F3 : fresh f3 = S (fresh f0)) by (unfold f3, insertInst; simpl; congruence).
  assert (Hlt : (latchTerm < fresh f0)%nat) by (eapply wfFresh_lt; eauto).
  assert (L1 : instsOf f1 latch = filter (fun j => j <> latchTerm) (instsOf f0 latch)).
  { unfold f1. rewrite (eraseInst_instsOf _ _ _ _ Hx). rewrite Hpx.
    case_decide; [reflexivity|congruence]. }
  assert (L3 : instsOf f3 latch = instsOf f1 latch ++ [fresh f0]).
  { unfold f3. rewrite insertInst_instsOf. case_decide; [|congruence].
    rewrite B2, F2. rewrite take_ge, drop_ge by lia. reflexivity. }
  assert (I3 : forall j, insts f3 !! j
             = if decide (j = fresh f2)
               then Some (mkInst (IntTy 1) "reduce" latch (CallInst "rv_any" [liveMask]))
               else insts f2 !! j)
    by (intros j; unfold f3; apply insertInst_insts).
  assert (I4 : forall j, insts f4 !! j
             = if decide (j = fresh f3)
               then Some (mkInst VoidTy "" latch
                            (CondBranchInst (InstValue (fresh f1)) (getHeader L) relayBlock))
               else insts f3 !! j)
    by (intros j; unfold f4; apply insertInst_insts).
  exists latchTerm, liveMask, (fresh f1), (fresh f3), relayBlock.
  split; [exact Ht|].
  split. { rewrite I4. case_decide; [lia|]. rewrite I3. case_decide; [lia|].
           rewrite I2. unfold f1.
           rewrite eraseInst_insts. case_decide; [reflexivity|congruence]. }
  split; [exact Hm|]. split; [exact Hr|]. split; [exact Hrb|].
  split. { unfold f4. rewrite insertInst_instsOf. case_decide; [|congruence].
           rewrite take_ge, drop_ge by lia. rewrite L3, L1, F1, F3.
           rewrite <- app_assoc. reflexivity. }
  split. { unfold opcodeOf. rewrite I4. case_decide; [lia|].
           rewrite I3. case_decide; [reflexivity|lia]. }
  split. { unfold f4, f3, insertInst. simpl. unfold f2.
           destruct (bool_decide ("rv_any"%string ∈ declared f1)) eqn:Ed.
           - apply bool_decide_eq_true_1 in Ed. exact Ed.
           - simpl. apply elem_of_app. right. left. }
  split. { unfold opcodeOf. rewrite I4. case_decide; [reflexivity|congruence]. }
  split. { unfold getVectorShape. simpl_state. rewrite lookup_insert_ne by lia.
           rewrite lookup_insert_eq. reflexivity. }
  split. { unfold getVectorShape. simpl_state. rewrite lookup_insert_eq. reflexivity. }
  unfold isDivergentLoop. simpl_state. apply bool_decide_eq_false_2.
  intros Hin. apply elem_of_difference in Hin as [_ Hn]. apply Hn, elem_of_singleton. reflexivity.
Qed.

End LatchExitFacts.

(** *** Folding phi nodes into selects *)

Section FoldPhisFacts.
Import Shape IR Lin Linearizer.


(** No recorded edge mask is a constant. *)
Definition masksNotConstant (s : State) : Prop :=
  map_Forall (fun _ m => isConstantValue m = false) (edgeMasks s).

#[global] Instance masksNotConstant_dec s : Decision (masksNotConstant s).
Proof. unfold masksNotConstant. apply _. Defined.





Lemma wfParents_alt f :
  wfParents f <-> forall b i, i ∈ instsOf f b -> parent <$> insts f !! i = Some b.
Proof.
  split.
  - intros H b i. apply wfParents_parent, H.
  - intros H b l E. rewrite Forall_forall. intros i Hi. apply H.
    unfold instsOf. rewrite E. exact Hi.
Qed.


Lemma replaceAllUsesWith_insts old new f i :
  insts (replaceAllUsesWith old new f) !! i
  = (fun x => withOpcode (substOperands (InstValue old) new (opcode x)) x) <$> insts f !! i.
Proof. unfold replaceAllUsesWith, mapInsts. simpl. apply lookup_fmap. Qed.



Definition incomingBlocks (f : Function) (phi : InstRef) : list BlockRef :=
  match opcodeOf f phi with
  | Some (PHINode inc) => inc.*2
  | _ => []
  end.

(** All phi nodes of [block] list the same incoming blocks, as the IR
    verifier demands. *)
Definition samePhiBlocks (f : Function) (block : BlockRef) : Prop :=
  Forall (fun p => Forall (fun q => incomingBlocks f p ⊆ incomingBlocks f q)
                     (phisOf f block)) (phisOf f block).

#[global] Instance samePhiBlocks_dec f block : Decision (samePhiBlocks f block).
Proof. unfold samePhiBlocks. apply _. Defined.



Lemma getBasicBlockIndex_neg inc b :
  (getBasicBlockIndex inc b <? 0) = true <-> b ∉ inc.*2.
Proof.
  unfold getBasicBlockIndex. destruct (list_find _ inc) as [[k q]|] eqn:E.
  - apply list_find_Some in E as (Hk & Hq & _). split; [intros H; apply Z.ltb_lt in H; lia|].
    intros H. exfalso. apply H. apply list_elem_of_fmap. exists q. split; [auto|].
    apply list_elem_of_lookup. eauto.
  - split; [|reflexivity]. intros _ Hin. apply list_elem_of_fmap in Hin as (q & -> & Hq).
    apply list_find_None in E. rewrite Forall_forall in E. apply (E q Hq). reflexivity.
Qed.




Lemma phisOf_isPHIRef f l i : i ∈ (splitPhis f l).1 -> isPHIRef f i = true.
Proof.
  induction l as [|j l IH]; simpl; [intros H; inversion H|].
  destruct (isPHIRef f j) eqn:E; [|intros H; inversion H].
  destruct (splitPhis f l) as [ps rest]. simpl in *.
  intros H. apply elem_of_cons in H as [->|H]; [exact E|apply IH, H].
Qed.





(** A join block 3 after its predecessor 1 has been rewired to branch to
    block 2: the phi nodes 40 and 41 still list 1 and 2; the edge masks are
    the arguments 5 and 6. *)
Definition joinState : State :=
  mkState
    (mkFunction [0; 1; 2; 3]%nat
       (list_to_map [(0, [10]); (1, [20]); (2, [30]); (3, [40; 41; 42; 43])]%nat)
       (list_to_map
          [(10, mkInst VoidTy "" 0 (CondBranchInst (Argument (IntTy 1) 0) 1 2));
           (20, mkInst VoidTy "" 1 (BranchInst 2));
           (30, mkInst VoidTy "" 2 (BranchInst 3));
           (40, mkInst (IntTy 32) "x" 3
                  (PHINode [(Argument (IntTy 32) 1, 1%nat); (Argument (IntTy 32) 2, 2%nat)]));
           (41, mkInst (IntTy 32) "y" 3
                  (PHINode [(Argument (IntTy 32) 3, 2%nat); (Argument (IntTy 32) 4, 1%nat)]));
           (42, mkInst (IntTy 32) "z" 3 (OtherInst "add" [InstValue 40; InstValue 41]));
           (43, mkInst VoidTy "" 3 (ReturnInst (Some (InstValue 42))))]%nat)
       50 [])
    (mkVecInfo (list_to_map [(40%nat, Varying 1); (41%nat, Varying 4)]) ∅ ∅)
    (mkMaskAnalysis ∅ ∅ ∅)
    ∅ ∅ []
    (list_to_map [((1, 3)%nat, Argument (IntTy 1) 5); ((2, 3)%nat, Argument (IntTy 1) 6)]).

Definition joinFolded : State :=
  match foldPhis 3 joinState with
  | Done (_, s) => s
  | Crash _ => joinState
  end.

Example foldPhis_join :
  instsOf (func joinFolded) 3 = [51; 50; 42; 43]%nat
  /\ opcodeOf (func joinFolded) 50
     = Some (SelectInst (Argument (IntTy 1) 6) (Argument (IntTy 32) 2) (Argument (IntTy 32) 1))
  /\ opcodeOf (func joinFolded) 51
     = Some (SelectInst (Argument (IntTy 1) 5) (Argument (IntTy 32) 4) (Argument (IntTy 32) 3))
  /\ opcodeOf (func joinFolded) 42 = Some (OtherInst "add" [InstValue 50; InstValue 51])
  /\ getVectorShape joinFolded 50 = Varying 1
  /\ getVectorShape joinFolded 51 = Varying 4.
Proof. repeat split; vm_compute; reflexivity. Qed.


(** The join block 3 again, with a phi node over two constants and edge
    masks that are the constant [true]. *)
Definition constJoinState : State :=
  mkState
    (mkFunction [0; 1; 2; 3]%nat
       (list_to_map [(0, [10]); (1, [20]); (2, [30]); (3, [40; 42; 43])]%nat)
       (list_to_map
          [(10, mkInst VoidTy "" 0 (CondBranchInst (Argument (IntTy 1) 0) 1 2));
           (20, mkInst VoidTy "" 1 (BranchInst 2));
           (30, mkInst VoidTy "" 2 (BranchInst 3));
           (40, mkInst (IntTy 32) "x" 3
                  (PHINode [(Constant (IntTy 32) 7, 1%nat); (Constant (IntTy 32) 9, 2%nat)]));
           (42, mkInst (IntTy 32) "z" 3 (OtherInst "add" [InstValue 40; InstValue 40]));
           (43, mkInst VoidTy "" 3 (ReturnInst (Some (InstValue 42))))]%nat)
       50 [])
    (mkVecInfo (list_to_map [(40%nat, Varying 1)]) ∅ ∅)
    (mkMaskAnalysis ∅ ∅ ∅)
    ∅ ∅ []
    (list_to_map [((1, 3)%nat, Constant (IntTy 1) 1); ((2, 3)%nat, Constant (IntTy 1) 1)]).

Definition constJoinFolded : State :=
  match foldPhis 3 constJoinState with
  | Done (_, s) => s
  | Crash _ => constJoinState
  end.

Example foldPhis_constJoin :
  foldPhis 3 constJoinState = Done ((), constJoinFolded)
  /\ needsFoldingPhi 40 constJoinState = Done (true, constJoinState)
  /\ instsOf (func constJoinFolded) 3 = [42; 43]%nat
  /\ opcodeOf (func constJoinFolded) 42
     = Some (OtherInst "add" [Constant (IntTy 32) 9; Constant (IntTy 32) 9])
  /\ insts (func constJoinFolded) !! 50%nat = None
  /\ fresh (func constJoinFolded) = 50%nat.
Proof. split_and!; vm_compute; reflexivity. Qed.


End FoldPhisFacts.

(** *** Closed-SSA phi nodes of the old exit blocks *)

Section LcssaFacts.
Import Shape IR Lin Linearizer.

(** [phi->replaceAllUsesWith(v); phi->eraseFromParent()] *)
Definition eliminatePhi (phi : InstRef) (v : Value) (f : Function) : Function :=
  eraseInst phi (replaceAllUsesWith phi v f).

(** The phi node [phi] is replaced by its first incoming value and
    deleted; nothing else changes. *)
Definition eliminated (phi : InstRef) (s s' : State) : Prop :=
  exists v0 b0 rest,
    opcodeOf (func s) phi = Some (PHINode ((v0, b0) :: rest))
    /\ v0 <> InstValue phi
    /\ s' = withFunc (eliminatePhi phi v0) s.

(** As long as [block] starts with a phi node, that node is eliminated. *)
Inductive eliminatedAll (block : BlockRef) : State -> State -> Prop :=
| elim_done (s : State) (i : InstRef) :
    head (instsOf (func s) block) = Some i -> isPHIRef (func s) i = false ->
    eliminatedAll block s s
| elim_step (s s1 s' : State) (phi : InstRef) :
    head (instsOf (func s) block) = Some phi -> isPHIRef (func s) phi = true ->
    eliminated phi s s1 -> eliminatedAll block s1 s' ->
    eliminatedAll block s s'.

(** The old exit blocks are visited in order; the one that is kept is
    skipped. *)
Inductive movedLCSSA (kept : option BlockRef) : list BlockRef -> State -> State -> Prop :=
| moved_nil (s : State) : movedLCSSA kept [] s s
| moved_kept (b : BlockRef) (bs : list BlockRef) (s s' : State) :
    kept = Some b -> movedLCSSA kept bs s s' -> movedLCSSA kept (b :: bs) s s'
| moved_elim (b : BlockRef) (bs : list BlockRef) (s s1 s' : State) :
    kept <> Some b -> eliminatedAll b s s1 -> movedLCSSA kept bs s1 s' ->
    movedLCSSA kept (b :: bs) s s'.

Lemma withOpcode_opcode (x : Instruction) : withOpcode (opcode x) x = x.
Proof. destruct x. reflexivity. Qed.

Lemma setOpcode_twice i o1 o2 f : setOpcode i o2 (setOpcode i o1 f) = setOpcode i o2 f.
Proof.
  unfold setOpcode. simpl. f_equal. apply map_eq. intros j.
  destruct (decide (j = i)) as [->|Hne].
  - rewrite !lookup_alter_eq. destruct (insts f !! i); reflexivity.
  - rewrite !lookup_alter_ne by congruence. reflexivity.
Qed.

Lemma setOpcode_same i o f : opcodeOf f i = Some o -> setOpcode i o f = f.
Proof.
  intros H. destruct f as [l b m fr d]. unfold setOpcode, opcodeOf in *. simpl in *.
  f_equal. apply map_eq. intros j. destruct (decide (j = i)) as [->|Hne].
  - rewrite lookup_alter_eq. destruct (m !! i) as [x|]; [|discriminate].
    simpl in *. injection H as <-. rewrite withOpcode_opcode. reflexivity.
  - rewrite lookup_alter_ne by congruence. reflexivity.
Qed.

Lemma withFunc_same g s : g (func s) = func s -> withFunc g s = s.
Proof. intros H. destruct s. unfold withFunc. simpl in *. rewrite H. reflexivity. Qed.

Lemma eliminatePhi_setOpcode i v o f :
  eliminatePhi i v (setOpcode i o f) = eliminatePhi i v f.
Proof.
  unfold eliminatePhi, eraseInst. rewrite !replaceAllUsesWith_insts, setOpcode_insts.
  case_decide; [|congruence].
  destruct (insts f !! i) as [x|] eqn:E; simpl.
  - f_equal. apply map_eq. intros j. destruct (decide (j = i)) as [->|Hne].
    + rewrite !lookup_delete_eq. reflexivity.
    + rewrite !lookup_delete_ne by congruence. rewrite !lookup_fmap.
      rewrite lookup_alter_ne by congruence. reflexivity.
  - unfold replaceAllUsesWith, mapInsts, setOpcode. simpl. f_equal.
    apply map_eq. intros j. rewrite !lookup_fmap.
    destruct (decide (j = i)) as [->|Hne].
    + rewrite lookup_alter_eq, E. reflexivity.
    + rewrite lookup_alter_ne by congruence. reflexivity.
Qed.

Lemma setIncomingBlock_Done phi idx b s r :
  setIncomingBlock phi idx b s = Done r ->
  exists inc v old, opcodeOf (func s) phi = Some (PHINode inc)
    /\ 0 <= idx /\ inc !! Z.to_nat idx = Some (v, old)
    /\ r = ((), withFunc (setOpcode phi (PHINode (<[Z.to_nat idx := (v, b)]> inc))) s).
Proof.
  unfold setIncomingBlock. intros H. apply bind_Done in H as (inc & s1 & H1 & H).
  apply getIncoming_Done in H1 as [H1 H2]. simpl in *. subst s1.
  apply bind_Done in H as ([v old] & s1 & H2 & H).
  apply at_Done in H2 as (Hi & Hl & <-). simpl in *.
  apply modify_Done in H. exists inc, v, old. repeat split; [assumption|lia|assumption|assumption].
Qed.

Lemma insert_same_value (inc : list (Value * BlockRef)) k v b b' :
  inc !! k = Some (v, b) -> (<[k := (v, b')]> inc).*1 = inc.*1.
Proof.
  intros H. rewrite list_fmap_insert. simpl. apply list_insert_id.
  rewrite list_lookup_fmap, H. reflexivity.
Qed.

Lemma isPHI_substOperands old new o : isPHI (substOperands old new o) = isPHI o.
Proof. destruct o; reflexivity. Qed.

Lemma eliminatePhi_insts phi v f i :
  insts (eliminatePhi phi v f) !! i
  = if decide (i = phi) then None
    else (fun x => withOpcode (substOperands (InstValue phi) v (opcode x)) x) <$> insts f !! i.
Proof.
  unfold eliminatePhi. rewrite eraseInst_insts. case_decide; [reflexivity|].
  apply replaceAllUsesWith_insts.
Qed.

Lemma eliminatePhi_instsOf phi v f b :
  instsOf (eliminatePhi phi v f) b = instsOf f b
  \/ instsOf (eliminatePhi phi v f) b = filter (fun j => j <> phi) (instsOf f b).
Proof.
  unfold eliminatePhi.
  destruct (insts (replaceAllUsesWith phi v f) !! phi) as [x|] eqn:E.
  - rewrite (eraseInst_instsOf _ _ _ _ E). case_decide; [right|left]; reflexivity.
  - left. unfold eraseInst. rewrite E. reflexivity.
Qed.

Lemma eliminatePhi_isPHIRef phi v f i :
  i <> phi -> isPHIRef (eliminatePhi phi v f) i = isPHIRef f i.
Proof.
  intros Hne. unfold isPHIRef, opcodeOf. rewrite eliminatePhi_insts.
  case_decide; [congruence|]. destruct (insts f !! i) as [x|]; [|reflexivity].
  simpl. apply isPHI_substOperands.
Qed.

Lemma phisOf_nil f b :
  phisOf f b = []
  <-> instsOf f b = [] \/ exists i, head (instsOf f b) = Some i /\ isPHIRef f i = false.
Proof.
  unfold phisOf. destruct (instsOf f b) as [|i l]; simpl.
  - split; [left; reflexivity|reflexivity].
  - destruct (isPHIRef f i) eqn:E.
    + destruct (splitPhis f l). simpl. split; [discriminate|].
      intros [H|(j & [= <-] & H)]; [discriminate|congruence].
    + simpl. split; [|reflexivity]. intros _. right. exists i. auto.
Qed.

Lemma eliminated_phisOf_nil phi s s' b :
  isPHIRef (func s) phi = true -> eliminated phi s s' ->
  phisOf (func s) b = [] -> phisOf (func s') b = [].
Proof.
  intros Hphi (v0 & b0 & rest & _ & _ & ->) Hnil. simpl_state.
  apply phisOf_nil in Hnil. apply phisOf_nil.
  destruct Hnil as [Hnil|(i & Hi & Hn)].
  - left. destruct (eliminatePhi_instsOf phi v0 (func s) b) as [->| ->];
      rewrite Hnil; reflexivity.
  - right. exists i. assert (Hne : i <> phi) by congruence.
    split; [|rewrite eliminatePhi_isPHIRef by exact Hne; exact Hn].
    destruct (eliminatePhi_instsOf phi v0 (func s) b) as [->| ->]; [exact Hi|].
    destruct (instsOf (func s) b) as [|j l]; [discriminate|]. injection Hi as ->.
    rewrite filter_cons_True by exact Hne. reflexivity.
Qed.

Lemma eliminated_instsOf phi s s' b i :
  eliminated phi s s' -> i ∈ instsOf (func s') b -> i ∈ instsOf (func s) b.
Proof.
  intros (v0 & b0 & rest & _ & _ & ->). simpl_state.
  destruct (eliminatePhi_instsOf phi v0 (func s) b) as [->| ->]; [auto|].
  intros H. apply list_elem_of_filter in H as [_ H]. exact H.
Qed.

Lemma eliminatedAll_phisOf block s s' :
  eliminatedAll block s s' ->
  phisOf (func s') block = []
  /\ (forall b, phisOf (func s) b = [] -> phisOf (func s') b = [])
  /\ (forall b i, i ∈ instsOf (func s') b -> i ∈ instsOf (func s) b).
Proof.
  induction 1 as [s i Hh Hi|s s1 s' phi Hh Hphi He Hall IH].
  - split; [|auto]. apply phisOf_nil. right. exists i. auto.
  - destruct IH as (IH1 & IH2 & IH3). split; [exact IH1|]. split.
    + intros b Hb. apply IH2. eapply eliminated_phisOf_nil; eauto.
    + intros b i Hi. eapply eliminated_instsOf; [exact He|]. apply IH3, Hi.
Qed.

Lemma movedLCSSA_phisOf kept bs s s' :
  movedLCSSA kept bs s s' ->
  (forall b, b ∈ bs -> kept <> Some b -> phisOf (func s') b = [])
  /\ (forall b, phisOf (func s) b = [] -> phisOf (func s') b = [])
  /\ (forall b i, i ∈ instsOf (func s') b -> i ∈ instsOf (func s) b).
Proof.
  induction 1 as [s|b bs s s' Hk Hm IH|b bs s s1 s' Hk He Hm IH].
  - split; [|auto]. intros b Hb. inversion Hb.
  - destruct IH as (IH1 & IH2 & IH3). split; [|auto].
    intros b' Hb' Hk'. apply elem_of_cons in Hb' as [->|Hb']; [congruence|auto].
  - destruct IH as (IH1 & IH2 & IH3).
    destruct (eliminatedAll_phisOf _ _ _ He) as (E1 & E2 & E3).
    split; [|split].
    + intros b' Hb' Hk'. apply elem_of_cons in Hb' as [->|Hb']; [auto|auto].
    + auto.
    + auto.
Qed.

(** The while loop when the linearizer reaches its header: the
    pre-header has been emitted and branches to the relay block 50 of the
    header. *)
Definition loopEntryState : State :=
  match processBlock [whileLoopL] 5 0 None (whileLoopState {[3%nat]}) with
  | Done (_, s) => s
  | Crash _ => whileLoopState {[3%nat]}
  end.

(** The exit relay and the state after the first loop of
    [convertToSingleExitLoop]: the live-out [%i] is tracked and the
    closed-SSA phi node 40 of the exit block reads the tracker state 53. *)
Definition trackedState : option RelayNode * State :=
  match foldM (collectExit [whileLoopL] whileLoopL 0) (None, ∅) [3%nat] loopEntryState with
  | Done ((r, _), s) => (r, s)
  | Crash _ => (None, loopEntryState)
  end.

Definition movedState : State :=
  match moveLCSSANodes whileLoopL 2 2 [3%nat] trackedState.1 trackedState.2 with
  | Done (_, s) => s
  | Crash _ => trackedState.2
  end.

Definition convertedState : State :=
  match convertToSingleExitLoop [whileLoopL] whileLoopL None loopEntryState with
  | Done (_, s) => s
  | Crash _ => loopEntryState
  end.

(** C7, the sentence on migration, refuted: the exit block 3 of the while
    loop is divergent (mandatory) and its closed-SSA phi node 40 reads the
    loop-carried [%i], so it is rewritten to tracker state; the loop is
    converted, its exit relay has the fresh block 51, and the phi node is
    not in that block: it has been deleted, the block is empty and the
    return reads the tracker state 53 directly. *)
Lemma C7_tracked_phi_not_migrated :
  ~ (forall (li : LoopInfo) (L : Loop) (exitRelay : option RelayNode) (s s' : State)
       (relay : RelayNode) (block rb : BlockRef) (phi t : InstRef) (b : BlockRef),
       convertToSingleExitLoop li L exitRelay s = Done (relay, s') ->
       rblock relay = Some rb -> block ∈ getExitBlocks (func s) L -> block <> rb ->
       isMandatory s block = true ->
       phi ∈ phisOf (func s) block ->
       opcodeOf (func s) phi = Some (PHINode [(InstValue t, b)]) ->
       phi ∈ instsOf (func s') rb).
Proof.
  intros H.
  specialize (H [whileLoopL] whileLoopL None loopEntryState convertedState
                (mkRelay 3 3 (Some 51%nat) None) 3%nat 51%nat 40%nat 20%nat 1%nat).
  assert (Hin : 40%nat ∈ instsOf (func convertedState) 51).
  { apply H.
    - vm_compute. reflexivity.
    - reflexivity.
    - apply list_elem_of_In. vm_compute. left. reflexivity.
    - discriminate.
    - vm_compute. reflexivity.
    - apply list_elem_of_In. vm_compute. left. reflexivity.
    - vm_compute. reflexivity. }
  apply list_elem_of_In in Hin. vm_compute in Hin. exact Hin.
Qed.

Example converted_whileLoop :
  insts (func convertedState) !! 40%nat = None
  /\ instsOf (func convertedState) 3 = [41%nat]
  /\ opcodeOf (func convertedState) 41 = Some (ReturnInst (Some (InstValue 53)))
  /\ instsOf (func convertedState) 51 = [].
Proof. repeat split; vm_compute; reflexivity. Qed.

End LcssaFacts.

(** *** The block index *)

Section BlockIndexPrelude.
Import Shape IR Lin Linearizer.

(** Every loop of the tree [L], [L] first. *)
Fixpoint loopsOf (L : Loop) : list Loop :=
  let 'MkLoop _ _ subs := L in L :: flat_map loopsOf subs.

Definition allLoops (li : LoopInfo) : list Loop := flat_map loopsOf li.

(** [addToBlockIndex] as a function on states. *)
Definition indexBlock (s : State) (b : BlockRef) : State :=
  withRelays (fun rs => rs ++ [mkRelay b (getNumBlocks s) None None])
    (withBlockIndex (fun m => <[b := getNumBlocks s]> m) s).

(** The state in which the blocks of [ord] have been indexed, in that
    order, starting from [s]. *)
Definition indexAll (s : State) (ord : list BlockRef) : State :=
  foldl indexBlock s ord.

Lemma indexAll_snoc s ord b : indexAll s (ord ++ [b]) = indexBlock (indexAll s ord) b.
Proof. unfold indexAll. rewrite foldl_app. reflexivity. Qed.

Lemma indexAll_func s ord : func (indexAll s ord) = func s.
Proof.
  induction ord as [|b ord IH] using rev_ind; [reflexivity|].
  rewrite indexAll_snoc. exact IH.
Qed.

Lemma indexAll_relays s ord :
  relays s = [] -> rhead <$> relays (indexAll s ord) = ord.
Proof.
  intros H0. induction ord as [|b ord IH] using rev_ind; [simpl; rewrite H0; reflexivity|].
  rewrite indexAll_snoc. unfold indexBlock. simpl_state.
  rewrite fmap_app, IH. reflexivity.
Qed.

Lemma indexAll_numBlocks s ord :
  relays s = [] -> getNumBlocks (indexAll s ord) = Z.of_nat (length ord).
Proof.
  intros H0. unfold getNumBlocks.
  rewrite <- (indexAll_relays s ord H0) at 2. rewrite length_fmap. reflexivity.
Qed.

Lemma indexAll_blockIndex_snoc s ord b x :
  relays s = [] ->
  blockIndex (indexAll s (ord ++ [b])) !! x
  = if decide (x = b) then Some (Z.of_nat (length ord)) else blockIndex (indexAll s ord) !! x.
Proof.
  intros H0. rewrite indexAll_snoc. unfold indexBlock. simpl_state.
  rewrite (indexAll_numBlocks s ord H0).
  case_decide as Hd; [subst; apply lookup_insert_eq|apply lookup_insert_ne; congruence].
Qed.

Lemma indexAll_is_Some s ord x :
  relays s = [] -> blockIndex s = ∅ ->
  is_Some (blockIndex (indexAll s ord) !! x) <-> x ∈ ord.
Proof.
  intros H0 H1. induction ord as [|b ord IH] using rev_ind.
  - simpl. rewrite H1, lookup_empty. split.
    + intros [? ?]; discriminate.
    + intros H; inversion H.
  - rewrite (indexAll_blockIndex_snoc _ _ _ _ H0), elem_of_app, list_elem_of_singleton.
    case_decide as Hd.
    + subst. split; [auto|eauto].
    + rewrite IH. tauto.
Qed.

Lemma indexAll_indexed s ord x :
  relays s = [] -> blockIndex s = ∅ ->
  indexed (indexAll s ord) x = bool_decide (x ∈ ord).
Proof.
  intros H0 H1. unfold indexed. apply bool_decide_ext, indexAll_is_Some; assumption.
Qed.

(** With distinct blocks, the index of a block is its position. *)
Lemma indexAll_lookup s ord x (i : nat) :
  relays s = [] -> blockIndex s = ∅ -> NoDup ord ->
  blockIndex (indexAll s ord) !! x = Some (Z.of_nat i) <-> ord !! i = Some x.
Proof.
  intros H0 H1. revert i. induction ord as [|b ord IH] using rev_ind; intros i Hnd.
  - simpl. rewrite H1, lookup_empty. split; discriminate.
  - apply NoDup_app in Hnd as (Hnd & Hdisj & _).
    rewrite (indexAll_blockIndex_snoc _ _ _ _ H0). case_decide as Hd.
    + subst x. split.
      * intros [= Hi]. apply Nat2Z.inj in Hi. subst i.
        rewrite lookup_app_r by lia. rewrite Nat.sub_diag. reflexivity.
      * intros Hl. destruct (decide (i < length ord)%nat) as [Hlt|Hge].
        -- rewrite lookup_app_l in Hl by exact Hlt. exfalso.
           apply (Hdisj b); [eapply list_elem_of_lookup_2; eauto|left].
        -- apply lookup_lt_Some in Hl. rewrite length_app in Hl. simpl in Hl.
           f_equal. lia.
    + rewrite (IH i Hnd). split.
      * intros Hl. rewrite lookup_app_l by (eapply lookup_lt_Some; eauto). exact Hl.
      * intros Hl. destruct (decide (i < length ord)%nat) as [Hlt|Hge].
        -- rewrite lookup_app_l in Hl by exact Hlt. exact Hl.
        -- rewrite lookup_app_r in Hl by lia.
           destruct (i - length ord)%nat; simpl in Hl; [congruence|discriminate].
Qed.

Lemma indexAll_lookup_nonneg s ord x z :
  relays s = [] -> blockIndex s = ∅ ->
  blockIndex (indexAll s ord) !! x = Some z -> 0 <= z < Z.of_nat (length ord).
Proof.
  intros H0 H1. induction ord as [|b ord IH] using rev_ind.
  - simpl. rewrite H1, lookup_empty. discriminate.
  - rewrite (indexAll_blockIndex_snoc _ _ _ _ H0), length_app. simpl. case_decide.
    + intros [= <-]. lia.
    + intros Hz. apply IH in Hz. lia.
Qed.


(** Induction on the loop tree. *)
Fixpoint Loop_nested_ind (Q : Loop -> Prop)
    (H : forall h bs subs, Forall Q subs -> Q (MkLoop h bs subs)) (L : Loop) : Q L :=
  match L with
  | MkLoop h bs subs =>
      H h bs subs
        ((fix go (l : list Loop) : Forall Q l :=
            match l with
            | [] => List.Forall_nil Q
            | x :: r => @List.Forall_cons Loop Q x r (Loop_nested_ind Q H x) (go r)
            end) subs)
  end.

Lemma loopsOf_self L : L ∈ loopsOf L.
Proof. destruct L. simpl. left. Qed.

(** The innermost loop around a block is a loop of the tree and contains
    the block. *)
Lemma innermost_Some (L : Loop) :
  forall b M, innermost L b = Some M -> M ∈ loopsOf L /\ b ∈ loopBlocks M.
Proof.
  induction L as [h bs subs IH] using Loop_nested_ind. intros b M.
  cbn [innermost]. case_bool_decide as Hb; [|discriminate].
  set (first := fix first (ls : list Loop) : option Loop :=
         match ls with
         | [] => None
         | c :: r => match innermost c b with Some x => Some x | None => first r end
         end).
  assert (Hfirst : forall X, first subs = Some X ->
            X ∈ flat_map loopsOf subs /\ b ∈ loopBlocks X).
  { induction subs as [|c r IHr]; intros X HX; [discriminate|].
    inversion IH as [|? ? Hc Hr]; subst. cbn [first] in HX.
    destruct (innermost c b) as [x|] eqn:Ec.
    - injection HX as ->. destruct (Hc _ _ Ec) as [H1 H2]. split; [|exact H2].
      simpl. apply elem_of_app. left. exact H1.
    - destruct (IHr Hr _ HX) as [H1 H2]. split; [|exact H2].
      simpl. apply elem_of_app. right. exact H1. }
  destruct (first subs) as [X|] eqn:EX.
  - intros [= <-]. destruct (Hfirst _ eq_refl) as [H1 H2]. split; [|exact H2].
    cbn [loopsOf]. right. exact H1.
  - intros [= <-]. split; [apply loopsOf_self|exact Hb].
Qed.

Lemma getLoopFor_Some (li : LoopInfo) (b : BlockRef) (M : Loop) :
  getLoopFor li b = Some M -> M ∈ allLoops li /\ b ∈ loopBlocks M.
Proof.
  unfold allLoops. induction li as [|L r IH]; [discriminate|]. cbn [getLoopFor].
  destruct (innermost L b) as [x|] eqn:E.
  - intros [= ->]. destruct (innermost_Some _ _ _ E) as [H1 H2]. split; [|exact H2].
    simpl. apply elem_of_app. left. exact H1.
  - intros H. destruct (IH H) as [H1 H2]. split; [|exact H2].
    simpl. apply elem_of_app. right. exact H1.
Qed.

Lemma predecessors_layout (f : Function) (b p : BlockRef) :
  p ∈ predecessors f b -> p ∈ layout f.
Proof.
  unfold predecessors. intros H. apply list_elem_of_In, in_flat_map in H as (q & Hq & H).
  apply in_map_iff in H as (y & <- & _). apply list_elem_of_In, Hq.
Qed.

Lemma NoDup_fmap_eq {A B : Type} (g : A -> B) (l : list A) (x y : A) :
  NoDup (g <$> l) -> x ∈ l -> y ∈ l -> g x = g y -> x = y.
Proof.
  induction l as [|a l IH]; [intros _ H; inversion H|].
  rewrite fmap_cons, NoDup_cons. intros [Hn Hnd] Hx Hy E.
  apply elem_of_cons in Hx as [->|Hx]; apply elem_of_cons in Hy as [->|Hy].
  - reflexivity.
  - exfalso. apply Hn. rewrite E. apply list_elem_of_fmap_2, Hy.
  - exfalso. apply Hn. rewrite <- E. apply list_elem_of_fmap_2, Hx.
  - apply IH; assumption.
Qed.

End BlockIndexPrelude.

Section BlockIndexFacts.
Import Shape IR Lin Linearizer.
Context (li : LoopInfo) (region : gset nat) (s0 : State).

Definition st (ord : list BlockRef) : State := indexAll s0 ord.

(** The loop whose header [x] is, if any. *)
Definition filt (x : BlockRef) : option Loop :=
  match getLoopFor li x with
  | Some L => if bool_decide (getHeader L = x) then Some L else None
  | None => None
  end.

(** The predecessors a block waits for. *)
Definition upreds (x : BlockRef) : list BlockRef :=
  filter (fun p => inRegion region p
                   && match filt x with
                      | Some L => negb (contains L p)
                      | None => true
                      end = true)
         (predecessors (func s0) x).

(** The predecessors of the header of [L] outside the loop. *)
Definition entries (L : Loop) : list BlockRef :=
  filter (fun p => inRegion region p && negb (contains L p) = true)
         (predecessors (func s0) (getHeader L)).

Definition notFirst (x : BlockRef) (P : gset nat) : Prop :=
  match getLoopFor li x with
  | Some L => getHeader L ∈ P
  | None => True
  end.

Hypothesis Hrel : relays s0 = [].
Hypothesis Hidx : blockIndex s0 = ∅.

Lemma pendingPreds_st ord fl x :
  pendingPreds region (st ord) fl x
  = filter (fun p => p ∉ ord)
      (filter (fun p => inRegion region p
                        && match fl with
                           | Some L => negb (contains L p)
                           | None => true
                           end = true)
              (predecessors (func s0) x)).
Proof using Hrel Hidx.
  unfold pendingPreds, st. rewrite indexAll_func, list_filter_filter.
  apply list_filter_iff. intros p. rewrite (indexAll_indexed _ _ _ Hrel Hidx).
  rewrite andb_true_iff, negb_true_iff, bool_decide_eq_false. tauto.
Qed.

Lemma step_skip k x rest P ord :
  x ∈ ord ->
  indexStack li region (S k) (x :: rest) P (st ord) = indexStack li region k rest P (st ord).
Proof using Hrel Hidx.
  intros Hx. cbn [indexStack]. unfold mbind at 1, Lin_bind at 1, getState.
  unfold st at 1. rewrite (indexAll_indexed _ _ _ Hrel Hidx), bool_decide_eq_true_2 by exact Hx.
  reflexivity.
Qed.


Lemma indexed_st ord x : x ∉ ord -> indexed (st ord) x = false.
Proof using Hrel Hidx.
  intros Hx. unfold st. rewrite (indexAll_indexed _ _ _ Hrel Hidx).
  apply bool_decide_eq_false_2, Hx.
Qed.

Lemma step_first k x rest P ord L l :
  x ∉ ord -> getLoopFor li x = Some L -> getHeader L ∉ P ->
  getLoopLatch (func s0) L = Some l ->
  indexStack li region (S k) (x :: rest) P (st ord)
  = indexStack li region k
      (rev (filter (fun p => p ∉ ord) (entries L)) ++ l :: rest)
      ({[getHeader L]} ∪ P) (st ord).
Proof using Hrel Hidx.
  intros Hx HL HP Hl. cbn [indexStack]. unfold mbind at 1, Lin_bind at 1, getState.
  rewrite (indexed_st _ _ Hx), HL.
  rewrite (bool_decide_eq_false_2 _ HP). cbn [negb].
  unfold theLatch. unfold mbind at 1, Lin_bind at 1.
  unfold mbind at 1, Lin_bind at 1, gets. unfold st at 1. rewrite indexAll_func, Hl.
  cbn [deref mret Lin_ret]. rewrite pendingPreds_st. reflexivity.
Qed.

Lemma pending_upreds ord x :
  pendingPreds region (st ord) (filt x) x = filter (fun p => p ∉ ord) (upreds x).
Proof using Hrel Hidx. apply pendingPreds_st. Qed.

Lemma step_pending k x rest P ord p ps :
  x ∉ ord -> notFirst x P ->
  filter (fun p => p ∉ ord) (upreds x) = p :: ps ->
  indexStack li region (S k) (x :: rest) P (st ord)
  = indexStack li region k (rev (p :: ps) ++ x :: rest) P (st ord).
Proof using Hrel Hidx.
  intros Hx HP Hp. cbn [indexStack]. unfold mbind at 1, Lin_bind at 1, getState.
  rewrite (indexed_st _ _ Hx). rewrite <- pending_upreds in Hp.
  unfold notFirst in HP. unfold filt in Hp.
  destruct (getLoopFor li x) as [L|].
  - rewrite (bool_decide_eq_true_2 _ HP). cbn [negb].
    destruct (bool_decide (getHeader L = x)); rewrite Hp; reflexivity.
  - rewrite Hp. reflexivity.
Qed.

Lemma addToBlockIndex_st ord x :
  Z.of_nat (length ord) < INT_MAX ->
  addToBlockIndex x (st ord) = Done ((), st (ord ++ [x])).
Proof using Hrel Hidx.
  intros Hn. unfold addToBlockIndex.
  unfold mbind, Lin_bind, getState, assert, modify.
  unfold st. rewrite (indexAll_numBlocks _ _ Hrel).
  replace (Z.of_nat (length ord) <? INT_MAX) with true by (symmetry; apply Z.ltb_lt, Hn).
  cbn [mret Lin_ret]. rewrite indexAll_snoc. unfold indexBlock.
  rewrite (indexAll_numBlocks _ _ Hrel). reflexivity.
Qed.

Lemma step_index_plain k x rest P ord :
  x ∉ ord -> notFirst x P -> filt x = None ->
  filter (fun p => p ∉ ord) (upreds x) = [] ->
  Z.of_nat (length ord) < INT_MAX ->
  indexStack li region (S k) (x :: rest) P (st ord)
  = indexStack li region k rest P (st (ord ++ [x])).
Proof using Hrel Hidx.
  intros Hx HP Hf Hp Hn. cbn [indexStack]. unfold mbind at 1, Lin_bind at 1, getState.
  rewrite (indexed_st _ _ Hx). rewrite <- pending_upreds in Hp.
  unfold notFirst in HP. unfold filt in Hp, Hf.
  destruct (getLoopFor li x) as [L|].
  - rewrite (bool_decide_eq_true_2 _ HP). cbn [negb].
    destruct (bool_decide (getHeader L = x)); [discriminate|]. rewrite Hp.
    unfold mbind at 1, Lin_bind at 1. rewrite (addToBlockIndex_st _ _ Hn). reflexivity.
  - rewrite Hp. unfold mbind at 1, Lin_bind at 1. rewrite (addToBlockIndex_st _ _ Hn).
    reflexivity.
Qed.

Lemma step_index_header k x rest P ord F l :
  x ∉ ord -> notFirst x P -> filt x = Some F ->
  getLoopLatch (func s0) F = Some l ->
  filter (fun p => p ∉ ord) (upreds x) = [] ->
  Z.of_nat (length ord) < INT_MAX ->
  indexStack li region (S k) (x :: rest) P (st ord)
  = indexStack li region k (if bool_decide (l ∈ ord ++ [x]) then rest else l :: rest)
      P (st (ord ++ [x])).
Proof using Hrel Hidx.
  intros Hx HP Hf Hl Hp Hn. cbn [indexStack]. unfold mbind at 1, Lin_bind at 1, getState.
  rewrite (indexed_st _ _ Hx). rewrite <- pending_upreds in Hp.
  unfold notFirst in HP. unfold filt in Hp, Hf.
  destruct (getLoopFor li x) as [L|]; [|discriminate].
  rewrite (bool_decide_eq_true_2 _ HP). cbn [negb].
  destruct (bool_decide (getHeader L = x)); [|discriminate]. injection Hf as ->.
  rewrite Hp.
  unfold mbind at 1, Lin_bind at 1. rewrite (addToBlockIndex_st _ _ Hn).
  unfold mbind at 1, Lin_bind at 1, gets. unfold st at 1. rewrite indexAll_func, Hl.
  unfold mbind at 1, Lin_bind at 1, getState.
  unfold st at 1. rewrite (indexAll_indexed _ _ _ Hrel Hidx).
  destruct (bool_decide (l ∈ ord ++ [x])); reflexivity.
Qed.


(** A ranking of the blocks. *)
Context (rank : BlockRef -> nat).

(** The blocks of the region, the loops of all depths and the
    predecessors inside the region. *)
Definition nodes : list BlockRef :=
  filter (fun b => inRegion region b = true) (layout (func s0)).

Definition loops : list Loop := allLoops li.

Definition rpreds (x : BlockRef) : list BlockRef :=
  filter (fun p => inRegion region p = true) (predecessors (func s0) x).

(** A natural loop in canonical form: it is the innermost loop of its
    header and of its single latch, lies in the region, is entered through
    its header only, every block but the header waits for some
    predecessor, every block whose innermost loop it is (but the latch)
    has a successor in the loop that waits for it, the blocks reached when
    the loop is left rank above the loop, and a loop nested in it does not
    hold its latch and is left towards a block of it. *)
Definition wfLoop (L : Loop) : Prop :=
  getHeader <$> getLoopFor li (getHeader L) = Some (getHeader L)
  /\ Forall (fun b => b ∈ nodes) (loopBlocks L)
  /\ match getLoopLatch (func s0) L with
     | Some l => getHeader <$> getLoopFor li l = Some (getHeader L)
     | None => False
     end
  /\ Forall (fun b => b <> getHeader L ->
               upreds b <> [] /\ Forall (fun p => p ∈ loopBlocks L) (rpreds b))
            (loopBlocks L)
  /\ Forall (fun b => getHeader <$> getLoopFor li b = Some (getHeader L) ->
               getLoopLatch (func s0) L <> Some b ->
               Exists (fun c => b ∈ upreds c) (loopBlocks L))
            (loopBlocks L)
  /\ Forall (fun c => c ∉ loopBlocks L ->
               Forall (fun e => e ∈ loopBlocks L ->
                         Forall (fun b => (rank b < rank c)%nat) (loopBlocks L))
                      (upreds c))
            nodes
  /\ Forall (fun S => getHeader S <> getHeader L -> loopBlocks S ⊆ loopBlocks L ->
               Forall (fun b => getLoopLatch (func s0) L <> Some b) (loopBlocks S)
               /\ Exists (fun e => Exists (fun c => (c ∉ loopBlocks S) /\ (e ∈ upreds c))
                                     (loopBlocks L))
                         (loopBlocks S))
            loops.

(** The control flow graph of the region with its loops: a block ranks
    above the predecessors it waits for, the loops have distinct headers
    and are well formed, and [getLoopFor] yields the innermost loop. *)
Definition wfRegion : Prop :=
  Forall (fun b => Forall (fun p => (rank p < rank b)%nat) (upreds b)) nodes
  /\ NoDup (getHeader <$> loops)
  /\ Forall wfLoop loops
  /\ Forall (fun x => match getLoopFor li x with
                      | Some M => Forall (fun L => x ∈ loopBlocks L ->
                                            loopBlocks M ⊆ loopBlocks L) loops
                      | None => Forall (fun L => x ∉ loopBlocks L) loops
                      end) nodes
  /\ Z.of_nat (length nodes) < INT_MAX.

#[global] Instance wfLoop_dec L : Decision (wfLoop L).
Proof. unfold wfLoop. destruct (getLoopLatch (func s0) L); apply _. Defined.

#[global] Instance wfRegion_dec : Decision wfRegion.
Proof.
  unfold wfRegion.
  assert (forall x, Decision (match getLoopFor li x with
                      | Some M => Forall (fun L => x ∈ loopBlocks L ->
                                            loopBlocks M ⊆ loopBlocks L) loops
                      | None => Forall (fun L => x ∉ loopBlocks L) loops
                      end)) by (intros x; destruct (getLoopFor li x); apply _).
  apply _.
Defined.

Lemma wfRegion_decide : bool_decide wfRegion = true -> wfRegion.
Proof. apply bool_decide_eq_true_1. Qed.


(** *** Consequences of well-formedness *)

Lemma upreds_rpreds x p : p ∈ upreds x -> p ∈ rpreds x.
Proof. clear rank.
  unfold upreds, rpreds. rewrite !list_elem_of_filter, andb_true_iff. tauto.
Qed.

Lemma rpreds_nodes x p : p ∈ rpreds x -> p ∈ nodes.
Proof.
  unfold rpreds, nodes. rewrite !list_elem_of_filter. intros [H1 H2].
  split; [exact H1|]. eapply predecessors_layout, H2.
Qed.

Lemma upreds_nodes x p : p ∈ upreds x -> p ∈ nodes.
Proof. intros H. eapply rpreds_nodes, upreds_rpreds, H. Qed.

Lemma entries_rpreds L p : p ∈ entries L -> p ∈ rpreds (getHeader L).
Proof. clear rank.
  unfold entries, rpreds. rewrite !list_elem_of_filter, andb_true_iff. tauto.
Qed.

Lemma wf_loop L : wfRegion -> L ∈ loops -> wfLoop L.
Proof. intros (_ & _ & H & _) HL. rewrite Forall_forall in H. apply H, HL. Qed.

Lemma wf_rank b p : wfRegion -> b ∈ nodes -> p ∈ upreds b -> (rank p < rank b)%nat.
Proof.
  intros (H & _) Hb Hp. rewrite Forall_forall in H. specialize (H _ Hb).
  rewrite Forall_forall in H. apply H, Hp.
Qed.

Lemma wf_max : wfRegion -> Z.of_nat (length nodes) < INT_MAX.
Proof. intros (_ & _ & _ & _ & H). exact H. Qed.

Lemma wf_header_eq L L' :
  wfRegion -> L ∈ loops -> L' ∈ loops -> getHeader L = getHeader L' -> L = L'.
Proof. intros (_ & H & _). apply NoDup_fmap_eq, H. Qed.

Lemma wf_for x M :
  wfRegion -> x ∈ nodes -> getLoopFor li x = Some M ->
  M ∈ loops /\ x ∈ loopBlocks M
  /\ forall L y, L ∈ loops -> x ∈ loopBlocks L -> y ∈ loopBlocks M -> y ∈ loopBlocks L.
Proof.
  intros (_ & _ & _ & H & _) Hx HM. destruct (getLoopFor_Some _ _ _ HM) as [H1 H2].
  split; [exact H1|]. split; [exact H2|].
  rewrite Forall_forall in H. specialize (H _ Hx). rewrite HM in H.
  rewrite Forall_forall in H. intros L y HL HxL Hy. apply (H L HL HxL), Hy.
Qed.

Lemma wf_for_None x L :
  wfRegion -> x ∈ nodes -> getLoopFor li x = None -> L ∈ loops -> x ∉ loopBlocks L.
Proof.
  intros (_ & _ & _ & H & _) Hx HM HL.
  rewrite Forall_forall in H. specialize (H _ Hx). rewrite HM in H.
  rewrite Forall_forall in H. apply H, HL.
Qed.

Lemma wf_blocks L b : wfRegion -> L ∈ loops -> b ∈ loopBlocks L -> b ∈ nodes.
Proof.
  intros W HL Hb. destruct (wf_loop _ W HL) as (_ & H & _).
  rewrite Forall_forall in H. apply H, Hb.
Qed.

(** A loop of the tree with the header of [M] is [M]. *)
Lemma wf_for_header x M L :
  wfRegion -> getLoopFor li x = Some M -> L ∈ loops ->
  getHeader M = getHeader L -> M = L.
Proof.
  intros W HM HL E. apply (wf_header_eq _ _ W); [|exact HL|exact E].
  apply (getLoopFor_Some _ _ _ HM).
Qed.

Lemma wf_hdr_for L : wfRegion -> L ∈ loops -> getLoopFor li (getHeader L) = Some L.
Proof.
  intros W HL. destruct (wf_loop _ W HL) as (H & _).
  destruct (getLoopFor li (getHeader L)) as [M|] eqn:E; [|discriminate].
  injection H as H. f_equal. eapply wf_for_header; eauto.
Qed.

Lemma wf_hdr_in L : wfRegion -> L ∈ loops -> getHeader L ∈ loopBlocks L.
Proof. intros W HL. apply (getLoopFor_Some _ _ _ (wf_hdr_for _ W HL)). Qed.

Lemma wf_filt_header L : wfRegion -> L ∈ loops -> filt (getHeader L) = Some L.
Proof.
  intros W HL. unfold filt. rewrite (wf_hdr_for _ W HL).
  rewrite bool_decide_eq_true_2 by reflexivity. reflexivity.
Qed.

Lemma filt_Some x F : filt x = Some F -> getLoopFor li x = Some F /\ getHeader F = x.
Proof.
  unfold filt. destruct (getLoopFor li x) as [L|]; [|discriminate].
  case_bool_decide; [|discriminate]. intros [= ->]. auto.
Qed.

Lemma filt_None_header x L :
  wfRegion -> L ∈ loops -> filt x = None -> getHeader L <> x.
Proof. intros W HL Hf <-. rewrite (wf_filt_header _ W HL) in Hf. discriminate. Qed.

Lemma wf_upreds_header L : wfRegion -> L ∈ loops -> upreds (getHeader L) = entries L.
Proof. intros W HL. unfold upreds, entries. rewrite (wf_filt_header _ W HL). reflexivity. Qed.

Lemma getLoopLatch_in L l : getLoopLatch (func s0) L = Some l -> l ∈ loopBlocks L.
Proof.
  intros H. apply getLoopLatch_contains in H. unfold contains in H.
  apply bool_decide_eq_true_1 in H. exact H.
Qed.

Lemma wf_latch L :
  wfRegion -> L ∈ loops ->
  exists l, getLoopLatch (func s0) L = Some l /\ getLoopFor li l = Some L
            /\ l ∈ loopBlocks L.
Proof.
  intros W HL. destruct (wf_loop _ W HL) as (_ & _ & H & _).
  destruct (getLoopLatch (func s0) L) as [l|] eqn:El; [|contradiction].
  exists l. split; [reflexivity|]. split; [|apply getLoopLatch_in, El].
  destruct (getLoopFor li l) as [M|] eqn:E; [|discriminate].
  injection H as H. f_equal. eapply wf_for_header; eauto.
Qed.

Lemma wf_single_entry L b p :
  wfRegion -> L ∈ loops -> b ∈ loopBlocks L -> b <> getHeader L ->
  p ∈ rpreds b -> p ∈ loopBlocks L.
Proof.
  intros W HL Hb Hne Hp. destruct (wf_loop _ W HL) as (_ & _ & _ & H & _).
  rewrite Forall_forall in H. destruct (H _ Hb Hne) as [_ H2].
  rewrite Forall_forall in H2. apply H2, Hp.
Qed.

Lemma wf_has_upred L b :
  wfRegion -> L ∈ loops -> b ∈ loopBlocks L -> b <> getHeader L ->
  exists p, p ∈ upreds b /\ p ∈ loopBlocks L.
Proof.
  intros W HL Hb Hne. destruct (wf_loop _ W HL) as (_ & _ & _ & H & _).
  rewrite Forall_forall in H. destruct (H _ Hb Hne) as [H1 _].
  assert (Hex : exists p, p ∈ upreds b).
  { destruct (upreds b) as [|p r]; [congruence|]. exists p. left. }
  destruct Hex as [p Hp].
  exists p. split; [exact Hp|]. eapply wf_single_entry; eauto using upreds_rpreds.
Qed.

Lemma wf_successor L b :
  wfRegion -> L ∈ loops -> b ∈ loopBlocks L -> getLoopFor li b = Some L ->
  getLoopLatch (func s0) L <> Some b ->
  exists c, c ∈ loopBlocks L /\ b ∈ upreds c.
Proof.
  intros W HL Hb Hf Hl. destruct (wf_loop _ W HL) as (_ & _ & _ & _ & H & _).
  rewrite Forall_forall in H. specialize (H _ Hb). rewrite Hf in H.
  specialize (H eq_refl Hl). apply Exists_exists in H. exact H.
Qed.

Lemma wf_exit_rank L c e b :
  wfRegion -> L ∈ loops -> c ∈ nodes -> c ∉ loopBlocks L -> e ∈ upreds c ->
  e ∈ loopBlocks L -> b ∈ loopBlocks L -> (rank b < rank c)%nat.
Proof.
  intros W HL Hc Hn He HeL Hb.
  destruct (wf_loop _ W HL) as (_ & _ & _ & _ & _ & H & _).
  rewrite Forall_forall in H. specialize (H _ Hc Hn).
  rewrite Forall_forall in H. specialize (H _ He HeL).
  rewrite Forall_forall in H. apply H, Hb.
Qed.

Lemma wf_nested L S l :
  wfRegion -> L ∈ loops -> S ∈ loops -> getHeader S <> getHeader L ->
  (forall y, y ∈ loopBlocks S -> y ∈ loopBlocks L) ->
  getLoopLatch (func s0) L = Some l ->
  (l ∉ loopBlocks S)
  /\ exists e c, e ∈ loopBlocks S /\ c ∈ loopBlocks L /\ (c ∉ loopBlocks S) /\ e ∈ upreds c.
Proof.
  intros W HL HS Hne Hsub Hl.
  destruct (wf_loop _ W HL) as (_ & _ & _ & _ & _ & _ & H).
  rewrite Forall_forall in H. destruct (H _ HS Hne Hsub) as [H1 H2]. split.
  - intros Hin. rewrite Forall_forall in H1. apply (H1 _ Hin), Hl.
  - apply Exists_exists in H2 as (e & He & H2).
    apply Exists_exists in H2 as (c & Hc & Hn & Hu). eauto 8.
Qed.

(** The header has the least rank of its loop. *)
Lemma wf_rank_header L :
  wfRegion -> L ∈ loops ->
  forall b, b ∈ loopBlocks L -> (rank (getHeader L) <= rank b)%nat.
Proof.
  intros W HL b. remember (rank b) as n eqn:En. revert b En.
  induction n as [n IH] using lt_wf_ind. intros b -> Hb.
  destruct (decide (b = getHeader L)) as [->|Hne]; [lia|].
  destruct (wf_has_upred _ _ W HL Hb Hne) as (p & Hp & HpL).
  pose proof (wf_rank _ _ W (wf_blocks _ _ W HL Hb) Hp) as Hlt.
  specialize (IH (rank p) Hlt p eq_refl HpL). lia.
Qed.


(** *** The invariant of the loop over the stack *)

(** The blocks of [L] sit side by side in [ord], from the header to the
    latch. *)
Definition Seg (L : Loop) (ord : list BlockRef) : Prop :=
  exists pre mid post l,
    ord = pre ++ mid ++ post
    /\ head mid = Some (getHeader L)
    /\ getLoopLatch (func s0) L = Some l
    /\ last mid = Some l
    /\ forall b, b ∈ mid <-> b ∈ loopBlocks L.

(** [ord]: the indexed blocks in the order of their indices; [P]: the
    headers of the pushed loops; [A]: the loops whose header is indexed and
    whose latch is being processed. *)
Record Inv (ord : list BlockRef) (P : gset nat) (A : list Loop) : Prop := mkInv {
  inv_nodup : NoDup ord;
  inv_nodes : forall b, b ∈ ord -> b ∈ nodes;
  inv_closed : forall b p, b ∈ ord -> p ∈ upreds b -> p ∈ ord;
  inv_header : forall L b, L ∈ loops -> b ∈ loopBlocks L -> b ∈ ord -> getHeader L ∈ ord;
  inv_pushed : forall L, L ∈ loops -> getHeader L ∈ ord -> getHeader L ∈ P;
  inv_seg : forall L, L ∈ loops -> getHeader L ∈ ord -> Seg L ord \/ L ∈ A
}.

(** The loops [C] the processing is confined to: they are pushed and the
    predecessors of their headers outside are indexed. *)
Definition ctxOK (C : list Loop) (ord : list BlockRef) (P : gset nat) : Prop :=
  forall L, L ∈ C ->
    L ∈ loops /\ getHeader L ∈ P /\ forall p, p ∈ entries L -> p ∈ ord.

Definition inAll (C : list Loop) (x : BlockRef) : Prop :=
  forall L, L ∈ C -> x ∈ loopBlocks L.

Definition actOK (A C : list Loop) (ord : list BlockRef) : Prop :=
  forall L, L ∈ A -> L ∈ C /\ getHeader L ∈ ord.

(** The blocks indexed on the way to a block of rank at most [r]. *)
Definition newChar (r : nat) (ord new : list BlockRef) : Prop :=
  forall b, b ∈ new ->
    (rank b <= r)%nat
    \/ exists L, L ∈ loops /\ b ∈ loopBlocks L /\ (getHeader L ∉ ord)
                 /\ (rank (getHeader L) <= r)%nat.

Definition lastPrem (x : BlockRef) (ord : list BlockRef) : Prop :=
  (x ∉ ord) /\ filt x = None
  /\ forall L, L ∈ loops -> x ∈ loopBlocks L -> getHeader L ∈ ord.

Definition Post (x : BlockRef) (ord : list BlockRef) (P : gset nat) (A C : list Loop)
    (ord' : list BlockRef) (P' : gset nat) : Prop :=
  exists new,
    ord' = ord ++ new
    /\ (forall b, b ∈ new -> inAll C b)
    /\ x ∈ ord'
    /\ P ⊆ P'
    /\ Inv ord' P' A
    /\ newChar (rank x) ord new
    /\ (lastPrem x ord -> last ord' = Some x).

Definition PostList (ps : list BlockRef) (r : nat) (ord : list BlockRef) (P : gset nat)
    (A C : list Loop) (ord' : list BlockRef) (P' : gset nat) : Prop :=
  exists new,
    ord' = ord ++ new
    /\ (forall b, b ∈ new -> inAll C b)
    /\ (forall p, p ∈ ps -> p ∈ ord')
    /\ P ⊆ P'
    /\ Inv ord' P' A
    /\ newChar r ord new.

(** From [stack] the loop reaches [stack'], whatever fuel is left. *)
Definition Runs (stack : list BlockRef) (P : gset nat) (ord : list BlockRef)
    (stack' : list BlockRef) (P' : gset nat) (ord' : list BlockRef) : Prop :=
  exists n, forall k,
    indexStack li region (n + k) stack P (st ord)
    = indexStack li region k stack' P' (st ord').

Lemma Runs_refl stack P ord : Runs stack P ord stack P ord.
Proof. exists 0%nat. reflexivity. Qed.

Lemma Runs_trans s1 P1 o1 s2 P2 o2 s3 P3 o3 :
  Runs s1 P1 o1 s2 P2 o2 -> Runs s2 P2 o2 s3 P3 o3 -> Runs s1 P1 o1 s3 P3 o3.
Proof.
  intros [n1 H1] [n2 H2]. exists (n1 + n2)%nat. intros k.
  rewrite <- Nat.add_assoc, H1, H2. reflexivity.
Qed.

Lemma Runs_step s1 P1 o1 s2 P2 o2 :
  (forall k, indexStack li region (S k) s1 P1 (st o1) = indexStack li region k s2 P2 (st o2)) ->
  Runs s1 P1 o1 s2 P2 o2.
Proof. intros H. exists 1%nat. intros k. apply H. Qed.

(** The measure: blocks without index and loops not pushed. *)
Definition meas (ord : list BlockRef) (P : gset nat) : nat :=
  (length (filter (fun b => b ∉ ord) nodes)
   + length (filter (fun h => h ∉ P) (getHeader <$> loops)))%nat.

Lemma length_filter_mono {A : Type} (Q1 Q2 : A -> Prop)
    `{!forall x, Decision (Q1 x)} `{!forall x, Decision (Q2 x)} (l : list A) :
  (forall x, Q1 x -> Q2 x) -> (length (filter Q1 l) <= length (filter Q2 l))%nat.
Proof.
  intros HQ. induction l as [|a l IH]; [reflexivity|].
  rewrite !filter_cons. destruct (decide (Q1 a)) as [H1|H1].
  - rewrite decide_True by auto. simpl. lia.
  - destruct (decide (Q2 a)); simpl; lia.
Qed.

Lemma length_filter_strict {A : Type} (Q1 Q2 : A -> Prop)
    `{!forall x, Decision (Q1 x)} `{!forall x, Decision (Q2 x)} (l : list A) (a : A) :
  (forall x, Q1 x -> Q2 x) -> a ∈ l -> Q2 a -> ~ Q1 a ->
  (length (filter Q1 l) < length (filter Q2 l))%nat.
Proof.
  intros HQ Ha H2 H1. induction l as [|b l IH]; [inversion Ha|].
  rewrite !filter_cons. apply elem_of_cons in Ha as [<-|Ha].
  - rewrite decide_False by exact H1. rewrite decide_True by exact H2. simpl.
    pose proof (length_filter_mono Q1 Q2 l HQ). lia.
  - specialize (IH Ha). destruct (decide (Q1 b)) as [Hb|Hb].
    + rewrite decide_True by auto. simpl. lia.
    + destruct (decide (Q2 b)); simpl; lia.
Qed.

Lemma meas_mono ord P ord' P' :
  (forall b, b ∈ ord -> b ∈ ord') -> P ⊆ P' -> (meas ord' P' <= meas ord P)%nat.
Proof.
  intros Ho HP. unfold meas.
  pose proof (length_filter_mono (fun b => b ∉ ord') (fun b => b ∉ ord) nodes) as H1.
  pose proof (length_filter_mono (fun h => h ∉ P') (fun h => h ∉ P) (getHeader <$> loops)) as H2.
  assert (forall x, x ∉ ord' -> x ∉ ord) by (intros x Hn Hx; apply Hn, Ho, Hx).
  assert (forall x, x ∉ P' -> x ∉ P) by (intros x Hn Hx; apply Hn, HP, Hx).
  specialize (H1 ltac:(assumption)). specialize (H2 ltac:(assumption)). lia.
Qed.

Lemma meas_index ord P ord' P' x :
  (forall b, b ∈ ord -> b ∈ ord') -> P ⊆ P' -> x ∈ nodes -> x ∉ ord -> x ∈ ord' ->
  (meas ord' P' < meas ord P)%nat.
Proof.
  intros Ho HP Hx Hn Hx'. unfold meas.
  pose proof (length_filter_strict (fun b => b ∉ ord') (fun b => b ∉ ord) nodes x) as H1.
  pose proof (length_filter_mono (fun h => h ∉ P') (fun h => h ∉ P) (getHeader <$> loops)) as H2.
  assert (forall x, x ∉ ord' -> x ∉ ord) by (intros y Hy Hy'; apply Hy, Ho, Hy').
  assert (forall x, x ∉ P' -> x ∉ P) by (intros y Hy Hy'; apply Hy, HP, Hy').
  specialize (H1 ltac:(assumption) Hx Hn ltac:(auto)). specialize (H2 ltac:(assumption)). lia.
Qed.

Lemma meas_push ord P L :
  L ∈ loops -> getHeader L ∉ P -> (meas ord ({[getHeader L]} ∪ P) < meas ord P)%nat.
Proof.
  intros HL Hn. unfold meas.
  pose proof (length_filter_strict (fun h => h ∉ {[getHeader L]} ∪ P) (fun h => h ∉ P)
                (getHeader <$> loops) (getHeader L)) as H2.
  assert (forall x, x ∉ {[getHeader L]} ∪ P -> x ∉ P).
  { intros y Hy Hy'. apply Hy, elem_of_union. right. exact Hy'. }
  specialize (H2 ltac:(assumption) (list_elem_of_fmap_2 _ _ _ HL) Hn).
  assert (Hnn : ~ (getHeader L ∉ {[getHeader L]} ∪ P)).
  { intros Hy. apply Hy, elem_of_union. left. apply elem_of_singleton. reflexivity. }
  specialize (H2 Hnn). lia.
Qed.


Lemma Seg_app L ord new : Seg L ord -> Seg L (ord ++ new).
Proof.
  intros (pre & mid & post & l & -> & H1 & H2 & H3 & H4).
  exists pre, mid, (post ++ new), l. rewrite <- !app_assoc. auto.
Qed.

Lemma Seg_elem L ord b : Seg L ord -> b ∈ loopBlocks L -> b ∈ ord.
Proof.
  intros (pre & mid & post & l & -> & _ & _ & _ & H4) Hb.
  apply elem_of_app. right. apply elem_of_app. left. apply H4, Hb.
Qed.

Lemma ctxOK_mono C ord P ord' P' :
  (forall b, b ∈ ord -> b ∈ ord') -> P ⊆ P' -> ctxOK C ord P -> ctxOK C ord' P'.
Proof.
  intros Ho HP H L HL. destruct (H L HL) as (H1 & H2 & H3).
  split; [exact H1|]. split; [apply HP, H2|]. intros p Hp. apply Ho, H3, Hp.
Qed.

Lemma actOK_mono A C ord ord' :
  (forall b, b ∈ ord -> b ∈ ord') -> actOK A C ord -> actOK A C ord'.
Proof. intros Ho H L HL. destruct (H L HL) as [H1 H2]. split; [exact H1|apply Ho, H2]. Qed.

Lemma newChar_mono r r' ord ord' new :
  (r <= r')%nat -> (forall b, b ∈ ord -> b ∈ ord') ->
  newChar r ord' new -> newChar r' ord new.
Proof.
  intros Hr Ho H b Hb. destruct (H b Hb) as [H1|(L & H1 & H2 & H3 & H4)].
  - left. lia.
  - right. exists L. split; [exact H1|]. split; [exact H2|].
    split; [intros Hin; apply H3, Ho, Hin|lia].
Qed.

Lemma newChar_app r ord new1 new2 :
  newChar r ord new1 -> newChar r ord new2 -> newChar r ord (new1 ++ new2).
Proof. intros H1 H2 b Hb. apply elem_of_app in Hb as [Hb|Hb]; auto. Qed.

(** When the latch of a loop whose header is indexed has got its index,
    every block of the loop has one. *)
Lemma loop_complete (F : Loop) (l : BlockRef) (ord : list BlockRef) (P : gset nat)
    (A : list Loop) :
  wfRegion -> F ∈ loops -> getLoopLatch (func s0) F = Some l ->
  Inv ord P (F :: A) -> l ∈ ord -> (forall T, T ∈ A -> l ∈ loopBlocks T) ->
  forall b, b ∈ loopBlocks F -> b ∈ ord.
Proof.
  intros W HF Hl HI Hlo HA.
  set (R := foldr Nat.max 0%nat (rank <$> loopBlocks F)).
  assert (HR : forall c, c ∈ loopBlocks F -> (rank c <= R)%nat).
  { unfold R. induction (loopBlocks F) as [|a bs IH]; intros c Hc; [inversion Hc|].
    rewrite fmap_cons. cbn [foldr]. apply elem_of_cons in Hc as [->|Hc].
    - apply Nat.le_max_l.
    - etransitivity; [apply (IH c Hc)|apply Nat.le_max_r]. }
  intros b. remember (R - rank b)%nat as n eqn:En. revert b En.
  induction n as [n IH] using lt_wf_ind. intros b -> Hb.
  destruct (decide (b = l)) as [->|Hbl]; [exact Hlo|].
  assert (Hnl : getLoopLatch (func s0) F <> Some b) by (rewrite Hl; congruence).
  pose proof (wf_blocks _ _ W HF Hb) as Hbn.
  assert (Hstep : forall c, c ∈ loopBlocks F -> (rank b < rank c)%nat -> c ∈ ord).
  { intros c Hc Hlt. pose proof (HR c Hc).
    apply (IH (R - rank c)%nat); [lia|reflexivity|exact Hc]. }
  destruct (getLoopFor li b) as [M|] eqn:EM.
  2:{ exfalso. eapply wf_for_None; eauto. }
  destruct (wf_for _ _ W Hbn EM) as (HM & HbM & Hsub).
  destruct (decide (getHeader M = getHeader F)) as [E|Hne].
  - assert (M = F) by (eapply wf_header_eq; eauto). subst M.
    destruct (wf_successor _ _ W HF Hb EM Hnl) as (c & Hc & Hu).
    eapply inv_closed; [exact HI| |exact Hu].
    apply Hstep; [exact Hc|]. eapply wf_rank; eauto using wf_blocks.
  - assert (HMF : forall y, y ∈ loopBlocks M -> y ∈ loopBlocks F).
    { intros y Hy. eapply Hsub; eauto. }
    destruct (wf_nested _ _ _ W HF HM Hne HMF Hl) as (HlM & e & c & He & Hc & HcM & Hu).
    assert (Hco : c ∈ ord).
    { apply Hstep; [exact Hc|]. eapply wf_exit_rank; eauto using wf_blocks. }
    assert (Heo : e ∈ ord) by (eapply inv_closed; eauto).
    assert (Hho : getHeader M ∈ ord) by (eapply inv_header; eauto).
    destruct (inv_seg _ _ _ HI M HM Hho) as [HS|HinA].
    + eapply Seg_elem; eauto.
    + exfalso. apply elem_of_cons in HinA as [->|HinA]; [congruence|].
      apply HlM, HA, HinA.
Qed.


(** *** One entry of the stack *)

Definition Big (m r : nat) : Prop :=
  forall x rest P ord A C,
    (meas ord P <= m)%nat -> (rank x <= r)%nat -> x ∈ nodes ->
    Inv ord P A -> ctxOK C ord P -> inAll C x -> actOK A C ord ->
    exists ord' P', Runs (x :: rest) P ord rest P' ord' /\ Post x ord P A C ord' P'.

Lemma bigList (m r : nat) :
  Big m r ->
  forall ps rest P ord A C,
    (meas ord P <= m)%nat ->
    (forall p, p ∈ ps -> (rank p <= r)%nat /\ p ∈ nodes /\ inAll C p) ->
    Inv ord P A -> ctxOK C ord P -> actOK A C ord ->
    exists ord' P', Runs (ps ++ rest) P ord rest P' ord' /\ PostList ps r ord P A C ord' P'.
Proof.
  intros HB ps. induction ps as [|p ps IH]; intros rest P ord A C Hm Hps HI HC HA.
  - exists ord, P. split; [apply Runs_refl|]. exists []. rewrite app_nil_r.
    split; [reflexivity|]. split; [intros b Hb; inversion Hb|].
    split; [intros b Hb; inversion Hb|]. split; [reflexivity|]. split; [exact HI|].
    intros b Hb. inversion Hb.
  - destruct (Hps p ltac:(left)) as (Hr & Hn & Hin).
    destruct (HB p (ps ++ rest) P ord A C Hm Hr Hn HI HC Hin HA)
      as (ord1 & P1 & HR1 & new1 & -> & Hc1 & Hp1 & HP1 & HI1 & Hn1 & _).
    assert (Hsub : forall b, b ∈ ord -> b ∈ ord ++ new1)
      by (intros b Hb; apply elem_of_app; left; exact Hb).
    destruct (IH rest P1 (ord ++ new1) A C) as (ord2 & P2 & HR2 & new2 & -> & Hc2 & Hp2 & HP2 & HI2 & Hn2).
    + pose proof (meas_mono _ _ _ _ Hsub HP1). lia.
    + intros q Hq. apply Hps. right. exact Hq.
    + exact HI1.
    + eapply ctxOK_mono; eauto.
    + eapply actOK_mono; eauto.
    + exists ((ord ++ new1) ++ new2), P2. split; [eapply Runs_trans; eauto|].
      exists (new1 ++ new2). split; [rewrite app_assoc; reflexivity|].
      split. { intros b Hb. apply elem_of_app in Hb as [Hb|Hb]; auto. }
      split. { intros q Hq. apply elem_of_cons in Hq as [->|Hq]; [|auto].
               apply elem_of_app. left. exact Hp1. }
      split; [etransitivity; eauto|]. split; [exact HI2|].
      apply newChar_app.
      * eapply newChar_mono; [exact Hr| |exact Hn1]. auto.
      * eapply newChar_mono; [reflexivity| |exact Hn2]. exact Hsub.
Qed.

Lemma filter_nil_all (ord l : list BlockRef) :
  filter (fun p => p ∉ ord) l = [] -> forall p, p ∈ l -> p ∈ ord.
Proof.
  intros H p Hp. destruct (decide (p ∈ ord)) as [Hin|Hn]; [exact Hin|].
  exfalso. eapply (filter_nil_not_elem_of _ l p H); eauto.
Qed.

Lemma ord_bound ord P A x :
  wfRegion -> Inv ord P A -> x ∈ nodes -> x ∉ ord -> Z.of_nat (length ord) < INT_MAX.
Proof.
  intros W HI Hx Hn. pose proof (wf_max W) as Hmax.
  assert (Hs : x :: ord ⊆+ nodes).
  { apply NoDup_submseteq.
    - apply NoDup_cons. split; [exact Hn|apply (inv_nodup _ _ _ HI)].
    - intros y Hy. apply elem_of_cons in Hy as [->|Hy]; [exact Hx|].
      eapply inv_nodes; eauto. }
  apply submseteq_length in Hs. simpl in Hs. lia.
Qed.

Lemma Inv_index ord P A A' x :
  wfRegion -> Inv ord P A -> x ∈ nodes -> x ∉ ord -> notFirst x P ->
  filter (fun p => p ∉ ord) (upreds x) = [] ->
  (forall L, L ∈ A -> L ∈ A') -> (forall F, filt x = Some F -> F ∈ A') ->
  Inv (ord ++ [x]) P A'.
Proof.
  intros W HI Hx Hn HP Hpend HA HF.
  pose proof (filter_nil_all _ _ Hpend) as Hall.
  assert (Hcl : forall b p, b ∈ ord ++ [x] -> p ∈ upreds b -> p ∈ ord).
  { intros b p Hb Hp. apply elem_of_app in Hb as [Hb|Hb].
    - eapply inv_closed; eauto.
    - apply list_elem_of_singleton in Hb. subst b. apply Hall, Hp. }
  constructor.
  - apply NoDup_app. split; [apply (inv_nodup _ _ _ HI)|]. split.
    + intros y Hy Hy'. apply list_elem_of_singleton in Hy'. subst. contradiction.
    + apply NoDup_singleton.
  - intros b Hb. apply elem_of_app in Hb as [Hb|Hb].
    + eapply inv_nodes; eauto.
    + apply list_elem_of_singleton in Hb. subst. exact Hx.
  - intros b p Hb Hp. apply elem_of_app. left. eapply Hcl; eauto.
  - intros L b HL HbL Hb. apply elem_of_app in Hb as [Hb|Hb].
    + apply elem_of_app. left. eapply inv_header; eauto.
    + apply list_elem_of_singleton in Hb. subst b.
      destruct (decide (x = getHeader L)) as [->|Hne].
      * apply elem_of_app. right. left.
      * destruct (wf_has_upred _ _ W HL HbL Hne) as (p & Hp & HpL).
        apply elem_of_app. left. eapply inv_header; [exact HI|exact HL|exact HpL|].
        apply Hall, Hp.
  - intros L HL Hh. apply elem_of_app in Hh as [Hh|Hh].
    + eapply inv_pushed; eauto.
    + apply list_elem_of_singleton in Hh. unfold notFirst in HP.
      rewrite <- Hh, (wf_hdr_for _ W HL) in HP. exact HP.
  - intros L HL Hh. apply elem_of_app in Hh as [Hh|Hh].
    + destruct (inv_seg _ _ _ HI L HL Hh) as [HS|HinA].
      * left. apply Seg_app, HS.
      * right. apply HA, HinA.
    + apply list_elem_of_singleton in Hh. right. apply HF.
      rewrite <- Hh. apply wf_filt_header; assumption.
Qed.


Lemma Inv_weaken ord P A A' :
  Inv ord P A -> (forall L, L ∈ loops -> getHeader L ∈ ord -> L ∈ A -> Seg L ord \/ L ∈ A') ->
  Inv ord P A'.
Proof.
  intros HI H. constructor; try apply HI.
  intros L HL Hh. destruct (inv_seg _ _ _ HI L HL Hh) as [HS|HinA]; [left; exact HS|].
  apply H; assumption.
Qed.

(** The block on top of the stack waits for nothing: it gets its index;
    when it is the header of a loop, the latch of the loop is processed
    next, and then the loop is complete. *)
Lemma big_index (m : nat) :
  wfRegion -> (forall m', (m' < m)%nat -> forall r, Big m' r) ->
  forall x rest P ord A C,
    (meas ord P <= m)%nat -> x ∈ nodes ->
    Inv ord P A -> ctxOK C ord P -> inAll C x -> actOK A C ord ->
    x ∉ ord -> notFirst x P -> filter (fun p => p ∉ ord) (upreds x) = [] ->
    exists ord' P', Runs (x :: rest) P ord rest P' ord' /\ Post x ord P A C ord' P'.
Proof using Hrel Hidx.
  intros W IHm x rest P ord A C Hm Hx HI HC Hin HA Hn HP Hpend.
  pose proof (ord_bound _ _ _ _ W HI Hx Hn) as Hlen.
  assert (Hsub : forall b, b ∈ ord -> b ∈ ord ++ [x])
    by (intros b Hb; apply elem_of_app; left; exact Hb).
  assert (Hxo : x ∈ ord ++ [x]) by (apply elem_of_app; right; left).
  destruct (filt x) as [F|] eqn:EF.
  - (* the header of F *)
    destruct (filt_Some _ _ EF) as [HFx Hhx].
    destruct (wf_for _ _ W Hx HFx) as (HF & HxF & HFsub).
    destruct (wf_latch _ W HF) as (l & Hl & Hlf & HlF).
    assert (HI1 : Inv (ord ++ [x]) P (F :: A)).
    { apply (Inv_index ord P A (F :: A) x W HI Hx Hn HP Hpend).
      - intros L HL. right. exact HL.
      - intros F' EF'. rewrite EF in EF'. injection EF' as <-. left. }
    assert (HnoF : forall b, b ∈ loopBlocks F -> b ∉ ord).
    { intros b Hb Hbo. apply Hn. rewrite <- Hhx. eapply inv_header; eauto. }
    assert (HlT : forall T, T ∈ A -> l ∈ loopBlocks T).
    { intros T HT. destruct (HA T HT) as [HTC _].
      eapply HFsub; [apply (HC T HTC)|apply Hin, HTC|exact HlF]. }
    destruct (decide (l ∈ ord ++ [x])) as [Hlo|Hlo].
    + (* the latch is the header *)
      assert (l = x).
      { apply elem_of_app in Hlo as [Hlo|Hlo]; [exfalso; eapply HnoF; eauto|].
        apply list_elem_of_singleton in Hlo. exact Hlo. }
      subst l.
      pose proof (loop_complete F x _ _ A W HF Hl HI1 Hxo HlT) as Hall.
      assert (HSeg : Seg F (ord ++ [x])).
      { exists ord, [x], [], x. rewrite app_nil_r.
        split; [reflexivity|]. split; [simpl; congruence|]. split; [exact Hl|].
        split; [reflexivity|]. intros b. rewrite list_elem_of_singleton. split.
        - intros ->. exact HxF.
        - intros Hb. specialize (Hall b Hb). apply elem_of_app in Hall as [Hb'|Hb'].
          + exfalso. eapply HnoF; eauto.
          + apply list_elem_of_singleton in Hb'. exact Hb'. }
      exists (ord ++ [x]), P. split.
      * apply Runs_step. intros k.
        rewrite (step_index_header k x rest P ord F x Hn HP EF Hl Hpend Hlen).
        rewrite bool_decide_eq_true_2 by exact Hxo. reflexivity.
      * exists [x]. split; [reflexivity|].
        split. { intros b Hb. apply list_elem_of_singleton in Hb. subst. exact Hin. }
        split; [exact Hxo|]. split; [reflexivity|].
        split. { eapply Inv_weaken; [exact HI1|]. intros L HL Hh HLA.
                 apply elem_of_cons in HLA as [->|HLA]; [left; exact HSeg|right; exact HLA]. }
        split. { intros b Hb. apply list_elem_of_singleton in Hb. subst. left. lia. }
        intros (_ & Hf & _). congruence.
    + (* the latch is processed *)
      assert (Hm1 : (meas (ord ++ [x]) P < meas ord P)%nat)
        by (eapply (meas_index _ _ _ _ x); eauto).
      destruct (IHm (meas (ord ++ [x]) P) ltac:(lia) (rank l) l rest P (ord ++ [x])
                  (F :: A) (F :: C)) as (ord2 & P2 & HR2 & new2 & -> & Hc2 & Hl2 & HP2 & HI2 & Hn2 & Hlast).
      * lia.
      * lia.
      * eapply wf_blocks; eauto.
      * exact HI1.
      * intros L HL. apply elem_of_cons in HL as [->|HL].
        -- split; [exact HF|]. split.
           ++ unfold notFirst in HP. rewrite HFx in HP. exact HP.
           ++ intros p Hp. apply Hsub. apply (filter_nil_all _ _ Hpend).
              rewrite <- Hhx, (wf_upreds_header _ W HF). exact Hp.
        -- eapply (ctxOK_mono C ord P); eauto.
      * intros L HL. apply elem_of_cons in HL as [->|HL]; [exact HlF|].
        eapply HFsub; [apply (HC L HL)|apply Hin, HL|exact HlF].
      * intros L HL. apply elem_of_cons in HL as [->|HL].
        -- split; [left|]. rewrite Hhx. exact Hxo.
        -- destruct (HA L HL) as [H1 H2]. split; [right; exact H1|apply Hsub, H2].
      * assert (Hlx : l <> x) by (intros ->; apply Hlo, Hxo).
        assert (Hlast' : last ((ord ++ [x]) ++ new2) = Some l).
        { apply Hlast. split; [exact Hlo|]. split.
          - unfold filt. rewrite Hlf. rewrite bool_decide_eq_false_2; [reflexivity|].
            rewrite Hhx. congruence.
          - intros L HL HlL. eapply (inv_header _ _ _ HI1 L x); [exact HL| |exact Hxo].
            destruct (wf_for _ _ W (wf_blocks _ _ W HF HlF) Hlf) as (_ & _ & Hs).
            eapply Hs; eauto. }
        pose proof (loop_complete F l _ _ A W HF Hl HI2 Hl2 HlT) as Hall.
        assert (HSeg : Seg F ((ord ++ [x]) ++ new2)).
        { exists ord, (x :: new2), [], l. rewrite app_nil_r.
          split; [rewrite <- app_assoc; reflexivity|]. split; [simpl; congruence|].
          split; [exact Hl|]. split.
          - rewrite <- app_assoc in Hlast'. simpl in Hlast'.
            rewrite last_app_cons in Hlast'. exact Hlast'.
          - intros b. split.
            + intros Hb. apply elem_of_cons in Hb as [->|Hb]; [exact HxF|].
              apply (Hc2 b Hb). left.
            + intros Hb. specialize (Hall b Hb). rewrite <- app_assoc in Hall.
              apply elem_of_app in Hall as [Hb'|Hb']; [|exact Hb'].
              exfalso. eapply HnoF; eauto. }
        exists ((ord ++ [x]) ++ new2), P2. split.
        -- eapply Runs_trans; [|exact HR2]. apply Runs_step. intros k.
           rewrite (step_index_header k x rest P ord F l Hn HP EF Hl Hpend Hlen).
           rewrite bool_decide_eq_false_2 by exact Hlo. reflexivity.
        -- exists (x :: new2). split; [rewrite <- app_assoc; reflexivity|].
           split. { intros b Hb. apply elem_of_cons in Hb as [->|Hb]; [exact Hin|].
                    intros L HL. apply (Hc2 b Hb). right. exact HL. }
           split. { apply elem_of_app. left. exact Hxo. }
           split; [exact HP2|].
           split. { eapply Inv_weaken; [exact HI2|]. intros L HL Hh HLA.
                    apply elem_of_cons in HLA as [->|HLA]; [left; exact HSeg|right; exact HLA]. }
           split. { intros b Hb. apply elem_of_cons in Hb as [->|Hb]; [left; lia|].
                    right. exists F. split; [exact HF|].
                    split; [apply (Hc2 b Hb); left|]. rewrite Hhx. split; [exact Hn|lia]. }
           intros (_ & Hf & _). congruence.
  - (* no header *)
    exists (ord ++ [x]), P. split.
    + apply Runs_step. intros k. apply step_index_plain; assumption.
    + exists [x]. split; [reflexivity|].
      split. { intros b Hb. apply list_elem_of_singleton in Hb. subst. exact Hin. }
      split; [exact Hxo|]. split; [reflexivity|].
      split. { apply (Inv_index ord P A A x W HI Hx Hn HP Hpend); [auto|].
               intros F' EF'. rewrite EF in EF'. discriminate. }
      split. { intros b Hb. apply list_elem_of_singleton in Hb. subst. left. lia. }
      intros _. apply last_snoc.
Qed.


Lemma elem_of_rev (l : list BlockRef) (x : BlockRef) : x ∈ rev l <-> x ∈ l.
Proof. rewrite !list_elem_of_In. symmetry. apply in_rev. Qed.

Lemma elem_of_rev_1 (l : list BlockRef) (x : BlockRef) : x ∈ rev l -> x ∈ l.
Proof. apply elem_of_rev. Qed.

Lemma elem_of_rev_2 (l : list BlockRef) (x : BlockRef) : x ∈ l -> x ∈ rev l.
Proof. apply elem_of_rev. Qed.

(** The block on top of the stack waits for predecessors: they are
    processed first, then the block again. *)
Lemma big_pending (m r : nat) :
  wfRegion -> (forall m', (m' < m)%nat -> forall r, Big m' r) ->
  (forall r', (r' < r)%nat -> Big m r') ->
  forall x rest P ord A C p ps,
    (meas ord P <= m)%nat -> (rank x <= r)%nat -> x ∈ nodes ->
    Inv ord P A -> ctxOK C ord P -> inAll C x -> actOK A C ord ->
    x ∉ ord -> notFirst x P -> filter (fun p => p ∉ ord) (upreds x) = p :: ps ->
    exists ord' P', Runs (x :: rest) P ord rest P' ord' /\ Post x ord P A C ord' P'.
Proof using Hrel Hidx.
  intros W IHm IHr x rest P ord A C p ps Hm Hr Hx HI HC Hin HA Hn HP Hpend.
  set (pend := p :: ps) in *.
  assert (Hpe : forall q, q ∈ pend -> q ∈ upreds x /\ q ∉ ord).
  { intros q Hq. rewrite <- Hpend in Hq. apply list_elem_of_filter in Hq. tauto. }
  assert (Hrk : forall q, q ∈ pend -> (rank q < rank x)%nat).
  { intros q Hq. eapply wf_rank; eauto. apply (Hpe q Hq). }
  assert (Hp : p ∈ pend) by left.
  pose proof (Hrk p Hp) as Hrp.
  destruct (bigList m (pred (rank x)) (IHr (pred (rank x)) ltac:(lia)) (rev pend) (x :: rest) P ord A C)
    as (ord1 & P1 & HR1 & new1 & -> & Hc1 & Hp1 & HP1 & HI1 & Hn1).
  - exact Hm.
  - intros q Hq. apply elem_of_rev_1 in Hq. specialize (Hrk q Hq).
    destruct (Hpe q Hq) as [Hu Hqo].
    split; [lia|]. split; [eapply upreds_nodes; eauto|].
    intros L HL. destruct (HC L HL) as (HLl & HLP & HLe).
    eapply wf_single_entry; [exact W|exact HLl|apply Hin, HL| |apply upreds_rpreds, Hu].
    intros ->. apply Hqo, HLe. rewrite <- (wf_upreds_header _ W HLl). exact Hu.
  - exact HI.
  - exact HC.
  - exact HA.
  - assert (Hsub : forall b, b ∈ ord -> b ∈ ord ++ new1)
      by (intros b Hb; apply elem_of_app; left; exact Hb).
    assert (Hpo : p ∈ ord ++ new1) by (apply Hp1, elem_of_rev_2, Hp).
    assert (Hm1 : (meas (ord ++ new1) P1 < meas ord P)%nat).
    { eapply (meas_index _ _ _ _ p); eauto.
      - eapply upreds_nodes. apply (Hpe p Hp).
      - apply (Hpe p Hp). }
    destruct (IHm (meas (ord ++ new1) P1) ltac:(lia) (rank x) x rest P1 (ord ++ new1) A C)
      as (ord2 & P2 & HR2 & new2 & -> & Hc2 & Hx2 & HP2 & HI2 & Hn2 & Hlast).
    + lia.
    + lia.
    + exact Hx.
    + exact HI1.
    + eapply ctxOK_mono; eauto.
    + exact Hin.
    + eapply actOK_mono; eauto.
    + exists ((ord ++ new1) ++ new2), P2. split.
      * eapply Runs_trans; [|eapply Runs_trans; [exact HR1|exact HR2]].
        apply Runs_step. intros k. apply step_pending; assumption.
      * exists (new1 ++ new2). split; [rewrite app_assoc; reflexivity|].
        split. { intros b Hb. apply elem_of_app in Hb as [Hb|Hb]; auto. }
        split; [exact Hx2|]. split; [etransitivity; eauto|]. split; [exact HI2|].
        split.
        { apply newChar_app.
          - apply (newChar_mono (pred (rank x)) (rank x) ord ord new1); [lia|auto|exact Hn1].
          - eapply newChar_mono; [reflexivity|exact Hsub|exact Hn2]. }
        intros (Hxn & Hf & Hh). apply Hlast. split; [|split; [exact Hf|]].
        -- intros Hxo. apply elem_of_app in Hxo as [Hxo|Hxo]; [contradiction|].
           destruct (Hn1 x Hxo) as [Hle|(L & HL & HxL & HhL & _)]; [lia|].
           apply HhL, Hh; assumption.
        -- intros L HL HxL. apply Hsub, Hh; assumption.
Qed.

(** The block on top of the stack is the first one seen of its loop: the
    predecessors of the header outside the loop are processed, then the
    latch, and with it the whole loop. *)
Lemma big_first (m : nat) :
  wfRegion -> (forall m', (m' < m)%nat -> forall r, Big m' r) ->
  forall x rest P ord A C L,
    (meas ord P <= m)%nat -> x ∈ nodes ->
    Inv ord P A -> ctxOK C ord P -> inAll C x -> actOK A C ord ->
    x ∉ ord -> getLoopFor li x = Some L -> getHeader L ∉ P ->
    exists ord' P', Runs (x :: rest) P ord rest P' ord' /\ Post x ord P A C ord' P'.
Proof using Hrel Hidx.
  intros W IHm x rest P ord A C L Hm Hx HI HC Hin HA Hn HxL HP.
  destruct (wf_for _ _ W Hx HxL) as (HL & HxinL & HLsub).
  destruct (wf_latch _ W HL) as (l & Hl & Hlf & HlL).
  set (P1 := {[getHeader L]} ∪ P).
  set (pend := filter (fun p => p ∉ ord) (entries L)).
  assert (HPP1 : P ⊆ P1) by (intros y Hy; apply elem_of_union; right; exact Hy).
  assert (Hm1 : (meas ord P1 < meas ord P)%nat) by (apply meas_push; assumption).
  assert (HhP1 : getHeader L ∈ P1)
    by (apply elem_of_union; left; apply elem_of_singleton; reflexivity).
  assert (Hho : getHeader L ∉ ord).
  { intros Hh. apply HP. eapply inv_pushed; eauto. }
  assert (HI0 : Inv ord P1 A).
  { constructor; try apply HI. intros T HT Hh. apply HPP1. eapply inv_pushed; eauto. }
  assert (HLC : forall T y, T ∈ C -> y ∈ loopBlocks L -> y ∈ loopBlocks T).
  { intros T y HT Hy. eapply HLsub; [apply (HC T HT)|apply Hin, HT|exact Hy]. }
  pose proof (wf_rank_header _ W HL x HxinL) as Hrh.
  destruct (bigList (meas ord P1) (rank x) (IHm (meas ord P1) ltac:(lia) (rank x)) (rev pend) (l :: rest)
              P1 ord A C)
    as (ord1 & P1' & HR1 & new1 & -> & Hc1 & Hp1 & HP1 & HI1 & Hn1).
  - lia.
  - intros q Hq. apply elem_of_rev_1 in Hq. unfold pend in Hq.
    apply list_elem_of_filter in Hq as [Hqo Hqe].
    assert (Hqu : q ∈ upreds (getHeader L)) by (rewrite (wf_upreds_header _ W HL); exact Hqe).
    pose proof (wf_rank _ _ W (wf_blocks _ _ W HL (wf_hdr_in _ W HL)) Hqu).
    split; [lia|]. split; [eapply upreds_nodes; eauto|].
    intros T HT. destruct (HC T HT) as (HTl & HTP & _).
    eapply wf_single_entry; [exact W|exact HTl|apply (HLC T _ HT), wf_hdr_in; assumption
                            | |apply entries_rpreds, Hqe].
    intros E. apply HP. rewrite E. exact HTP.
  - exact HI0.
  - eapply ctxOK_mono; [| |exact HC]; auto.
  - exact HA.
  - assert (Hsub : forall b, b ∈ ord -> b ∈ ord ++ new1)
      by (intros b Hb; apply elem_of_app; left; exact Hb).
    pose proof (meas_mono _ _ _ _ Hsub HP1) as Hm2.
    destruct (IHm (meas (ord ++ new1) P1') ltac:(lia) (rank l) l rest P1' (ord ++ new1)
                A (L :: C))
      as (ord2 & P2 & HR2 & new2 & -> & Hc2 & Hl2 & HP2 & HI2 & Hn2 & _).
    + lia.
    + lia.
    + eapply wf_blocks; eauto.
    + exact HI1.
    + intros T HT. apply elem_of_cons in HT as [->|HT].
      * split; [exact HL|]. split; [apply HP1, HhP1|].
        intros q Hq. destruct (decide (q ∈ ord)) as [Hqo|Hqo]; [apply Hsub, Hqo|].
        apply Hp1, elem_of_rev_2. unfold pend. apply list_elem_of_filter. auto.
      * eapply (ctxOK_mono C ord P); eauto. etransitivity; eauto.
    + intros T HT. apply elem_of_cons in HT as [->|HT]; [exact HlL|].
      apply (HLC T l HT HlL).
    + intros T HT. destruct (HA T HT) as [H1 H2]. split; [right; exact H1|apply Hsub, H2].
    + assert (Hhl : getHeader L ∈ (ord ++ new1) ++ new2) by (eapply inv_header; eauto).
      assert (HS : Seg L ((ord ++ new1) ++ new2)).
      { destruct (inv_seg _ _ _ HI2 L HL Hhl) as [HS|HLA]; [exact HS|].
        exfalso. apply Hho. apply (HA L HLA). }
      exists ((ord ++ new1) ++ new2), P2. split.
      * eapply Runs_trans; [|eapply Runs_trans; [exact HR1|exact HR2]].
        apply Runs_step. intros k. apply step_first; assumption.
      * exists (new1 ++ new2). split; [rewrite app_assoc; reflexivity|].
        split. { intros b Hb. apply elem_of_app in Hb as [Hb|Hb]; [auto|].
                 intros T HT. apply (Hc2 b Hb). right. exact HT. }
        split; [eapply Seg_elem; eauto|].
        split; [etransitivity; [exact HPP1|etransitivity; eauto]|].
        split; [exact HI2|].
        split.
        { apply newChar_app; [exact Hn1|].
          intros b Hb. right. exists L. split; [exact HL|].
          split; [apply (Hc2 b Hb); left|]. split; [exact Hho|exact Hrh]. }
        intros (_ & _ & Hh). exfalso. apply Hho, Hh; assumption.
Qed.

(** Every entry of the stack is processed and gets its index. *)
Lemma bigStep : wfRegion -> forall m r, Big m r.
Proof using Hrel Hidx.
  intros W m. induction m as [m IHm] using lt_wf_ind.
  intros r. induction r as [r IHr] using lt_wf_ind.
  intros x rest P ord A C Hm Hr Hx HI HC Hin HA.
  destruct (decide (x ∈ ord)) as [Hxo|Hn].
  - exists ord, P. split.
    + apply Runs_step. intros k. apply step_skip; assumption.
    + exists []. rewrite app_nil_r. split; [reflexivity|].
      split; [intros b Hb; inversion Hb|]. split; [exact Hxo|]. split; [reflexivity|].
      split; [exact HI|]. split; [intros b Hb; inversion Hb|].
      intros (Hno & _). contradiction.
  - assert (Hnf : notFirst x P ->
              exists ord' P', Runs (x :: rest) P ord rest P' ord' /\ Post x ord P A C ord' P').
    { intros HP. destruct (filter (fun p => p ∉ ord) (upreds x)) as [|p ps] eqn:Ep.
      - eapply big_index; eauto.
      - eapply big_pending; eauto. }
    destruct (getLoopFor li x) as [L|] eqn:EL.
    + destruct (decide (getHeader L ∈ P)) as [HP|HP].
      * apply Hnf. unfold notFirst. rewrite EL. exact HP.
      * eapply big_first; eauto.
    + apply Hnf. unfold notFirst. rewrite EL. exact I.
Qed.


(** *** The whole of [buildBlockIndex] *)

Lemma Inv_init : Inv [] ∅ [].
Proof.
  constructor.
  - apply NoDup_nil_2.
  - intros b Hb. inversion Hb.
  - intros b p Hb. inversion Hb.
  - intros L b _ _ Hb. inversion Hb.
  - intros L _ Hb. inversion Hb.
  - intros L _ Hb. inversion Hb.
Qed.

(** The body of the loop over the blocks of the function. *)
Definition seek (fuel : nat) (pushedLoops : gset nat) (block : BlockRef)
  : Lin (gset nat) :=
  s ← getState;
  if negb (inRegion region block) then mret pushedLoops
  else if indexed s block then mret pushedLoops
  else indexStack li region fuel [block] pushedLoops.

Lemma indexStack_nil k P s : indexStack li region k [] P s = Done (P, s).
Proof. destruct k; reflexivity. Qed.

Lemma seek_out fuel P b s : inRegion region b = false -> seek fuel P b s = Done (P, s).
Proof. intros H. unfold seek, mbind, Lin_bind, getState. rewrite H. reflexivity. Qed.

Lemma seek_indexed fuel P b s : indexed s b = true -> seek fuel P b s = Done (P, s).
Proof.
  intros H. unfold seek, mbind, Lin_bind, getState. rewrite H.
  destruct (inRegion region b); reflexivity.
Qed.

Lemma seek_run fuel P b s :
  inRegion region b = true -> indexed s b = false ->
  seek fuel P b s = indexStack li region fuel [b] P s.
Proof. intros H1 H2. unfold seek, mbind, Lin_bind, getState. rewrite H1, H2. reflexivity. Qed.

Lemma seek_all (blocks : list BlockRef) :
  wfRegion -> (forall b, b ∈ blocks -> b ∈ layout (func s0)) ->
  forall ord P, Inv ord P [] ->
  exists N ord' P',
    (forall fuel, (N <= fuel)%nat ->
       foldM (seek fuel) P blocks (st ord) = Done (P', st ord'))
    /\ Inv ord' P' []
    /\ (forall b, b ∈ ord -> b ∈ ord')
    /\ (forall b, b ∈ blocks -> inRegion region b = true -> b ∈ ord').
Proof using Hrel Hidx.
  intros W. induction blocks as [|b bs IH]; intros Hlay ord P HI.
  - exists 0%nat, ord, P. split; [reflexivity|]. split; [exact HI|]. split; [auto|].
    intros b Hb. inversion Hb.
  - assert (Hlay' : forall c, c ∈ bs -> c ∈ layout (func s0))
      by (intros c Hc; apply Hlay; right; exact Hc).
    destruct (inRegion region b) eqn:Er.
    + destruct (decide (b ∈ ord)) as [Hbo|Hbo].
      * destruct (IH Hlay' ord P HI) as (N & ord' & P' & Hrun & HI' & Hsub & Hall).
        exists N, ord', P'. split.
        { intros fuel Hf. cbn [foldM]. unfold mbind at 1, Lin_bind at 1.
          rewrite seek_indexed.
          - apply Hrun, Hf.
          - unfold st. rewrite (indexAll_indexed _ _ _ Hrel Hidx).
            apply bool_decide_eq_true_2, Hbo. }
        split; [exact HI'|]. split; [exact Hsub|].
        intros c Hc Hr. apply elem_of_cons in Hc as [->|Hc]; [apply Hsub, Hbo|auto].
      * assert (Hbn : b ∈ nodes).
        { unfold nodes. apply list_elem_of_filter. split; [exact Er|apply Hlay; left]. }
        destruct (bigStep W (meas ord P) (rank b) b [] P ord [] [])
          as (ord1 & P1 & [n HR] & new1 & -> & _ & Hb1 & HP1 & HI1 & _); try lia; try assumption.
        { intros L HL. inversion HL. }
        { intros L HL. inversion HL. }
        { intros L HL. inversion HL. }
        destruct (IH Hlay' (ord ++ new1) P1 HI1) as (N & ord' & P' & Hrun & HI' & Hsub & Hall).
        exists (n + N)%nat, ord', P'. split.
        { intros fuel Hf. cbn [foldM]. unfold mbind at 1, Lin_bind at 1.
          rewrite (seek_run _ _ _ _ Er (indexed_st _ _ Hbo)).
          replace (indexStack li region fuel) with (indexStack li region (n + (fuel - n)))
            by (f_equal; lia).
          rewrite HR, indexStack_nil. apply Hrun. lia. }
        split; [exact HI'|].
        split. { intros c Hc. apply Hsub, elem_of_app. left. exact Hc. }
        intros c Hc Hr. apply elem_of_cons in Hc as [->|Hc]; [apply Hsub, Hb1|auto].
    + destruct (IH Hlay' ord P HI) as (N & ord' & P' & Hrun & HI' & Hsub & Hall).
      exists N, ord', P'. split.
      { intros fuel Hf. cbn [foldM]. unfold mbind at 1, Lin_bind at 1.
        rewrite (seek_out _ _ _ _ Er). apply Hrun, Hf. }
      split; [exact HI'|]. split; [exact Hsub|].
      intros c Hc Hr. apply elem_of_cons in Hc as [->|Hc]; [congruence|auto].
Qed.

Lemma getIndex_st ord b (i : nat) :
  NoDup ord -> ord !! i = Some b -> getIndex (st ord) b = Z.of_nat i.
Proof using Hrel Hidx.
  intros Hnd Hl. unfold getIndex, st.
  apply (indexAll_lookup s0 ord b i Hrel Hidx Hnd) in Hl. rewrite Hl. reflexivity.
Qed.

(** In a segment the indices run from the header to the latch. *)
Lemma Seg_range L ord l b :
  NoDup ord -> Seg L ord -> getLoopLatch (func s0) L = Some l -> b ∈ ord ->
  (b ∈ loopBlocks L
   <-> getIndex (st ord) (getHeader L) <= getIndex (st ord) b <= getIndex (st ord) l).
Proof using Hrel Hidx.
  intros Hnd (pre & mid & post & l' & -> & Hh & Hl' & Hlast & Hmid) Hl Hb.
  rewrite Hl in Hl'. injection Hl' as <-.
  destruct mid as [|h mid']; [discriminate|]. injection Hh as ->.
  set (mid := getHeader L :: mid') in *.
  assert (Hih : (pre ++ mid ++ post) !! length pre = Some (getHeader L)).
  { rewrite lookup_app_r by lia. rewrite Nat.sub_diag. reflexivity. }
  assert (Hil : (pre ++ mid ++ post) !! (length pre + length mid')%nat = Some l).
  { rewrite lookup_app_r by lia. rewrite lookup_app_l by (simpl; lia).
    rewrite last_lookup in Hlast. simpl in Hlast.
    replace (length pre + length mid' - length pre)%nat with (length mid') by lia.
    exact Hlast. }
  apply list_elem_of_lookup_1 in Hb as [i Hi].
  rewrite (getIndex_st _ _ _ Hnd Hih), (getIndex_st _ _ _ Hnd Hil), (getIndex_st _ _ _ Hnd Hi).
  rewrite <- Hmid. split.
  - intros Hbm. apply list_elem_of_lookup_1 in Hbm as [j Hj].
    pose proof (lookup_lt_Some _ _ _ Hj) as Hlt. simpl in Hlt.
    assert (Hj' : (pre ++ mid ++ post) !! (length pre + j)%nat = Some b).
    { rewrite lookup_app_r by lia. rewrite lookup_app_l by (simpl; lia).
      replace (length pre + j - length pre)%nat with j by lia. exact Hj. }
    pose proof (NoDup_lookup _ _ _ _ Hnd Hi Hj'). lia.
  - intros Hr. rewrite lookup_app_r in Hi by lia.
    rewrite lookup_app_l in Hi by (simpl; lia).
    eapply list_elem_of_lookup_2, Hi.
Qed.

(** A bijection onto [0, numBlocks) in which every loop is the range from
    the index of its header to the index of its latch. *)
Definition indexOK (s : State) : Prop :=
  (forall b, b ∈ nodes <-> is_Some (blockIndex s !! b))
  /\ (forall b i, blockIndex s !! b = Some i -> 0 <= i < getNumBlocks s)
  /\ (forall b b' i, blockIndex s !! b = Some i -> blockIndex s !! b' = Some i -> b = b')
  /\ (forall i, 0 <= i < getNumBlocks s -> exists b, blockIndex s !! b = Some i)
  /\ (forall L, L ∈ loops ->
        exists l, getLoopLatch (func s) L = Some l
          /\ forall b, b ∈ nodes ->
               (b ∈ loopBlocks L
                <-> getIndex s (getHeader L) <= getIndex s b <= getIndex s l)).

(** The index that [buildBlockIndex] makes on a well-formed region, as a
    state [st ord]. *)
Lemma buildBlockIndex_indexOK :
  wfRegion ->
  exists N ord,
    (forall fuel, (N <= fuel)%nat -> buildBlockIndex li region fuel s0 = Done ((), st ord))
    /\ indexOK (st ord).
Proof using Hrel Hidx.
  intros W.
  destruct (seek_all (layout (func s0)) W (fun b H => H) [] ∅ Inv_init)
    as (N & ord & P & Hrun & HI & _ & Hall).
  exists N, ord. split.
  - intros fuel Hf. unfold buildBlockIndex.
    unfold mbind at 1, Lin_bind at 1, gets.
    unfold mbind at 1, Lin_bind at 1.
    change (foldM _ ∅ (layout (func s0)) s0)
      with (foldM (seek fuel) ∅ (layout (func s0)) (st [])).
    rewrite (Hrun fuel Hf). reflexivity.
  - pose proof (inv_nodup _ _ _ HI) as Hnd.
    assert (Hnodes : forall b, b ∈ nodes <-> b ∈ ord).
    { intros b. split; [|apply (inv_nodes _ _ _ HI)].
      unfold nodes. intros Hb. apply list_elem_of_filter in Hb as [Hr Hl]. auto. }
    split; [|split; [|split; [|split]]].
    + intros b. rewrite Hnodes. symmetry. apply indexAll_is_Some; assumption.
    + intros b i Hb. unfold st in *. rewrite (indexAll_numBlocks _ _ Hrel).
      eapply indexAll_lookup_nonneg; eauto.
    + intros b b' i Hb Hb'.
      pose proof (indexAll_lookup_nonneg _ _ _ _ Hrel Hidx Hb) as Hi.
      rewrite <- (Z2Nat.id i) in Hb, Hb' by lia.
      apply (indexAll_lookup s0 ord _ _ Hrel Hidx Hnd) in Hb, Hb'. congruence.
    + intros i Hi. unfold st in *. rewrite (indexAll_numBlocks _ _ Hrel) in Hi.
      destruct (lookup_lt_is_Some_2 ord (Z.to_nat i) ltac:(lia)) as [b Hb].
      exists b. apply (indexAll_lookup s0 ord _ _ Hrel Hidx Hnd) in Hb.
      rewrite Z2Nat.id in Hb by lia. exact Hb.
    + intros L HL. destruct (wf_latch _ W HL) as (l & Hl & _ & _).
      exists l. unfold st at 1. rewrite indexAll_func. split; [exact Hl|].
      intros b Hb. apply Seg_range; [exact Hnd| |exact Hl|apply Hnodes, Hb].
      assert (Hh : getHeader L ∈ ord).
      { apply Hnodes. eapply wf_blocks; eauto. apply wf_hdr_in; assumption. }
      destruct (inv_seg _ _ _ HI L HL Hh) as [HS|HA]; [exact HS|inversion HA].
Qed.

(** C6. On a region whose control flow graph and loops are well formed
    ([wfRegion]: natural loops in canonical form, nested properly, with a
    ranking of the blocks that witnesses that the graph without the back
    edges is acyclic and that a loop is left upwards) and with nothing
    indexed yet, [buildBlockIndex] returns when it is given enough fuel.
    Afterwards exactly the blocks of the region have an index, the indices
    are distinct and fill [0, numBlocks), and for every loop the blocks of
    the loop are those whose index lies between the index of the header
    and the index of the latch: the header has the least and the latch the
    greatest index of the loop. *)
Theorem C6_buildBlockIndex_bijective_contiguous :
  wfRegion ->
  exists N s',
    (forall fuel, (N <= fuel)%nat -> buildBlockIndex li region fuel s0 = Done ((), s'))
    /\ indexOK s'.
Proof using Hrel Hidx.
  intros W.
  destruct (seek_all (layout (func s0)) W (fun b H => H) [] ∅ Inv_init)
    as (N & ord & P & Hrun & HI & _ & Hall).
  exists N, (st ord). split.
  - intros fuel Hf. unfold buildBlockIndex.
    unfold mbind at 1, Lin_bind at 1, gets.
    unfold mbind at 1, Lin_bind at 1.
    change (foldM _ ∅ (layout (func s0)) s0)
      with (foldM (seek fuel) ∅ (layout (func s0)) (st [])).
    rewrite (Hrun fuel Hf). reflexivity.
  - pose proof (inv_nodup _ _ _ HI) as Hnd.
    assert (Hnodes : forall b, b ∈ nodes <-> b ∈ ord).
    { intros b. split; [|apply (inv_nodes _ _ _ HI)].
      unfold nodes. intros Hb. apply list_elem_of_filter in Hb as [Hr Hl]. auto. }
    split; [|split; [|split; [|split]]].
    + intros b. rewrite Hnodes. symmetry. apply indexAll_is_Some; assumption.
    + intros b i Hb. unfold st in *. rewrite (indexAll_numBlocks _ _ Hrel).
      eapply indexAll_lookup_nonneg; eauto.
    + intros b b' i Hb Hb'.
      pose proof (indexAll_lookup_nonneg _ _ _ _ Hrel Hidx Hb) as Hi.
      rewrite <- (Z2Nat.id i) in Hb, Hb' by lia.
      apply (indexAll_lookup s0 ord _ _ Hrel Hidx Hnd) in Hb, Hb'. congruence.
    + intros i Hi. unfold st in *. rewrite (indexAll_numBlocks _ _ Hrel) in Hi.
      destruct (lookup_lt_is_Some_2 ord (Z.to_nat i) ltac:(lia)) as [b Hb].
      exists b. apply (indexAll_lookup s0 ord _ _ Hrel Hidx Hnd) in Hb.
      rewrite Z2Nat.id in Hb by lia. exact Hb.
    + intros L HL. destruct (wf_latch _ W HL) as (l & Hl & _ & _).
      exists l. unfold st at 1. rewrite indexAll_func. split; [exact Hl|].
      intros b Hb. apply Seg_range; [exact Hnd| |exact Hl|apply Hnodes, Hb].
      assert (Hh : getHeader L ∈ ord).
      { apply Hnodes. eapply wf_blocks; eauto. apply wf_hdr_in; assumption. }
      destruct (inv_seg _ _ _ HI L HL Hh) as [HS|HA]; [exact HS|inversion HA].
Qed.

End BlockIndexFacts.

Section NestedLoops.
Import Shape IR Lin Linearizer.

(** Two nested loops: the outer loop 1, 2, 3, 4 with latch 4 and the inner
    loop 2, 3 with latch 3; the blocks are laid out from the last to the
    first. *)
Definition nestFunction : Function :=
  mkFunction [5; 3; 4; 2; 1; 0]%nat
    (list_to_map [(0, [10]); (1, [11]); (2, [12]); (3, [13]); (4, [14]); (5, [15])]%nat)
    (list_to_map
       [(10, mkInst VoidTy "" 0 (BranchInst 1));
        (11, mkInst VoidTy "" 1 (BranchInst 2));
        (12, mkInst VoidTy "" 2 (CondBranchInst (Argument (IntTy 1) 0) 3 4));
        (13, mkInst VoidTy "" 3 (BranchInst 2));
        (14, mkInst VoidTy "" 4 (CondBranchInst (Argument (IntTy 1) 1) 1 5));
        (15, mkInst VoidTy "" 5 (ReturnInst None))]%nat)
    50 [].

Definition innerL : Loop := MkLoop 2 [2; 3]%nat [].
Definition outerL : Loop := MkLoop 1 [1; 2; 3; 4]%nat [innerL].

Definition nestState : State :=
  mkState nestFunction (mkVecInfo ∅ ∅ ∅) (mkMaskAnalysis ∅ ∅ ∅) ∅ ∅ [] ∅.

Definition nestRegion : gset nat := list_to_set [0; 1; 2; 3; 4; 5]%nat.

Example buildBlockIndex_nest :
  exists s, buildBlockIndex [outerL] nestRegion 30 nestState = Done ((), s)
    /\ map (getIndex s) [0; 1; 2; 3; 4; 5]%nat = [0; 1; 2; 3; 4; 5].
Proof. eexists. split; vm_compute; reflexivity. Qed.

Lemma C6_buildBlockIndex_bijective_contiguous_witness :
  exists N s',
    (forall fuel, (N <= fuel)%nat ->
       buildBlockIndex [outerL] nestRegion fuel nestState = Done ((), s'))
    /\ indexOK [outerL] nestRegion nestState s'.
Proof.
  apply (C6_buildBlockIndex_bijective_contiguous [outerL] nestRegion nestState
           eq_refl eq_refl (fun b => b)).
  apply wfRegion_decide. vm_compute. reflexivity.
Defined.

End NestedLoops.

(** ** The run of the pass: divergent terminators are never created

    A terminator that [needsFolding] reports, or that it rejects (a
    switch), is called unfolded below. The operations of the pass fall into
    two groups: those that leave every terminator as it is, and those
    ([processBranch], [dropLoopExit], the latch exit, [cleanup]) that
    replace a terminator by one that is unconditional or uniform. *)

Section CalmFacts.
Import Shape IR Lin Linearizer.

Definition isTermF (f : Function) (i : InstRef) : bool :=
  match opcodeOf f i with Some o => isTerminator o | None => false end.

(** What [needsFolding(TerminatorInst&)] objects to. *)
Definition badOp (o : Opcode) (sh : VectorShape) : bool :=
  match o with
  | CondBranchInst _ _ _ => negb (isUniform sh)
  | SwitchInst _ _ _ => true
  | _ => false
  end.

Definition unfolded (s : State) (i : InstRef) : bool :=
  match opcodeOf (func s) i with
  | Some o => badOp o (getVectorShape s i)
  | None => false
  end.

Definition succsOf (f : Function) (i : InstRef) : list BlockRef :=
  match opcodeOf f i with Some o => successorsOf o | None => [] end.

Lemma badOp_terminator o sh : badOp o sh = true -> isTerminator o = true.
Proof. destruct o; simpl; congruence. Qed.

Lemma unfolded_isTermF s i : unfolded s i = true -> isTermF (func s) i = true.
Proof.
  unfold unfolded, isTermF. destruct (opcodeOf (func s) i); [|discriminate].
  apply badOp_terminator.
Qed.

(** Every listed instruction has a reference below [fresh]. *)
Definition listedFresh (f : Function) : Prop :=
  forall b i, i ∈ instsOf f b -> (i < fresh f)%nat.

(** A block holds at most one terminator. *)
Definition oneTerminator (f : Function) : Prop :=
  forall b t1 t2, t1 ∈ instsOf f b -> t2 ∈ instsOf f b ->
    isTermF f t1 = true -> isTermF f t2 = true -> t1 = t2.

(** A change of the function that adds no terminator to any block and
    turns no instruction into a terminator. *)
Record calmF (f f' : Function) : Prop := mkCalm {
  calm_list : forall b i, i ∈ instsOf f' b -> isTermF f' i = true -> i ∈ instsOf f b;
  calm_term : forall i, isTermF f' i = true -> isTermF f i = true;
  calm_wf : listedFresh f -> listedFresh f';
  calm_fresh : (fresh f <= fresh f')%nat
}.

Lemma calmF_refl f : calmF f f.
Proof. split; [auto|auto|auto|lia]. Qed.

Lemma calmF_trans f g h : calmF f g -> calmF g h -> calmF f h.
Proof.
  intros [l1 t1 w1 f1] [l2 t2 w2 f2]. split; [|auto|auto|lia].
  intros b i Hi Ht. apply l1; auto.
Qed.

Lemma calmF_oneTerminator f f' : calmF f f' -> oneTerminator f -> oneTerminator f'.
Proof.
  intros [l t _ _] H b t1 t2 H1 H2 T1 T2. apply (H b); auto.
Qed.

Lemma opcodeOf_insertInst b pos ty name o f i :
  opcodeOf (insertInst b pos ty name o f) i
  = if decide (i = fresh f) then Some o else opcodeOf f i.
Proof. unfold opcodeOf. rewrite insertInst_insts. case_decide; reflexivity. Qed.

Lemma elem_of_take_drop {A : Type} (l : list A) (pos : nat) (x y : A) :
  y ∈ take pos l ++ x :: drop pos l <-> y = x \/ y ∈ l.
Proof.
  rewrite <- (take_drop pos l) at 3. rewrite !elem_of_app, elem_of_cons. tauto.
Qed.

Lemma calmF_insertInst b pos ty name o f :
  isTerminator o = false -> calmF f (insertInst b pos ty name o f).
Proof.
  intros Ho.
  assert (Ht : forall i, isTermF (insertInst b pos ty name o f) i = true ->
                 i <> fresh f /\ isTermF f i = true).
  { intros i. unfold isTermF. rewrite opcodeOf_insertInst.
    case_decide; [congruence|]. auto. }
  split.
  - intros b' i Hi HT. apply Ht in HT as [Hne _].
    rewrite insertInst_instsOf in Hi. case_decide; [|exact Hi]. subst b'.
    apply elem_of_take_drop in Hi as [Hi|Hi]; [congruence|exact Hi].
  - intros i HT. apply Ht in HT. tauto.
  - intros Hw b' i Hi. rewrite insertInst_instsOf in Hi.
    change (fresh (insertInst b pos ty name o f)) with (S (fresh f)).
    case_decide.
    + apply elem_of_take_drop in Hi as [Hi|Hi]; [lia|]. apply Hw in Hi. lia.
    + apply Hw in Hi. lia.
  - change (fresh (insertInst b pos ty name o f)) with (S (fresh f)). lia.
Qed.

Lemma calmF_setOpcode i o f :
  (isTerminator o = true -> isTermF f i = true) -> calmF f (setOpcode i o f).
Proof.
  intros Ho.
  assert (Ht : forall j, isTermF (setOpcode i o f) j = true -> isTermF f j = true).
  { intros j. unfold isTermF at 1. rewrite setOpcode_opcodeOf. case_decide; [|auto].
    subst j. destruct (insts f !! i); simpl; [auto|discriminate]. }
  split.
  - intros b j Hj _. rewrite setOpcode_instsOf in Hj. exact Hj.
  - exact Ht.
  - intros Hw b j Hj. rewrite setOpcode_instsOf in Hj. apply (Hw b j Hj).
  - reflexivity.
Qed.

Lemma opcodeOf_mapInsts g f i :
  opcodeOf (mapInsts g f) i = (fun x => opcode (g x)) <$> insts f !! i.
Proof.
  unfold opcodeOf, mapInsts. simpl. rewrite lookup_fmap.
  destruct (insts f !! i); reflexivity.
Qed.

Lemma calmF_mapInsts g f :
  (forall x, isTerminator (opcode (g x)) = isTerminator (opcode x)) ->
  calmF f (mapInsts g f).
Proof.
  intros Hg.
  assert (Ht : forall j, isTermF (mapInsts g f) j = isTermF f j).
  { intros j. unfold isTermF. rewrite opcodeOf_mapInsts. unfold opcodeOf.
    destruct (insts f !! j); simpl; [apply Hg|reflexivity]. }
  split.
  - intros b i Hi _. exact Hi.
  - intros i. rewrite Ht. auto.
  - intros Hw. exact Hw.
  - reflexivity.
Qed.

Lemma opcodeOf_eraseInst i f j :
  opcodeOf (eraseInst i f) j = if decide (j = i) then None else opcodeOf f j.
Proof. unfold opcodeOf. rewrite eraseInst_insts. case_decide; reflexivity. Qed.

Lemma eraseInst_elem i f b j : j ∈ instsOf (eraseInst i f) b -> j ∈ instsOf f b.
Proof.
  destruct (insts f !! i) as [x|] eqn:E.
  - rewrite (eraseInst_instsOf i f x b E). case_decide; [|auto].
    intros Hj. apply list_elem_of_filter in Hj. tauto.
  - unfold eraseInst. rewrite E. auto.
Qed.

Lemma calmF_eraseInst i f : calmF f (eraseInst i f).
Proof.
  assert (Ht : forall j, isTermF (eraseInst i f) j = true -> isTermF f j = true).
  { intros j. unfold isTermF at 1. rewrite opcodeOf_eraseInst. case_decide; [discriminate|auto]. }
  split.
  - intros b j Hj _. eapply eraseInst_elem, Hj.
  - exact Ht.
  - intros Hw b j Hj. rewrite eraseInst_fresh. apply (Hw b), (eraseInst_elem i), Hj.
  - rewrite eraseInst_fresh. lia.
Qed.

Lemma addBlock_instsOf f b :
  instsOf (addBlock f) b = if decide (b = fresh f) then [] else instsOf f b.
Proof.
  unfold instsOf, addBlock. simpl. case_decide.
  - subst b. rewrite lookup_insert_eq. reflexivity.
  - rewrite lookup_insert_ne by congruence. reflexivity.
Qed.

Lemma calmF_addBlock f : calmF f (addBlock f).
Proof.
  split.
  - intros b i Hi _. rewrite addBlock_instsOf in Hi. case_decide; [|exact Hi].
    apply elem_of_nil in Hi. contradiction.
  - intros i Hi. exact Hi.
  - intros Hw b i Hi. rewrite addBlock_instsOf in Hi.
    change (fresh (addBlock f)) with (S (fresh f)). case_decide.
    + apply elem_of_nil in Hi. contradiction.
    + apply Hw in Hi. lia.
  - change (fresh (addBlock f)) with (S (fresh f)). lia.
Qed.

Lemma eraseBlock_instsOf b f b' :
  instsOf (eraseBlock b f) b' = if decide (b' = b) then [] else instsOf f b'.
Proof.
  unfold instsOf, eraseBlock. simpl. case_decide.
  - subst b'. rewrite lookup_delete_eq. reflexivity.
  - rewrite lookup_delete_ne by congruence. reflexivity.
Qed.

Lemma foldr_delete_lookup (m : gmap InstRef Instruction) (l : list InstRef) i x :
  foldr delete m l !! i = Some x -> m !! i = Some x.
Proof.
  induction l as [|j l IH]; simpl; [auto|].
  intros H. destruct (decide (i = j)) as [->|Hne].
  - rewrite lookup_delete_eq in H. discriminate.
  - rewrite lookup_delete_ne in H by congruence. auto.
Qed.

Lemma opcodeOf_eraseBlock b f i o :
  opcodeOf (eraseBlock b f) i = Some o -> opcodeOf f i = Some o.
Proof.
  unfold opcodeOf, eraseBlock. simpl.
  destruct (foldr delete (insts f) (instsOf f b) !! i) as [x|] eqn:E; [|discriminate].
  apply foldr_delete_lookup in E. rewrite E. auto.
Qed.

Lemma calmF_eraseBlock b f : calmF f (eraseBlock b f).
Proof.
  assert (Ht : forall j, isTermF (eraseBlock b f) j = true -> isTermF f j = true).
  { intros j. unfold isTermF.
    destruct (opcodeOf (eraseBlock b f) j) as [o|] eqn:E; [|discriminate].
    apply opcodeOf_eraseBlock in E. rewrite E. auto. }
  split.
  - intros b' i Hi _. rewrite eraseBlock_instsOf in Hi. case_decide; [|exact Hi].
    apply elem_of_nil in Hi. contradiction.
  - exact Ht.
  - intros Hw b' i Hi. rewrite eraseBlock_instsOf in Hi. case_decide.
    + apply elem_of_nil in Hi. contradiction.
    + apply (Hw b' i Hi).
  - reflexivity.
Qed.

(** The function after [moveToFront]. *)
Definition movedToFront (relayBlock target : BlockRef) (f : Function) : Function :=
  let stuck := beforeTerminator f (instsOf f relayBlock) in
  mkFunction (layout f)
    (<[relayBlock := drop (length stuck) (instsOf f relayBlock)]>
       (<[target := rev stuck ++ instsOf f target]> (body f)))
    (foldr (fun i m => alter (withParent target) i m) (insts f) stuck)
    (fresh f) (declared f).

Lemma beforeTerminator_elem f l i :
  i ∈ beforeTerminator f l -> i ∈ l /\ isTermF f i = false.
Proof.
  induction l as [|j l IH]; simpl; [intros H; apply elem_of_nil in H; contradiction|].
  destruct (isaTerminatorInst f j) eqn:E; [intros H; apply elem_of_nil in H; contradiction|].
  intros H. apply elem_of_cons in H as [->|H].
  - split; [left|exact E].
  - apply IH in H as [H1 H2]. split; [right; exact H1|exact H2].
Qed.

Lemma drop_elem {A : Type} (n : nat) (l : list A) (x : A) : x ∈ drop n l -> x ∈ l.
Proof.
  intros H. rewrite <- (take_drop n l). apply elem_of_app. right. exact H.
Qed.

Lemma foldr_withParent_opcode (m : gmap InstRef Instruction) (l : list InstRef) b i :
  opcode <$> foldr (fun i m => alter (withParent b) i m) m l !! i = opcode <$> m !! i.
Proof.
  induction l as [|j l IH]; simpl; [reflexivity|].
  destruct (decide (i = j)) as [->|Hne].
  - rewrite lookup_alter_eq. rewrite <- IH.
    destruct (foldr _ m l !! j); reflexivity.
  - rewrite lookup_alter_ne by congruence. exact IH.
Qed.

Lemma opcodeOf_movedToFront rb tg f i :
  opcodeOf (movedToFront rb tg f) i = opcodeOf f i.
Proof. unfold opcodeOf, movedToFront. simpl. apply foldr_withParent_opcode. Qed.

Lemma movedToFront_instsOf rb tg f b :
  instsOf (movedToFront rb tg f) b
  = if decide (b = rb)
    then drop (length (beforeTerminator f (instsOf f rb))) (instsOf f rb)
    else if decide (b = tg) then rev (beforeTerminator f (instsOf f rb)) ++ instsOf f tg
    else instsOf f b.
Proof.
  unfold movedToFront. unfold instsOf at 1. simpl.
  case_decide; [subst; rewrite lookup_insert_eq; reflexivity|].
  rewrite lookup_insert_ne by congruence.
  case_decide; [subst; rewrite lookup_insert_eq; reflexivity|].
  rewrite lookup_insert_ne by congruence. reflexivity.
Qed.

Lemma calmF_movedToFront rb tg f : calmF f (movedToFront rb tg f).
Proof.
  assert (Ht : forall j, isTermF (movedToFront rb tg f) j = isTermF f j).
  { intros j. unfold isTermF. rewrite opcodeOf_movedToFront. reflexivity. }
  split.
  - intros b i Hi HT. rewrite Ht in HT. rewrite movedToFront_instsOf in Hi.
    case_decide; [subst b; eapply drop_elem, Hi|].
    case_decide; [|exact Hi]. subst b.
    apply elem_of_app in Hi as [Hi|Hi]; [|exact Hi].
    apply elem_of_rev_1 in Hi. apply beforeTerminator_elem in Hi as [_ Hi]. congruence.
  - intros i. rewrite Ht. auto.
  - intros Hw b i Hi. rewrite movedToFront_instsOf in Hi.
    change (fresh (movedToFront rb tg f)) with (fresh f).
    case_decide; [subst b; apply (Hw rb i); eapply drop_elem, Hi|].
    case_decide; [|apply (Hw b i Hi)].
    apply elem_of_app in Hi as [Hi|Hi]; [|apply (Hw tg i Hi)].
    apply elem_of_rev_1 in Hi. apply beforeTerminator_elem in Hi as [Hi _].
    apply (Hw rb i Hi).
  - reflexivity.
Qed.

End CalmFacts.

(** ** Preorders on states that the operations of the pass respect *)

Section ClosureDefs.
Import Shape IR Lin Linearizer.

Definition keeps (Rel : State -> State -> Prop) {A : Type} (m : Lin A) : Prop :=
  forall s a s', m s = Done (a, s') -> Rel s s'.

Lemma keeps_ret {Rel : State -> State -> Prop}
    `{!PreOrder Rel} {A : Type} (a : A) : keeps Rel (mret a).
Proof. intros s a' s' [= _ <-]. reflexivity. Qed.

Lemma keeps_bind {Rel : State -> State -> Prop}
    `{!PreOrder Rel} {A B : Type} (m : Lin A) (k : A -> Lin B) :
  keeps Rel m -> (forall a, keeps Rel (k a)) -> keeps Rel (m ≫= k).
Proof.
  intros Hm Hk s b s' H. apply bind_Done in H as (a & s1 & H1 & H2).
  transitivity s1; [eapply Hm, H1|eapply Hk, H2].
Qed.

Lemma keeps_gets {Rel : State -> State -> Prop}
    `{!PreOrder Rel} {A : Type} (g : State -> A) : keeps Rel (gets g).
Proof. intros s a' s' [= _ <-]. reflexivity. Qed.

Lemma keeps_getState {Rel : State -> State -> Prop}
    `{!PreOrder Rel} : keeps Rel getState.
Proof. intros s a' s' [= _ <-]. reflexivity. Qed.

Lemma keeps_crash {Rel : State -> State -> Prop}
    `{!PreOrder Rel} {A : Type} (e : failure) : keeps Rel (crash e : Lin A).
Proof. intros s a' s' H. discriminate. Qed.

Lemma keeps_assert {Rel : State -> State -> Prop}
    `{!PreOrder Rel} (b : bool) (msg : string) : keeps Rel (assert b msg).
Proof. intros s a s' H. apply assert_Done in H as [_ [= _ ->]]. reflexivity. Qed.

Lemma keeps_deref {Rel : State -> State -> Prop}
    `{!PreOrder Rel} {A : Type} (p : option A) (what : string) : keeps Rel (deref p what).
Proof. intros s a s' H. apply deref_Done in H as [_ H]. simpl in H. subst. reflexivity. Qed.

Lemma keeps_at {Rel : State -> State -> Prop}
    `{!PreOrder Rel} {A : Type} (v : list A) (i : Z) (what : string) : keeps Rel (at_ v i what).
Proof.
  intros s a s' H. apply at_Done in H as (_ & _ & H). simpl in H. subst. reflexivity.
Qed.

Lemma keeps_modify {Rel : State -> State -> Prop}
    `{!PreOrder Rel} (g : State -> State) : (forall s, Rel s (g s)) -> keeps Rel (modify g).
Proof. intros Hg s a s' H. apply modify_Done in H as [= _ ->]. apply Hg. Qed.

Lemma keeps_forM {Rel : State -> State -> Prop}
    `{!PreOrder Rel} {A : Type} (l : list A) (body : A -> Lin unit) :
  (forall x, keeps Rel (body x)) -> keeps Rel (forM l body).
Proof.
  intros Hb. induction l as [|x l IH]; simpl; [apply keeps_ret|].
  apply keeps_bind; [apply Hb|intros _; exact IH].
Qed.

Lemma keeps_foldM {Rel : State -> State -> Prop}
    `{!PreOrder Rel} {A B : Type} (body : B -> A -> Lin B) (acc : B) (l : list A) :
  (forall acc x, keeps Rel (body acc x)) -> keeps Rel (foldM body acc l).
Proof.
  intros Hb. revert acc. induction l as [|x l IH]; intros acc; simpl; [apply keeps_ret|].
  apply keeps_bind; [apply Hb|intros acc'; apply IH].
Qed.

Lemma keeps_weaken (R1 R2 : State -> State -> Prop) {A : Type} (m : Lin A) :
  (forall s s', R1 s s' -> R2 s s') -> keeps R1 m -> keeps R2 m.
Proof. intros H Hm s a s' Hr. eapply H, Hm, Hr. Qed.



Ltac keeps_basic :=
  repeat first
  [ apply keeps_ret | apply keeps_gets | apply keeps_getState | apply keeps_crash
  | apply keeps_assert | apply keeps_deref | apply keeps_at
  | match goal with |- keeps _ (match ?x with _ => _ end) => destruct x end
  | apply keeps_bind; [|intros ?] ].

Lemma keeps_put {Rel : State -> State -> Prop}
    `{!PreOrder Rel} {A : Type}
    (v : list A) (i : Z) (x : A) (what : string) :
  keeps Rel (put_ v i x what).
Proof. intros s a s' H. apply put_Done in H as [_ [= _ ->]]. reflexivity. Qed.

Lemma keeps_getBlock {Rel : State -> State -> Prop}
    `{!PreOrder Rel} id :
  keeps Rel (getBlock id).
Proof. unfold getBlock. keeps_basic. Qed.

Lemma keeps_theLatch {Rel : State -> State -> Prop}
    `{!PreOrder Rel} L :
  keeps Rel (theLatch L).
Proof. unfold theLatch. keeps_basic. Qed.

Lemma keeps_getOpcode {Rel : State -> State -> Prop}
    `{!PreOrder Rel} i what :
  keeps Rel (getOpcode i what).
Proof. unfold getOpcode. keeps_basic. Qed.

Lemma keeps_getIncoming {Rel : State -> State -> Prop}
    `{!PreOrder Rel} phi :
  keeps Rel (getIncoming phi).
Proof.
  unfold getIncoming. apply keeps_bind; [apply keeps_getOpcode|intros o].
  keeps_basic.
Qed.

Lemma keeps_needsFoldingPhi {Rel : State -> State -> Prop}
    `{!PreOrder Rel} phi :
  keeps Rel (needsFoldingPhi phi).
Proof.
  unfold needsFoldingPhi. apply keeps_bind; [keeps_basic|intros f].
  apply keeps_bind; [keeps_basic|intros x].
  apply keeps_bind; [apply keeps_getIncoming|intros inc]. keeps_basic.
Qed.

Lemma keeps_getExitingBlock {Rel : State -> State -> Prop}
    `{!PreOrder Rel} L exitBlock :
  keeps Rel (getExitingBlock L exitBlock).
Proof. unfold getExitingBlock. keeps_basic. Qed.

End ClosureDefs.

Create HintDb keeps.

Ltac keeps_extra := fail.

Ltac keeps_step :=
  first
  [ apply keeps_ret | apply keeps_gets | apply keeps_getState | apply keeps_crash
  | apply keeps_assert | apply keeps_deref | apply keeps_at | apply keeps_put
  | apply keeps_getBlock | apply keeps_theLatch | apply keeps_getOpcode
  | apply keeps_getIncoming | apply keeps_needsFoldingPhi | apply keeps_getExitingBlock
  | solve [auto with keeps]
  | keeps_extra
  | apply keeps_forM; intros ?
  | apply keeps_foldM; intros ? ?
  | match goal with |- keeps _ (match ?x with _ => _ end) => destruct x end
  | apply keeps_bind; [|intros ?] ].

Ltac keeps_tac := repeat keeps_step.

Section QuietFacts.
Import Shape IR Lin Linearizer.

(** [F0] is the value of [fresh] when the pass starts: the blocks of the
    input are below it, the relay blocks at or above it. *)
Context (F0 : nat).

Definition relayFresh (s : State) : Prop :=
  forall n x, n ∈ relays s -> rblock n = Some x -> (F0 <= x)%nat.

(** A step that leaves the unfolded terminators alone: none appears, none
    changes block or successors. The instructions in [P] are exempt. *)
Record quietX (P : InstRef -> Prop) (s s' : State) : Prop := mkQuiet {
  q_calm : calmF (func s) (func s');
  q_bad : forall i, ~ P i -> unfolded s' i = true ->
            unfolded s i = true /\ succsOf (func s') i = succsOf (func s) i;
  q_index : blockIndex s' = blockIndex s;
  q_heads : rhead <$> relays s' = rhead <$> relays s;
  q_relay : (F0 <= fresh (func s))%nat -> relayFresh s -> relayFresh s'
}.

Lemma quietX_refl P s : quietX P s s.
Proof. split; auto using calmF_refl. Qed.

Lemma quietX_trans P s1 s2 s3 : quietX P s1 s2 -> quietX P s2 s3 -> quietX P s1 s3.
Proof.
  intros [c1 b1 i1 h1 r1] [c2 b2 i2 h2 r2]. split.
  - eapply calmF_trans; eauto.
  - intros i Hi H3. destruct (b2 i Hi H3) as [H2 E2]. destruct (b1 i Hi H2) as [H1 E1].
    split; [exact H1|congruence].
  - congruence.
  - congruence.
  - intros HF Hr. apply r2; [|auto]. pose proof (calm_fresh _ _ c1). lia.
Qed.

#[global] Instance quietX_preorder P : PreOrder (quietX P).
Proof. split; [intros s; apply quietX_refl|intros a b c; apply quietX_trans]. Qed.

Lemma quietX_weaken (P Q : InstRef -> Prop) s s' :
  (forall i, P i -> Q i) -> quietX P s s' -> quietX Q s s'.
Proof. intros H [c b i h r]. split; auto. Qed.

(** *** Changes of the function *)

Lemma quietX_func P g s :
  calmF (func s) (g (func s)) ->
  (forall i o', ~ P i -> opcodeOf (g (func s)) i = Some o' -> isTerminator o' = true ->
     exists o, opcodeOf (func s) i = Some o /\ successorsOf o' = successorsOf o
       /\ forall sh, badOp o' sh = badOp o sh) ->
  quietX P s (withFunc g s).
Proof.
  intros Hc Hb. split; simpl_state; auto.
  intros i Hi. unfold unfolded, succsOf. simpl_state.
  destruct (opcodeOf (g (func s)) i) as [o'|] eqn:E; [|discriminate].
  intros Hbad. destruct (Hb i o' Hi E (badOp_terminator _ _ Hbad)) as (o & -> & Hs & Hsh).
  rewrite <- Hsh. auto.
Qed.

Lemma quietX_insertInst P b pos ty name o s :
  isTerminator o = false -> quietX P s (withFunc (insertInst b pos ty name o) s).
Proof.
  intros Ho. apply quietX_func; [apply calmF_insertInst, Ho|].
  intros i o' _. rewrite opcodeOf_insertInst. case_decide; [congruence|].
  intros E _. eauto.
Qed.

Lemma quietX_setOpcode P i o s :
  isTerminator o = false -> quietX P s (withFunc (setOpcode i o) s).
Proof.
  intros Ho. apply quietX_func; [apply calmF_setOpcode; congruence|].
  intros j o' _. rewrite setOpcode_opcodeOf. case_decide.
  - destruct (insts (func s) !! i); simpl; [|discriminate]. congruence.
  - intros E _. eauto.
Qed.

Lemma quietX_setOpcode_exempt (P : InstRef -> Prop) i o s :
  P i -> (isTerminator o = true -> isTermF (func s) i = true) ->
  quietX P s (withFunc (setOpcode i o) s).
Proof.
  intros HP Ho. apply quietX_func; [apply calmF_setOpcode, Ho|].
  intros j o' Hj. rewrite setOpcode_opcodeOf. case_decide; [subst; contradiction|].
  intros E _. eauto.
Qed.

Lemma quietX_mapInsts P g s :
  (forall x, isTerminator (opcode (g x)) = isTerminator (opcode x)
             /\ successorsOf (opcode (g x)) = successorsOf (opcode x)
             /\ forall sh, badOp (opcode (g x)) sh = badOp (opcode x) sh) ->
  quietX P s (withFunc (mapInsts g) s).
Proof.
  intros Hg. apply quietX_func; [apply calmF_mapInsts; intros x; apply Hg|].
  intros i o' _. rewrite opcodeOf_mapInsts. unfold opcodeOf.
  destruct (insts (func s) !! i) as [x|]; simpl; [|discriminate].
  intros [= <-] _. exists (opcode x). destruct (Hg x) as (_ & H1 & H2). auto.
Qed.

Lemma substOperands_term old new o :
  isTerminator (substOperands old new o) = isTerminator o
  /\ successorsOf (substOperands old new o) = successorsOf o
  /\ forall sh, badOp (substOperands old new o) sh = badOp o sh.
Proof. destruct o; simpl; auto. Qed.

Lemma quietX_replaceAllUsesWith P old new s :
  quietX P s (withFunc (replaceAllUsesWith old new) s).
Proof.
  unfold replaceAllUsesWith. apply quietX_mapInsts. intros x. simpl.
  apply substOperands_term.
Qed.

Lemma quietX_eraseInst P i s : quietX P s (withFunc (eraseInst i) s).
Proof.
  apply quietX_func; [apply calmF_eraseInst|].
  intros j o' _. rewrite opcodeOf_eraseInst. case_decide; [discriminate|].
  intros E _. eauto.
Qed.

Lemma quietX_addBlock P s : quietX P s (withFunc addBlock s).
Proof.
  apply quietX_func; [apply calmF_addBlock|]. intros j o' _ E _. eauto.
Qed.

Lemma quietX_eraseBlock P b s : quietX P s (withFunc (eraseBlock b) s).
Proof.
  apply quietX_func; [apply calmF_eraseBlock|].
  intros j o' _ E _. apply opcodeOf_eraseBlock in E. eauto.
Qed.

Lemma quietX_movedToFront P rb tg s :
  quietX P s (withFunc (movedToFront rb tg) s).
Proof.
  apply quietX_func; [apply calmF_movedToFront|].
  intros j o' _. rewrite opcodeOf_movedToFront. intros E _. eauto.
Qed.

(** *** Changes of the other components *)

Lemma quietX_same P s s' :
  func s' = func s -> shapes (vecInfo s') = shapes (vecInfo s) ->
  blockIndex s' = blockIndex s -> relays s' = relays s ->
  quietX P s s'.
Proof.
  intros Hf Hv Hi Hr. split.
  - rewrite Hf. apply calmF_refl.
  - intros i _. unfold unfolded, succsOf, getVectorShape. rewrite Hf, Hv. auto.
  - exact Hi.
  - rewrite Hr. reflexivity.
  - intros _. unfold relayFresh. rewrite Hr. auto.
Qed.

Lemma quietX_setShape (P : InstRef -> Prop) i sh s :
  P i \/ isUniform sh = true \/ isTermF (func s) i = false ->
  quietX P s (withVecInfo (fun v =>
     mkVecInfo (<[i := sh]> (shapes v)) (divergentLoops v) (mandatoryBlocks v)) s).
Proof.
  intros H. split; simpl_state; auto using calmF_refl.
  intros j Hj. unfold unfolded, getVectorShape. simpl_state.
  destruct (decide (j = i)) as [->|Hne].
  - rewrite lookup_insert_eq. simpl.
    destruct H as [H|[H|H]]; [contradiction| |].
    + destruct (opcodeOf (func s) i) as [[]|]; simpl; try discriminate.
      * rewrite H. discriminate.
      * auto.
    + unfold isTermF in H. destruct (opcodeOf (func s) i) as [o|]; [|discriminate].
      intros Hb. apply badOp_terminator in Hb. congruence.
  - rewrite lookup_insert_ne by congruence. auto.
Qed.

Lemma quietX_dropShape (P : InstRef -> Prop) i s :
  P i \/ isTermF (func s) i = false ->
  quietX P s (withVecInfo (fun v =>
     mkVecInfo (delete i (shapes v)) (divergentLoops v) (mandatoryBlocks v)) s).
Proof.
  intros H. split; simpl_state; auto using calmF_refl.
  intros j Hj. unfold unfolded, getVectorShape. simpl_state.
  destruct (decide (j = i)) as [->|Hne].
  - destruct H as [H|H]; [contradiction|].
    unfold isTermF in H. destruct (opcodeOf (func s) i) as [o|]; [|discriminate].
    intros Hb. apply badOp_terminator in Hb. congruence.
  - rewrite lookup_delete_ne by congruence. auto.
Qed.

Lemma quietX_relays_insert P (k : nat) (n' : RelayNode) s :
  (forall n, relays s !! k = Some n -> rhead n' = rhead n) ->
  (forall x, rblock n' = Some x ->
     (F0 <= fresh (func s))%nat -> relayFresh s -> (F0 <= x)%nat) ->
  quietX P s (withRelays (fun rs => <[k := n']> rs) s).
Proof.
  intros Hh Hb. split; simpl_state; auto using calmF_refl.
  - rewrite list_fmap_insert. apply list_insert_id'.
    intros Hk. rewrite length_fmap in Hk.
    destruct (lookup_lt_is_Some_2 _ _ Hk) as [n Hn].
    rewrite list_lookup_fmap, Hn. simpl. f_equal. symmetry. auto.
  - intros HF Hr n x Hn Hx. unfold relayFresh in *. simpl_state.
    apply list_elem_of_lookup in Hn as [j Hn].
    destruct (decide (j = k)) as [->|Hne].
    + destruct (decide (k < length (relays s))%nat) as [Hlt|Hge].
      * rewrite list_lookup_insert_eq in Hn by exact Hlt. injection Hn as <-. auto.
      * rewrite list_insert_ge in Hn by lia.
        apply (Hr n x); [eapply list_elem_of_lookup_2, Hn|exact Hx].
    + rewrite list_lookup_insert_ne in Hn by congruence.
      apply (Hr n x); [eapply list_elem_of_lookup_2, Hn|exact Hx].
Qed.

End QuietFacts.

Section QuietFunctions.
Import Shape IR Lin Linearizer.
Context (F0 : nat).

Definition quiet : State -> State -> Prop := quietX F0 (fun _ => False).

#[global] Instance quiet_preorder : PreOrder quiet.
Proof. apply quietX_preorder. Qed.

(** The steps on the relay chain and on the analyses: no instruction and
    no shape changes. *)
Definition relayStep (s s' : State) : Prop :=
  quiet s s' /\ insts (func s') = insts (func s) /\ vecInfo s' = vecInfo s.

#[global] Instance relayStep_preorder : PreOrder relayStep.
Proof.
  split.
  - intros s. split; [reflexivity|auto].
  - intros a b c (q1 & i1 & v1) (q2 & i2 & v2).
    split; [etransitivity; eauto|split; congruence].
Qed.

Lemma relayStep_quiet s s' : relayStep s s' -> quiet s s'.
Proof. intros H. apply H. Qed.

Lemma keeps_relayStep {A : Type} (m : Lin A) : keeps relayStep m -> keeps quiet m.
Proof. apply keeps_weaken, relayStep_quiet. Qed.

Lemma keeps_setEdgeMask from to mask : keeps relayStep (setEdgeMask from to mask).
Proof.
  apply keeps_modify. intros s. split; [|auto]. apply quietX_same; reflexivity.
Qed.

Lemma keeps_setIDom b d : keeps relayStep (setIDom b d).
Proof.
  apply keeps_modify. intros s. split; [|auto]. apply quietX_same; reflexivity.
Qed.

Lemma getRelay_Some s id n :
  getRelay s id = Some n ->
  0 <= id /\ relays s !! Z.to_nat id = Some n /\ is_Some (rblock n).
Proof.
  unfold getRelay. destruct (0 <=? id) eqn:E; [|discriminate].
  destruct (relays s !! Z.to_nat id) as [n'|]; [|discriminate].
  destruct (rblock n') eqn:E2; [|discriminate]. intros [= <-].
  split; [lia|]. split; [reflexivity|]. rewrite E2. eauto.
Qed.

Lemma keeps_setNext id next : keeps relayStep (setNext id next).
Proof.
  apply keeps_modify. intros s.
  destruct (relays s !! Z.to_nat id) as [n|] eqn:E.
  - split; [|auto].
    replace (withRelays _ s)
      with (withRelays (fun rs => <[Z.to_nat id := mkRelay (rhead n) (rid n) (rblock n) next]> rs) s)
      by (unfold withRelays; rewrite E; reflexivity).
    apply quietX_relays_insert; simpl.
    + intros n0 E0. congruence.
    + intros x Hx _ Hr. apply (Hr n x); [eapply list_elem_of_lookup_2, E|exact Hx].
  - replace (withRelays _ s) with s; [reflexivity|].
    unfold withRelays. rewrite E. destruct s; reflexivity.
Qed.
#[local] Hint Resolve keeps_setEdgeMask keeps_setIDom keeps_setNext : keeps.

Lemma keeps_linkChain chain : keeps relayStep (linkChain chain).
Proof.
  induction chain as [|x [|y r] IH]; simpl; keeps_tac.
Qed.
#[local] Hint Resolve keeps_linkChain : keeps.

Lemma keeps_requestRelay id : keeps relayStep (requestRelay id).
Proof.
  intros s a s' H. unfold requestRelay in H.
  apply bind_Done in H as (s0 & s1 & H0 & H). apply getState_Done in H0 as [= -> ->].
  destruct (getRelay s id); [apply ret_Done in H as [= _ ->]; reflexivity|].
  apply bind_Done in H as (rs & s1 & H0 & H). apply gets_Done in H0 as [= -> ->].
  apply bind_Done in H as (n & s1 & H0 & H). apply at_Done in H0 as (_ & Hn & Hs).
  simpl in Hn, Hs. subst s1.
  apply bind_Done in H as (b & s1 & H1 & H). injection H1 as <- <-.
  apply bind_Done in H as ([] & s2 & H2 & H). apply modify_Done in H2 as [= ->].
  apply ret_Done in H as [= _ ->].
  split; [|auto]. split; simpl_state.
  - apply calmF_addBlock.
  - intros i _. unfold unfolded, succsOf, getVectorShape. simpl_state. auto.
  - reflexivity.
  - rewrite list_fmap_insert. apply list_insert_id.
    rewrite list_lookup_fmap, Hn. reflexivity.
  - intros HF Hr n0 x Hn0 Hx. unfold relayFresh in Hr. simpl_state.
    apply list_elem_of_lookup in Hn0 as [j Hn0].
    destruct (decide (j = Z.to_nat id)) as [->|Hne].
    + rewrite list_lookup_insert_eq in Hn0 by (eapply lookup_lt_Some, Hn).
      injection Hn0 as <-. simpl in Hx. injection Hx as <-. exact HF.
    + rewrite list_lookup_insert_ne in Hn0 by congruence.
      apply (Hr n0 x); [eapply list_elem_of_lookup_2, Hn0|exact Hx].
Qed.
#[local] Hint Resolve keeps_requestRelay : keeps.

Lemma keeps_addTargetToRelay anchor targetId :
  keeps relayStep (addTargetToRelay anchor targetId).
Proof. unfold addTargetToRelay. keeps_tac. Qed.
#[local] Hint Resolve keeps_addTargetToRelay : keeps.

(** *** The operations on instructions *)

Lemma keeps_setIncoming phi inc : keeps quiet (setIncoming phi inc).
Proof. apply keeps_modify. intros s. apply quietX_setOpcode. reflexivity. Qed.
#[local] Hint Resolve keeps_setIncoming : keeps.

Lemma keeps_addIncoming phi v b : keeps quiet (addIncoming phi v b).
Proof. unfold addIncoming. keeps_tac. Qed.

Lemma keeps_setIncomingValue phi idx v : keeps quiet (setIncomingValue phi idx v).
Proof. unfold setIncomingValue. keeps_tac. Qed.

Lemma keeps_setIncomingBlock phi idx b : keeps quiet (setIncomingBlock phi idx b).
Proof. unfold setIncomingBlock. keeps_tac. Qed.
#[local] Hint Resolve keeps_addIncoming keeps_setIncomingValue keeps_setIncomingBlock : keeps.

Lemma keeps_createInst b pos ty name o :
  isTerminator o = false -> keeps quiet (createInst b pos ty name o).
Proof.
  intros Ho s a s' H. apply createInst_Done in H as [= _ ->].
  apply quietX_insertInst, Ho.
Qed.

(** A new instruction that is no terminator may get any shape. *)
Lemma keeps_createInst_shape {A : Type} b pos ty name o sh (k : InstRef -> Lin A) :
  isTerminator o = false -> (forall i, keeps quiet (k i)) ->
  keeps quiet (i ← createInst b pos ty name o; _ ← setVectorShape i sh; k i).
Proof.
  intros Ho Hk s a s' H. apply bind_Done in H as (i & s1 & H1 & H).
  apply createInst_Done in H1 as [= -> ->].
  apply bind_Done in H as ([] & s2 & H2 & H). apply setVectorShape_Done in H2 as [= ->].
  etransitivity; [apply quietX_insertInst, Ho|].
  etransitivity; [|eapply Hk, H].
  apply quietX_setShape. right. right. unfold isTermF. simpl_state.
  rewrite opcodeOf_insertInst_fresh. exact Ho.
Qed.

Lemma isConstantValue_foldSelect c x y :
  isConstantValue c && isConstantValue x && isConstantValue y = true ->
  isConstantValue (foldSelect c x y) = true.
Proof.
  intros H. apply andb_true_iff in H as [H Hy]. apply andb_true_iff in H as [Hc Hx].
  unfold foldSelect.
  destruct c; try discriminate;
    repeat match goal with
           | |- context [match ?v with _ => _ end] => destruct v; try discriminate; simpl; auto
           | |- context [if ?b then _ else _] => destruct b; simpl; auto
           end.
Qed.

Lemma keeps_createSelect_shape {A : Type} b pos c x y name sh (k : Value -> Lin A) :
  (forall d, keeps quiet (k d)) ->
  keeps quiet (d ← createSelect b pos c x y name; _ ← setValueShape d sh; k d).
Proof.
  intros Hk s a s' H. apply bind_Done in H as (d & s1 & H1 & H).
  apply bind_Done in H as ([] & s2 & H2 & H).
  etransitivity; [|eapply Hk, H]. clear H.
  unfold createSelect in H1.
  destruct (isConstantValue c && isConstantValue x && isConstantValue y) eqn:E.
  - apply ret_Done in H1 as [= -> ->].
    pose proof (isConstantValue_foldSelect c x y E) as Hc.
    destruct (foldSelect c x y); try discriminate;
      apply ret_Done in H2 as [= ->]; reflexivity.
  - apply bind_Done in H1 as (f & s0 & H0 & H1). apply gets_Done in H0 as [= -> ->].
    apply bind_Done in H1 as (r & s0 & H0 & H1). apply createInst_Done in H0 as [= -> ->].
    apply ret_Done in H1 as [= -> ->]. simpl in H2.
    apply setVectorShape_Done in H2 as [= ->].
    etransitivity; [|apply quietX_setShape; right; right; unfold isTermF; simpl_state;
                     rewrite opcodeOf_insertInst_fresh; reflexivity].
    apply quietX_insertInst. reflexivity.
Qed.

Ltac keeps_extra ::=
  first [ apply keeps_createInst_shape; [reflexivity|intros ?]
        | apply keeps_createSelect_shape; intros ? ].

Lemma keeps_setShape_uniform i sh :
  isUniform sh = true -> keeps quiet (setVectorShape i sh).
Proof. intros H. apply keeps_modify. intros s. apply quietX_setShape. auto. Qed.

#[local] Hint Resolve keeps_setShape_uniform : keeps.
#[local] Hint Resolve keeps_relayStep : keeps.

(** *** [promoteDefinition] *)

Lemma keeps_promoteIncoming type defBlockId blockId block preds defs acc kp :
  keeps quiet (promoteIncoming type defBlockId blockId block preds defs acc kp).
Proof.
  unfold promoteIncoming. destruct acc as [localDef localPhi], kp as [k predBlock].
  keeps_tac. apply keeps_createInst. reflexivity.
Qed.
#[local] Hint Resolve keeps_promoteIncoming : keeps.

Lemma keeps_promoteBlock type defBlockId defs i :
  keeps quiet (promoteBlock type defBlockId defs i).
Proof. unfold promoteBlock. keeps_tac. Qed.
#[local] Hint Resolve keeps_promoteBlock : keeps.

Lemma keeps_promoteDefinition inst defBlockId destBlockId :
  keeps quiet (promoteDefinition inst defBlockId destBlockId).
Proof. unfold promoteDefinition. keeps_tac. Qed.
#[local] Hint Resolve keeps_promoteDefinition : keeps.

(** *** The live-out trackers *)

Lemma keeps_requestTracker L preHeader liveOutPhis inst :
  keeps quiet (requestTracker L preHeader liveOutPhis inst).
Proof. unfold requestTracker. keeps_tac. Qed.

Lemma keeps_addTrackerUpdate L tracker exiting exit val :
  keeps quiet (addTrackerUpdate L tracker exiting exit val).
Proof. unfold addTrackerUpdate. keeps_tac. Qed.

Lemma keeps_getLastTrackerState L tracker : keeps quiet (getLastTrackerState L tracker).
Proof. unfold getLastTrackerState. keeps_tac. Qed.
#[local] Hint Resolve keeps_requestTracker keeps_addTrackerUpdate keeps_getLastTrackerState : keeps.

Lemma keeps_getTrackerStateForLiveOut L liveOutPhis liveOutInst :
  keeps quiet (getTrackerStateForLiveOut L liveOutPhis liveOutInst).
Proof. unfold getTrackerStateForLiveOut. keeps_tac. Qed.

Lemma keeps_replaceOutsideUses L inInst liveOut :
  keeps quiet (replaceOutsideUses L inInst liveOut).
Proof.
  apply keeps_modify. intros s. apply quietX_mapInsts. intros x.
  destruct (contains L (parent x)); [auto|]. simpl. apply substOperands_term.
Qed.
#[local] Hint Resolve keeps_getTrackerStateForLiveOut keeps_replaceOutsideUses : keeps.

Lemma keeps_trackLiveOut L preHeader exitingBlock exitBlock finalExit liveOutPhis lcPhi :
  keeps quiet (trackLiveOut L preHeader exitingBlock exitBlock finalExit liveOutPhis lcPhi).
Proof. unfold trackLiveOut. keeps_tac. Qed.
#[local] Hint Resolve keeps_trackLiveOut : keeps.

Lemma keeps_trackLiveOuts L preHeader liveOutPhis exitBlock :
  keeps quiet (trackLiveOuts L preHeader liveOutPhis exitBlock).
Proof. unfold trackLiveOuts. keeps_tac. Qed.
#[local] Hint Resolve keeps_trackLiveOuts : keeps.

(** *** Phi folding *)

Lemma keeps_foldIncoming block phiShape acc p :
  keeps quiet (foldIncoming block phiShape acc p).
Proof. unfold foldIncoming. destruct acc, p. keeps_tac. Qed.
#[local] Hint Resolve keeps_foldIncoming : keeps.

Lemma keeps_replaceAllUsesWith old new :
  keeps quiet (modify (withFunc (replaceAllUsesWith old new))).
Proof. apply keeps_modify. intros s. apply quietX_replaceAllUsesWith. Qed.

Lemma keeps_eraseInst i : keeps quiet (modify (withFunc (eraseInst i))).
Proof. apply keeps_modify. intros s. apply quietX_eraseInst. Qed.
#[local] Hint Resolve keeps_replaceAllUsesWith keeps_eraseInst : keeps.

Lemma keeps_foldPhi block phi : keeps quiet (foldPhi block phi).
Proof. unfold foldPhi. keeps_tac. Qed.
#[local] Hint Resolve keeps_foldPhi : keeps.

Lemma keeps_foldPhis block : keeps quiet (foldPhis block).
Proof. unfold foldPhis. keeps_tac. Qed.

Lemma keeps_addUndefInputs block : keeps quiet (addUndefInputs block).
Proof. unfold addUndefInputs. keeps_tac. Qed.
#[local] Hint Resolve keeps_foldPhis keeps_addUndefInputs : keeps.

(** *** The first three loops of [convertToSingleExitLoop] *)

Context (li : LoopInfo) (region : gset nat).

Lemma keeps_collectExit L preHeader acc exitBlock :
  keeps quiet (collectExit li L preHeader acc exitBlock).
Proof. unfold collectExit, GetExitingBlock. destruct acc. keeps_tac. Qed.

Lemma keeps_repairIncoming L latch block latchIndex lcPhi i :
  keeps quiet (repairIncoming L latch block latchIndex lcPhi i).
Proof. unfold repairIncoming. keeps_tac. Qed.
#[local] Hint Resolve keeps_collectExit keeps_repairIncoming : keeps.

Lemma keeps_eliminateLCSSAPhi L latch block latchIndex lcPhi :
  keeps quiet (eliminateLCSSAPhi L latch block latchIndex lcPhi).
Proof. unfold eliminateLCSSAPhi. keeps_tac. Qed.
#[local] Hint Resolve keeps_eliminateLCSSAPhi : keeps.

Lemma keeps_eliminateLCSSAPhis fuel L latch block latchIndex :
  keeps quiet (eliminateLCSSAPhis fuel L latch block latchIndex).
Proof.
  induction fuel as [|fuel IH]; simpl; keeps_tac.
Qed.
#[local] Hint Resolve keeps_eliminateLCSSAPhis : keeps.

Lemma keeps_moveLCSSANodes L latch latchIndex loopExitBlocks loopExitRelay :
  keeps quiet (moveLCSSANodes L latch latchIndex loopExitBlocks loopExitRelay).
Proof. unfold moveLCSSANodes. keeps_tac. Qed.
#[local] Hint Resolve keeps_moveLCSSANodes : keeps.

(** *** The analyses and [createReduction] *)

Lemma keeps_clearLoopDivergence L : keeps quiet (clearLoopDivergence L).
Proof. apply keeps_modify. intros s. apply quietX_same; reflexivity. Qed.

Lemma keeps_updateExitMasks b value0 value1 : keeps quiet (updateExitMasks b value0 value1).
Proof. apply keeps_modify. intros s. apply quietX_same; reflexivity. Qed.

Lemma keeps_requestReductionFunc name : keeps quiet (requestReductionFunc name).
Proof.
  unfold requestReductionFunc. keeps_tac.
  apply keeps_modify. intros s. apply quietX_func.
  - split; auto.
  - intros i o' _ E _. exists o'. auto.
Qed.
#[local] Hint Resolve keeps_clearLoopDivergence keeps_updateExitMasks
  keeps_requestReductionFunc : keeps.

Lemma keeps_createReduction pred name atEnd : keeps quiet (createReduction pred name atEnd).
Proof. unfold createReduction. keeps_tac. Qed.

(** *** [moveToFront] *)

Lemma keeps_moveToFront relayBlock target : keeps quiet (moveToFront relayBlock target).
Proof.
  intros s a s' H. unfold moveToFront in H.
  apply bind_Done in H as (f & s1 & H1 & H). apply gets_Done in H1 as [= -> ->].
  destruct (_ && _); [discriminate|].
  apply modify_Done in H as [= _ ->].
  change (quiet s (withFunc (movedToFront relayBlock target) s)).
  apply quietX_movedToFront.
Qed.

End QuietFunctions.

#[global] Hint Resolve keeps_setEdgeMask keeps_setIDom keeps_setNext keeps_linkChain
  keeps_requestRelay keeps_addTargetToRelay keeps_relayStep
  keeps_setIncoming keeps_addIncoming keeps_setIncomingValue keeps_setIncomingBlock
  keeps_setShape_uniform keeps_promoteIncoming keeps_promoteBlock keeps_promoteDefinition
  keeps_requestTracker keeps_addTrackerUpdate keeps_getLastTrackerState
  keeps_getTrackerStateForLiveOut keeps_replaceOutsideUses keeps_trackLiveOut
  keeps_trackLiveOuts keeps_foldIncoming keeps_replaceAllUsesWith keeps_eraseInst
  keeps_foldPhi keeps_foldPhis keeps_addUndefInputs keeps_collectExit
  keeps_repairIncoming keeps_eliminateLCSSAPhi keeps_eliminateLCSSAPhis
  keeps_moveLCSSANodes keeps_clearLoopDivergence keeps_updateExitMasks
  keeps_requestReductionFunc keeps_createReduction keeps_moveToFront : keeps.

(** *** Steps that replace a terminator *)

Section StepFacts.
Import Shape IR Lin Linearizer.
Context (F0 : nat) (li : LoopInfo).

(** A relation that holds from the states that satisfy [I] on, and keeps
    [I]. *)
Definition guarded (I : State -> Prop) (Rel : State -> State -> Prop)
    (s s' : State) : Prop :=
  I s -> I s' /\ Rel s s'.

#[global] Instance guarded_preorder I Rel `{!PreOrder Rel} : PreOrder (guarded I Rel).
Proof.
  split.
  - intros s Hs. split; [exact Hs|reflexivity].
  - intros a b c H1 H2 Ha. destruct (H1 Ha) as [Hb R1]. destruct (H2 Hb) as [Hc R2].
    split; [exact Hc|etransitivity; eauto].
Qed.

(** A run that ends in a state that satisfies [G]. *)
Definition ends (Rel : State -> State -> Prop) (G : State -> Prop) {A : Type}
    (m : Lin A) : Prop :=
  forall s a s', m s = Done (a, s') -> Rel s s' /\ G s'.

Lemma ends_bind {Rel : State -> State -> Prop} `{!PreOrder Rel} (G : State -> Prop)
    {A B : Type} (m : Lin A) (k : A -> Lin B) :
  keeps Rel m -> (forall a, ends Rel G (k a)) -> ends Rel G (m ≫= k).
Proof.
  intros Hm Hk s b s' H. apply bind_Done in H as (a & s1 & H1 & H2).
  destruct (Hk a s1 b s' H2) as [R2 HG]. split; [|exact HG].
  transitivity s1; [eapply Hm, H1|exact R2].
Qed.

(** While a terminator of block [B] is replaced, the instructions in [N]
    (the old terminator and the new one) are exempt. *)
Record loose (B : BlockRef) (N : InstRef -> Prop) (s s' : State) : Prop := mkLoose {
  l_list : listedFresh (func s) ->
           forall b i, i ∈ instsOf (func s') b -> isTermF (func s') i = true ->
             (i ∈ instsOf (func s) b /\ isTermF (func s) i = true) \/ (b = B /\ N i);
  l_bad : forall i, ~ N i -> unfolded s' i = true ->
            unfolded s i = true /\ succsOf (func s') i = succsOf (func s) i;
  l_wf : listedFresh (func s) -> listedFresh (func s');
  l_fresh : (fresh (func s) <= fresh (func s'))%nat;
  l_index : blockIndex s' = blockIndex s;
  l_heads : rhead <$> relays s' = rhead <$> relays s;
  l_relay : (F0 <= fresh (func s))%nat -> relayFresh F0 s -> relayFresh F0 s'
}.

Lemma quietX_loose B N s s' : quietX F0 N s s' -> loose B N s s'.
Proof.
  intros [c b i h r]. split.
  - intros _ b0 j Hj HT. left. split; [eapply calm_list; eauto|eapply calm_term; eauto].
  - exact b.
  - apply c.
  - apply c.
  - exact i.
  - exact h.
  - exact r.
Qed.

#[global] Instance loose_preorder B N : PreOrder (loose B N).
Proof.
  split.
  - intros s. apply quietX_loose. reflexivity.
  - intros s1 s2 s3 [a1 b1 c1 d1 e1 f1 g1] [a2 b2 c2 d2 e2 f2 g2]. split.
    + intros Hw b i Hi HT. destruct (a2 (c1 Hw) b i Hi HT) as [[Hi2 HT2]|H]; [|auto].
      apply (a1 Hw b i Hi2 HT2).
    + intros i Hi H3. destruct (b2 i Hi H3) as [H2 E2]. destruct (b1 i Hi H2) as [H1 E1].
      split; [exact H1|congruence].
    + auto.
    + lia.
    + congruence.
    + congruence.
    + intros HF Hr. apply g2; [lia|auto].
Qed.

Lemma listedFresh_insertInst b pos ty name o f :
  listedFresh f -> listedFresh (insertInst b pos ty name o f).
Proof.
  intros Hw b' i Hi. rewrite insertInst_instsOf in Hi.
  change (fresh (insertInst b pos ty name o f)) with (S (fresh f)).
  case_decide.
  - apply elem_of_take_drop in Hi as [Hi|Hi]; [lia|]. apply Hw in Hi. lia.
  - apply Hw in Hi. lia.
Qed.

(** The new terminator of [B]. *)
Lemma loose_insertInst B (N : InstRef -> Prop) pos ty name o s :
  N (fresh (func s)) -> loose B N s (withFunc (insertInst B pos ty name o) s).
Proof.
  intros HN. split; simpl_state; [| | | |reflexivity|reflexivity|auto].
  - intros Hw b i Hi HT. destruct (decide (i = fresh (func s))) as [->|Hne].
    + right. split; [|exact HN]. rewrite insertInst_instsOf in Hi.
      case_decide; [auto|]. apply Hw in Hi. lia.
    + left. unfold isTermF in *. rewrite opcodeOf_insertInst in HT.
      case_decide; [contradiction|]. split; [|exact HT].
      rewrite insertInst_instsOf in Hi. case_decide; [|exact Hi]. subst b.
      apply elem_of_take_drop in Hi as [Hi|Hi]; [contradiction|exact Hi].
  - intros i Hi. unfold unfolded, succsOf, getVectorShape. simpl_state.
    rewrite opcodeOf_insertInst. case_decide; [subst; contradiction|]. auto.
  - apply listedFresh_insertInst.
  - change (fresh (insertInst B pos ty name o (func s))) with (S (fresh (func s))). lia.
Qed.

(** What a step of the pass does to the unfolded terminators. *)
Record stepCore (s s' : State) : Prop := mkStep {
  sc_bad : forall i, unfolded s' i = true ->
             unfolded s i = true /\ succsOf (func s') i = succsOf (func s) i;
  sc_list : forall b i, i ∈ instsOf (func s') b -> unfolded s' i = true ->
              i ∈ instsOf (func s) b;
  sc_fresh : (fresh (func s) <= fresh (func s'))%nat;
  sc_index : blockIndex s' = blockIndex s;
  sc_heads : rhead <$> relays s' = rhead <$> relays s
}.

#[global] Instance stepCore_preorder : PreOrder stepCore.
Proof.
  split.
  - intros s. split; [auto|auto|lia|reflexivity|reflexivity].
  - intros s1 s2 s3 [a1 b1 c1 d1 e1] [a2 b2 c2 d2 e2]. split.
    + intros i H3. destruct (a2 i H3) as [H2 E2]. destruct (a1 i H2) as [H1 E1].
      split; [exact H1|congruence].
    + intros b i Hi H3. apply b1; [apply b2; auto|]. apply (a2 i H3).
    + lia.
    + congruence.
    + congruence.
Qed.

(** No unfolded terminator branches to a relay block. *)
Definition noRelayTarget (s : State) : Prop :=
  forall i x, unfolded s i = true -> x ∈ succsOf (func s) i -> (x < F0)%nat.

(** No unfolded terminator inside a loop branches to the header of the
    loop. *)
Definition uniformBackEdges (s : State) : Prop :=
  forall L b t, L ∈ allLoops li -> b ∈ loopBlocks L -> t ∈ instsOf (func s) b ->
    unfolded s t = true -> getHeader L ∉ succsOf (func s) t.

(** Index and block list agree. *)
Definition indexConsistent (s : State) : Prop :=
  (forall b i, blockIndex s !! b = Some i ->
     0 <= i /\ (rhead <$> relays s) !! Z.to_nat i = Some b)
  /\ (forall (k : nat) b, (rhead <$> relays s) !! k = Some b ->
        blockIndex s !! b = Some (Z.of_nat k)).

Record InvT (s : State) : Prop := mkInvT {
  i_listed : listedFresh (func s);
  i_one : oneTerminator (func s);
  i_target : noRelayTarget s;
  i_back : uniformBackEdges s;
  i_relay : relayFresh F0 s;
  i_F0 : (F0 <= fresh (func s))%nat;
  i_idx : indexConsistent s
}.

Definition tstep : State -> State -> Prop := guarded InvT stepCore.

#[global] Instance tstep_preorder : PreOrder tstep.
Proof. apply guarded_preorder, _. Qed.

Lemma InvT_step s s' :
  InvT s -> stepCore s s' ->
  listedFresh (func s') -> oneTerminator (func s') -> relayFresh F0 s' -> InvT s'.
Proof.
  intros [a b c d e f g] [a' b' c' d' e'] Hl Ho Hr. split.
  - exact Hl.
  - exact Ho.
  - intros i x Hi Hx. destruct (a' i Hi) as [H1 E]. rewrite E in Hx. eauto.
  - intros L bl t HL Hb Ht Hu. destruct (a' t Hu) as [H1 E]. rewrite E.
    eapply d; eauto.
  - exact Hr.
  - lia.
  - unfold indexConsistent. rewrite d', e'. exact g.
Qed.

Lemma quiet_stepCore s s' : quiet F0 s s' -> stepCore s s'.
Proof.
  intros [c b i h r]. split.
  - intros j. apply b. tauto.
  - intros bl j Hj Hu. eapply calm_list; eauto. apply unfolded_isTermF, Hu.
  - apply c.
  - exact i.
  - exact h.
Qed.

Lemma quiet_tstep s s' : quiet F0 s s' -> tstep s s'.
Proof.
  intros Hq Hi. split; [|apply quiet_stepCore, Hq].
  apply (InvT_step s s' Hi (quiet_stepCore _ _ Hq)).
  - apply Hq, Hi.
  - eapply calmF_oneTerminator; [apply Hq|apply Hi].
  - apply Hq; apply Hi.
Qed.

Lemma keeps_quiet_tstep {A : Type} (m : Lin A) : keeps (quiet F0) m -> keeps tstep m.
Proof. apply keeps_weaken, quiet_tstep. Qed.

(** The terminator [term] of [B] has been replaced. *)
Lemma loose_tstep B (N : InstRef -> Prop) term s s' :
  loose B N s s' ->
  term ∈ instsOf (func s) B -> isTermF (func s) term = true ->
  isTermF (func s') term = false ->
  (forall i, N i -> unfolded s' i = false) ->
  (forall i j, N i -> N j -> isTermF (func s') i = true -> isTermF (func s') j = true ->
     i = j) ->
  tstep s s'.
Proof.
  intros [a b c d e f g] Hin HT HT' Hn Hu Hi.
  assert (Hnot : forall i, unfolded s' i = true -> ~ N i).
  { intros i H1 H2. rewrite (Hn i H2) in H1. discriminate. }
  assert (Hc : stepCore s s').
  { split; [| |exact d|exact e|exact f].
    - intros i H. apply b; auto.
    - intros bl i Hil H. destruct (a (i_listed _ Hi) bl i Hil (unfolded_isTermF _ _ H)) as [[H1 _]|[_ H1]].
      + exact H1.
      + destruct (Hnot i H H1). }
  split; [|exact Hc]. apply (InvT_step s s' Hi Hc).
  - apply c, Hi.
  - intros bl t1 t2 H1 H2 T1 T2.
    destruct (a (i_listed _ Hi) bl t1 H1 T1) as [[O1 P1]|[E1 N1]];
      destruct (a (i_listed _ Hi) bl t2 H2 T2) as [[O2 P2]|[E2 N2]].
    + apply (i_one _ Hi bl); auto.
    + subst bl. assert (t1 = term) by (apply (i_one _ Hi B); auto). congruence.
    + subst bl. assert (t2 = term) by (apply (i_one _ Hi B); auto). congruence.
    + apply Hu; auto.
  - apply g; apply Hi.
Qed.

End StepFacts.

(** *** [emitBlock], [processBranch], loop normalization, [cleanup] *)

(** A run seen as a member of [keeps]. *)
Ltac to_keeps H R :=
  cbv beta in H; revert H;
  match goal with
  | |- ?m ?s = Done (?a, ?s') -> _ => revert s a s'; change (keeps R m)
  end.

Ltac keeps_of H R Hk :=
  cbv beta zeta in H;
  match type of H with ?m ?s = Done _ => assert (Hk : keeps R m) end.

Ltac ends_of H R G Hk :=
  cbv beta zeta in H;
  match type of H with ?m ?s = Done _ => assert (Hk : ends R G m) end.

Section BranchFacts.
Import Shape IR Lin Linearizer.
Context (F0 : nat) (li : LoopInfo) (region : gset nat).

Lemma substSuccessor_term old new o :
  isTerminator (substSuccessor old new o) = isTerminator o
  /\ forall sh, badOp (substSuccessor old new o) sh = badOp o sh.
Proof. destruct o; simpl; auto. Qed.

Lemma substSuccessor_id old new o :
  old ∉ successorsOf o -> substSuccessor old new o = o.
Proof.
  intros H. destruct o; simpl in *; try reflexivity.
  - rewrite decide_False; [reflexivity|]. intros ->. apply H. left.
  - rewrite !decide_False; [reflexivity| |].
    + intros ->. apply H. right. left.
    + intros ->. apply H. left.
  - rewrite decide_False by (intros ->; apply H; left). f_equal.
    assert (Hc : forall x, x ∈ cases -> x <> old).
    { intros x Hx ->. apply H. right. exact Hx. }
    clear H. induction cases as [|c cs IH]; simpl; [reflexivity|].
    rewrite decide_False by (apply Hc; left). f_equal. apply IH.
    intros x Hx. apply Hc. right. exact Hx.
Qed.

Lemma forwardBranches_quiet relayBlock target s a s' :
  noRelayTarget F0 s -> (F0 <= relayBlock)%nat ->
  forwardBranches relayBlock target s = Done (a, s') -> quiet F0 s s'.
Proof.
  intros HK Hrb H. unfold forwardBranches in H.
  apply bind_Done in H as (f & s1 & H1 & H). apply gets_Done in H1 as [= -> ->].
  apply bind_Done in H as ([] & s1 & H1 & H). apply assert_Done in H1 as [_ [= ->]].
  apply modify_Done in H as [= _ ->].
  split; simpl_state; [| |reflexivity|reflexivity|auto].
  - apply calmF_mapInsts. intros x. simpl. apply substSuccessor_term.
  - intros i _ Hu.
    assert (Hs : unfolded s i = true
                 /\ forall o, opcodeOf (func s) i = Some o ->
                      opcodeOf (mapInsts (fun x => withOpcode
                        (substSuccessor relayBlock target (opcode x)) x) (func s)) i
                      = Some (substSuccessor relayBlock target o)).
    { unfold unfolded, getVectorShape in *. simpl_state.
      rewrite opcodeOf_mapInsts in *. unfold opcodeOf.
      destruct (insts (func s) !! i) as [x|]; simpl in *; [|discriminate].
      destruct (substSuccessor_term relayBlock target (opcode x)) as [_ Hb].
      rewrite Hb in Hu. split; [exact Hu|]. intros o [= <-]. reflexivity. }
    destruct Hs as [Hu0 Ho]. split; [exact Hu0|].
    unfold succsOf.
    destruct (opcodeOf (func s) i) as [o|] eqn:E.
    + rewrite (Ho o eq_refl). rewrite substSuccessor_id; [reflexivity|].
      intros Hin. assert (relayBlock < F0)%nat; [|lia].
      apply (HK i relayBlock Hu0). unfold succsOf. rewrite E. exact Hin.
    + unfold unfolded in Hu0. rewrite E in Hu0. discriminate.
Qed.

Lemma emitBlock_quiet targetId s a s' :
  noRelayTarget F0 s -> relayFresh F0 s ->
  emitBlock targetId s = Done (a, s') -> quiet F0 s s'.
Proof.
  intros HK Hr H. unfold emitBlock in H.
  apply bind_Done in H as (target & s1 & H1 & H).
  assert (s1 = s) as ->.
  { unfold getBlock in H1. apply bind_Done in H1 as (rs & s2 & H2 & H1).
    apply gets_Done in H2 as [= -> ->].
    apply bind_Done in H1 as (n & s2 & H2 & H1). apply at_Done in H2 as (_ & _ & Hs).
    simpl in Hs. subst s2. apply ret_Done in H1 as [= _ ->]. reflexivity. }
  clear H1.
  apply bind_Done in H as ([relayBlock advancedRelay] & s1 & H1 & H).
  unfold advanceScheduleHead in H1.
  apply bind_Done in H1 as (s0 & s2 & H2 & H1). apply getState_Done in H2 as [= -> ->].
  destruct (getRelay s targetId) as [n|] eqn:En.
  - apply getRelay_Some in En as (Hid & Hn & [rb Hrb]).
    apply bind_Done in H1 as ([] & s2 & H2 & H1). apply modify_Done in H2 as [= ->].
    apply ret_Done in H1 as [= -> -> ->]. rewrite Hrb in H.
    assert (Hq1 : quiet F0 s (withRelays (fun rs =>
              <[Z.to_nat targetId := mkRelay (rhead n) (rid n) None None]> rs) s)).
    { apply quietX_relays_insert; simpl.
      - intros n0 E0. congruence.
      - discriminate. }
    etransitivity; [exact Hq1|].
    set (s1 := withRelays _ s) in *.
    assert (HK1 : noRelayTarget F0 s1) by exact HK.
    assert (Hge : (F0 <= rb)%nat).
    { apply (Hr n rb); [eapply list_elem_of_lookup_2, Hn|exact Hrb]. }
    clearbody s1. clear Hq1.
    apply bind_Done in H as (s0 & s2 & H2 & H). apply getState_Done in H2 as [= -> ->].
    apply bind_Done in H as ([] & s2 & H2 & H). apply assert_Done in H2 as [_ [= ->]].
    apply bind_Done in H as ([] & s2 & H2 & H).
    etransitivity; [eapply forwardBranches_quiet; eauto|].
    clear - H. to_keeps H (quiet F0).
    keeps_tac. apply keeps_modify. intros ?. apply quietX_eraseBlock.
  - apply ret_Done in H1 as [= -> -> ->]. apply ret_Done in H as [= _ ->]. reflexivity.
Qed.

Lemma keeps_emitBlock targetId : keeps (tstep F0 li) (emitBlock targetId).
Proof.
  intros s a s' H Hi. apply (quiet_tstep F0 li s s'); [|exact Hi].
  eapply emitBlock_quiet; [apply Hi|apply Hi|exact H].
Qed.

(** While the successors of the branch [term] are redirected, [term] is
    exempt; it stays a branch of its kind. *)
Definition opIs (Q : Opcode -> Prop) (term : InstRef) (s : State) : Prop :=
  exists o, opcodeOf (func s) term = Some o /\ Q o.

(** Every instruction but [term] keeps its opcode and its shape. *)
Definition othersSame (term : InstRef) (s s' : State) : Prop :=
  forall i, i <> term ->
    insts (func s') !! i = insts (func s) !! i
    /\ getVectorShape s' i = getVectorShape s i.

Definition branchRel (term : InstRef) (s s' : State) : Prop :=
  quietX F0 (fun i => i = term) s s' /\ othersSame term s s'.

#[global] Instance branchRel_preorder term : PreOrder (branchRel term).
Proof.
  split.
  - intros s. split; [reflexivity|]. intros i _. auto.
  - intros s1 s2 s3 [q1 o1] [q2 o2]. split; [etransitivity; eauto|].
    intros i Hi. destruct (o1 i Hi) as [a1 b1]. destruct (o2 i Hi) as [a2 b2].
    split; congruence.
Qed.

Definition branchStep (Q : Opcode -> Prop) (term : InstRef) : State -> State -> Prop :=
  guarded (opIs Q term) (branchRel term).

#[global] Instance branchStep_preorder Q term : PreOrder (branchStep Q term).
Proof. apply guarded_preorder, _. Qed.

Lemma relayStep_branchStep Q term s s' : relayStep F0 s s' -> branchStep Q term s s'.
Proof.
  intros (q & i & v) (o & Ho & HQ). split; [|split].
  - exists o. unfold opcodeOf in *. rewrite i. auto.
  - eapply quietX_weaken; [|exact q]. simpl. tauto.
  - intros j _. unfold getVectorShape. rewrite i, v. auto.
Qed.

Lemma keeps_branchStep Q term {A : Type} (m : Lin A) :
  keeps (relayStep F0) m -> keeps (branchStep Q term) m.
Proof. apply keeps_weaken, relayStep_branchStep. Qed.

Definition isCond (o : Opcode) : Prop :=
  match o with CondBranchInst _ _ _ => True | _ => False end.

Definition isBr (o : Opcode) : Prop :=
  match o with BranchInst _ => True | _ => False end.

Lemma othersSame_setOpcode term o s : othersSame term s (withFunc (setOpcode term o) s).
Proof.
  intros i Hi. simpl_state. rewrite setOpcode_insts. case_decide; [contradiction|]. auto.
Qed.

Lemma keeps_setSuccessor term idx b :
  keeps (branchStep isCond term) (setSuccessor term idx b).
Proof.
  intros s a s' H _. unfold setSuccessor in H.
  apply bind_Done in H as (o & s1 & H1 & H). apply getOpcode_Done in H1 as [Ho Hs].
  simpl in Ho, Hs. subst s1.
  destruct o; try discriminate. apply modify_Done in H as [= _ ->]. split; [|split].
  - eexists. split; [simpl_state; eapply setOpcode_opcodeOf_eq, Ho|].
    destruct (idx =? 0)%nat; exact I.
  - apply quietX_setOpcode_exempt; [reflexivity|].
    intros _. unfold isTermF. rewrite Ho. reflexivity.
  - apply othersSame_setOpcode.
Qed.

Lemma keeps_setOpcode_branch term rb :
  keeps (branchStep isBr term) (modify (withFunc (setOpcode term (BranchInst rb)))).
Proof.
  intros s a s' H (o & Ho & HQ). apply modify_Done in H as [= _ ->]. split; [|split].
  - eexists. split; [simpl_state; eapply setOpcode_opcodeOf_eq, Ho|exact I].
  - apply quietX_setOpcode_exempt; [reflexivity|].
    intros _. unfold isTermF. rewrite Ho. destruct o; try contradiction. reflexivity.
  - apply othersSame_setOpcode.
Qed.

Lemma ends_setShape_uniform Q term :
  ends (branchStep Q term) (fun s => getVectorShape s term = Uniform 1)
       (setVectorShape term (uni 1)).
Proof.
  intros s a s' H. apply setVectorShape_Done in H as [= _ ->]. split.
  - intros Hi. split; [exact Hi|]. split.
    + apply quietX_setShape. left. reflexivity.
    + intros i Hi'. unfold getVectorShape. simpl_state.
      rewrite lookup_insert_ne by congruence. auto.
  - unfold getVectorShape. simpl_state. rewrite lookup_insert_eq. reflexivity.
Qed.

Lemma quietX_close (P : InstRef -> Prop) s s' :
  quietX F0 P s s' -> (forall i, P i -> unfolded s' i = false) -> quiet F0 s s'.
Proof.
  intros [c b i h r] HP. split; auto.
  intros j _ Hu. apply b; [|exact Hu]. intros Hj. rewrite (HP j Hj) in Hu. discriminate.
Qed.

Lemma opIs_isBr_needsFolding term s :
  opIs isBr term s -> needsFoldingTerm s term = Done false.
Proof.
  intros (o & Ho & HQ). unfold needsFoldingTerm. rewrite Ho.
  destruct o; try contradiction. reflexivity.
Qed.

Lemma opIs_isCond_needsFolding term s :
  opIs isCond term s -> getVectorShape s term = Uniform 1 ->
  needsFoldingTerm s term = Done false.
Proof.
  intros (o & Ho & HQ) Hs. unfold needsFoldingTerm. rewrite Ho, Hs.
  destruct o; try contradiction. reflexivity.
Qed.

Lemma needsFolding_unfolded s t : needsFoldingTerm s t = Done false -> unfolded s t = false.
Proof.
  unfold needsFoldingTerm, unfolded. destruct (opcodeOf (func s) t) as [o|]; [|reflexivity].
  destruct o; simpl; try discriminate; try reflexivity.
  intros [= ->]. reflexivity.
Qed.

Lemma ends_crash {Rel : State -> State -> Prop} (G : State -> Prop) {A : Type} (e : failure) :
  ends Rel G (crash e : Lin A).
Proof. intros s a s' H. discriminate. Qed.

(** [processBranch] leaves a terminator that needs no folding and touches
    no other instruction. *)
Lemma processBranch_result head exitRelay parentLoop s a s' :
  processBranch head exitRelay parentLoop s = Done (a, s') ->
  exists term, getTerminator (func s) head = Some term
    /\ branchRel term s s'
    /\ needsFoldingTerm s' term = Done false.
Proof.
  intros H. unfold processBranch in H.
  apply bind_Done in H as (f & s1 & H1 & H). apply gets_Done in H1 as [= -> ->].
  apply bind_Done in H as (term & s1 & H1 & H). apply deref_Done in H1 as [Ht Hs].
  simpl in Ht, Hs. subst s1.
  apply bind_Done in H as (o & s1 & H1 & H). apply getOpcode_Done in H1 as [Ho Hs].
  simpl in Ho, Hs. subst s1.
  exists term. split; [exact Ht|].
  assert (Hrelay : forall Q anchor id,
            keeps (branchStep Q term) (addTargetToRelay anchor id)).
  { intros. apply keeps_branchStep. auto with keeps. }
  assert (Hmask : forall Q from to mask, keeps (branchStep Q term) (setEdgeMask from to mask)).
  { intros. apply keeps_branchStep. auto with keeps. }
  assert (Hdom : forall Q b d, keeps (branchStep Q term) (setIDom b d)).
  { intros. apply keeps_branchStep. auto with keeps. }
  pose proof (keeps_setSuccessor term) as Hsucc.
  pose proof (keeps_setOpcode_branch term) as Hbr.
  destruct o; try discriminate.
  - (* unconditional *)
    keeps_of H (branchStep isBr term) Hk; [keeps_tac|].
    destruct (Hk _ _ _ H) as [Hop Hq]; [eexists; split; [exact Ho|exact I]|].
    split; [exact Hq|]. apply opIs_isBr_needsFolding, Hop.
  - (* conditional *)
    apply bind_Done in H as (s0 & s1 & H1 & H). apply getState_Done in H1 as [= -> ->].
    destruct (needsFoldingTerm s term) as [mustFoldBranch|e]; [|discriminate].
    ends_of H (branchStep isCond term) (fun s => getVectorShape s term = Uniform 1) Hk.
    { repeat (apply ends_bind; [keeps_tac|intros ?]). apply ends_setShape_uniform. }
    destruct (Hk _ _ _ H) as [Hg Hsh].
    destruct Hg as [Hop Hq]; [eexists; split; [exact Ho|exact I]|].
    split; [exact Hq|]. apply opIs_isCond_needsFolding; auto.
  - apply ret_Done in H as [= _ ->]. split; [reflexivity|].
    unfold needsFoldingTerm. rewrite Ho. reflexivity.
  - apply ret_Done in H as [= _ ->]. split; [reflexivity|].
    unfold needsFoldingTerm. rewrite Ho. reflexivity.
Qed.

Lemma processBranch_quiet head exitRelay parentLoop s a s' :
  processBranch head exitRelay parentLoop s = Done (a, s') ->
  quiet F0 s s'
  /\ exists term, getTerminator (func s) head = Some term /\ unfolded s' term = false.
Proof.
  intros H. apply processBranch_result in H as (term & Ht & [Hq _] & Hn).
  apply needsFolding_unfolded in Hn.
  split; [|eauto]. eapply quietX_close; [exact Hq|]. intros i ->. exact Hn.
Qed.

(** *** Terminators that are replaced *)

Lemma getTerminator_isTermF f b t : getTerminator f b = Some t -> isTermF f t = true.
Proof.
  intros H. apply getTerminator_last in H as (l0 & _ & _ & o & Ho & HT).
  unfold isTermF. rewrite Ho. exact HT.
Qed.

Lemma isTermF_eraseInst i f : isTermF (eraseInst i f) i = false.
Proof. unfold isTermF. rewrite opcodeOf_eraseInst, decide_True by reflexivity. reflexivity. Qed.

Lemma unfolded_not_term s i : isTermF (func s) i = false -> unfolded s i = false.
Proof.
  intros H. destruct (unfolded s i) eqn:E; [|reflexivity].
  apply unfolded_isTermF in E. congruence.
Qed.

Lemma keeps_dropLoopExit block L : keeps (tstep F0 li) (dropLoopExit block L).
Proof.
  intros s a s' H Hi. revert Hi. change (tstep F0 li s s').
  unfold dropLoopExit in H.
  apply bind_Done in H as (f & s1 & H1 & H). apply gets_Done in H1 as [= -> ->].
  apply bind_Done in H as (term & s1 & H1 & H). apply deref_Done in H1 as [Ht Hs].
  simpl in Ht, Hs. subst s1.
  apply bind_Done in H as (o & s1 & H1 & H). apply getOpcode_Done in H1 as [Ho Hs].
  simpl in Ho, Hs. subst s1.
  apply bind_Done in H as ([] & s1 & H1 & H). apply assert_Done in H1 as [_ [= ->]].
  apply bind_Done in H as ([] & s1 & H1 & H). apply assert_Done in H1 as [_ [= ->]].
  destruct (filter _ (successorsOf o)) as [|u us]; [discriminate|].
  apply bind_Done in H as (r & s1 & H1 & H). apply createInst_Done in H1 as [= -> ->].
  apply bind_Done in H as ([] & s2 & H2 & H). apply modify_Done in H2 as [= ->].
  apply bind_Done in H as ([] & s3 & H3 & H). apply dropVectorShape_Done in H3 as [= ->].
  apply setVectorShape_Done in H as [= _ ->].
  set (r := fresh (func s)).
  set (N := fun i : InstRef => i = r \/ i = term).
  apply (loose_tstep F0 li block N term).
  - transitivity (withFunc (insertInst block (terminatorPos (func s) block) VoidTy ""
                    (BranchInst u)) s).
    { apply loose_insertInst. left. reflexivity. }
    etransitivity; [apply quietX_loose, quietX_eraseInst|]. simpl_state.
    etransitivity; [apply quietX_loose, quietX_dropShape; left; right; reflexivity|].
    apply quietX_loose, quietX_setShape. left. left. reflexivity.
  - eapply getTerminator_elem, Ht.
  - eapply getTerminator_isTermF, Ht.
  - simpl_state. apply isTermF_eraseInst.
  - assert (Ht' : isTermF (func (withFunc (eraseInst term) (withFunc (insertInst block
              (terminatorPos (func s) block) VoidTy "" (BranchInst u)) s))) term = false)
      by (simpl_state; apply isTermF_eraseInst).
    intros i [->| ->].
    + unfold unfolded. simpl_state. rewrite opcodeOf_eraseInst. case_decide; [reflexivity|].
      rewrite opcodeOf_insertInst_fresh. reflexivity.
    + apply unfolded_not_term. exact Ht'.
  - simpl_state. intros i j [->| ->] [->| ->] Ti Tj; try reflexivity;
      rewrite isTermF_eraseInst in *; discriminate.
Qed.

Lemma keeps_dropExitingBlocks L : keeps (tstep F0 li) (dropExitingBlocks L).
Proof. pose proof keeps_dropLoopExit. unfold dropExitingBlocks. keeps_tac. Qed.

Lemma keeps_createLatchExit L latch loopExitRelay :
  keeps (tstep F0 li) (createLatchExit L latch loopExitRelay).
Proof.
  intros s a s' H Hi. pose proof Hi as Hi2. revert Hi2. change (tstep F0 li s s').
  unfold createLatchExit in H.
  apply bind_Done in H as (s0 & s1 & H1 & H). apply getState_Done in H1 as [= -> ->].
  apply bind_Done in H as (term & s1 & H1 & H). apply deref_Done in H1 as [Ht Hs].
  simpl in Ht, Hs. subst s1.
  apply bind_Done in H as (o & s1 & H1 & H). apply getOpcode_Done in H1 as [Ho Hs].
  simpl in Ho, Hs. subst s1.
  apply bind_Done in H as ([] & s1 & H1 & H). apply assert_Done in H1 as [_ [= ->]].
  apply bind_Done in H as ([] & s1 & H1 & H). apply dropVectorShape_Done in H1 as [= ->].
  apply bind_Done in H as ([] & s2 & H2 & H). apply modify_Done in H2 as [= ->].
  apply bind_Done in H as (liveCond & s1 & H1 & H). apply deref_Done in H1 as [_ Hs].
  simpl in Hs. subst s1.
  apply bind_Done in H as (call & s3 & H3 & H).
  apply (keeps_createReduction F0) in H3.
  apply bind_Done in H as (r0 & s1 & H1 & H). apply deref_Done in H1 as [_ Hs].
  simpl in Hs. subst s1.
  apply bind_Done in H as (erb & s1 & H1 & H). apply deref_Done in H1 as [_ Hs].
  simpl in Hs. subst s1.
  apply bind_Done in H as (f & s1 & H1 & H). apply gets_Done in H1 as [= -> ->].
  apply bind_Done in H as (branch & s4 & H4 & H). apply createInst_Done in H4 as [= -> ->].
  apply bind_Done in H as ([] & s5 & H5 & H). apply setVectorShape_Done in H5 as [= ->].
  apply bind_Done in H as ([] & s6 & H6 & H). apply modify_Done in H6 as [= ->].
  apply bind_Done in H as (s0 & s1 & H1 & H). apply getState_Done in H1 as [= -> ->].
  apply bind_Done in H as ([] & s7 & H7 & H). apply modify_Done in H7 as [= ->].
  apply ret_Done in H as [= _ ->].
  set (s2 := withFunc (eraseInst term) _) in *.
  set (r := fresh (func s3)).
  set (N := fun i : InstRef => i = r \/ i = term).
  assert (Hlt : (term < r)%nat).
  { pose proof (i_listed _ _ _ Hi latch term (getTerminator_elem _ _ _ Ht)) as Hl.
    pose proof (calm_fresh _ _ (q_calm _ _ _ _ H3)) as Hf.
    unfold s2 in Hf. simpl_state. rewrite eraseInst_fresh in Hf. unfold r. lia. }
  assert (HT3 : isTermF (func s3) term = false).
  { destruct (isTermF (func s3) term) eqn:E; [|reflexivity].
    apply (calm_term _ _ (q_calm _ _ _ _ H3)) in E. unfold s2 in E. simpl_state.
    rewrite isTermF_eraseInst in E. discriminate. }
  assert (HT' : forall o', isTermF (insertInst latch (length (instsOf (func s3) latch)) VoidTy ""
                   o' (func s3)) term = false).
  { intros o'. unfold isTermF. rewrite opcodeOf_insertInst. case_decide; [lia|]. exact HT3. }
  apply (loose_tstep F0 li latch N term).
  - transitivity s2.
    { etransitivity; [apply quietX_loose, quietX_dropShape; left; right; reflexivity|].
      apply quietX_loose, quietX_eraseInst. }
    transitivity s3.
    { apply quietX_loose. eapply quietX_weaken; [|exact H3]. simpl. tauto. }
    etransitivity; [apply loose_insertInst; left; reflexivity|].
    etransitivity; [apply quietX_loose, quietX_setShape; left; left; reflexivity|].
    simpl_state.
    etransitivity; apply quietX_loose, quietX_same; reflexivity.
  - eapply getTerminator_elem, Ht.
  - eapply getTerminator_isTermF, Ht.
  - simpl_state. apply HT'.
  - intros i [->| ->].
    + unfold unfolded, getVectorShape. simpl_state.
      rewrite opcodeOf_insertInst_fresh. fold r. rewrite lookup_insert_eq. reflexivity.
    + apply unfolded_not_term. simpl_state. apply HT'.
  - simpl_state. intros i j [->| ->] [->| ->] Ti Tj; try reflexivity;
      rewrite HT' in *; discriminate.
Qed.

Lemma keeps_convertToSingleExitLoop L exitRelay :
  keeps (tstep F0 li) (convertToSingleExitLoop li L exitRelay).
Proof.
  pose proof keeps_dropExitingBlocks. pose proof keeps_createLatchExit.
  pose proof (@keeps_quiet_tstep F0 li).
  unfold convertToSingleExitLoop. keeps_tac.
Qed.

Lemma keeps_cleanup : keeps (tstep F0 li) cleanup.
Proof.
  unfold cleanup. apply keeps_bind; [keeps_tac|intros f0].
  apply keeps_forM. intros block.
  intros s a s' H Hi. pose proof Hi as Hi2. revert Hi2. change (tstep F0 li s s').
  apply bind_Done in H as (f & s1 & H1 & H). apply gets_Done in H1 as [= -> ->].
  destruct (getTerminator (func s) block) as [term|] eqn:Ht;
    [|apply ret_Done in H as [= _ ->]; reflexivity].
  apply bind_Done in H as (o & s1 & H1 & H). apply getOpcode_Done in H1 as [Ho Hs].
  simpl in Ho, Hs. subst s1.
  destruct (successorsOf o) as [|singleSucc [|y ys]];
    try (apply ret_Done in H as [= _ ->]; reflexivity).
  destruct (forallb _ _); [|apply ret_Done in H as [= _ ->]; reflexivity].
  apply bind_Done in H as (r & s1 & H1 & H). apply createInst_Done in H1 as [= -> ->].
  apply bind_Done in H as ([] & s2 & H2 & H). apply setVectorShape_Done in H2 as [= ->].
  apply bind_Done in H as ([] & s3 & H3 & H). apply dropVectorShape_Done in H3 as [= ->].
  apply modify_Done in H as [= _ ->].
  set (r := fresh (func s)).
  set (N := fun i : InstRef => i = r \/ i = term).
  apply (loose_tstep F0 li block N term).
  - transitivity (withFunc (insertInst block (terminatorPos (func s) block) VoidTy ""
                    (BranchInst singleSucc)) s).
    { apply loose_insertInst. left. reflexivity. }
    etransitivity; [apply quietX_loose, quietX_setShape; left; left; reflexivity|].
    etransitivity; [apply quietX_loose, quietX_dropShape; left; right; reflexivity|].
    apply quietX_loose, quietX_eraseInst.
  - eapply getTerminator_elem, Ht.
  - eapply getTerminator_isTermF, Ht.
  - simpl_state. apply isTermF_eraseInst.
  - intros i [->| ->].
    + unfold unfolded. simpl_state. rewrite opcodeOf_eraseInst. case_decide; [reflexivity|].
      rewrite opcodeOf_insertInst_fresh. reflexivity.
    + apply unfolded_not_term. simpl_state. apply isTermF_eraseInst.
  - simpl_state. intros i j [->| ->] [->| ->] Ti Tj; try reflexivity;
      rewrite isTermF_eraseInst in *; discriminate.
Qed.

End BranchFacts.

(** *** The block index that [run] starts from *)

Section RunFacts.
Import Shape IR Lin Linearizer.
Context (li : LoopInfo) (region : gset nat).

(** [buildBlockIndex] changes the index and the block list only, and keeps
    them consistent. *)
Definition built (s0 s : State) : Prop :=
  func s = func s0 /\ vecInfo s = vecInfo s0 /\ indexConsistent s
  /\ forall n, n ∈ relays s -> rblock n = None.

Lemma addToBlockIndex_built s0 b s r :
  built s0 s -> indexed s b = false -> addToBlockIndex b s = Done r -> built s0 r.2.
Proof.
  intros (Hf & Hv & [Hc1 Hc2] & Hn) Hb H. unfold addToBlockIndex in H.
  apply bind_Done in H as (s1 & s2 & H1 & H). apply getState_Done in H1 as [= -> ->].
  apply bind_Done in H as ([] & s1 & H1 & H). apply assert_Done in H1 as [_ [= ->]].
  apply bind_Done in H as ([] & s1 & H1 & H). apply modify_Done in H1 as [= ->].
  apply modify_Done in H as ->. simpl_state.
  assert (Hnone : blockIndex s !! b = None).
  { unfold indexed in Hb. apply bool_decide_eq_false in Hb.
    destruct (blockIndex s !! b); [exfalso; eauto|reflexivity]. }
  assert (Hlen : length (rhead <$> relays s) = length (relays s)) by apply length_fmap.
  split; [exact Hf|]. split; [exact Hv|]. split; [split|]; simpl_state.
  - intros b' i Hi. rewrite fmap_app. destruct (decide (b' = b)) as [->|Hne].
    + rewrite lookup_insert_eq in Hi. injection Hi as <-. unfold getNumBlocks.
      split; [lia|]. rewrite Nat2Z.id, lookup_app_r by lia.
      rewrite Hlen, Nat.sub_diag. reflexivity.
    + rewrite lookup_insert_ne in Hi by congruence. destruct (Hc1 b' i Hi) as [H0 Hl].
      split; [exact H0|]. rewrite lookup_app_l; [exact Hl|]. eapply lookup_lt_Some, Hl.
  - intros k b' Hk. rewrite fmap_app in Hk.
    destruct (decide (k < length (rhead <$> relays s))%nat) as [Hlt|Hge].
    + rewrite lookup_app_l in Hk by exact Hlt. apply Hc2 in Hk.
      rewrite lookup_insert_ne; [exact Hk|]. intros ->. congruence.
    + rewrite lookup_app_r in Hk by lia. simpl in Hk.
      destruct (k - length (rhead <$> relays s))%nat as [|k'] eqn:Ek; [|discriminate].
      injection Hk as <-. rewrite lookup_insert_eq. unfold getNumBlocks. f_equal. lia.
  - intros n Hin. apply elem_of_app in Hin as [Hin|Hin]; [auto|].
    apply list_elem_of_singleton in Hin. subst n. reflexivity.
Qed.

Lemma indexStack_built s0 fuel :
  forall stack P s r, built s0 s ->
    indexStack li region fuel stack P s = Done r -> built s0 r.2.
Proof.
  induction fuel as [|fuel IH]; intros stack P s r Hs H.
  - destruct stack; [apply ret_Done in H as ->; exact Hs|discriminate].
  - destruct stack as [|block rest]; [apply ret_Done in H as ->; exact Hs|].
    cbn [indexStack] in H.
    apply bind_Done in H as (s1 & s2 & H1 & H). apply getState_Done in H1 as [= -> ->].
    destruct (indexed s block) eqn:Ei; [eapply IH; eauto|].
    cbv zeta in H.
    destruct (getLoopFor li block) as [L|].
    + destruct (negb (bool_decide (getHeader L ∈ P))).
      * apply bind_Done in H as (latch & s1 & H1 & H). apply theLatch_Done in H1 as [_ Hs1].
        simpl in Hs1. subst s1. eapply IH; eauto.
      * destruct (pendingPreds region s _ block); [|eapply IH; eauto].
        apply bind_Done in H as ([] & s1 & H1 & H).
        apply (addToBlockIndex_built s0) in H1; [|exact Hs|exact Ei]. simpl in H1.
        destruct (bool_decide (getHeader L = block)); [|eapply IH; eauto].
        apply bind_Done in H as (f & s2 & H2 & H). apply gets_Done in H2 as [= -> ->].
        destruct (getLoopLatch (func s1) L); [|discriminate].
        apply bind_Done in H as (s3 & s2 & H2 & H). apply getState_Done in H2 as [= -> ->].
        destruct (indexed s1 n); eapply IH; eauto.
    + destruct (pendingPreds region s None block); [|eapply IH; eauto].
      apply bind_Done in H as ([] & s1 & H1 & H).
      apply (addToBlockIndex_built s0) in H1; [|exact Hs|exact Ei]. simpl in H1.
      eapply IH; eauto.
Qed.

Lemma seekAll_built s0 fuel (l : list BlockRef) :
  forall P s r, built s0 s ->
    foldM (fun (pushedLoops : gset nat) block =>
             s ← getState;
             if negb (inRegion region block) then mret pushedLoops
             else if indexed s block then mret pushedLoops
             else indexStack li region fuel [block] pushedLoops) P l s = Done r ->
    built s0 r.2.
Proof.
  induction l as [|b l IH]; intros P s r H0 H1; simpl in H1.
  - apply ret_Done in H1 as ->. exact H0.
  - apply bind_Done in H1 as (P1 & s3 & H2 & H1).
    apply bind_Done in H2 as (s4 & s5 & H3 & H2). apply getState_Done in H3 as [= -> ->].
    assert (built s0 s3).
    { destruct (negb (inRegion region b)); [apply ret_Done in H2 as [= _ ->]; exact H0|].
      destruct (indexed s b); [apply ret_Done in H2 as [= _ ->]; exact H0|].
      apply (indexStack_built s0) in H2; auto. }
    eapply IH; eauto.
Qed.

Lemma buildBlockIndex_built fuel s r :
  relays s = [] -> blockIndex s = ∅ ->
  buildBlockIndex li region fuel s = Done r -> built s r.2.
Proof.
  intros Hr Hi H. unfold buildBlockIndex in H.
  apply bind_Done in H as (f & s1 & H1 & H). apply gets_Done in H1 as [= -> ->].
  apply bind_Done in H as (P & s1 & H1 & H). apply ret_Done in H as ->. simpl.
  apply (seekAll_built s) in H1; [exact H1|].
  split; [reflexivity|]. split; [reflexivity|]. split; [split|].
  - intros b i. rewrite Hi, lookup_empty. discriminate.
  - intros k b. rewrite Hr. simpl. rewrite lookup_nil. discriminate.
  - intros n. rewrite Hr. intros Hn. apply elem_of_nil in Hn. contradiction.
Qed.

Lemma keeps_verifyLoopIndex L : keeps eq (verifyLoopIndex L).
Proof.
  induction L as [h bs subs IH] using Loop_nested_ind. cbn [verifyLoopIndex].
  apply keeps_bind.
  - induction subs as [|c r IHr]; [apply keeps_ret|].
    inversion IH as [|? ? Hc Hr]; subst.
    apply keeps_bind; [exact Hc|intros _; apply IHr, Hr].
  - intros _. keeps_tac.
Qed.

Lemma verifyBlockIndex_same s r : verifyBlockIndex li s = Done r -> r.2 = s.
Proof.
  destruct r as [a s']. intros H. symmetry.
  revert H. apply (keeps_forM (Rel := eq)). intros L. apply keeps_verifyLoopIndex.
Qed.

(** *** Coverage: the blocks that have been emitted *)

Section Coverage.
Context (F0 : nat).

(** No instruction of [b] is an unfolded terminator. *)
Definition clean (s : State) (b : BlockRef) : Prop :=
  forall t, t ∈ instsOf (func s) b -> unfolded s t = false.

(** The blocks with index in [[i, e)] are clean. *)
Definition covered (s : State) (i e : Z) : Prop :=
  forall j b, i <= j < e -> 0 <= j ->
    (rhead <$> relays s) !! Z.to_nat j = Some b -> clean s b.

Lemma clean_step s s' b : stepCore s s' -> clean s b -> clean s' b.
Proof.
  intros Hc Hb t Ht. destruct (unfolded s' t) eqn:E; [|reflexivity].
  pose proof (sc_list _ _ Hc b t Ht E) as Hin.
  destruct (sc_bad _ _ Hc t E) as [Hu _]. rewrite (Hb t Hin) in Hu. discriminate.
Qed.

Lemma covered_step s s' i e : stepCore s s' -> covered s i e -> covered s' i e.
Proof.
  intros Hc H j b Hj H0 Hb. rewrite (sc_heads _ _ Hc) in Hb.
  eapply clean_step; eauto.
Qed.

Lemma getBlock_Done id s r :
  getBlock id s = Done r ->
  0 <= id /\ (rhead <$> relays s) !! Z.to_nat id = Some r.1 /\ r.2 = s.
Proof.
  unfold getBlock. intros H.
  apply bind_Done in H as (rs & s1 & H1 & H). apply gets_Done in H1 as [= -> ->].
  apply bind_Done in H as (n & s1 & H1 & H). apply at_Done in H1 as (Hr & Hn & Hs).
  simpl in Hn, Hs. subst s1. apply ret_Done in H as ->. simpl.
  split; [lia|]. split; [|reflexivity]. rewrite list_lookup_fmap, Hn. reflexivity.
Qed.

Lemma elem_of_predecessors f b p : p ∈ predecessors f b -> b ∈ successors f p.
Proof.
  unfold predecessors. intros H. apply list_elem_of_In, in_flat_map in H as (q & _ & H).
  apply in_map_iff in H as (y & <- & Hy). apply list_elem_of_In in Hy.
  apply list_elem_of_filter in Hy as [-> Hy]. exact Hy.
Qed.

(** The latch of a loop ends in a terminator that branches to the header. *)
Lemma getLoopLatch_terminator f L latch :
  getLoopLatch f L = Some latch ->
  exists t, getTerminator f latch = Some t /\ getHeader L ∈ succsOf f t.
Proof.
  intros H. unfold getLoopLatch in H.
  destruct (filter _ (predecessors f (getHeader L))) as [|l [|]] eqn:E; try discriminate.
  injection H as ->.
  assert (Hin : latch ∈ filter (fun p => contains L p = true) (predecessors f (getHeader L)))
    by (rewrite E; left).
  apply list_elem_of_filter in Hin as [_ Hin]. apply elem_of_predecessors in Hin.
  unfold successors, terminatorOpcode in Hin.
  destruct (getTerminator f latch) as [t|]; [|apply elem_of_nil in Hin; contradiction].
  exists t. split; [reflexivity|]. unfold succsOf.
  destruct (opcodeOf f t); [exact Hin|apply elem_of_nil in Hin; contradiction].
Qed.

Lemma latch_clean s L latch :
  InvT F0 li s -> L ∈ allLoops li -> getLoopLatch (func s) L = Some latch ->
  clean s latch.
Proof.
  intros Hi HL Hl t Ht. destruct (unfolded s t) eqn:E; [|reflexivity]. exfalso.
  destruct (getLoopLatch_terminator _ _ _ Hl) as (t0 & Ht0 & Hs).
  assert (t = t0) as ->.
  { apply (i_one _ _ _ Hi latch t t0 Ht (getTerminator_elem _ _ _ Ht0)
             (unfolded_isTermF _ _ E) (getTerminator_isTermF _ _ _ Ht0)). }
  apply getLoopLatch_contains in Hl. unfold contains in Hl. apply bool_decide_eq_true in Hl.
  apply (i_back _ _ _ Hi L latch t0 HL Hl Ht E Hs).
Qed.

Lemma processLoop_None fuel i s r : processLoop li fuel i None s <> Done r.
Proof.
  destruct fuel; [discriminate|]. cbn [processLoop]. intros H.
  apply bind_Done in H as (h & s1 & _ & H).
  apply bind_Done in H as (L & s2 & H1 & _). discriminate.
Qed.

Lemma processRange_result fuel : forall i e parent s r s',
  processRange li fuel i e parent s = Done (r, s') -> r = e.
Proof.
  induction fuel as [|fuel IH]; intros i e parent s r s' H; [discriminate|].
  cbn [processRange] in H. destruct (i <? e).
  - apply bind_Done in H as (b & s3 & _ & H).
    apply bind_Done in H as ([] & s4 & _ & H).
    apply bind_Done in H as (i' & s5 & _ & H). eapply IH, H.
  - apply ret_Done in H as [= -> _]. reflexivity.
Qed.

Definition processOK (fuel : nat) : Prop :=
  (forall i e parent s r s', InvT F0 li s ->
     processRange li fuel i e parent s = Done (r, s') ->
     InvT F0 li s' /\ stepCore s s' /\ covered s' i e)
  /\ (forall i parent s r s', InvT F0 li s ->
        processBlock li fuel i parent s = Done (r, s') ->
        InvT F0 li s' /\ stepCore s s' /\ covered s' i r)
  /\ (forall i L s r s', InvT F0 li s -> L ∈ allLoops li ->
        processLoop li fuel i (Some L) s = Done (r, s') ->
        InvT F0 li s' /\ stepCore s s' /\ covered s' i r).

Lemma tstep_quiet_run {A : Type} (m : Lin A) s a s' :
  keeps (quiet F0) m -> InvT F0 li s -> m s = Done (a, s') ->
  InvT F0 li s' /\ stepCore s s'.
Proof. intros Hk Hi H. apply (quiet_tstep F0 li s s'); [eapply Hk, H|exact Hi]. Qed.

Lemma process_ok fuel : processOK fuel.
Proof.
  induction fuel as [|fuel (IHr & IHb & IHl)].
  { split; [|split]; intros; discriminate. }
  split; [|split].
  - (* processRange *)
    intros i e parent s r s' Hi H. cbn [processRange] in H.
    destruct (i <? e) eqn:Eie.
    + apply bind_Done in H as (b & s1 & H1 & H). apply getBlock_Done in H1 as (_ & _ & Hs).
      simpl in Hs. subst s1.
      apply bind_Done in H as ([] & s1 & H1 & H). apply assert_Done in H1 as [_ [= ->]].
      apply bind_Done in H as (i' & s1 & H1 & H).
      destruct (IHb _ _ _ _ _ Hi H1) as (Hi1 & Hc1 & Hcov1).
      destruct (IHr _ _ _ _ _ _ Hi1 H) as (Hi2 & Hc2 & Hcov2).
      split; [exact Hi2|]. split; [etransitivity; eauto|].
      intros j bl Hj H0 Hb. destruct (decide (j < i')) as [Hlt|Hge].
      * apply (covered_step s1 s' i i' Hc2 Hcov1 j bl); auto. lia.
      * apply (Hcov2 j bl); auto. lia.
    + apply ret_Done in H as [= _ ->]. split; [exact Hi|]. split; [reflexivity|].
      intros j bl Hj. lia.
  - (* processBlock *)
    intros i parent s r s' Hi H. cbn [processBlock] in H.
    apply bind_Done in H as (head & s1 & H1 & H). apply getBlock_Done in H1 as (Hid & Hhead & Hs).
    simpl in Hhead, Hs. subst s1.
    destruct (negb (sameLoop (getLoopFor li head) parent)).
    + destruct (getLoopFor li head) as [L|] eqn:EL; [|destruct (processLoop_None _ _ _ _ H)].
      apply getLoopFor_Some in EL as [HL _]. eapply IHl; eauto.
    + apply bind_Done in H as (adv & s1 & H1 & H).
      destruct (keeps_emitBlock F0 li _ _ _ _ H1 Hi) as [Hi1 Hc1].
      apply bind_Done in H as ([] & s2 & H2 & H).
      destruct (tstep_quiet_run _ _ _ _ (keeps_foldPhis F0 head) Hi1 H2) as [Hi2 Hc2].
      apply bind_Done in H as ([] & s3 & H3 & H).
      apply ret_Done in H as [= -> <-].
      apply (processBranch_quiet F0) in H3 as (Hq & term & Ht & Hu).
      destruct (quiet_tstep F0 li _ _ Hq Hi2) as [Hi3 Hc3].
      split; [exact Hi3|]. split; [etransitivity; [|exact Hc3]; etransitivity; eauto|].
      intros j bl Hj H0 Hb. assert (j = i) as -> by lia.
      rewrite (sc_heads _ _ Hc3), (sc_heads _ _ Hc2), (sc_heads _ _ Hc1), Hhead in Hb.
      injection Hb as <-.
      intros t Hin. destruct (unfolded s' t) eqn:E; [|reflexivity].
      pose proof (sc_list _ _ Hc3 head t Hin E) as Hin2.
      destruct (sc_bad _ _ Hc3 t E) as [Hu2 _].
      assert (t = term) as ->.
      { apply (i_one _ _ _ Hi2 head t term Hin2 (getTerminator_elem _ _ _ Ht)
                 (unfolded_isTermF _ _ Hu2) (getTerminator_isTermF _ _ _ Ht)). }
      congruence.
  - (* processLoop *)
    intros i L s r s' Hi HL H. cbn [processLoop] in H.
    apply bind_Done in H as (loopHead & s1 & H1 & H).
    apply getBlock_Done in H1 as (Hid & Hhead & Hs). simpl in Hhead, Hs. subst s1.
    apply bind_Done in H as (L' & s1 & H1 & H). apply ret_Done in H1 as [= -> ->].
    apply bind_Done in H as ([] & s1 & H1 & H). apply assert_Done in H1 as [Hh [= ->]].
    apply bind_Done in H as (latch & s1 & H1 & H). apply theLatch_Done in H1 as [Hl Hs].
    simpl in Hl, Hs. subst s1.
    apply bind_Done in H as (s0 & s1 & H1 & H). apply getState_Done in H1 as [= -> ->].
    pose proof (latch_clean s L latch Hi HL Hl) as Hclean.
    assert (Hidx : getIndex s loopHead = i).
    { unfold getIndex. rewrite (proj2 (i_idx _ _ _ Hi) _ _ Hhead). simpl. lia. }
    rewrite Hidx in H.
    apply bind_Done in H as ([] & s1 & H1 & H).
    assert (Hk1 : InvT F0 li s1 /\ stepCore s s1).
    { destruct (isDivergentLoop s L).
      - apply bind_Done in H1 as (rl & s2 & H2 & H1). apply ret_Done in H1 as [= ->].
        apply (keeps_convertToSingleExitLoop F0 li _ _ _ _ _ H2 Hi).
      - apply ret_Done in H1 as [= ->]. split; [exact Hi|reflexivity]. }
    destruct Hk1 as [Hi1 Hc1]. clear H1.
    apply bind_Done in H as (latchNodeId & s2 & H2 & H).
    pose proof (processRange_result _ _ _ _ _ _ _ H2) as ->.
    destruct (IHr _ _ _ _ _ _ Hi1 H2) as (Hi2 & Hc2 & Hcov2).
    apply bind_Done in H as (adv1 & s3 & H3 & H).
    destruct (keeps_emitBlock F0 li _ _ _ _ H3 Hi2) as [Hi3 Hc3].
    apply bind_Done in H as ([] & s4 & H4 & H).
    destruct (tstep_quiet_run _ _ _ _ (keeps_foldPhis F0 latch) Hi3 H4) as [Hi4 Hc4].
    apply bind_Done in H as (adv2 & s5 & H5 & H).
    destruct (keeps_emitBlock F0 li _ _ _ _ H5 Hi4) as [Hi5 Hc5].
    apply bind_Done in H as ([] & s6 & H6 & H).
    destruct (tstep_quiet_run _ _ _ _ (keeps_addUndefInputs F0 loopHead) Hi5 H6) as [Hi6 Hc6].
    apply ret_Done in H as [= -> <-].
    assert (Hc26 : stepCore s2 s').
    { etransitivity; [exact Hc3|]. etransitivity; [exact Hc4|].
      etransitivity; [exact Hc5|exact Hc6]. }
    assert (Hc06 : stepCore s s').
    { etransitivity; [exact Hc1|]. etransitivity; [exact Hc2|exact Hc26]. }
    split; [exact Hi6|]. split; [exact Hc06|].
    intros j bl Hj H0 Hb. destruct (decide (j < getIndex s latch)) as [Hlt|Hge].
    + apply (covered_step s2 s' i (getIndex s latch) Hc26 Hcov2 j bl); auto. lia.
    + assert (j = getIndex s latch) as -> by lia.
      rewrite (sc_heads _ _ Hc06) in Hb.
      assert (bl = latch) as ->.
      { unfold getIndex in Hb, H0. destruct (blockIndex s !! latch) as [k|] eqn:Ek; simpl in *;
          [|lia].
        destruct (proj1 (i_idx _ _ _ Hi) _ _ Ek) as [_ Hk]. congruence. }
      eapply clean_step; eauto.
Qed.

End Coverage.

(** *** The input of the pass *)

(** The conditions on the input, in a form that can be computed. *)
Definition wfInput (s : State) : Prop :=
  map_Forall (fun _ l => Forall (fun i => (i < fresh (func s))%nat) l) (body (func s))
  /\ map_Forall (fun _ l =>
       Forall (fun t1 => Forall (fun t2 =>
         isTermF (func s) t1 = true -> isTermF (func s) t2 = true -> t1 = t2) l) l)
       (body (func s))
  /\ map_Forall (fun _ x =>
       Forall (fun y => (y < fresh (func s))%nat) (successorsOf (opcode x)))
       (insts (func s))
  /\ Forall (fun L => Forall (fun b => Forall (fun t =>
       unfolded s t = true -> getHeader L ∉ succsOf (func s) t)
       (instsOf (func s) b)) (loopBlocks L)) (allLoops li).

#[global] Instance wfInput_dec s : Decision (wfInput s).
Proof. unfold wfInput. apply _. Defined.

Lemma instsOf_lookup f b i : i ∈ instsOf f b -> exists l, body f !! b = Some l /\ i ∈ l.
Proof.
  unfold instsOf. destruct (body f !! b) as [l|]; simpl; [eauto|].
  intros H. apply elem_of_nil in H. contradiction.
Qed.

Lemma wfInput_spec s :
  wfInput s ->
  listedFresh (func s) /\ oneTerminator (func s)
  /\ noRelayTarget (fresh (func s)) s /\ uniformBackEdges li s.
Proof.
  intros (H1 & H2 & H3 & H4). split; [|split; [|split]].
  - intros b i Hi. apply instsOf_lookup in Hi as (l & Hl & Hi).
    specialize (H1 b l Hl). simpl in H1. rewrite Forall_forall in H1. auto.
  - intros b t1 t2 Hi1 Hi2 T1 T2. apply instsOf_lookup in Hi1 as (l & Hl & Hi1).
    apply instsOf_lookup in Hi2 as (l' & Hl' & Hi2). rewrite Hl in Hl'. injection Hl' as <-.
    specialize (H2 b l Hl). simpl in H2. rewrite Forall_forall in H2.
    specialize (H2 t1 Hi1). rewrite Forall_forall in H2. auto.
  - intros i x Hu Hx. unfold unfolded, succsOf, opcodeOf in *.
    destruct (insts (func s) !! i) as [y|] eqn:E; simpl in *; [|discriminate].
    specialize (H3 i y E). simpl in H3. rewrite Forall_forall in H3. auto.
  - intros L b t HL Hb Ht Hu. rewrite Forall_forall in H4. specialize (H4 L HL).
    rewrite Forall_forall in H4. specialize (H4 b Hb). rewrite Forall_forall in H4. auto.
Qed.

Lemma wfInput_decide s : bool_decide (wfInput s) = true -> wfInput s.
Proof. apply bool_decide_eq_true. Qed.

Lemma built_InvT s s1 :
  listedFresh (func s) -> oneTerminator (func s) ->
  noRelayTarget (fresh (func s)) s -> uniformBackEdges li s ->
  built s s1 -> InvT (fresh (func s)) li s1.
Proof.
  intros H1 H2 H3 H4 (Hf & Hv & Hc & Hn).
  assert (Hu : forall i, unfolded s1 i = unfolded s i).
  { intros i. unfold unfolded, getVectorShape. rewrite Hf, Hv. reflexivity. }
  split.
  - rewrite Hf. exact H1.
  - rewrite Hf. exact H2.
  - intros i x. rewrite Hu, Hf. apply H3.
  - intros L b t HL Hb. rewrite Hu, Hf. apply H4; auto.
  - intros n x Hin Hx. rewrite (Hn n Hin) in Hx. discriminate.
  - rewrite Hf. lia.
  - exact Hc.
Qed.

Lemma clean_needsFolding s b t :
  clean s b -> getTerminator (func s) b = Some t -> needsFoldingTerm s t = Done false.
Proof.
  intros Hc Ht. pose proof (Hc t (getTerminator_elem _ _ _ Ht)) as Hu.
  apply getTerminator_last in Ht as (_ & _ & _ & o & Ho & HT).
  unfold needsFoldingTerm, unfolded in *. rewrite Ho in *.
  destruct o; simpl in *; try discriminate; try reflexivity.
  rewrite Hu. reflexivity.
Qed.

(** Every block of the index is clean when [run] has gone through
    [linearizeControl] and [cleanup]. *)
Lemma run_clean fuel s s' :
  relays s = [] -> blockIndex s = ∅ ->
  listedFresh (func s) -> oneTerminator (func s) ->
  noRelayTarget (fresh (func s)) s -> uniformBackEdges li s ->
  run li region fuel s = Done ((), s') ->
  1 < getNumBlocks s' ->
  forall b, indexed s' b = true -> clean s' b.
Proof.
  intros Hr Hx H1 H2 H3 H4 H Hn b Hb. unfold run in H.
  apply bind_Done in H as ([] & s1 & Hb1 & H).
  apply buildBlockIndex_built in Hb1; [|exact Hr|exact Hx]. simpl in Hb1.
  pose proof (built_InvT s s1 H1 H2 H3 H4 Hb1) as Hi1.
  apply bind_Done in H as ([] & s2 & Hv & H). apply verifyBlockIndex_same in Hv.
  simpl in Hv. subst s2.
  apply bind_Done in H as (s0 & s2 & H0 & H). apply getState_Done in H0 as [= -> ->].
  destruct (getNumBlocks s1 <=? 1) eqn:En.
  { apply ret_Done in H as [= ->]. lia. }
  apply bind_Done in H as ([] & s2 & Hl & H).
  unfold linearizeControl in Hl.
  apply bind_Done in Hl as (s0 & s3 & H0 & Hl). apply getState_Done in H0 as [= -> ->].
  apply bind_Done in Hl as (lastId & s3 & Hp & Hl).
  apply bind_Done in Hl as (s0 & s4 & H0 & Hl). apply getState_Done in H0 as [= -> ->].
  apply assert_Done in Hl as [_ [= ->]].
  destruct (proj1 (process_ok (fresh (func s)) fuel) _ _ _ _ _ _ Hi1 Hp) as (Hi2 & Hc2 & Hcov).
  destruct (keeps_cleanup (fresh (func s)) li _ _ _ H Hi2) as [Hi3 Hc3].
  assert (Hc : stepCore s1 s') by (etransitivity; eauto).
  unfold indexed in Hb. apply bool_decide_eq_true in Hb as [i Hbi].
  rewrite (sc_index _ _ Hc) in Hbi.
  destruct (proj1 (i_idx _ _ _ Hi1) _ _ Hbi) as [Hi0 Hlk].
  apply (clean_step s3 s' b Hc3). apply (Hcov i b); [|exact Hi0|].
  - split; [lia|]. apply lookup_lt_Some in Hlk. rewrite length_fmap in Hlk.
    unfold getNumBlocks. lia.
  - rewrite (sc_heads _ _ Hc2). exact Hlk.
Qed.

End RunFacts.

(** ** Further properties of the pass *)

Section RunExtras.
Import Shape IR Lin Linearizer.

(** X1. When [run] completes on a region of more than one block, no
    terminator of an indexed block needs folding any more: it is a return,
    an [unreachable], an unconditional branch or a conditional branch of
    uniform shape. The input starts with an empty index, lists only
    instructions below [fresh], has at most one terminator per block and
    no unfolded terminator that branches to a block that does not exist
    yet or, from inside a loop, to the header of the loop. *)
Theorem X1_run_leaves_no_terminator_to_fold (li : LoopInfo) (region : gset nat)
    (fuel : nat) (s s' : State) :
  relays s = [] -> blockIndex s = ∅ ->
  listedFresh (func s) -> oneTerminator (func s) ->
  noRelayTarget (fresh (func s)) s -> uniformBackEdges li s ->
  run li region fuel s = Done ((), s') ->
  1 < getNumBlocks s' ->
  forall b t, indexed s' b = true -> getTerminator (func s') b = Some t ->
    needsFoldingTerm s' t = Done false.
Proof.
  intros Hr Hx H1 H2 H3 H4 H Hn b t Hb Ht.
  eapply clean_needsFolding; [|exact Ht].
  eapply run_clean; eauto.
Qed.

(** The while loop of the example before the pass: no index yet. *)
Definition whileLoopInput : State :=
  mkState (func (whileLoopState {[3%nat]})) (vecInfo (whileLoopState {[3%nat]}))
    (maskAnalysis (whileLoopState {[3%nat]})) (dt (whileLoopState {[3%nat]})) ∅ [] ∅.

Definition whileLoopRegion : gset nat := list_to_set [0; 1; 2; 3]%nat.

Definition whileLoopLinearized : State :=
  match run [whileLoopL] whileLoopRegion 50 whileLoopInput with
  | Done (_, s) => s
  | Crash _ => whileLoopInput
  end.

Example run_whileLoop :
  run [whileLoopL] whileLoopRegion 50 whileLoopInput = Done ((), whileLoopLinearized)
  /\ instsOf (func whileLoopLinearized) 1 = [20; 52; 21; 54]%nat
  /\ opcodeOf (func whileLoopLinearized) 54 = Some (BranchInst 2)
  /\ instsOf (func whileLoopLinearized) 2 = [30; 53; 55; 56]%nat
  /\ opcodeOf (func whileLoopLinearized) 56 = Some (CondBranchInst (InstValue 55) 1 3)
  /\ getVectorShape whileLoopLinearized 56 = Uniform 1.
Proof. split_and!; vm_compute; reflexivity. Qed.

Lemma X1_run_leaves_no_terminator_to_fold_witness :
  needsFoldingTerm whileLoopLinearized 56 = Done false.
Proof.
  destruct (wfInput_spec [whileLoopL] whileLoopInput) as (W1 & W2 & W3 & W4).
  { apply wfInput_decide. vm_compute. reflexivity. }
  apply (X1_run_leaves_no_terminator_to_fold [whileLoopL] whileLoopRegion 50
           whileLoopInput whileLoopLinearized eq_refl eq_refl W1 W2 W3 W4
           ltac:(vm_compute; reflexivity) ltac:(vm_compute; reflexivity) 2%nat 56%nat);
    vm_compute; reflexivity.
Defined.

End RunExtras.

Section BranchExtras.
Import Shape IR Lin Linearizer.

(** X2. When [processBranch] completes on a block, the terminator the
    block had needs no folding afterwards (a conditional branch has been
    given the uniform shape), no other instruction has changed its opcode
    or its shape, and the block index is as before. *)
Theorem X2_processBranch_folds_terminator (head : BlockRef)
    (exitRelay : option RelayNode) (parentLoop : option Loop) (s s' : State) (a : unit) :
  processBranch head exitRelay parentLoop s = Done (a, s') ->
  exists term, getTerminator (func s) head = Some term
    /\ needsFoldingTerm s' term = Done false
    /\ (forall i, i <> term ->
          insts (func s') !! i = insts (func s) !! i
          /\ getVectorShape s' i = getVectorShape s i)
    /\ blockIndex s' = blockIndex s.
Proof.
  intros H. apply (processBranch_result 0) in H as (term & Ht & [Hq Ho] & Hn).
  exists term. split; [exact Ht|]. split; [exact Hn|]. split; [exact Ho|].
  apply Hq.
Qed.

Definition headerBranched : State :=
  match processBranch 1 None None (whileLoopState {[3%nat]}) with
  | Done (_, s) => s
  | Crash _ => whileLoopState {[3%nat]}
  end.

Example processBranch_header :
  processBranch 1 None None (whileLoopState {[3%nat]}) = Done ((), headerBranched)
  /\ getTerminator (func headerBranched) 1 = Some 22%nat
  /\ opcodeOf (func headerBranched) 22 = Some (CondBranchInst (InstValue 21) 50 50)
  /\ getVectorShape (whileLoopState {[3%nat]}) 22 = Varying 1
  /\ getVectorShape headerBranched 22 = Uniform 1.
Proof. split_and!; vm_compute; reflexivity. Qed.

Lemma X2_processBranch_folds_terminator_witness :
  exists term, getTerminator (func (whileLoopState {[3%nat]})) 1 = Some term
    /\ needsFoldingTerm headerBranched term = Done false
    /\ (forall i, i <> term ->
          insts (func headerBranched) !! i = insts (func (whileLoopState {[3%nat]})) !! i
          /\ getVectorShape headerBranched i = getVectorShape (whileLoopState {[3%nat]}) i)
    /\ blockIndex headerBranched = blockIndex (whileLoopState {[3%nat]}).
Proof.
  apply (X2_processBranch_folds_terminator 1 None None (whileLoopState {[3%nat]})
           headerBranched ()).
  vm_compute. reflexivity.
Defined.

End BranchExtras.

Section IndexExtras.
Import Shape IR Lin Linearizer.

Lemma getBlock_lookup (i : Z) (b : BlockRef) (s : State) :
  0 <= i -> (rhead <$> relays s) !! Z.to_nat i = Some b -> getBlock i s = Done (b, s).
Proof.
  intros H0 Hl. rewrite list_lookup_fmap in Hl.
  destruct (relays s !! Z.to_nat i) as [n|] eqn:E; [|discriminate]. injection Hl as <-.
  pose proof (lookup_lt_Some _ _ _ E) as Hlt.
  assert (Hc : (0 <=? i) && (i <? Z.of_nat (length (relays s))) = true)
    by (apply andb_true_iff; split; lia).
  unfold getBlock, mbind, Lin_bind, gets, at_. rewrite Hc, E. reflexivity.
Qed.

(** X3. Whatever the region and the loops are, when [buildBlockIndex]
    completes from an empty index, index and block list are inverse to each
    other: [getBlock (getIndex b)] is [b] for every indexed block and
    [getIndex (getBlock i)] is [i] for every valid index. The function and
    the shapes are untouched and no relay block exists yet. *)
Theorem X3_buildBlockIndex_round_trip (li : LoopInfo) (region : gset nat) (fuel : nat)
    (s s' : State) :
  relays s = [] -> blockIndex s = ∅ ->
  buildBlockIndex li region fuel s = Done ((), s') ->
  func s' = func s /\ vecInfo s' = vecInfo s
  /\ (forall b, indexed s' b = true -> getBlock (getIndex s' b) s' = Done (b, s'))
  /\ (forall i b, getBlock i s' = Done (b, s') -> getIndex s' b = i)
  /\ (forall n, n ∈ relays s' -> rblock n = None).
Proof.
  intros Hr Hi H. apply (buildBlockIndex_built li region) in H; [|exact Hr|exact Hi].
  destruct H as (Hf & Hv & [Hc1 Hc2] & Hn). simpl in *.
  split; [exact Hf|]. split; [exact Hv|]. split; [|split; [|exact Hn]].
  - intros b Hb. unfold indexed in Hb. apply bool_decide_eq_true in Hb as [i Hb].
    unfold getIndex. rewrite Hb. simpl. destruct (Hc1 b i Hb) as [H0 Hl].
    apply getBlock_lookup; auto.
  - intros i b Hb. apply getBlock_Done in Hb as (H0 & Hl & _). simpl in Hl.
    unfold getIndex. rewrite (Hc2 _ _ Hl). simpl. lia.
Qed.

Definition nestIndexed : State :=
  match buildBlockIndex [outerL] nestRegion 40 nestState with
  | Done (_, s) => s
  | Crash _ => nestState
  end.

Lemma X3_buildBlockIndex_round_trip_witness :
  func nestIndexed = func nestState /\ vecInfo nestIndexed = vecInfo nestState
  /\ (forall b, indexed nestIndexed b = true ->
        getBlock (getIndex nestIndexed b) nestIndexed = Done (b, nestIndexed))
  /\ (forall i b, getBlock i nestIndexed = Done (b, nestIndexed) -> getIndex nestIndexed b = i)
  /\ (forall n, n ∈ relays nestIndexed -> rblock n = None).
Proof.
  apply (X3_buildBlockIndex_round_trip [outerL] nestRegion 40 nestState nestIndexed
           eq_refl eq_refl).
  vm_compute. reflexivity.
Defined.

End IndexExtras.

Section VerifyExtras.
Import Shape IR Lin Linearizer.

Lemma foldl_min_le (g : BlockRef -> Z) (l : list BlockRef) (init : Z) :
  foldl (fun a b => Z.min (g b) a) init l <= init
  /\ forall x, x ∈ l -> foldl (fun a b => Z.min (g b) a) init l <= g x.
Proof.
  revert init. induction l as [|y l IH]; intros init; simpl.
  - split; [lia|]. intros x Hx. apply elem_of_nil in Hx. contradiction.
  - destruct (IH (Z.min (g y) init)) as [H1 H2]. split; [lia|].
    intros x Hx. apply elem_of_cons in Hx as [->|Hx]; [lia|auto].
Qed.

Lemma foldl_max_ge (g : BlockRef -> Z) (l : list BlockRef) (init : Z) :
  init <= foldl (fun a b => Z.max (g b) a) init l
  /\ forall x, x ∈ l -> g x <= foldl (fun a b => Z.max (g b) a) init l.
Proof.
  revert init. induction l as [|y l IH]; intros init; simpl.
  - split; [lia|]. intros x Hx. apply elem_of_nil in Hx. contradiction.
  - destruct (IH (Z.max (g y) init)) as [H1 H2]. split; [lia|].
    intros x Hx. apply elem_of_cons in Hx as [->|Hx]; [lia|auto].
Qed.

Lemma elem_of_range (lo hi i : Z) : lo <= i < hi -> i ∈ range lo hi.
Proof.
  intros H. unfold range. apply list_elem_of_In, in_map_iff.
  exists (Z.to_nat (i - lo)). split; [lia|]. apply in_seq. lia.
Qed.

(** What [verifyLoopIndex] checks for one loop: the loop has a latch, the
    header has the least and the latch the greatest index of the loop, and
    every index in between belongs to a block of the loop. *)
Definition loopVerified (s : State) (L : Loop) : Prop :=
  exists latch, getLoopLatch (func s) L = Some latch
    /\ (forall b, b ∈ loopBlocks L ->
          0 <= getIndex s (getHeader L) <= getIndex s b
          /\ getIndex s b <= getIndex s latch)
    /\ (forall i, getIndex s (getHeader L) <= i <= getIndex s latch ->
          exists b, getBlock i s = Done (b, s) /\ contains L b = true).

Lemma forM_checks {A : Type} (P : A -> State -> Prop) (body : A -> Lin unit)
    (l : list A) (s : State) (r : unit * State) :
  (forall x r, body x s = Done r -> r.2 = s /\ P x s) ->
  forM l body s = Done r -> r.2 = s /\ Forall (fun x => P x s) l.
Proof.
  intros Hb. induction l as [|x l IH]; simpl; intros H.
  - apply ret_Done in H as ->. split; [reflexivity|constructor].
  - apply bind_Done in H as ([] & s1 & H1 & H). apply Hb in H1 as [Hs HP].
    simpl in Hs. subst s1. destruct (IH H) as [Hr HF]. split; [exact Hr|].
    constructor; assumption.
Qed.

Lemma verifyChildren_Done (subs : list Loop) :
  Forall (fun L => forall s r, verifyLoopIndex L s = Done r ->
            r.2 = s /\ Forall (loopVerified s) (loopsOf L)) subs ->
  forall s r,
    (fix children (ls : list Loop) : Lin unit :=
       match ls with
       | [] => mret ()
       | childLoop :: r => _ ← verifyLoopIndex childLoop; children r
       end) subs s = Done r ->
    r.2 = s /\ Forall (loopVerified s) (flat_map loopsOf subs).
Proof.
  induction subs as [|c rest IHr]; intros IH s r H1.
  - apply ret_Done in H1 as ->. split; [reflexivity|constructor].
  - inversion IH as [|? ? Hc Hr]; subst.
    apply bind_Done in H1 as ([] & s2 & H2 & H1).
    apply Hc in H2 as [Hs2 F2]. simpl in Hs2. subst s2.
    destruct (IHr Hr _ _ H1) as [E1 F1]. split; [exact E1|].
    simpl. apply Forall_app. split; assumption.
Qed.

Lemma verifyLoopIndex_Done (L : Loop) :
  forall s r, verifyLoopIndex L s = Done r ->
    r.2 = s /\ Forall (loopVerified s) (loopsOf L).
Proof.
  induction L as [h bs subs IH] using Loop_nested_ind. intros s r H.
  cbn [verifyLoopIndex] in H.
  apply bind_Done in H as (u & s1 & H1 & H).
  apply (verifyChildren_Done subs IH) in H1 as [Hs1 Hsub]. simpl in Hs1. subst s1.
  apply bind_Done in H as (s0 & s1 & H1' & H). apply getState_Done in H1' as [= -> ->].
  set (startId := foldl (fun a b => Z.min (getIndex s b) a) (getNumBlocks s) bs) in *.
  set (endId := foldl (fun a b => Z.max (getIndex s b) a) 0 bs) in *.
  apply bind_Done in H as ([] & s1 & H2 & H).
  apply (forM_checks (fun i s => exists b, getBlock i s = Done (b, s)
            /\ contains (MkLoop h bs subs) b = true)) in H2.
  2:{ intros i r0 Hr0. apply bind_Done in Hr0 as (b & s2 & Hb & Hr0).
      pose proof (getBlock_Done _ _ _ Hb) as (_ & _ & Hs2). simpl in Hs2. subst s2.
      apply assert_Done in Hr0 as [Hc ->]. split; [reflexivity|]. eauto. }
  destruct H2 as [Hs1 Hrange]. simpl in Hs1. subst s1.
  apply bind_Done in H as ([] & s1 & H3 & H). apply assert_Done in H3 as [Hstart [= ->]].
  apply bind_Done in H as (latch & s1 & H4 & H). apply theLatch_Done in H4 as [Hl Hs1].
  simpl in Hl, Hs1. subst s1.
  apply assert_Done in H as [Hend ->]. simpl. split; [reflexivity|].
  cbn [loopsOf]. constructor; [|exact Hsub].
  apply Z.eqb_eq in Hstart, Hend.
  destruct (foldl_min_le (getIndex s) bs (getNumBlocks s)) as [_ Hmin].
  destruct (foldl_max_ge (getIndex s) bs 0) as [_ Hmax].
  fold startId in Hmin. fold endId in Hmax.
  assert (Hin : forall i, startId <= i <= endId ->
            exists b, getBlock i s = Done (b, s) /\ contains (MkLoop h bs subs) b = true).
  { intros i Hi. rewrite Forall_forall in Hrange. apply Hrange, elem_of_range. lia. }
  exists latch. split; [exact Hl|]. cbn [getHeader loopBlocks]. rewrite <- Hstart, <- Hend.
  split; [|exact Hin].
  intros b Hb. pose proof (Hmin b Hb). pose proof (Hmax b Hb).
  split; [|lia]. split; [|lia].
  destruct (Hin startId) as (b0 & Hb0 & _); [lia|].
  apply getBlock_Done in Hb0 as (Hnn & _). exact Hnn.
Qed.

(** X5. [verifyBlockIndex] only reads. When it completes, every loop of
    the loop tree has a latch, its header has the least and its latch the
    greatest index among the blocks of the loop, all of them are indexed,
    and every index from the header's to the latch's is the index of a
    block of the loop. *)
Theorem X5_verifyBlockIndex_checks (li : LoopInfo) (s s' : State) :
  verifyBlockIndex li s = Done ((), s') ->
  s' = s /\ forall L, L ∈ allLoops li -> loopVerified s L.
Proof.
  intros H. unfold verifyBlockIndex in H.
  apply (forM_checks (fun L s => Forall (loopVerified s) (loopsOf L))) in H.
  - destruct H as [Hs HF]. simpl in Hs. split; [exact Hs|].
    intros L HL. unfold allLoops in HL.
    apply list_elem_of_In, in_flat_map in HL as (T & HT & HL).
    rewrite Forall_forall in HF. apply list_elem_of_In in HT, HL.
    specialize (HF T HT). rewrite Forall_forall in HF. auto.
  - intros L r Hr. apply verifyLoopIndex_Done in Hr. exact Hr.
Qed.

Lemma X5_verifyBlockIndex_checks_witness :
  nestIndexed = nestIndexed /\ forall L, L ∈ allLoops [outerL] -> loopVerified nestIndexed L.
Proof.
  apply (X5_verifyBlockIndex_checks [outerL] nestIndexed nestIndexed).
  vm_compute. reflexivity.
Defined.

End VerifyExtras.

Section EmitExtras.
Import Shape IR Lin Linearizer.

Lemma substSuccessor_gone old new o :
  old <> new -> old ∉ successorsOf (substSuccessor old new o).
Proof.
  intros Hne. destruct o; simpl; try apply not_elem_of_nil.
  - intros H. apply list_elem_of_singleton in H. case_decide; congruence.
  - intros H. apply elem_of_cons in H as [H|H]; [case_decide; congruence|].
    apply list_elem_of_singleton in H. case_decide; congruence.
  - intros H. apply elem_of_cons in H as [H|H]; [case_decide; congruence|].
    apply list_elem_of_In, in_map_iff in H as (x & Hx & _). case_decide; congruence.
Qed.

Lemma foldM_reads {A B : Type} (body : B -> A -> Lin B) (acc : B) (l : list A)
    (s : State) (r : B * State) :
  (forall acc x s r, body acc x s = Done r -> r.2 = s) ->
  foldM body acc l s = Done r -> r.2 = s.
Proof.
  intros Hb. revert acc. induction l as [|x l IH]; intros acc H; simpl in H.
  - apply ret_Done in H as ->. reflexivity.
  - apply bind_Done in H as (acc' & s1 & H1 & H). apply Hb in H1. simpl in H1. subst s1.
    eapply IH, H.
Qed.

Lemma beforeTerminator_take f l :
  beforeTerminator f l = take (length (beforeTerminator f l)) l.
Proof.
  induction l as [|i l IH]; simpl; [reflexivity|].
  destruct (isaTerminatorInst f i); simpl; [reflexivity|]. f_equal. exact IH.
Qed.

Lemma beforeTerminator_rest f l i :
  i ∈ l -> i ∉ beforeTerminator f l -> i ∈ drop (length (beforeTerminator f l)) l.
Proof.
  intros Hi Hn. rewrite <- (take_drop (length (beforeTerminator f l)) l) in Hi.
  rewrite <- beforeTerminator_take in Hi. apply elem_of_app in Hi as [Hi|Hi]; [contradiction|exact Hi].
Qed.

Lemma beforeTerminator_ext f g l :
  (forall i, isaTerminatorInst g i = isaTerminatorInst f i) ->
  beforeTerminator g l = beforeTerminator f l.
Proof.
  intros H. induction l as [|i l IH]; simpl; [reflexivity|].
  rewrite H, IH. reflexivity.
Qed.

Lemma foldr_delete_gone (m : gmap InstRef Instruction) (l : list InstRef) i :
  i ∈ l -> foldr delete m l !! i = None.
Proof.
  induction l as [|j l IH]; simpl; [intros H; apply elem_of_nil in H; contradiction|].
  intros H. destruct (decide (i = j)) as [->|Hne].
  - apply lookup_delete_eq.
  - rewrite lookup_delete_ne by congruence. apply IH.
    apply elem_of_cons in H as [H|H]; [contradiction|exact H].
Qed.

(** X6. [emitBlock] on a target that no relay block stands in for changes
    nothing and returns no relay. Otherwise every branch to the relay block
    is forwarded to the target (no instruction names the relay block as a
    successor any more); the instructions of the relay block that come
    before its first terminator are moved to the front of the target, in
    reverse order; the relay block is erased from the function together
    with what was left in it; the target's relay node is reset, and the
    block index is as before. *)
Theorem X6_emitBlock_forwards_branches (targetId : Z) (s s' : State)
    (r : option RelayNode) :
  emitBlock targetId s = Done (r, s') ->
  exists target, getBlock targetId s = Done (target, s)
    /\ match getRelay s targetId with
       | None => r = None /\ s' = s
       | Some n =>
           exists relayBlock, rblock n = Some relayBlock
             /\ getRelay s' targetId = None
             /\ (relayBlock ∉ layout (func s'))
             /\ instsOf (func s') relayBlock = []
             /\ (forall i o, opcodeOf (func s') i = Some o ->
                   exists o0, opcodeOf (func s) i = Some o0
                     /\ o = substSuccessor relayBlock target o0)
             /\ (relayBlock <> target ->
                 forall i o, opcodeOf (func s') i = Some o -> (relayBlock ∉ successorsOf o))
             /\ (relayBlock <> target ->
                 instsOf (func s') target
                 = rev (beforeTerminator (func s) (instsOf (func s) relayBlock))
                     ++ instsOf (func s) target)
             /\ (forall i, i ∈ instsOf (func s) relayBlock ->
                   i ∉ beforeTerminator (func s) (instsOf (func s) relayBlock) ->
                   insts (func s') !! i = None)
             /\ blockIndex s' = blockIndex s
       end.
Proof.
  intros H. unfold emitBlock in H.
  apply bind_Done in H as (target & s1 & H1 & H).
  pose proof (getBlock_Done _ _ _ H1) as (_ & _ & Hs1). simpl in Hs1. subst s1.
  exists target. split; [exact H1|].
  apply bind_Done in H as ([relayBlock advancedRelay] & s1 & H2 & H).
  unfold advanceScheduleHead in H2.
  apply bind_Done in H2 as (s0 & s2 & H3 & H2). apply getState_Done in H3 as [= -> ->].
  destruct (getRelay s targetId) as [n|] eqn:En.
  - pose proof (getRelay_Some _ _ _ En) as (Hid & Hn & [rb Hrb]).
    apply bind_Done in H2 as ([] & s2 & H3 & H2). apply modify_Done in H3 as [= ->].
    apply ret_Done in H2 as [= -> -> ->]. rewrite Hrb in H.
    apply bind_Done in H as (s0 & s2 & H3 & H). apply getState_Done in H3 as [= -> ->].
    apply bind_Done in H as ([] & s2 & H3 & H). apply assert_Done in H3 as [_ [= ->]].
    apply bind_Done in H as ([] & s2 & H3 & H).
    unfold forwardBranches in H3.
    apply bind_Done in H3 as (f & s3 & H4 & H3). apply gets_Done in H4 as [= -> ->].
    apply bind_Done in H3 as ([] & s3 & H4 & H3). apply assert_Done in H4 as [_ [= ->]].
    apply modify_Done in H3 as [= ->].
    apply bind_Done in H as (s0 & s2 & H3 & H). apply getState_Done in H3 as [= -> ->].
    apply bind_Done in H as (common & s2 & H3 & H).
    apply foldM_reads in H3.
    2:{ intros [c|] x s4 r4 H4.
        - apply bind_Done in H4 as (s5 & s6 & H5 & H4). apply getState_Done in H5 as [= -> ->].
          destruct (findNearestCommonDominator s4 c x); [|discriminate].
          apply ret_Done in H4 as ->. reflexivity.
        - apply ret_Done in H4 as ->. reflexivity. }
    simpl in H3. subst s2.
    apply bind_Done in H as (s0 & s2 & H3 & H). apply getState_Done in H3 as [= -> ->].
    destruct common as [c|]; [|discriminate].
    apply bind_Done in H as ([] & s2 & H3 & H). apply assert_Done in H3 as [_ [= ->]].
    apply bind_Done in H as ([] & s2 & H3 & H). apply modify_Done in H3 as [= ->].
    apply bind_Done in H as ([] & s2 & H3 & H).
    unfold moveToFront in H3.
    apply bind_Done in H3 as (f & s3 & H4 & H3). apply gets_Done in H4 as [= -> ->].
    destruct (_ && _); [discriminate|].
    apply modify_Done in H3 as [= ->].
    apply bind_Done in H as ([] & s2 & H3 & H). apply modify_Done in H3 as [= ->].
    apply ret_Done in H as [= _ ->].
    exists rb. split; [exact Hrb|]. simpl_state.
    set (g := fun x : Instruction => withOpcode (substSuccessor rb target (opcode x)) x).
    assert (Hop : forall i o,
              opcodeOf (eraseBlock rb (movedToFront rb target (mapInsts g (func s)))) i = Some o ->
              exists o0, opcodeOf (func s) i = Some o0 /\ o = substSuccessor rb target o0).
    { intros i o Ho. apply opcodeOf_eraseBlock in Ho.
      change (opcodeOf (movedToFront rb target (mapInsts g (func s))) i = Some o) in Ho.
      rewrite opcodeOf_movedToFront, opcodeOf_mapInsts in Ho. unfold opcodeOf.
      destruct (insts (func s) !! i) as [x|]; simpl in *; [|discriminate].
      injection Ho as <-. eauto. }
    assert (Hbt : beforeTerminator (mapInsts g (func s)) (instsOf (func s) rb)
                  = beforeTerminator (func s) (instsOf (func s) rb)).
    { apply beforeTerminator_ext. intros i. unfold isaTerminatorInst.
      rewrite opcodeOf_mapInsts. unfold opcodeOf.
      destruct (insts (func s) !! i) as [x|]; simpl; [|reflexivity].
      apply substSuccessor_term. }
    split_and!.
    + unfold getRelay. simpl_state.
      replace (0 <=? targetId) with true by (symmetry; lia).
      rewrite list_lookup_insert_eq by (eapply lookup_lt_Some, Hn). reflexivity.
    + unfold eraseBlock. simpl. intros Hin. apply list_elem_of_filter in Hin as [Hne _].
      congruence.
    + rewrite eraseBlock_instsOf, decide_True by reflexivity. reflexivity.
    + exact Hop.
    + intros Hne i o Ho. destruct (Hop i o Ho) as (o0 & _ & ->).
      apply substSuccessor_gone, Hne.
    + intros Hne. rewrite eraseBlock_instsOf, decide_False by congruence.
      change (instsOf (movedToFront rb target (mapInsts g (func s))) target = 
         rev (beforeTerminator (func s) (instsOf (func s) rb)) ++ instsOf (func s) target).
      rewrite movedToFront_instsOf, decide_False by congruence.
      rewrite decide_True by reflexivity.
      change (instsOf (mapInsts g (func s))) with (instsOf (func s)).
      rewrite Hbt. reflexivity.
    + intros i Hi Hn'.
      change (insts (eraseBlock rb (movedToFront rb target (mapInsts g (func s)))) !! i = None).
      unfold eraseBlock. simpl. apply foldr_delete_gone.
      change (i ∈ instsOf (movedToFront rb target (mapInsts g (func s))) rb).
      rewrite movedToFront_instsOf, decide_True by reflexivity.
      change (instsOf (mapInsts g (func s))) with (instsOf (func s)).
      rewrite Hbt. apply beforeTerminator_rest; assumption.
    + reflexivity.
  - apply ret_Done in H2 as [= -> -> ->]. apply ret_Done in H as [= -> ->]. auto.
Qed.

Definition latchEmitted : State :=
  match emitBlock 2 headerBranched with
  | Done (_, s) => s
  | Crash _ => headerBranched
  end.

Example emitBlock_latch :
  getRelay headerBranched 2 = Some (mkRelay 2 2 (Some 50%nat) (Some 3))
  /\ opcodeOf (func headerBranched) 22 = Some (CondBranchInst (InstValue 21) 50 50)
  /\ opcodeOf (func latchEmitted) 22 = Some (CondBranchInst (InstValue 21) 2 2)
  /\ layout (func latchEmitted) = [0; 1; 2; 3; 51]%nat.
Proof. split_and!; vm_compute; reflexivity. Qed.

(** The same state with two instructions stuck in the relay block 50 of the
    latch: an addition and, behind it, a terminator. *)
Definition relayStuck : State :=
  withFunc (fun f => insertInst 50 1 VoidTy "" UnreachableInst
                       (insertInst 50 0 (IntTy 32) "t" (OtherInst "add" []) f))
           headerBranched.

Definition stuckEmitted : State :=
  match emitBlock 2 relayStuck with
  | Done (_, s) => s
  | Crash _ => relayStuck
  end.

(** The addition moves to the front of the latch; the terminator is erased
    with the relay block. *)
Example emitBlock_stuck :
  emitBlock 2 relayStuck = Done (Some (mkRelay 3 3 (Some 51%nat) None), stuckEmitted)
  /\ instsOf (func relayStuck) 50 = [52; 53]%nat
  /\ instsOf (func relayStuck) 2 = [30; 31]%nat
  /\ instsOf (func stuckEmitted) 2 = [52; 30; 31]%nat
  /\ parent <$> insts (func stuckEmitted) !! 52%nat = Some 2%nat
  /\ insts (func stuckEmitted) !! 53%nat = None
  /\ layout (func stuckEmitted) = [0; 1; 2; 3; 51]%nat.
Proof. split_and!; vm_compute; reflexivity. Qed.

Lemma X6_emitBlock_forwards_branches_witness :
  exists target, getBlock 2 relayStuck = Done (target, relayStuck)
    /\ match getRelay relayStuck 2 with
       | None => Some (mkRelay 3 3 (Some 51%nat) None) = None /\ stuckEmitted = relayStuck
       | Some n =>
           exists relayBlock, rblock n = Some relayBlock
             /\ getRelay stuckEmitted 2 = None
             /\ (relayBlock ∉ layout (func stuckEmitted))
             /\ instsOf (func stuckEmitted) relayBlock = []
             /\ (forall i o, opcodeOf (func stuckEmitted) i = Some o ->
                   exists o0, opcodeOf (func relayStuck) i = Some o0
                     /\ o = substSuccessor relayBlock target o0)
             /\ (relayBlock <> target ->
                 forall i o, opcodeOf (func stuckEmitted) i = Some o ->
                   (relayBlock ∉ successorsOf o))
             /\ (relayBlock <> target ->
                 instsOf (func stuckEmitted) target
                 = rev (beforeTerminator (func relayStuck)
                          (instsOf (func relayStuck) relayBlock))
                     ++ instsOf (func relayStuck) target)
             /\ (forall i, i ∈ instsOf (func relayStuck) relayBlock ->
                   i ∉ beforeTerminator (func relayStuck)
                         (instsOf (func relayStuck) relayBlock) ->
                   insts (func stuckEmitted) !! i = None)
             /\ blockIndex stuckEmitted = blockIndex relayStuck
       end.
Proof.
  apply (X6_emitBlock_forwards_branches 2 relayStuck stuckEmitted
           (Some (mkRelay 3 3 (Some 51%nat) None))).
  vm_compute. reflexivity.
Defined.

End EmitExtras.

Section TerminatorExtras.
Import Shape IR Lin Linearizer.

(** The terminator of a block replaced by a new one: the function after
    [BranchInst::Create(.., term)] and [term->eraseFromParent()]. *)
Lemma replaced_terminator (f : Function) (b : BlockRef) (term : InstRef) (ty : Ty)
    (nm : string) (o : Opcode) :
  wfFresh f -> wfParents f -> getTerminator f b = Some term -> isTerminator o = true ->
  let f' := eraseInst term (insertInst b (terminatorPos f b) ty nm o f) in
  getTerminator f' b = Some (fresh f)
  /\ opcodeOf f' (fresh f) = Some o
  /\ (forall b', b' <> b -> instsOf f' b' = instsOf f b')
  /\ (forall b', b' <> b -> terminatorOpcode f' b' = terminatorOpcode f b')
  /\ (forall i, i <> term -> i <> fresh f -> insts f' !! i = insts f !! i)
  /\ insts f' !! term = None
  /\ layout f' = layout f
  /\ wfFresh f' /\ wfParents f'.
Proof.
  intros Hfresh Hpar Hterm Histerm f'.
  pose proof (getTerminator_last _ _ _ Hterm) as (l0 & Hl & Hpos & o0 & Ho0 & _).
  pose proof (wfParents_parent _ _ _ Hpar (getTerminator_elem _ _ _ Hterm)) as Hp.
  destruct (insts f !! term) as [x|] eqn:Ex; [|discriminate]. simpl in Hp.
  injection Hp as Hp.
  assert (Hlt : (term < fresh f)%nat) by (eapply wfFresh_lt; eauto).
  set (f1 := insertInst b (terminatorPos f b) ty nm o f) in *.
  assert (E1 : insts f1 !! term = Some x).
  { unfold f1. rewrite insertInst_insts, decide_False by lia. exact Ex. }
  assert (Hi : forall i, insts f' !! i
             = if decide (i = term) then None
               else if decide (i = fresh f) then Some (mkInst ty nm b o) else insts f !! i).
  { intros i. unfold f'. rewrite eraseInst_insts. case_decide; [reflexivity|].
    unfold f1. apply insertInst_insts. }
  assert (Hb : forall b', instsOf f' b'
             = if decide (b' = b) then filter (fun j => j <> term) l0 ++ [fresh f]
               else instsOf f b').
  { intros b'. unfold f'. rewrite (eraseInst_instsOf _ _ _ _ E1), Hp.
    unfold f1. rewrite insertInst_instsOf.
    destruct (decide (b' = b)) as [->|Hne]; [|reflexivity].
    rewrite Hpos, Hl, take_app_length, drop_app_length.
    rewrite filter_app, filter_cons_True by lia.
    rewrite filter_cons_False by (intros Hn; apply Hn; reflexivity).
    rewrite filter_nil. reflexivity. }
  assert (Hlisted : forall b' i, i ∈ instsOf f b' ->
            (i < fresh f)%nat /\ parent <$> insts f !! i = Some b').
  { intros b' i Hin. pose proof (wfParents_parent _ _ _ Hpar Hin) as Hq.
    split; [|exact Hq]. destruct (insts f !! i) as [y|] eqn:Ey; [|discriminate].
    eapply wfFresh_lt; eauto. }
  split_and!.
  - unfold getTerminator. rewrite Hb, decide_True by reflexivity.
    rewrite last_snoc. unfold opcodeOf. rewrite Hi, decide_False by lia.
    rewrite decide_True by reflexivity. simpl. rewrite Histerm. reflexivity.
  - unfold opcodeOf. rewrite Hi, decide_False by lia.
    rewrite decide_True by reflexivity. reflexivity.
  - intros b' Hne. rewrite Hb, decide_False by exact Hne. reflexivity.
  - intros b' Hne. unfold terminatorOpcode, getTerminator.
    rewrite Hb, decide_False by exact Hne.
    destruct (last (instsOf f b')) as [t|] eqn:El; [|reflexivity].
    apply last_Some in El as [l' El].
    destruct (Hlisted b' t) as [Ht Hq]; [rewrite El; apply elem_of_app; right; left|].
    assert (t <> term) by (intros ->; rewrite Ex in Hq; simpl in Hq; congruence).
    assert (Eo : opcodeOf f' t = opcodeOf f t).
    { unfold opcodeOf. rewrite Hi, decide_False by assumption.
      rewrite decide_False by lia. reflexivity. }
    rewrite Eo. destruct (opcodeOf f t) as [o1|] eqn:Eo1; [|reflexivity].
    destruct (isTerminator o1); [congruence|reflexivity].
  - intros i H1 H2. rewrite Hi, decide_False by exact H1.
    rewrite decide_False by exact H2. reflexivity.
  - rewrite Hi, decide_True by reflexivity. reflexivity.
  - unfold f', eraseInst. rewrite E1. reflexivity.
  - apply eraseInst_wfFresh, insertInst_wfFresh, Hfresh.
  - apply wfParents_alt. intros b' i Hin. rewrite Hb in Hin. rewrite Hi.
    destruct (decide (b' = b)) as [->|Hne].
    + apply elem_of_app in Hin as [Hin|Hin].
      * apply list_elem_of_filter in Hin as [Hne Hin].
        destruct (Hlisted b i) as [Ht Hq]; [rewrite Hl; apply elem_of_app; left; exact Hin|].
        rewrite decide_False by exact Hne. rewrite decide_False by lia. exact Hq.
      * apply list_elem_of_singleton in Hin as ->.
        rewrite decide_False by lia. rewrite decide_True by reflexivity. reflexivity.
    + destruct (Hlisted b' i Hin) as [Ht Hq].
      assert (i <> term) by (intros ->; rewrite Ex in Hq; simpl in Hq; congruence).
      rewrite decide_False by assumption. rewrite decide_False by lia. exact Hq.
Qed.

Lemma dropLoopExit_Done (block : BlockRef) (L : Loop) (s s' : State) :
  wfFresh (func s) -> wfParents (func s) ->
  dropLoopExit block L s = Done ((), s') ->
  exists term o u,
    getTerminator (func s) block = Some term /\ opcodeOf (func s) term = Some o
    /\ contains L block = true /\ (1 < length (successorsOf o))%nat
    /\ head (filter (fun succ => contains L succ = true) (successorsOf o)) = Some u
    /\ getTerminator (func s') block = Some (fresh (func s))
    /\ terminatorOpcode (func s') block = Some (BranchInst u)
    /\ successors (func s') block = [u]
    /\ getVectorShape s' (fresh (func s)) = Uniform 1
    /\ insts (func s') !! term = None
    /\ (forall b, b <> block ->
          instsOf (func s') b = instsOf (func s) b
          /\ successors (func s') b = successors (func s) b)
    /\ wfFresh (func s') /\ wfParents (func s').
Proof.
  intros Hfresh Hpar H. unfold dropLoopExit in H.
  apply bind_Done in H as (f & s1 & H1 & H). apply gets_Done in H1 as [= -> ->].
  apply bind_Done in H as (term & s1 & H1 & H). apply deref_Done in H1 as [Hterm E].
  simpl in Hterm, E. subst s1.
  apply bind_Done in H as (o & s1 & H1 & H). apply getOpcode_Done in H1 as [Ho E].
  simpl in Ho, E. subst s1.
  apply bind_Done in H as ([] & s1 & H1 & H). apply assert_Done in H1 as [Hin [= ->]].
  apply bind_Done in H as ([] & s1 & H1 & H). apply assert_Done in H1 as [Hlen [= ->]].
  apply bool_decide_eq_true_1 in Hlen.
  destruct (filter _ (successorsOf o)) as [|u rest] eqn:Ef; [discriminate|].
  apply bind_Done in H as (loopBranch & s1 & H1 & H).
  apply createInst_Done in H1 as [= -> ->].
  apply bind_Done in H as ([] & s1 & H1 & H). apply modify_Done in H1 as [= ->].
  apply bind_Done in H as ([] & s1 & H1 & H). apply dropVectorShape_Done in H1 as [= ->].
  apply setVectorShape_Done in H as [= ->].
  destruct (replaced_terminator (func s) block term VoidTy "" (BranchInst u)
              Hfresh Hpar Hterm eq_refl)
    as (Ht & Hop & Hothers & Hsucc & _ & Hgone & _ & Hf' & Hp').
  exists term, o, u. simpl.
  split_and!.
  - exact Hterm.
  - exact Ho.
  - exact Hin.
  - exact Hlen.
  - rewrite Ef. reflexivity.
  - exact Ht.
  - unfold terminatorOpcode. rewrite Ht. exact Hop.
  - unfold successors, terminatorOpcode. rewrite Ht, Hop. reflexivity.
  - unfold getVectorShape. simpl. rewrite lookup_insert_eq. reflexivity.
  - exact Hgone.
  - intros b Hne. split; [apply Hothers, Hne|].
    unfold successors. rewrite (Hsucc b Hne). reflexivity.
  - exact Hf'.
  - exact Hp'.
Qed.


(** X7. [dropLoopExit] completes only on a block of the loop whose
    terminator has more than one successor, one of them inside the loop.
    Afterwards the block ends in a new unconditional branch of uniform shape
    to the first successor inside the loop, the old terminator is gone, and
    the instructions and successors of every other block are as before. *)
Theorem X7_dropLoopExit_single_successor (block : BlockRef) (L : Loop) (s s' : State) :
  wfFresh (func s) -> wfParents (func s) ->
  dropLoopExit block L s = Done ((), s') ->
  exists term o u,
    getTerminator (func s) block = Some term /\ opcodeOf (func s) term = Some o
    /\ contains L block = true /\ (1 < length (successorsOf o))%nat
    /\ head (filter (fun succ => contains L succ = true) (successorsOf o)) = Some u
    /\ getTerminator (func s') block = Some (fresh (func s))
    /\ terminatorOpcode (func s') block = Some (BranchInst u)
    /\ successors (func s') block = [u]
    /\ getVectorShape s' (fresh (func s)) = Uniform 1
    /\ insts (func s') !! term = None
    /\ (forall b, b <> block ->
          instsOf (func s') b = instsOf (func s) b
          /\ successors (func s') b = successors (func s) b).
Proof.
  intros Hfresh Hpar H.
  destruct (dropLoopExit_Done block L s s' Hfresh Hpar H)
    as (term & o & u & H1 & H2 & H3 & H4 & H5 & H6 & H7 & H8 & H9 & H10 & H11 & _).
  exists term, o, u. split_and!; assumption.
Qed.

Definition exitDropped : State :=
  match dropLoopExit 1 whileLoopL (whileLoopState ∅) with
  | Done (_, s) => s
  | Crash _ => whileLoopState ∅
  end.

Example dropLoopExit_header :
  terminatorOpcode whileLoopFunction 1 = Some (CondBranchInst (InstValue 21) 2 3)
  /\ terminatorOpcode (func exitDropped) 1 = Some (BranchInst 2)
  /\ instsOf (func exitDropped) 1 = [20; 21; 50]%nat.
Proof. split_and!; vm_compute; reflexivity. Qed.

Lemma X7_dropLoopExit_single_successor_witness :
  exists term o u,
    getTerminator (func (whileLoopState ∅)) 1 = Some term
    /\ opcodeOf (func (whileLoopState ∅)) term = Some o
    /\ contains whileLoopL 1 = true /\ (1 < length (successorsOf o))%nat
    /\ head (filter (fun succ => contains whileLoopL succ = true) (successorsOf o)) = Some u
    /\ getTerminator (func exitDropped) 1 = Some (fresh (func (whileLoopState ∅)))
    /\ terminatorOpcode (func exitDropped) 1 = Some (BranchInst u)
    /\ successors (func exitDropped) 1 = [u]
    /\ getVectorShape exitDropped (fresh (func (whileLoopState ∅))) = Uniform 1
    /\ insts (func exitDropped) !! term = None
    /\ (forall b, b <> 1%nat ->
          instsOf (func exitDropped) b = instsOf (func (whileLoopState ∅)) b
          /\ successors (func exitDropped) b = successors (func (whileLoopState ∅)) b).
Proof.
  apply (X7_dropLoopExit_single_successor 1 whileLoopL (whileLoopState ∅) exitDropped).
  - apply wfFresh_decide. vm_compute. reflexivity.
  - apply wfParents_decide. vm_compute. reflexivity.
  - vm_compute. reflexivity.
Defined.

(** What [cleanup] makes of a terminator: one with two or more successors
    that are all the same block becomes a simple branch to that block. *)
Definition simplifiedTerminator (o : Opcode) : Opcode :=
  match successorsOf o with
  | singleSucc :: second :: others =>
      if forallb (fun x => bool_decide (x = singleSucc)) (second :: others)
      then BranchInst singleSucc else o
  | _ => o
  end.

Lemma forallb_false_elem {A : Type} (p : A -> bool) (l : list A) :
  forallb p l = false -> exists z, z ∈ l /\ p z = false.
Proof.
  induction l as [|a l IH]; simpl; [discriminate|].
  destruct (p a) eqn:Ea; simpl.
  - intros H. destruct (IH H) as (z & Hz & Hp). exists z. split; [right; exact Hz|exact Hp].
  - intros _. exists a. split; [left|exact Ea].
Qed.

Lemma simplifiedTerminator_cases (o : Opcode) :
  simplifiedTerminator o = o \/ exists x, simplifiedTerminator o = BranchInst x.
Proof.
  unfold simplifiedTerminator.
  destruct (successorsOf o) as [|x [|y l]]; auto.
  destruct (forallb _ _); eauto.
Qed.

Lemma simplifiedTerminator_idem (o : Opcode) :
  simplifiedTerminator (simplifiedTerminator o) = simplifiedTerminator o.
Proof.
  destruct (simplifiedTerminator_cases o) as [E|[x E]]; rewrite E; [exact E|reflexivity].
Qed.

Lemma simplifiedTerminator_successors (o : Opcode) (x : BlockRef) :
  x ∈ successorsOf (simplifiedTerminator o) <-> x ∈ successorsOf o.
Proof.
  unfold simplifiedTerminator.
  destruct (successorsOf o) as [|a [|y l]] eqn:E; try (rewrite E; reflexivity).
  destruct (forallb _ _) eqn:Ea; [|rewrite E; reflexivity].
  simpl. rewrite forallb_forall in Ea. split.
  - intros Hx. apply list_elem_of_singleton in Hx as ->. left.
  - intros Hx. apply elem_of_cons in Hx as [->|Hx]; [left|].
    apply list_elem_of_In, Ea, bool_decide_eq_true_1 in Hx as ->. left.
Qed.

Lemma simplifiedTerminator_distinct (o : Opcode) (x y : BlockRef) (l : list BlockRef) :
  successorsOf (simplifiedTerminator o) = x :: y :: l -> exists z, z ∈ y :: l /\ z <> x.
Proof.
  unfold simplifiedTerminator.
  destruct (successorsOf o) as [|a [|b l0]] eqn:E; try (rewrite E; discriminate).
  destruct (forallb _ _) eqn:Ea; [discriminate|]. rewrite E. intros [= -> -> ->].
  apply forallb_false_elem in Ea as (z & Hz & Hne).
  apply bool_decide_eq_false_1 in Hne. exists z. split; [exact Hz|exact Hne].
Qed.

(** One round of the loop of [cleanup]. *)
Lemma cleanup_block (block : BlockRef) (s s' : State) :
  wfFresh (func s) -> wfParents (func s) ->
  (f ← gets func;
   match getTerminator f block with
   | None => mret ()
   | Some term =>
       o ← getOpcode term "terminator";
       match successorsOf o with
       | singleSucc :: (_ :: _) as succs =>
           if forallb (fun x => bool_decide (x = singleSucc)) succs then
             simpleBranch ← createInst block (terminatorPos f block) VoidTy ""
                              (BranchInst singleSucc);
             _ ← setVectorShape simpleBranch (uni 1);
             _ ← dropVectorShape term;
             modify (withFunc (eraseInst term))
           else mret ()
       | _ => mret ()
       end
   end) s = Done ((), s') ->
  wfFresh (func s') /\ wfParents (func s') /\ layout (func s') = layout (func s)
  /\ terminatorOpcode (func s') block = simplifiedTerminator <$> terminatorOpcode (func s) block
  /\ (forall b, b <> block -> terminatorOpcode (func s') b = terminatorOpcode (func s) b).
Proof.
  intros Hfresh Hpar H.
  apply bind_Done in H as (f & s1 & H1 & H). apply gets_Done in H1 as [= -> ->].
  unfold terminatorOpcode at 2.
  destruct (getTerminator (func s) block) as [term|] eqn:Hterm.
  - apply bind_Done in H as (o & s1 & H1 & H). apply getOpcode_Done in H1 as [Ho E].
    simpl in Ho, E. subst s1. rewrite Ho. simpl. unfold simplifiedTerminator.
    destruct (successorsOf o) as [|x [|y l]] eqn:Es.
    + apply ret_Done in H as [= <-]. unfold terminatorOpcode. rewrite Hterm. auto.
    + apply ret_Done in H as [= <-]. unfold terminatorOpcode. rewrite Hterm. auto.
    + destruct (forallb _ _) eqn:Ea.
      * apply bind_Done in H as (simpleBranch & s1 & H1 & H).
        apply createInst_Done in H1 as [= -> ->].
        apply bind_Done in H as ([] & s1 & H1 & H). apply setVectorShape_Done in H1 as [= ->].
        apply bind_Done in H as ([] & s1 & H1 & H). apply dropVectorShape_Done in H1 as [= ->].
        apply modify_Done in H as [= ->].
        destruct (replaced_terminator (func s) block term VoidTy "" (BranchInst x)
                    Hfresh Hpar Hterm eq_refl)
          as (Ht & Hop & _ & Hsucc & _ & _ & Hlay & Hf' & Hp').
        simpl. split_and!; auto.
        unfold terminatorOpcode. rewrite Ht. exact Hop.
      * apply ret_Done in H as [= <-]. unfold terminatorOpcode. rewrite Hterm. auto.
  - apply ret_Done in H as [= <-]. unfold terminatorOpcode. rewrite Hterm. auto.
Qed.

Lemma cleanup_blocks (l : list BlockRef) (s s' : State) :
  wfFresh (func s) -> wfParents (func s) ->
  forM l (fun block =>
    f ← gets func;
    match getTerminator f block with
    | None => mret ()
    | Some term =>
        o ← getOpcode term "terminator";
        match successorsOf o with
        | singleSucc :: (_ :: _) as succs =>
            if forallb (fun x => bool_decide (x = singleSucc)) succs then
              simpleBranch ← createInst block (terminatorPos f block) VoidTy ""
                               (BranchInst singleSucc);
              _ ← setVectorShape simpleBranch (uni 1);
              _ ← dropVectorShape term;
              modify (withFunc (eraseInst term))
            else mret ()
        | _ => mret ()
        end
    end) s = Done ((), s') ->
  wfFresh (func s') /\ wfParents (func s') /\ layout (func s') = layout (func s)
  /\ forall b, terminatorOpcode (func s') b
       = if bool_decide (b ∈ l) then simplifiedTerminator <$> terminatorOpcode (func s) b
         else terminatorOpcode (func s) b.
Proof.
  revert s. induction l as [|c l IH]; intros s Hfresh Hpar H.
  - apply ret_Done in H as [= <-]. split_and!; auto.
  - simpl in H. apply bind_Done in H as ([] & s1 & H1 & H).
    apply cleanup_block in H1 as (Hf1 & Hp1 & Hl1 & Hc & Hother); [|assumption..].
    apply IH in H as (Hf' & Hp' & Hl' & Hall); [|assumption..].
    split_and!; [assumption|assumption|congruence|].
    intros b. rewrite Hall.
    destruct (decide (b = c)) as [->|Hne].
    + rewrite (bool_decide_eq_true_2 (c ∈ c :: l)) by left. rewrite Hc.
      case_bool_decide; [|reflexivity].
      destruct (terminatorOpcode (func s) c) as [o|]; [|reflexivity]. simpl.
      rewrite simplifiedTerminator_idem. reflexivity.
    + rewrite (Hother b Hne).
      assert (E : bool_decide (b ∈ c :: l) = bool_decide (b ∈ l)).
      { apply bool_decide_ext. rewrite elem_of_cons. tauto. }
      rewrite E. reflexivity.
Qed.

(** X8. [cleanup] replaces the terminator of every block of the function
    by its simplified form: a terminator with two or more successors that
    are all the same block becomes an unconditional branch to that block and
    every other terminator stays. The blocks a block can branch to are the
    same as before, and afterwards no block of the function has two or more
    successors that are all the same. *)
Theorem X8_cleanup_simplifies_terminators (s s' : State) :
  wfFresh (func s) -> wfParents (func s) ->
  cleanup s = Done ((), s') ->
  layout (func s') = layout (func s)
  /\ (forall b, b ∈ layout (func s) ->
        terminatorOpcode (func s') b = simplifiedTerminator <$> terminatorOpcode (func s) b)
  /\ (forall b, b ∉ layout (func s) ->
        terminatorOpcode (func s') b = terminatorOpcode (func s) b)
  /\ (forall b x, x ∈ successors (func s') b <-> x ∈ successors (func s) b)
  /\ (forall b x y l, b ∈ layout (func s) -> successors (func s') b = x :: y :: l ->
        exists z, z ∈ y :: l /\ z <> x).
Proof.
  intros Hfresh Hpar H. unfold cleanup in H.
  apply bind_Done in H as (f & s1 & H1 & H). apply gets_Done in H1 as [= -> ->].
  apply cleanup_blocks in H as (_ & _ & Hl & Hall); [|assumption..].
  split_and!.
  - exact Hl.
  - intros b Hb. rewrite Hall, bool_decide_eq_true_2 by exact Hb. reflexivity.
  - intros b Hb. rewrite Hall, bool_decide_eq_false_2 by exact Hb. reflexivity.
  - intros b x. unfold successors. rewrite Hall. case_bool_decide; [|reflexivity].
    destruct (terminatorOpcode (func s) b) as [o|]; [|reflexivity]. simpl.
    apply simplifiedTerminator_successors.
  - intros b x y l Hb. unfold successors.
    rewrite Hall, bool_decide_eq_true_2 by exact Hb.
    destruct (terminatorOpcode (func s) b) as [o|]; [|discriminate]. simpl.
    apply simplifiedTerminator_distinct.
Qed.

Definition latchCleaned : State :=
  match cleanup latchEmitted with
  | Done (_, s) => s
  | Crash _ => latchEmitted
  end.

Example cleanup_latchEmitted :
  terminatorOpcode (func latchEmitted) 1 = Some (CondBranchInst (InstValue 21) 2 2)
  /\ terminatorOpcode (func latchCleaned) 1 = Some (BranchInst 2).
Proof. split_and!; vm_compute; reflexivity. Qed.

Lemma X8_cleanup_simplifies_terminators_witness :
  layout (func latchCleaned) = layout (func latchEmitted)
  /\ (forall b, b ∈ layout (func latchEmitted) ->
        terminatorOpcode (func latchCleaned) b
        = simplifiedTerminator <$> terminatorOpcode (func latchEmitted) b)
  /\ (forall b, b ∉ layout (func latchEmitted) ->
        terminatorOpcode (func latchCleaned) b = terminatorOpcode (func latchEmitted) b)
  /\ (forall b x, x ∈ successors (func latchCleaned) b <-> x ∈ successors (func latchEmitted) b)
  /\ (forall b x y l, b ∈ layout (func latchEmitted) ->
        successors (func latchCleaned) b = x :: y :: l ->
        exists z, z ∈ y :: l /\ z <> x).
Proof.
  apply (X8_cleanup_simplifies_terminators latchEmitted latchCleaned).
  - apply wfFresh_decide. vm_compute. reflexivity.
  - apply wfParents_decide. vm_compute. reflexivity.
  - vm_compute. reflexivity.
Defined.

End TerminatorExtras.

(** ** Further properties of the shape decoder *)

Section DecoderExtras.
Import Shape RvTool.

Lemma read_digits_rest (l : list ascii) (acc : Z) (n : nat) :
  (length (read_digits l acc n).2 <= length l)%nat.
Proof.
  revert acc n. induction l as [|c r IH]; intros acc n; simpl; [lia|].
  destruct (digit_of c) as [d|]; [|simpl; lia].
  specialize (IH (10 * acc + d) (S n)).
  destruct (read_digits r (10 * acc + d) (S n)) as [[[v k] seen] rest]. simpl in *. lia.
Qed.

Lemma skip_ws_rest (l seen : list ascii) :
  (length (skip_ws l seen).2 <= length l)%nat.
Proof.
  revert seen. induction l as [|c r IH]; intros seen; simpl; [lia|].
  destruct (isspace c); [|simpl; lia]. specialize (IH (c :: seen)). lia.
Qed.

Lemma extract_unsigned_pending (s : stringstream) :
  (length (pending (extract_unsigned s).2) <= length (pending s))%nat.
Proof.
  unfold extract_unsigned. destruct (good s); [|simpl; lia].
  pose proof (skip_ws_rest (pending s) (consumed s)) as Hws.
  destruct (skip_ws (pending s) (consumed s)) as [seen l]. simpl in Hws.
  destruct l as [|c r]; [simpl; lia|].
  set (body := if (Ascii.eqb c "-" || Ascii.eqb c "+")%bool then r else c :: r).
  assert (Hbody : (length body <= length (c :: r))%nat).
  { unfold body. destruct (_ || _)%bool; simpl; lia. }
  pose proof (read_digits_rest body 0 0) as Hrd.
  destruct (read_digits body 0 0) as [[[v k] ds] rest]. simpl in Hrd.
  destruct k; [simpl; lia|]. destruct (UINT_MAX <? v); simpl; lia.
Qed.

Lemma readNumber_pending (s s' : stringstream) (n : Z) :
  readNumber s = Done (n, s') -> (length (pending s') <= length (pending s))%nat.
Proof.
  unfold readNumber. pose proof (extract_unsigned_pending s) as H.
  destruct (extract_unsigned s) as [number s1]. simpl in H.
  destruct (fail s1); [discriminate|]. intros [= _ <-]. exact H.
Qed.

(** A stream that is not good yields no number. *)
Lemma readNumber_failed (s : stringstream) :
  good s = false -> readNumber s = Crash (AssertionFailed "expected a number!").
Proof.
  intros H. unfold readNumber, extract_unsigned. rewrite H. simpl.
  rewrite orb_true_r. reflexivity.
Qed.

Lemma decodeAlignment_pending (s s' : stringstream) (a : Z) :
  decodeAlignment s = Done (a, s') ->
  (length (pending s') <= length (pending s))%nat
  /\ (failbit s = true -> good s' = false).
Proof.
  unfold decodeAlignment, get. destruct (good s) eqn:Hg.
  - destruct (pending s) as [|c r] eqn:Hp.
    + rewrite bool_decide_eq_false_2 by discriminate. intros [= _ <-].
      unfold good in Hg. apply andb_true_iff in Hg as [_ Hf].
      apply negb_true_iff in Hf. unfold unget, setstate. simpl.
      rewrite orb_true_r. simpl. rewrite Hp. split; [simpl; lia|congruence].
    + case_bool_decide as Hc.
      * intros H. apply readNumber_pending in H. simpl in H.
        unfold good in Hg. apply andb_true_iff in Hg as [_ Hf].
        apply negb_true_iff in Hf. split; [simpl; lia|congruence].
      * intros [= _ <-]. unfold unget. simpl.
        unfold good in Hg. apply andb_true_iff in Hg as [_ Hf].
        apply negb_true_iff in Hf. split; [simpl; lia|congruence].
  - rewrite bool_decide_eq_false_2 by discriminate. intros [= _ <-].
    unfold unget, setstate. simpl. rewrite orb_true_r. simpl.
    split; [lia|]. intros _. reflexivity.
Qed.

(** What a completed [decodeShape] has read. After [S] the shape is
    [strided k a] for the stride [k] that was read: the contiguous shape
    when [k] is 1, [Strided k a] otherwise. *)
Inductive decoded : ascii -> VectorShape -> Prop :=
| decoded_undef : decoded BOTCHAR Undef
| decoded_cont (a : N) : decoded CONTCHAR (Contiguous a)
| decoded_varying (a : N) : decoded VARCHAR (Varying a)
| decoded_uni (a : N) : decoded UNICHAR (Uniform a)
| decoded_strided (k : Z) (a : N) : decoded STRIDEDCHAR (strided k a).

Lemma decodeShape_Done (s s' : stringstream) (sh : VectorShape) :
  decodeShape s = Done (sh, s') ->
  exists c r, good s = true /\ pending s = c :: r /\ decoded c sh
    /\ (length (pending s') <= length r)%nat.
Proof.
  unfold decodeShape, get. destruct (good s) eqn:Hg.
  - destruct (pending s) as [|c r] eqn:Hp.
    + rewrite bool_decide_eq_false_2 by discriminate.
      destruct (decodeAlignment _) as [[a s1]|f] eqn:Ea; [|discriminate].
      apply decodeAlignment_pending in Ea as [_ Hbad].
      rewrite !bool_decide_eq_false_2 by discriminate.
      rewrite readNumber_failed; [discriminate|].
      apply Hbad. unfold setstate. simpl. apply orb_true_r.
    + intros H. exists c, r. split; [reflexivity|]. split; [reflexivity|].
      case_bool_decide as Hb.
      { injection Hb as ->. injection H as <- <-. split; [constructor|simpl; lia]. }
      destruct (decodeAlignment _) as [[a s1]|f] eqn:Ea; [|discriminate].
      apply decodeAlignment_pending in Ea as [Hlen _]. simpl in Hlen.
      case_bool_decide as Hc.
      { injection Hc as ->. injection H as <- <-. split; [constructor|lia]. }
      case_bool_decide as Hv.
      { injection Hv as ->. injection H as <- <-. split; [constructor|lia]. }
      case_bool_decide as Hu.
      { injection Hu as ->. injection H as <- <-. split; [constructor|lia]. }
      destruct (readNumber s1) as [[k s2]|f] eqn:Er; [|discriminate].
      apply readNumber_pending in Er.
      case_bool_decide as Hs; [|discriminate].
      injection Hs as ->. injection H as <- <-. split; [constructor|lia].
  - rewrite bool_decide_eq_false_2 by discriminate.
    destruct (decodeAlignment _) as [[a s1]|f] eqn:Ea; [|discriminate].
    apply decodeAlignment_pending in Ea as [_ Hbad].
    rewrite !bool_decide_eq_false_2 by discriminate.
    rewrite readNumber_failed; [discriminate|].
    apply Hbad. unfold setstate. simpl. apply orb_true_r.
Qed.

(** X9. [decodeShape] completes only on a good stream with a character to
    read. That first character is one of [B], [C], [T], [U], [S] and fixes
    the kind of the shape that is returned (undefined, contiguous, varying,
    uniform, strided, where a stride of 1 gives the contiguous shape); the
    first character is consumed and the read position
    never moves back behind it. On every other input, the empty one
    included, the decoder stops with an error. *)
Theorem X9_decodeShape_first_character (s s' : stringstream) (sh : VectorShape) :
  decodeShape s = Done (sh, s') ->
  exists c r, good s = true /\ pending s = c :: r /\ decoded c sh
    /\ (length (pending s') <= length r)%nat.
Proof. apply decodeShape_Done. Qed.

(** [S1_U]: the stride 1 is read and the shape is the contiguous one. *)
Lemma X9_decodeShape_first_character_witness :
  exists c r, good (stream_of "S1_U") = true /\ pending (stream_of "S1_U") = c :: r
    /\ decoded c (Contiguous 1)
    /\ (length (pending (mkStream ["1"; "S"]%char ["_"; "U"]%char false false))
        <= length r)%nat.
Proof.
  apply (X9_decodeShape_first_character (stream_of "S1_U")
           (mkStream ["1"; "S"]%char ["_"; "U"]%char false false) (Contiguous 1)).
  vm_compute. reflexivity.
Defined.

Lemma readNumber_fuel (s : stringstream) : readNumber s <> Crash OutOfFuel.
Proof.
  unfold readNumber. destruct (extract_unsigned s) as [k s1].
  destruct (fail s1); discriminate.
Qed.

Lemma decodeAlignment_fuel (s : stringstream) : decodeAlignment s <> Crash OutOfFuel.
Proof.
  unfold decodeAlignment. destruct (get s) as [c s1].
  case_bool_decide; [apply readNumber_fuel|discriminate].
Qed.

Lemma decodeShape_fuel (s : stringstream) : decodeShape s <> Crash OutOfFuel.
Proof.
  unfold decodeShape. destruct (get s) as [c s1]. case_bool_decide; [discriminate|].
  pose proof (decodeAlignment_fuel s1) as Ha.
  destruct (decodeAlignment s1) as [[a s2]|f]; [|congruence].
  repeat (case_bool_decide; [discriminate|]).
  pose proof (readNumber_fuel s2) as Hr.
  destruct (readNumber s2) as [[k s3]|f]; [|congruence].
  case_bool_decide; discriminate.
Qed.

Lemma peek_pending (s : stringstream) : pending (peek s).2 = pending s.
Proof. unfold peek. destruct (good s); [destruct (pending s) eqn:E|]; simpl; congruence. Qed.

Lemma ignore1_pending (s : stringstream) :
  (length (pending (ignore1 s)) <= length (pending s))%nat.
Proof.
  unfold ignore1. destruct (good s); [destruct (pending s) eqn:E|]; simpl; rewrite ?E; simpl; lia.
Qed.

(** The loop of [readList]: with more fuel than characters left it never
    runs out of fuel, and a completed run has added at least one element and
    at most one for each character read. *)
Lemma readList_loop_bounded (fuel : nat) (vec : list VectorShape) (s : stringstream) :
  (length (pending s) < fuel)%nat ->
  readList_loop fuel vec s <> Crash OutOfFuel
  /\ forall vec' s', readList_loop fuel vec s = Done (vec', s') ->
       exists new, vec' = vec ++ new /\ new <> []
         /\ (length new + length (pending s') <= length (pending s))%nat.
Proof.
  revert vec s. induction fuel as [|fuel IH]; intros vec s Hf; [lia|]. simpl.
  destruct (decodeShape s) as [[x s1]|f] eqn:Ed.
  - apply decodeShape_Done in Ed as (c0 & r0 & _ & Hp0 & _ & Hlen).
    pose proof (peek_pending s1) as Hpk.
    destruct (peek s1) as [c s2]. simpl in Hpk. rewrite <- Hpk in Hlen.
    rewrite Hp0 in Hf |- *. simpl in Hf |- *.
    case_bool_decide as Hc.
    + pose proof (ignore1_pending s2) as Hig.
      destruct (IH (vec ++ [x]) (ignore1 s2)) as [Hno Hdone]; [lia|].
      split; [exact Hno|]. intros vec' s' H.
      destruct (Hdone _ _ H) as (new & -> & _ & Hn).
      exists (x :: new). rewrite <- app_assoc. split; [reflexivity|].
      split; [discriminate|]. simpl. lia.
    + split; [discriminate|]. intros vec' s' [= <- <-].
      exists [x]. split; [reflexivity|]. split; [discriminate|]. simpl. lia.
  - split; [|discriminate]. intros [= ->]. exact (decodeShape_fuel _ Ed).
Qed.

(** X10. [readList] with [decodeShape] as reader always ends: the loop
    makes at most one round for each character left in the stream. When it
    completes it has read at least one shape, and every shape has used up at
    least one character. *)
Theorem X10_readList_rounds (s : stringstream) :
  readList s <> Crash OutOfFuel
  /\ forall vec s', readList s = Done (vec, s') ->
       vec <> [] /\ (length vec + length (pending s') <= length (pending s))%nat.
Proof.
  unfold readList.
  destruct (readList_loop_bounded (S (length (pending s))) [] s) as [Hno Hdone]; [lia|].
  split; [exact Hno|]. intros vec s' H.
  destruct (Hdone _ _ H) as (new & -> & Hne & Hlen). simpl. auto.
Qed.

Lemma readList_first (s s' : stringstream) (vec : list VectorShape) :
  readList s = Done (vec, s') ->
  exists first s1, decodeShape s = Done (first, s1) /\ head vec = Some first.
Proof.
  unfold readList. simpl.
  destruct (decodeShape s) as [[x s1]|f] eqn:Ed; [|discriminate].
  intros H. exists x, s1. split; [reflexivity|].
  pose proof (decodeShape_Done _ _ _ Ed) as (c0 & r0 & _ & Hp0 & _ & Hlen).
  pose proof (peek_pending s1) as Hpk.
  destruct (peek s1) as [c s2]. simpl in Hpk.
  case_bool_decide.
  - pose proof (ignore1_pending s2) as Hig.
    destruct (readList_loop_bounded (length (pending s)) [x] (ignore1 s2)) as [_ Hdone].
    { rewrite Hp0. simpl. rewrite Hpk in Hig. lia. }
    destruct (Hdone _ _ H) as (new & -> & _). reflexivity.
  - injection H as <- <-. reflexivity.
Qed.

(** X11. The [-s] option of the driver: when the shape text is accepted,
    there is exactly one shape for each argument of the kernel, the kernel
    has at least one argument, and the first shape is the one [decodeShape]
    reads at the start of the text. A kernel without arguments is never
    accepted together with a shape text: the list always holds one shape. *)
Theorem X11_decodeShapeOption_arity (arity : nat) (shapeText : string)
    (resShape : VectorShape) (argShapes : list VectorShape) :
  decodeShapeOption arity shapeText = Done (resShape, argShapes) ->
  length argShapes = arity /\ (0 < arity)%nat
  /\ exists first rest, decode shapeText = Done (first, rest)
       /\ head argShapes = Some first.
Proof.
  unfold decodeShapeOption, decode.
  destruct (readList (stream_of shapeText)) as [[vec s1]|f] eqn:Er; [|discriminate].
  pose proof (readList_first _ _ _ Er) as (first & s0 & Hd & Hh).
  destruct (readList_loop_bounded (S (length (pending (stream_of shapeText)))) []
              (stream_of shapeText)) as [_ Hdone]; [lia|].
  destruct (Hdone _ _ Er) as (new & Hv & Hne & _). simpl in Hv. subst new.
  destruct (arity <? length vec)%nat eqn:Ha; [discriminate|].
  apply Nat.ltb_ge in Ha.
  assert (Hres : forall r : VectorShape,
            length (vec ++ replicate (arity - length vec) (uni 1)) = arity
            /\ (0 < arity)%nat
            /\ exists first rest,
                 match decodeShape (stream_of shapeText) with
                 | Done (sh, s) => Done (sh, string_of_list_ascii (pending s))
                 | Crash f => Crash f
                 end = Done (first, rest)
                 /\ head (vec ++ replicate (arity - length vec) (uni 1)) = Some first).
  { intros _. rewrite length_app, length_replicate. split; [lia|].
    split; [destruct vec; [congruence|simpl in Ha; lia]|].
    rewrite Hd. exists first, (string_of_list_ascii (pending s0)). split; [reflexivity|].
    destruct vec; [congruence|exact Hh]. }
  destruct (peek s1) as [c s2]. destruct c as [c|].
  - destruct (get s2) as [c' s3]. case_bool_decide; [|discriminate].
    destruct (decodeShape s3) as [[r s4]|f]; [|discriminate].
    intros [= <- <-]. apply Hres, r.
  - intros [= <- <-]. apply Hres, undef.
Qed.

Lemma X10_readList_rounds_witness :
  readList (stream_of "C_Ta4_S2rU") <> Crash OutOfFuel
  /\ forall vec s', readList (stream_of "C_Ta4_S2rU") = Done (vec, s') ->
       vec <> []
       /\ (length vec + length (pending s') <= length (pending (stream_of "C_Ta4_S2rU")))%nat.
Proof. apply (X10_readList_rounds (stream_of "C_Ta4_S2rU")). Defined.

Example readList_three :
  exists s', readList (stream_of "C_Ta4_S2rU")
             = Done ([Contiguous 1; Varying 4; Strided 2 1], s')
    /\ pending s' = ["r"; "U"]%char.
Proof. eexists. split; vm_compute; reflexivity. Qed.

Lemma X11_decodeShapeOption_arity_witness :
  length [Contiguous 1; Varying 4; Strided 2 1; Uniform 1] = 4%nat /\ (0 < 4)%nat
  /\ exists first rest, decode "C_Ta4_S2rU" = Done (first, rest)
       /\ head [Contiguous 1; Varying 4; Strided 2 1; Uniform 1] = Some first.
Proof.
  apply (X11_decodeShapeOption_arity 4 "C_Ta4_S2rU" (Uniform 1)).
  vm_compute. reflexivity.
Defined.

End DecoderExtras.

(** ** Further properties of [Mask] *)

Section MaskExtras.
Import Mask.

(** [Mask::requestPredAsValue]: the predicate, or [i1 true] when there is
    none. *)
Definition requestPredAsValue (m : Mask) : Value :=
  match getPred m with
  | Some p => p
  | None => ConstantInt 1 1
  end.

(** [Mask::requestAVLAsValue]: the vector length, or [i32 -1] when there is
    none. *)
Definition requestAVLAsValue (m : Mask) : Value :=
  match getAVL m with
  | Some avl => avl
  | None => ConstantInt 32 (-1)
  end.

(** X12. A mask made by [inferFromPredicate] is never reported all-false,
    whatever the predicate: for a constant all-ones predicate the mask is
    the canonical all-true mask and the answer is [false]; for every other
    predicate, a constant zero included, [knownAllFalse] casts the vector
    length that the mask does not have and stops. *)
Theorem X12_knownAllFalse_of_inferred_mask (Pred : Value) :
  knownAllFalse (inferFromPredicate Pred)
  = if isAllOnesValue Pred then Done false
    else Crash (AssertionFailed "dyn_cast on a non-existent value").
Proof.
  unfold inferFromPredicate.
  destruct Pred as [w x|w xs|id]; simpl.
  - destruct (_ =? _); reflexivity.
  - destruct (forallb _ xs); reflexivity.
  - reflexivity.
Qed.

(** X13. [knownAllFalse] answers [true] only because of the vector length:
    the mask then has a vector length that is a constant with all bits
    zero, [requestAVLAsValue] yields that constant, and the mask is not
    reported all-true. The predicate plays no part: with any predicate in
    its place the answer is the same. *)
Theorem X13_knownAllFalse_by_vector_length (m : Mask) :
  knownAllFalse m = Done true ->
  exists avl, getAVL m = Some avl /\ isConstant avl = true /\ isNullValue avl = true
    /\ requestAVLAsValue m = avl /\ knownAllTrue m = false
    /\ forall q, knownAllFalse (mkMask (Some q) (Some avl)) = Done true.
Proof.
  destruct m as [p [avl|]]; unfold knownAllFalse, requestAVLAsValue, knownAllTrue; simpl.
  - intros H. exists avl.
    assert (Hc : isConstant avl = true /\ isNullValue avl = true).
    { destruct avl as [w x|w xs|id]; simpl in *.
      - destruct (_ =? _); [auto|]. destruct p; discriminate.
      - destruct p; [|discriminate]. injection H as H. auto.
      - destruct p; discriminate. }
    destruct Hc as [Hc Hn]. split_and!; auto.
    + destruct p; reflexivity.
    + intros q. rewrite Hc. destruct (isConstantInt avl); rewrite Hn; reflexivity.
  - destruct p; discriminate.
Qed.

Lemma X13_knownAllFalse_by_vector_length_witness :
  exists avl, getAVL getAllFalse = Some avl /\ isConstant avl = true
    /\ isNullValue avl = true
    /\ requestAVLAsValue getAllFalse = avl /\ knownAllTrue getAllFalse = false
    /\ forall q, knownAllFalse (mkMask (Some q) (Some avl)) = Done true.
Proof. apply (X13_knownAllFalse_by_vector_length getAllFalse). reflexivity. Defined.

(** X14. From a predicate to a mask and back: the mask of
    [inferFromPredicate] is reported all-true exactly when the predicate is
    a constant with all bits set. [requestPredAsValue] gives back the
    predicate itself unless it was such a constant; then the mask is the
    canonical all-true mask and the value is the scalar [i1 true], also for
    a vector predicate. Either way the value is all-ones exactly when the
    predicate was, and the vector length asked for is [i32 -1]. *)
Theorem X14_inferFromPredicate_round_trip (Pred : Value) :
  knownAllTrue (inferFromPredicate Pred) = isAllOnesValue Pred
  /\ requestPredAsValue (inferFromPredicate Pred)
     = (if isAllOnesValue Pred then ConstantInt 1 1 else Pred)
  /\ isAllOnesValue (requestPredAsValue (inferFromPredicate Pred)) = isAllOnesValue Pred
  /\ requestAVLAsValue (inferFromPredicate Pred) = ConstantInt 32 (-1)
  /\ (isAllOnesValue Pred = true -> inferFromPredicate Pred = getAllTrue).
Proof.
  unfold inferFromPredicate.
  destruct Pred as [w x|w xs|id]; simpl.
  - destruct (x mod 2 ^ Z.of_N w =? 2 ^ Z.of_N w - 1) eqn:E; simpl; rewrite ?E; auto.
    split_and!; auto; discriminate.
  - destruct (forallb _ xs) eqn:E; simpl; rewrite ?E; auto.
    split_and!; auto; discriminate.
  - split_and!; auto; discriminate.
Qed.

End MaskExtras.

(** ** Phi nodes and new predecessors *)

Section PhiExtras.
Import Shape IR Lin Linearizer.

Lemma getBasicBlockIndex_nonneg (inc : list (Value * BlockRef)) (b : BlockRef) :
  (0 <=? getBasicBlockIndex inc b) = true <-> b ∈ inc.*2.
Proof.
  pose proof (getBasicBlockIndex_neg inc b) as H.
  destruct (decide (b ∈ inc.*2)) as [Hb|Hb].
  - split; [auto|]. intros _. apply Z.leb_le.
    destruct (getBasicBlockIndex inc b <? 0) eqn:E; [tauto|]. apply Z.ltb_ge in E. exact E.
  - split; [|tauto]. intros H0. apply Z.leb_le in H0.
    apply H in Hb. apply Z.ltb_lt in Hb. lia.
Qed.

Lemma withFunc_withFunc (g h : Function -> Function) (s : State) :
  withFunc g (withFunc h s) = withFunc (fun f => g (h f)) s.
Proof. reflexivity. Qed.

(** The loop of [addUndefInputs] over the predecessors, for one phi node. *)
Lemma addUndefInputs_phi (phi : InstRef) (l : list BlockRef) :
  forall (s : State) (x : Instruction) (inc : list (Value * BlockRef)),
  insts (func s) !! phi = Some x -> opcode x = PHINode inc ->
  exists added,
    forM l (fun predBlock =>
      inc ← getIncoming phi;
      if 0 <=? getBasicBlockIndex inc predBlock then mret ()
      else
        f ← gets func;
        addIncoming phi (UndefValue (typeOf f (InstValue phi))) predBlock) s
    = Done ((), withFunc (setOpcode phi (PHINode (inc ++ added))) s)
    /\ (forall p, p ∈ added -> p.1 = UndefValue (itype x) /\ p.2 ∈ l /\ p.2 ∉ inc.*2)
    /\ (forall predBlock, predBlock ∈ l -> predBlock ∈ (inc ++ added).*2).
Proof.
  induction l as [|a l IH]; intros s x inc Hx Ho.
  - exists []. split_and!.
    + simpl. rewrite app_nil_r, withFunc_same; [reflexivity|].
      apply setOpcode_same. unfold opcodeOf. rewrite Hx. simpl. congruence.
    + intros p Hp. inversion Hp.
    + intros b Hb. inversion Hb.
  - assert (Hget : getIncoming phi s = Done (inc, s)).
    { unfold getIncoming, getOpcode.
      rewrite (bind_Done_l _ _ s s (PHINode inc)); [reflexivity|].
      rewrite (bind_Done_l _ _ s s s) by reflexivity.
      unfold opcodeOf. rewrite Hx. simpl. rewrite Ho. reflexivity. }
    simpl. destruct (0 <=? getBasicBlockIndex inc a) eqn:Ea.
    + destruct (IH s x inc Hx Ho) as (added & Hrun & Hadd & Hcov).
      exists added. split_and!.
      * rewrite (bind_Done_l _ _ s s ()); [exact Hrun|].
        rewrite (bind_Done_l _ _ s s inc) by exact Hget. rewrite Ea. reflexivity.
      * intros p Hp. destruct (Hadd p Hp) as (H1 & H2 & H3).
        split_and!; [exact H1|right; exact H2|exact H3].
      * intros b Hb. apply elem_of_cons in Hb as [->|Hb]; [|auto].
        apply getBasicBlockIndex_nonneg in Ea. rewrite fmap_app. apply elem_of_app. auto.
    + set (u := (UndefValue (itype x), a)).
      set (s1 := withFunc (setOpcode phi (PHINode (inc ++ [u]))) s).
      assert (Hx1 : insts (func s1) !! phi = Some (withOpcode (PHINode (inc ++ [u])) x)).
      { replace (func s1) with (setOpcode phi (PHINode (inc ++ [u])) (func s))
          by reflexivity.
        rewrite setOpcode_insts, decide_True by reflexivity.
        rewrite Hx. reflexivity. }
      destruct (IH s1 _ (inc ++ [u]) Hx1 eq_refl) as (added & Hrun & Hadd & Hcov).
      simpl in Hadd.
      exists (u :: added). split_and!.
      * rewrite (bind_Done_l _ _ s s1 ()).
        { rewrite Hrun. unfold s1. rewrite withFunc_withFunc. do 2 f_equal.
          unfold withFunc. f_equal. rewrite setOpcode_twice, <- app_assoc. reflexivity. }
        rewrite (bind_Done_l _ _ s s inc) by exact Hget. rewrite Ea.
        rewrite (bind_Done_l _ _ s s (func s)) by reflexivity.
        unfold addIncoming. rewrite (bind_Done_l _ _ s s inc) by exact Hget.
        unfold typeOf. rewrite Hx. reflexivity.
      * assert (Hna : a ∉ inc.*2).
        { intros Hin. apply getBasicBlockIndex_nonneg in Hin. congruence. }
        intros p Hp. apply elem_of_cons in Hp as [->|Hp].
        { split_and!; [reflexivity|left|exact Hna]. }
        destruct (Hadd p Hp) as (H1 & H2 & H3).
        split_and!; [exact H1|right; exact H2|].
        intros Hin. apply H3. rewrite fmap_app. apply elem_of_app. auto.
      * intros b Hb. rewrite fmap_app, fmap_cons. apply elem_of_cons in Hb as [->|Hb].
        { apply elem_of_app. right. left. }
        specialize (Hcov b Hb). rewrite <- app_assoc, fmap_app in Hcov. exact Hcov.
Qed.

(** What [addUndefInputs] has done to the phi nodes [ps] of a block with
    predecessors [preds]: each one has got an undefined incoming value for
    every predecessor it did not know, behind the ones it had. *)
Record undefInputsAdded (ps : list InstRef) (preds : list BlockRef) (f f' : Function)
  : Prop := mkUndefInputsAdded {
  ui_layout : layout f' = layout f;
  ui_body : body f' = body f;
  ui_fresh : fresh f' = fresh f;
  ui_declared : declared f' = declared f;
  ui_others : forall i, i ∉ ps -> insts f' !! i = insts f !! i;
  ui_phis : forall phi, phi ∈ ps ->
    exists x inc added,
      insts f !! phi = Some x /\ opcode x = PHINode inc
      /\ insts f' !! phi = Some (withOpcode (PHINode (inc ++ added)) x)
      /\ (forall p, p ∈ added ->
            p.1 = UndefValue (itype x) /\ p.2 ∈ preds /\ p.2 ∉ inc.*2)
      /\ (forall predBlock, predBlock ∈ preds -> predBlock ∈ (inc ++ added).*2)
}.

Lemma addUndefInputs_phis (preds : list BlockRef) (ps : list InstRef) :
  forall s : State,
  (forall phi, phi ∈ ps -> isPHIRef (func s) phi = true) ->
  exists f',
    forM ps (fun phi =>
      forM preds (fun predBlock =>
        inc ← getIncoming phi;
        if 0 <=? getBasicBlockIndex inc predBlock then mret ()
        else
          f ← gets func;
          addIncoming phi (UndefValue (typeOf f (InstValue phi))) predBlock)) s
    = Done ((), withFunc (fun _ => f') s)
    /\ undefInputsAdded ps preds (func s) f'.
Proof.
  induction ps as [|phi ps IH]; intros s Hphi.
  - exists (func s). split.
    + simpl. rewrite withFunc_same; reflexivity.
    + split; auto. intros phi Hin. inversion Hin.
  - assert (Hp : isPHIRef (func s) phi = true) by (apply Hphi; left).
    unfold isPHIRef, opcodeOf in Hp.
    destruct (insts (func s) !! phi) as [x|] eqn:Hx; [|discriminate]. simpl in Hp.
    destruct (opcode x) as [inc| | | | | | | | ] eqn:Ho; try discriminate.
    destruct (addUndefInputs_phi phi preds s x inc Hx Ho) as (added & Hrun & Hadd & Hcov).
    set (s1 := withFunc (setOpcode phi (PHINode (inc ++ added))) s) in *.
    assert (Hf1 : func s1 = setOpcode phi (PHINode (inc ++ added)) (func s)) by reflexivity.
    assert (Hx1 : insts (func s1) !! phi = Some (withOpcode (PHINode (inc ++ added)) x)).
    { rewrite Hf1, setOpcode_insts, decide_True by reflexivity. rewrite Hx. reflexivity. }
    destruct (IH s1) as (f' & Hrun' & Hrel).
    { intros q Hq. unfold isPHIRef. rewrite Hf1, setOpcode_opcodeOf.
      case_decide; [rewrite Hx; reflexivity|]. apply (Hphi q). right. exact Hq. }
    exists f'. split.
    + simpl. rewrite (bind_Done_l _ _ s s1 ()) by exact Hrun. rewrite Hrun'. reflexivity.
    + destruct Hrel as [h1 h2 h3 h4 h5 h6]. rewrite Hf1 in *. split; auto.
      * intros i Hi. destruct (decide (i = phi)) as [->|Hne]; [exfalso; apply Hi; left|].
        rewrite h5 by (intros Hin; apply Hi; right; exact Hin).
        rewrite setOpcode_insts, decide_False by exact Hne. reflexivity.
      * intros q Hq. destruct (decide (q ∈ ps)) as [Hin|Hnin].
        -- destruct (h6 q Hin) as (x1 & inc1 & added1 & E1 & Eo1 & E' & Hadd1 & Hcov1).
           rewrite setOpcode_insts in E1. destruct (decide (q = phi)) as [->|Hne].
           ++ rewrite Hx in E1. simpl in E1. injection E1 as <-. simpl in Eo1.
              injection Eo1 as <-. exists x, inc, (added ++ added1).
              split_and!; [exact Hx|exact Ho| | |].
              ** rewrite E'. rewrite <- app_assoc. reflexivity.
              ** intros p Hp'. apply elem_of_app in Hp' as [Hp'|Hp']; [auto|].
                 destruct (Hadd1 p Hp') as (H1 & H2 & H3). simpl in H1.
                 split_and!; [exact H1|exact H2|].
                 intros H4. apply H3. rewrite fmap_app. apply elem_of_app. auto.
              ** intros b Hb. rewrite app_assoc. auto.
           ++ exists x1, inc1, added1. auto.
        -- apply elem_of_cons in Hq as [->|Hq]; [|contradiction].
           exists x, inc, added. rewrite (h5 phi Hnin). auto.
Qed.

(** X15. On a block that ends in a terminator [addUndefInputs] always
    completes. It changes nothing but the incoming lists of the phi nodes
    at the head of the block: each of them keeps the incoming values it had,
    in place, and gets behind them one undefined value of its own type for
    every predecessor of the block it did not list, so that afterwards every
    predecessor of the block is an incoming block of every such phi node.
    No block gains or loses an instruction and no successor changes. *)
Theorem X15_addUndefInputs_covers_predecessors (block : BlockRef) (s : State) :
  is_Some (getTerminator (func s) block) ->
  exists f',
    addUndefInputs block s = Done ((), withFunc (fun _ => f') s)
    /\ undefInputsAdded (phisOf (func s) block) (predecessors (func s) block) (func s) f'
    /\ sameCFG (func s) f'
    /\ forall phi inc', phi ∈ phisOf f' block -> opcodeOf f' phi = Some (PHINode inc') ->
         forall predBlock, predBlock ∈ predecessors f' block -> predBlock ∈ inc'.*2.
Proof.
  intros _.
  destruct (addUndefInputs_phis (predecessors (func s) block) (phisOf (func s) block) s)
    as (f' & Hrun & Hrel).
  { intros phi Hphi. apply (phisOf_isPHIRef _ _ _ Hphi). }
  exists f'. split; [exact Hrun|]. split; [exact Hrel|].
  destruct Hrel as [h1 h2 h3 h4 h5 h6].
  assert (Hop : forall i, opcodeOf f' i = opcodeOf (func s) i
                  \/ exists inc inc', opcodeOf (func s) i = Some (PHINode inc)
                       /\ opcodeOf f' i = Some (PHINode inc')).
  { intros i. destruct (decide (i ∈ phisOf (func s) block)) as [Hin|Hnin].
    - right. destruct (h6 i Hin) as (x & inc & added & E & Eo & E' & _).
      exists inc, (inc ++ added). unfold opcodeOf. rewrite E, E'. simpl. rewrite Eo. auto.
    - left. unfold opcodeOf. rewrite (h5 i Hnin). reflexivity. }
  assert (Hinsts : forall b, instsOf f' b = instsOf (func s) b).
  { intros b. unfold instsOf. rewrite h2. reflexivity. }
  assert (Hterm : forall b, getTerminator f' b = getTerminator (func s) b).
  { intros b. unfold getTerminator. rewrite Hinsts.
    destruct (last (instsOf (func s) b)) as [t|]; [|reflexivity].
    destruct (Hop t) as [->|(inc & inc' & -> & ->)]; reflexivity. }
  assert (Hcfg : sameCFG (func s) f').
  { split; [exact h1|]. intros b. unfold terminatorOpcode. rewrite Hterm.
    destruct (getTerminator (func s) b) as [t|] eqn:Et; [|reflexivity].
    destruct (Hop t) as [->|(inc & inc' & E1 & E2)]; [reflexivity|].
    apply getTerminator_isTermF in Et. unfold isTermF in Et. rewrite E1 in Et.
    discriminate. }
  split; [exact Hcfg|].
  assert (Hphis : phisOf f' block = phisOf (func s) block).
  { unfold phisOf. rewrite Hinsts. f_equal.
    assert (Hall : forall l, splitPhis f' l = splitPhis (func s) l).
    { induction l as [|i l IHl]; [reflexivity|]. simpl. rewrite IHl.
      replace (isPHIRef f' i) with (isPHIRef (func s) i); [reflexivity|].
      unfold isPHIRef. destruct (Hop i) as [->|(inc & inc' & -> & ->)]; reflexivity. }
    apply Hall. }
  intros phi inc' Hphi Ho b Hb. rewrite Hphis in Hphi.
  rewrite (sameCFG_predecessors _ _ block Hcfg) in Hb.
  destruct (h6 phi Hphi) as (x & inc & added & E & Eo & E' & _ & Hcov).
  unfold opcodeOf in Ho. rewrite E' in Ho. simpl in Ho. injection Ho as <-.
  apply Hcov, Hb.
Qed.

(** The while loop with a second edge into the exit block: the entry
    block branches to the header or to the exit. *)
Definition earlyExitState : State :=
  withFunc (setOpcode 10 (CondBranchInst (Argument (IntTy 1) 0) 1 3)) (whileLoopState ∅).

Definition earlyExitPadded : State :=
  match addUndefInputs 3 earlyExitState with
  | Done (_, s) => s
  | Crash _ => earlyExitState
  end.

Example addUndefInputs_earlyExit :
  predecessors (func earlyExitState) 3 = [0; 1]%nat
  /\ opcodeOf (func earlyExitState) 40 = Some (PHINode [(InstValue 20, 1%nat)])
  /\ opcodeOf (func earlyExitPadded) 40
     = Some (PHINode [(InstValue 20, 1%nat); (UndefValue (IntTy 32), 0%nat)]).
Proof. split_and!; vm_compute; reflexivity. Qed.

Lemma X15_addUndefInputs_covers_predecessors_witness :
  exists f',
    addUndefInputs 3 earlyExitState = Done ((), withFunc (fun _ => f') earlyExitState)
    /\ undefInputsAdded (phisOf (func earlyExitState) 3)
         (predecessors (func earlyExitState) 3) (func earlyExitState) f'
    /\ sameCFG (func earlyExitState) f'
    /\ forall phi inc', phi ∈ phisOf f' 3 -> opcodeOf f' phi = Some (PHINode inc') ->
         forall predBlock, predBlock ∈ predecessors f' 3 -> predBlock ∈ inc'.*2.
Proof.
  apply (X15_addUndefInputs_covers_predecessors 3 earlyExitState).
  exists 41%nat. vm_compute. reflexivity.
Defined.

End PhiExtras.

(** ** Closing a loop *)

Section ExitExtras.
Import Shape IR Lin Linearizer.

(** The loop of [dropExitingBlocks]. *)
Lemma dropLoopExits_Done (L : Loop) (l : list BlockRef) :
  forall s s' : State,
  wfFresh (func s) -> wfParents (func s) ->
  forM l (fun exitingBlock => dropLoopExit exitingBlock L) s = Done ((), s') ->
  wfFresh (func s') /\ wfParents (func s')
  /\ (forall b, b ∈ l ->
        exists u, successors (func s') b = [u]
          /\ head (filter (fun succ => contains L succ = true) (successors (func s) b))
             = Some u)
  /\ (forall b, b ∉ l ->
        instsOf (func s') b = instsOf (func s) b
        /\ successors (func s') b = successors (func s) b).
Proof.
  induction l as [|c l IH]; intros s s' Hfresh Hpar H.
  - apply ret_Done in H as [= <-]. split_and!; auto. intros b Hb. inversion Hb.
  - simpl in H. apply bind_Done in H as ([] & s1 & H1 & H).
    destruct (dropLoopExit_Done c L s s1 Hfresh Hpar H1)
      as (term & o & u & Ht & Ho & _ & _ & Hu & _ & _ & Hs1 & _ & _ & Hoth & Hf1 & Hp1).
    destruct (IH s1 s' Hf1 Hp1 H) as (Hf' & Hp' & Hin & Hout).
    assert (Hsc : successors (func s) c = successorsOf o).
    { unfold successors, terminatorOpcode. rewrite Ht, Ho. reflexivity. }
    split_and!; [exact Hf'|exact Hp'| |].
    + intros b Hb. destruct (decide (b ∈ l)) as [Hbl|Hbl].
      * destruct (Hin b Hbl) as (v & Hv & Hh). exists v. split; [exact Hv|].
        destruct (decide (b = c)) as [->|Hne].
        -- rewrite Hs1 in Hh. rewrite Hsc, Hu.
           assert (Hcu : contains L u = true).
           { apply head_Some_elem_of in Hu. apply list_elem_of_filter in Hu. tauto. }
           rewrite filter_cons_True in Hh by exact Hcu. exact Hh.
        -- destruct (Hoth b Hne) as [_ <-]. exact Hh.
      * apply elem_of_cons in Hb as [->|Hb]; [|contradiction].
        exists u. destruct (Hout c Hbl) as [_ ->]. rewrite Hsc. auto.
    + intros b Hb. apply not_elem_of_cons in Hb as [Hne Hbl].
      destruct (Hout b Hbl) as [-> ->]. apply Hoth, Hne.
Qed.

Lemma dropExitingBlocks_Done (L : Loop) (s s' : State) :
  wfFresh (func s) -> wfParents (func s) ->
  dropExitingBlocks L s = Done ((), s') ->
  wfFresh (func s') /\ wfParents (func s')
  /\ (forall b, b ∈ getExitingBlocks (func s) L ->
        exists u, successors (func s') b = [u] /\ contains L u = true
          /\ head (filter (fun succ => contains L succ = true) (successors (func s) b))
             = Some u)
  /\ (forall b, b ∉ getExitingBlocks (func s) L ->
        instsOf (func s') b = instsOf (func s) b
        /\ successors (func s') b = successors (func s) b)
  /\ (forall b x, b ∈ loopBlocks L -> x ∈ successors (func s') b -> contains L x = true).
Proof.
  intros Hfresh Hpar H. unfold dropExitingBlocks in H.
  apply bind_Done in H as (f & s1 & H1 & H). apply gets_Done in H1 as [= -> ->].
  apply dropLoopExits_Done in H as (Hf' & Hp' & Hin & Hout); [|assumption..].
  assert (Hin' : forall b, b ∈ getExitingBlocks (func s) L ->
            exists u, successors (func s') b = [u] /\ contains L u = true
              /\ head (filter (fun succ => contains L succ = true) (successors (func s) b))
                 = Some u).
  { intros b Hb. destruct (Hin b Hb) as (u & Hu & Hh). exists u.
    split_and!; [exact Hu| |exact Hh].
    apply head_Some_elem_of in Hh. apply list_elem_of_filter in Hh. tauto. }
  split_and!; [exact Hf'|exact Hp'|exact Hin'|exact Hout|].
  intros b x Hb Hx. destruct (decide (b ∈ getExitingBlocks (func s) L)) as [He|He].
  - destruct (Hin' b He) as (u & Hu & Hc & _). rewrite Hu in Hx.
    apply list_elem_of_singleton in Hx as ->. exact Hc.
  - destruct (Hout b He) as [_ Hs]. rewrite Hs in Hx.
    destruct (contains L x) eqn:Ex; [reflexivity|]. exfalso. apply He.
    unfold getExitingBlocks. apply list_elem_of_filter. split; [|exact Hb].
    apply existsb_exists. exists x. split; [apply list_elem_of_In, Hx|].
    rewrite Ex. reflexivity.
Qed.

(** X16. When [dropExitingBlocks] completes, the loop is closed: no block
    of the loop has a successor outside the loop any more, so the loop has
    neither exiting blocks nor exit blocks. Every block that was exiting has
    exactly one successor, the first of its former successors that lies
    inside the loop; every other block keeps its instructions and its
    successors. *)
Theorem X16_dropExitingBlocks_closes_loop (L : Loop) (s s' : State) :
  wfFresh (func s) -> wfParents (func s) ->
  dropExitingBlocks L s = Done ((), s') ->
  getExitingBlocks (func s') L = [] /\ getExitBlocks (func s') L = []
  /\ (forall b, b ∈ getExitingBlocks (func s) L ->
        exists u, successors (func s') b = [u] /\ contains L u = true
          /\ head (filter (fun succ => contains L succ = true) (successors (func s) b))
             = Some u)
  /\ (forall b, b ∉ getExitingBlocks (func s) L ->
        instsOf (func s') b = instsOf (func s) b
        /\ successors (func s') b = successors (func s) b).
Proof.
  intros Hfresh Hpar H.
  destruct (dropExitingBlocks_Done L s s' Hfresh Hpar H) as (_ & _ & Hin & Hout & Hclosed).
  split_and!; [| |exact Hin|exact Hout].
  - apply elem_of_nil_inv. intros b Hb. unfold getExitingBlocks in Hb.
    apply list_elem_of_filter in Hb as [He Hb].
    apply existsb_exists in He as (x & Hx & Hn). apply list_elem_of_In in Hx.
    rewrite (Hclosed b x Hb Hx) in Hn. discriminate.
  - apply elem_of_nil_inv. intros x Hx. unfold getExitBlocks in Hx.
    apply list_elem_of_In, in_flat_map in Hx as (b & Hb & Hx).
    apply list_elem_of_In in Hb, Hx. apply list_elem_of_filter in Hx as [Hn Hx].
    rewrite (Hclosed b x Hb Hx) in Hn. discriminate.
Qed.

Definition loopClosed : State :=
  match dropExitingBlocks whileLoopL (whileLoopState ∅) with
  | Done (_, s) => s
  | Crash _ => whileLoopState ∅
  end.

Example dropExitingBlocks_whileLoop :
  getExitingBlocks whileLoopFunction whileLoopL = [1%nat]
  /\ getExitBlocks whileLoopFunction whileLoopL = [3%nat]
  /\ successors (func loopClosed) 1 = [2%nat].
Proof. split_and!; vm_compute; reflexivity. Qed.

Lemma X16_dropExitingBlocks_closes_loop_witness :
  getExitingBlocks (func loopClosed) whileLoopL = []
  /\ getExitBlocks (func loopClosed) whileLoopL = []
  /\ (forall b, b ∈ getExitingBlocks (func (whileLoopState ∅)) whileLoopL ->
        exists u, successors (func loopClosed) b = [u] /\ contains whileLoopL u = true
          /\ head (filter (fun succ => contains whileLoopL succ = true)
                     (successors (func (whileLoopState ∅)) b))
             = Some u)
  /\ (forall b, b ∉ getExitingBlocks (func (whileLoopState ∅)) whileLoopL ->
        instsOf (func loopClosed) b = instsOf (func (whileLoopState ∅)) b
        /\ successors (func loopClosed) b = successors (func (whileLoopState ∅)) b).
Proof.
  apply (X16_dropExitingBlocks_closes_loop whileLoopL (whileLoopState ∅) loopClosed).
  - apply wfFresh_decide. vm_compute. reflexivity.
  - apply wfParents_decide. vm_compute. reflexivity.
  - vm_compute. reflexivity.
Defined.

End ExitExtras.

(** ** The single exit of a converted loop *)

Section WfKept.
Import Shape IR Lin Linearizer.

(** The instructions of the function are below the counter of fresh
    references, and every instruction listed in a block names that block as
    its parent. *)
Definition wfState (s : State) : Prop := wfFresh (func s) /\ wfParents (func s).

Definition wfKept (s s' : State) : Prop := wfState s -> wfState s'.

#[global] Instance wfKept_preorder : PreOrder wfKept.
Proof. split; [intros s H; exact H|intros a b c H1 H2 H; auto]. Qed.

Lemma wfKept_same (g : State -> State) (s : State) :
  func (g s) = func s -> wfKept s (g s).
Proof. intros E. unfold wfKept, wfState. rewrite E. auto. Qed.

Lemma wfKept_func (g : Function -> Function) (s : State) :
  (forall f, wfFresh f -> wfParents f -> wfFresh (g f) /\ wfParents (g f)) ->
  wfKept s (withFunc g s).
Proof. intros H [H1 H2]. apply H; assumption. Qed.

Lemma listed_lt (f : Function) (b : BlockRef) (i : InstRef) :
  wfFresh f -> wfParents f -> i ∈ instsOf f b -> (i < fresh f)%nat.
Proof.
  intros Hf Hp Hi. pose proof (wfParents_parent _ _ _ Hp Hi) as Hq.
  destruct (insts f !! i) as [x|] eqn:E; [|discriminate]. eapply wfFresh_lt; eauto.
Qed.

Lemma insertInst_wfParents b pos ty name o f :
  wfFresh f -> wfParents f -> wfParents (insertInst b pos ty name o f).
Proof.
  intros Hf Hp. apply wfParents_alt. intros b' i Hi.
  rewrite insertInst_instsOf in Hi. rewrite insertInst_insts.
  destruct (decide (b' = b)) as [->|Hne].
  - apply elem_of_take_drop in Hi as [->|Hi].
    + rewrite decide_True by reflexivity. reflexivity.
    + pose proof (listed_lt _ _ _ Hf Hp Hi). rewrite decide_False by lia.
      apply wfParents_parent; assumption.
  - pose proof (listed_lt _ _ _ Hf Hp Hi). rewrite decide_False by lia.
    apply wfParents_parent; assumption.
Qed.

Lemma mapInsts_wf (g : Instruction -> Instruction) (f : Function) :
  (forall x, parent (g x) = parent x) ->
  wfFresh f -> wfParents f -> wfFresh (mapInsts g f) /\ wfParents (mapInsts g f).
Proof.
  intros Hg Hf Hp. split.
  - intros i x E. unfold mapInsts in E. simpl in E. rewrite lookup_fmap in E.
    destruct (insts f !! i) as [y|] eqn:Ey; [|discriminate]. apply Hf in Ey. exact Ey.
  - apply wfParents_alt. intros b i Hi.
    pose proof (wfParents_parent f b i Hp Hi) as Hq.
    unfold mapInsts. simpl. rewrite lookup_fmap.
    destruct (insts f !! i) as [y|]; [|discriminate]. simpl in *. rewrite Hg. exact Hq.
Qed.

Lemma setOpcode_wfParents i o f : wfParents f -> wfParents (setOpcode i o f).
Proof.
  intros Hp. apply wfParents_alt. intros b j Hj. rewrite setOpcode_instsOf in Hj.
  pose proof (wfParents_parent f b j Hp Hj) as Hq. rewrite setOpcode_insts.
  case_decide as Hd; [subst j|exact Hq].
  destruct (insts f !! i) as [y|]; [|discriminate]. exact Hq.
Qed.

Lemma eraseInst_wfParents t f : wfParents f -> wfParents (eraseInst t f).
Proof.
  intros Hp. destruct (insts f !! t) as [x|] eqn:Ex.
  - apply wfParents_alt. intros b i Hi. rewrite (eraseInst_instsOf _ _ _ _ Ex) in Hi.
    rewrite eraseInst_insts. case_decide as Hd.
    + subst b. apply list_elem_of_filter in Hi as [Hne Hi].
      rewrite decide_False by exact Hne. apply wfParents_parent; assumption.
    + pose proof (wfParents_parent f b i Hp Hi) as Hq.
      assert (i <> t) by (intros ->; rewrite Ex in Hq; simpl in Hq; congruence).
      rewrite decide_False by assumption. exact Hq.
  - unfold eraseInst. rewrite Ex. exact Hp.
Qed.

Lemma addBlock_wf f : wfFresh f -> wfParents f -> wfFresh (addBlock f) /\ wfParents (addBlock f).
Proof.
  intros Hf Hp. split.
  - intros i x E. apply Hf in E. simpl in *. lia.
  - apply wfParents_alt. intros b i Hi. rewrite addBlock_instsOf in Hi.
    case_decide; [inversion Hi|]. apply (wfParents_parent f b i Hp Hi).
Qed.

Lemma keeps_wf_other (g : State -> State) :
  (forall s, func (g s) = func s) -> keeps wfKept (modify g).
Proof. intros H. apply keeps_modify. intros s. apply wfKept_same, H. Qed.

Lemma keeps_wf_func (g : Function -> Function) :
  (forall f, wfFresh f -> wfParents f -> wfFresh (g f) /\ wfParents (g f)) ->
  keeps wfKept (modify (withFunc g)).
Proof. intros H. apply keeps_modify. intros s. apply wfKept_func, H. Qed.

Lemma keeps_wf_createInst b pos ty name o : keeps wfKept (createInst b pos ty name o).
Proof.
  intros s a s' H. apply createInst_Done in H as [= _ ->]. apply wfKept_func.
  intros f Hf Hp. split; [apply insertInst_wfFresh, Hf|apply insertInst_wfParents; assumption].
Qed.

Lemma keeps_wf_createBlock : keeps wfKept createBlock.
Proof.
  intros s a s' H. injection H as _ <-. apply wfKept_func. apply addBlock_wf.
Qed.

Lemma keeps_wf_setIncoming phi inc : keeps wfKept (setIncoming phi inc).
Proof.
  apply keeps_wf_func. intros f Hf Hp.
  split; [apply setOpcode_wfFresh, Hf|apply setOpcode_wfParents, Hp].
Qed.

Lemma keeps_wf_replaceAllUsesWith old new :
  keeps wfKept (modify (withFunc (replaceAllUsesWith old new))).
Proof. apply keeps_wf_func. intros f. apply mapInsts_wf. reflexivity. Qed.

Lemma keeps_wf_eraseInst t : keeps wfKept (modify (withFunc (eraseInst t))).
Proof.
  apply keeps_wf_func. intros f Hf Hp.
  split; [apply eraseInst_wfFresh, Hf|apply eraseInst_wfParents, Hp].
Qed.

Lemma keeps_wf_replaceOutsideUses L inInst liveOut :
  keeps wfKept (replaceOutsideUses L inInst liveOut).
Proof.
  apply keeps_wf_func. intros f. apply mapInsts_wf.
  intros x. destruct (contains L (parent x)); reflexivity.
Qed.

End WfKept.

#[global] Hint Resolve keeps_wf_createInst keeps_wf_createBlock keeps_wf_setIncoming
  keeps_wf_replaceAllUsesWith keeps_wf_eraseInst keeps_wf_replaceOutsideUses : keeps.

Ltac keeps_extra ::= solve [apply keeps_wf_other; intros ?; reflexivity].

Section WfFunctions.
Import Shape IR Lin Linearizer.
Context (li : LoopInfo).

Lemma keeps_wf_linkChain chain : keeps wfKept (linkChain chain).
Proof. induction chain as [|x [|y r] IH]; simpl; keeps_tac. Qed.
#[local] Hint Resolve keeps_wf_linkChain : keeps.

Lemma keeps_wf_requestRelay id : keeps wfKept (requestRelay id).
Proof. unfold requestRelay. keeps_tac. Qed.
#[local] Hint Resolve keeps_wf_requestRelay : keeps.

Lemma keeps_wf_addTargetToRelay anchor targetId :
  keeps wfKept (addTargetToRelay anchor targetId).
Proof. unfold addTargetToRelay. keeps_tac. Qed.
#[local] Hint Resolve keeps_wf_addTargetToRelay : keeps.

Lemma keeps_wf_addIncoming phi v b : keeps wfKept (addIncoming phi v b).
Proof. unfold addIncoming. keeps_tac. Qed.

Lemma keeps_wf_setIncomingValue phi idx v : keeps wfKept (setIncomingValue phi idx v).
Proof. unfold setIncomingValue. keeps_tac. Qed.

Lemma keeps_wf_setIncomingBlock phi idx b : keeps wfKept (setIncomingBlock phi idx b).
Proof. unfold setIncomingBlock. keeps_tac. Qed.
#[local] Hint Resolve keeps_wf_addIncoming keeps_wf_setIncomingValue
  keeps_wf_setIncomingBlock : keeps.

Lemma keeps_wf_createSelect b pos c x y name :
  keeps wfKept (createSelect b pos c x y name).
Proof. unfold createSelect. destruct (_ && _); keeps_tac. Qed.

Lemma keeps_wf_setValueShape v sh : keeps wfKept (setValueShape v sh).
Proof. unfold setValueShape. destruct v; keeps_tac. Qed.
#[local] Hint Resolve keeps_wf_createSelect keeps_wf_setValueShape : keeps.

Lemma keeps_wf_promoteIncoming type defBlockId blockId block preds defs acc kp :
  keeps wfKept (promoteIncoming type defBlockId blockId block preds defs acc kp).
Proof.
  unfold promoteIncoming. destruct acc as [localDef localPhi], kp as [k predBlock].
  keeps_tac.
Qed.
#[local] Hint Resolve keeps_wf_promoteIncoming : keeps.

Lemma keeps_wf_promoteBlock type defBlockId defs i :
  keeps wfKept (promoteBlock type defBlockId defs i).
Proof. unfold promoteBlock. keeps_tac. Qed.
#[local] Hint Resolve keeps_wf_promoteBlock : keeps.

Lemma keeps_wf_promoteDefinition inst defBlockId destBlockId :
  keeps wfKept (promoteDefinition inst defBlockId destBlockId).
Proof. unfold promoteDefinition. keeps_tac. Qed.
#[local] Hint Resolve keeps_wf_promoteDefinition : keeps.

Lemma keeps_wf_requestTracker L preHeader liveOutPhis inst :
  keeps wfKept (requestTracker L preHeader liveOutPhis inst).
Proof. unfold requestTracker. keeps_tac. Qed.

Lemma keeps_wf_addTrackerUpdate L tracker exiting exit val :
  keeps wfKept (addTrackerUpdate L tracker exiting exit val).
Proof. unfold addTrackerUpdate. keeps_tac. Qed.

Lemma keeps_wf_getLastTrackerState L tracker : keeps wfKept (getLastTrackerState L tracker).
Proof. unfold getLastTrackerState. keeps_tac. Qed.
#[local] Hint Resolve keeps_wf_requestTracker keeps_wf_addTrackerUpdate
  keeps_wf_getLastTrackerState : keeps.

Lemma keeps_wf_getTrackerStateForLiveOut L liveOutPhis liveOutInst :
  keeps wfKept (getTrackerStateForLiveOut L liveOutPhis liveOutInst).
Proof. unfold getTrackerStateForLiveOut. keeps_tac. Qed.
#[local] Hint Resolve keeps_wf_getTrackerStateForLiveOut : keeps.

Lemma keeps_wf_trackLiveOut L preHeader exitingBlock exitBlock finalExit liveOutPhis lcPhi :
  keeps wfKept (trackLiveOut L preHeader exitingBlock exitBlock finalExit liveOutPhis lcPhi).
Proof. unfold trackLiveOut. keeps_tac. Qed.
#[local] Hint Resolve keeps_wf_trackLiveOut : keeps.

Lemma keeps_wf_trackLiveOuts L preHeader liveOutPhis exitBlock :
  keeps wfKept (trackLiveOuts L preHeader liveOutPhis exitBlock).
Proof. unfold trackLiveOuts. keeps_tac. Qed.
#[local] Hint Resolve keeps_wf_trackLiveOuts : keeps.

Lemma keeps_wf_collectExit L preHeader acc exitBlock :
  keeps wfKept (collectExit li L preHeader acc exitBlock).
Proof. unfold collectExit, GetExitingBlock. destruct acc. keeps_tac. Qed.

Lemma keeps_wf_repairIncoming L latch block latchIndex lcPhi i :
  keeps wfKept (repairIncoming L latch block latchIndex lcPhi i).
Proof. unfold repairIncoming. keeps_tac. Qed.
#[local] Hint Resolve keeps_wf_collectExit keeps_wf_repairIncoming : keeps.

Lemma keeps_wf_eliminateLCSSAPhi L latch block latchIndex lcPhi :
  keeps wfKept (eliminateLCSSAPhi L latch block latchIndex lcPhi).
Proof. unfold eliminateLCSSAPhi. keeps_tac. Qed.
#[local] Hint Resolve keeps_wf_eliminateLCSSAPhi : keeps.

Lemma keeps_wf_eliminateLCSSAPhis fuel L latch block latchIndex :
  keeps wfKept (eliminateLCSSAPhis fuel L latch block latchIndex).
Proof. induction fuel as [|fuel IH]; simpl; keeps_tac. Qed.
#[local] Hint Resolve keeps_wf_eliminateLCSSAPhis : keeps.

Lemma keeps_wf_moveLCSSANodes L latch latchIndex loopExitBlocks loopExitRelay :
  keeps wfKept (moveLCSSANodes L latch latchIndex loopExitBlocks loopExitRelay).
Proof. unfold moveLCSSANodes. keeps_tac. Qed.

Lemma terminatorOpcode_frame (f f' : Function) (b : BlockRef) :
  instsOf f' b = instsOf f b ->
  (forall i, i ∈ instsOf f b -> insts f' !! i = insts f !! i) ->
  getTerminator f' b = getTerminator f b /\ terminatorOpcode f' b = terminatorOpcode f b.
Proof.
  intros Hl Hi. unfold terminatorOpcode, getTerminator. rewrite Hl.
  destruct (last (instsOf f b)) as [t|] eqn:El; [|auto].
  apply last_Some in El as [l' El].
  assert (Eo : opcodeOf f' t = opcodeOf f t).
  { unfold opcodeOf. rewrite Hi; [reflexivity|]. rewrite El. apply elem_of_app. right. left. }
  rewrite Eo. destruct (opcodeOf f t) as [o|] eqn:Eo1; [|auto].
  destruct (isTerminator o); [split; [reflexivity|congruence]|auto].
Qed.

(** The new terminator of the latch and what [createLatchExit] leaves
    alone. *)
Lemma createLatchExit_successors (L : Loop) (latch : BlockRef)
    (loopExitRelay : option RelayNode) (s s' : State) (r : RelayNode) :
  wfFresh (func s) -> wfParents (func s) ->
  createLatchExit L latch loopExitRelay s = Done (r, s') ->
  exists relayBlock branch,
    loopExitRelay = Some r /\ rblock r = Some relayBlock
    /\ getTerminator (func s') latch = Some branch
    /\ successors (func s') latch = [getHeader L; relayBlock]
    /\ getVectorShape s' branch = Uniform 1
    /\ isDivergentLoop s' L = false
    /\ (forall b, b <> latch -> successors (func s') b = successors (func s) b).
Proof.
  intros Hwf Hpar H. unfold createLatchExit in H.
  apply bind_Done in H as (s0 & s1 & H1 & H). apply getState_Done in H1 as [= -> ->].
  apply bind_Done in H as (latchTerm & s1 & H1 & H). apply deref_Done in H1 as [Ht Hs]. simpl_state. subst s1.
  apply bind_Done in H as (o & s1 & H1 & H). apply getOpcode_Done in H1 as [Ho Hs]. simpl_state. subst s1.
  apply bind_Done in H as (u & s1 & H1 & H). apply assert_Done in H1 as [_ [= -> ->]].
  apply bind_Done in H as (u & s1 & H1 & H). apply dropVectorShape_Done in H1 as [= -> ->].
  apply bind_Done in H as (u & s1 & H1 & H). apply modify_Done in H1 as [= -> ->].
  apply bind_Done in H as (liveMask & s1 & H1 & H). apply deref_Done in H1 as [Hm Hs]. simpl_state. subst s1.
  apply bind_Done in H as (call & s1 & H1 & H). apply createReduction_Done in H1. cbv zeta in H1.
  simpl_state. injection H1 as -> ->.
  apply bind_Done in H as (r0 & s1 & H1 & H). apply deref_Done in H1 as [Hr Hs]. simpl_state. subst s1.
  apply bind_Done in H as (relayBlock & s1 & H1 & H). apply deref_Done in H1 as [Hrb Hs]. simpl_state. subst s1.
  apply bind_Done in H as (f & s1 & H1 & H). apply gets_Done in H1 as [= -> ->].
  apply bind_Done in H as (branch & s1 & H1 & H). apply createInst_Done in H1 as [= -> ->].
  apply bind_Done in H as (u & s1 & H1 & H). apply setVectorShape_Done in H1 as [= -> ->].
  apply bind_Done in H as (u & s1 & H1 & H). apply modify_Done in H1 as [= -> ->].
  apply bind_Done in H as (s0 & s1 & H1 & H). apply getState_Done in H1 as [= -> ->].
  apply bind_Done in H as (u & s1 & H1 & H). apply modify_Done in H1 as [= -> ->].
  apply ret_Done in H. injection H as -> ->.
  simpl_state.
  (* the function after each step *)
  set (f0 := func s) in *.
  set (f1 := eraseInst latchTerm f0) in *.
  set (f2 := if bool_decide ("rv_any"%string ∈ declared f1) then f1
             else mkFunction (layout f1) (body f1) (insts f1) (fresh f1)
                    (declared f1 ++ ["rv_any"%string])) in *.
  set (f3 := insertInst latch (length (instsOf f1 latch)) (IntTy 1) "reduce"
               (CallInst "rv_any" [liveMask]) f2) in *.
  set (f4 := insertInst latch (length (instsOf f3 latch)) VoidTy ""
               (CondBranchInst (InstValue (fresh f1)) (getHeader L) relayBlock) f3) in *.
  assert (Hx : exists x, insts f0 !! latchTerm = Some x /\ parent x = latch).
  { pose proof (wfParents_parent _ _ _ Hpar (getTerminator_elem _ _ _ Ht)) as P.
    fold f0 in P. destruct (insts f0 !! latchTerm) as [x|]; [|discriminate].
    exists x. split; [reflexivity|]. simpl in P. congruence. }
  destruct Hx as (x & Hx & Hpx).
  assert (I2 : insts f2 = insts f1) by (unfold f2; destruct (bool_decide _); reflexivity).
  assert (B2 : forall b, instsOf f2 b = instsOf f1 b)
    by (intros b; unfold f2; destruct (bool_decide _); reflexivity).
  assert (F2 : fresh f2 = fresh f0)
    by (unfold f2; destruct (bool_decide _); simpl; unfold f1; apply eraseInst_fresh).
  assert (F1 : fresh f1 = fresh f0) by apply eraseInst_fresh.
  assert (F3 : fresh f3 = S (fresh f0)) by (unfold f3, insertInst; simpl; congruence).
  assert (L3 : instsOf f3 latch = instsOf f1 latch ++ [fresh f0]).
  { unfold f3. rewrite insertInst_instsOf. case_decide; [|congruence].
    rewrite B2, F2. rewrite take_ge, drop_ge by lia. reflexivity. }
  assert (I3 : forall j, insts f3 !! j
             = if decide (j = fresh f2)
               then Some (mkInst (IntTy 1) "reduce" latch (CallInst "rv_any" [liveMask]))
               else insts f2 !! j)
    by (intros j; unfold f3; apply insertInst_insts).
  assert (I4 : forall j, insts f4 !! j
             = if decide (j = fresh f3)
               then Some (mkInst VoidTy "" latch
                            (CondBranchInst (InstValue (fresh f1)) (getHeader L) relayBlock))
               else insts f3 !! j)
    by (intros j; unfold f4; apply insertInst_insts).
  assert (L4 : instsOf f4 latch = instsOf f3 latch ++ [fresh f3]).
  { unfold f4. rewrite insertInst_instsOf. case_decide; [|congruence].
    rewrite take_ge, drop_ge by lia. reflexivity. }
  assert (O4 : opcodeOf f4 (fresh f3)
               = Some (CondBranchInst (InstValue (fresh f1)) (getHeader L) relayBlock)).
  { unfold opcodeOf. rewrite I4. case_decide; [reflexivity|congruence]. }
  assert (T4 : getTerminator f4 latch = Some (fresh f3)).
  { unfold getTerminator. rewrite L4, last_snoc, O4. reflexivity. }
  exists relayBlock, (fresh f3). split_and!.
  - exact Hr.
  - exact Hrb.
  - exact T4.
  - unfold successors, terminatorOpcode. rewrite T4, O4. reflexivity.
  - unfold getVectorShape. simpl_state. rewrite lookup_insert_eq. reflexivity.
  - unfold isDivergentLoop. simpl_state. apply bool_decide_eq_false_2.
    intros Hin. apply elem_of_difference in Hin as [_ Hn].
    apply Hn, elem_of_singleton. reflexivity.
  - intros b Hne. unfold successors.
    destruct (terminatorOpcode_frame f0 f4 b) as [_ ->]; [| |reflexivity].
    + unfold f4. rewrite insertInst_instsOf, decide_False by exact Hne.
      unfold f3. rewrite insertInst_instsOf, decide_False by exact Hne.
      rewrite B2. unfold f1. rewrite (eraseInst_instsOf _ _ _ _ Hx), Hpx.
      rewrite decide_False by exact Hne. reflexivity.
    + intros i Hi. pose proof (listed_lt _ _ _ Hwf Hpar Hi) as Hlt. fold f0 in Hlt.
      pose proof (wfParents_parent _ _ _ Hpar Hi) as Hq. fold f0 in Hq.
      assert (i <> latchTerm) by (intros ->; rewrite Hx in Hq; simpl in Hq; congruence).
      rewrite I4, decide_False by lia. rewrite I3, decide_False by lia.
      rewrite I2. unfold f1. rewrite eraseInst_insts, decide_False by assumption.
      reflexivity.
Qed.

(** X17. When [convertToSingleExitLoop] completes, the loop leaves through
    its latch only: the latch ends in a branch of uniform shape to the
    header or to the block of the relay that is returned, and every
    successor of every other block of the loop lies inside the loop. So the
    latch is the only exiting block the loop can have and, for a loop that
    contains its header, the relay block its only exit block. The loop is no
    longer flagged divergent. *)
Theorem X17_convertToSingleExitLoop_single_exit (L : Loop)
    (exitRelay : option RelayNode) (s s' : State) (r : RelayNode) :
  wfFresh (func s) -> wfParents (func s) ->
  contains L (getHeader L) = true ->
  convertToSingleExitLoop li L exitRelay s = Done (r, s') ->
  exists latch relayBlock branch,
    getLoopLatch (func s) L = Some latch
    /\ rblock r = Some relayBlock
    /\ getTerminator (func s') latch = Some branch
    /\ successors (func s') latch = [getHeader L; relayBlock]
    /\ getVectorShape s' branch = Uniform 1
    /\ isDivergentLoop s' L = false
    /\ (forall b x, b ∈ loopBlocks L -> b <> latch -> x ∈ successors (func s') b ->
          contains L x = true)
    /\ (forall b, b ∈ getExitingBlocks (func s') L -> b = latch)
    /\ (forall x, x ∈ getExitBlocks (func s') L -> x = relayBlock).
Proof.
  intros Hwf Hpar Hhead H. unfold convertToSingleExitLoop in H.
  apply bind_Done in H as (s0 & s1 & H1 & H). apply getState_Done in H1 as [= -> ->].
  apply bind_Done in H as (relay & s1 & H1 & H). apply deref_Done in H1 as [_ Hs].
  simpl in Hs. subst s1.
  apply bind_Done in H as (rb0 & s1 & H1 & H). apply deref_Done in H1 as [_ Hs].
  simpl in Hs. subst s1.
  apply bind_Done in H as (preHeader & s1 & H1 & H). apply deref_Done in H1 as [_ Hs].
  simpl in Hs. subst s1.
  apply bind_Done in H as (latch & s1 & H1 & H). apply theLatch_Done in H1 as [Hl Hs].
  simpl in Hl, Hs. subst s1.
  apply bind_Done in H as ([] & s1 & H1 & H). apply assert_Done in H1 as [_ [= ->]].
  apply bind_Done in H as ([] & s1 & H1 & H). apply assert_Done in H1 as [_ [= ->]].
  apply bind_Done in H as ([loopExitRelay phis] & s1 & H1 & H).
  assert (W1 : wfState s1).
  { eapply (keeps_foldM (Rel := wfKept)); [|exact H1|split; assumption].
    intros acc x. apply keeps_wf_collectExit. }
  apply bind_Done in H as ([] & s2 & H2 & H).
  assert (W2 : wfState s2) by (eapply keeps_wf_moveLCSSANodes; [exact H2|exact W1]).
  apply bind_Done in H as ([] & s3 & H3 & H).
  destruct W2 as [W2 W2'].
  destruct (dropExitingBlocks_Done L s2 s3 W2 W2' H3) as (W3 & W3' & _ & _ & Hclosed).
  destruct (createLatchExit_successors L latch loopExitRelay s3 s' r W3 W3' H)
    as (relayBlock & branch & _ & Hrb & Ht & Hsucc & Hsh & Hdiv & Hoth).
  assert (Hin : forall b x, b ∈ loopBlocks L -> b <> latch ->
            x ∈ successors (func s') b -> contains L x = true).
  { intros b x Hb Hne Hx. rewrite (Hoth b Hne) in Hx. exact (Hclosed b x Hb Hx). }
  exists latch, relayBlock, branch. split_and!; auto.
  - intros b Hb. unfold getExitingBlocks in Hb. apply list_elem_of_filter in Hb as [He Hb].
    destruct (decide (b = latch)) as [->|Hne]; [reflexivity|].
    apply existsb_exists in He as (x & Hx & Hn). apply list_elem_of_In in Hx.
    rewrite (Hin b x Hb Hne Hx) in Hn. discriminate.
  - intros x Hx. unfold getExitBlocks in Hx.
    apply list_elem_of_In, in_flat_map in Hx as (b & Hb & Hx).
    apply list_elem_of_In in Hb, Hx. apply list_elem_of_filter in Hx as [Hn Hx].
    destruct (decide (b = latch)) as [->|Hne].
    + rewrite Hsucc in Hx. apply elem_of_cons in Hx as [->|Hx]; [congruence|].
      apply list_elem_of_singleton in Hx. exact Hx.
    + rewrite (Hin b x Hb Hne Hx) in Hn. discriminate.
Qed.

End WfFunctions.

Section SingleExitExample.
Import Shape IR Lin Linearizer.

(** The while loop, converted when the linearizer reaches its header. *)
Definition loopConverted : State :=
  match convertToSingleExitLoop [whileLoopL] whileLoopL None loopEntryState with
  | Done (_, s) => s
  | Crash _ => loopEntryState
  end.

Example convertToSingleExitLoop_whileLoop :
  successors (func loopEntryState) 1 = [2; 3]%nat
  /\ successors (func loopConverted) 1 = [2]%nat
  /\ successors (func loopConverted) 2 = [1; 51]%nat
  /\ getExitBlocks (func loopConverted) whileLoopL = [51]%nat.
Proof. split_and!; vm_compute; reflexivity. Qed.

Lemma X17_convertToSingleExitLoop_single_exit_witness :
  exists latch relayBlock branch,
    getLoopLatch (func loopEntryState) whileLoopL = Some latch
    /\ rblock (mkRelay 3 3 (Some 51%nat) None) = Some relayBlock
    /\ getTerminator (func loopConverted) latch = Some branch
    /\ successors (func loopConverted) latch = [getHeader whileLoopL; relayBlock]
    /\ getVectorShape loopConverted branch = Uniform 1
    /\ isDivergentLoop loopConverted whileLoopL = false
    /\ (forall b x, b ∈ loopBlocks whileLoopL -> b <> latch ->
          x ∈ successors (func loopConverted) b -> contains whileLoopL x = true)
    /\ (forall b, b ∈ getExitingBlocks (func loopConverted) whileLoopL -> b = latch)
    /\ (forall x, x ∈ getExitBlocks (func loopConverted) whileLoopL -> x = relayBlock).
Proof.
  apply (X17_convertToSingleExitLoop_single_exit [whileLoopL] whileLoopL None
           loopEntryState loopConverted (mkRelay 3 3 (Some 51%nat) None)).
  - apply wfFresh_decide. vm_compute. reflexivity.
  - apply wfParents_decide. vm_compute. reflexivity.
  - vm_compute. reflexivity.
  - vm_compute. reflexivity.
Defined.

End SingleExitExample.

(** ** Reading a tracker after an update *)

Section TrackerExtras.
Import Shape IR Lin Linearizer.

Lemma getBasicBlockIndex_blocks (inc inc' : list (Value * BlockRef)) (b : BlockRef) :
  inc.*2 = inc'.*2 -> getBasicBlockIndex inc b = getBasicBlockIndex inc' b.
Proof.
  unfold getBasicBlockIndex.
  assert (H : forall l l' : list (Value * BlockRef), l.*2 = l'.*2 ->
            fst <$> list_find (fun p => p.2 = b) l = fst <$> list_find (fun p => p.2 = b) l').
  { induction l as [|p l IH]; intros [|p' l'] E; try discriminate; [reflexivity|].
    simpl in E. injection E as E1 E2. simpl. rewrite E1.
    destruct (decide (p'.2 = b)); [reflexivity|].
    specialize (IH l' E2).
    destruct (list_find _ l) as [[k q]|], (list_find _ l') as [[k' q']|];
      simpl in *; congruence. }
  intros E. specialize (H inc inc' E).
  destruct (list_find _ inc) as [[k q]|], (list_find _ inc') as [[k' q']|];
    simpl in *; congruence.
Qed.

Lemma getLastTrackerState_eval (L : Loop) (tracker : InstRef) (s : State)
    (latch : BlockRef) (inc : list (Value * BlockRef)) (k : nat) (v : Value) (b : BlockRef) :
  getLoopLatch (func s) L = Some latch ->
  opcodeOf (func s) tracker = Some (PHINode inc) ->
  getBasicBlockIndex inc latch = Z.of_nat k ->
  inc !! k = Some (v, b) ->
  getLastTrackerState L tracker s = Done (v, s).
Proof.
  intros Hl Ho Hk Hv. unfold getLastTrackerState.
  rewrite (bind_Done_l _ _ s s latch).
  2:{ unfold theLatch. rewrite (bind_Done_l _ _ s s (func s)) by reflexivity.
      rewrite Hl. reflexivity. }
  rewrite (bind_Done_l _ _ s s inc).
  2:{ unfold getIncoming, getOpcode.
      rewrite (bind_Done_l _ _ s s (PHINode inc)); [reflexivity|].
      rewrite (bind_Done_l _ _ s s s) by reflexivity. rewrite Ho. reflexivity. }
  rewrite Hk. rewrite (bind_Done_l _ _ s s (v, b)); [reflexivity|].
  unfold at_. pose proof (lookup_lt_Some _ _ _ Hv) as Hlt.
  replace ((0 <=? Z.of_nat k) && (Z.of_nat k <? Z.of_nat (length inc))) with true
    by (symmetry; apply andb_true_iff; split; [apply Z.leb_le|apply Z.ltb_lt]; lia).
  rewrite Nat2Z.id, Hv. reflexivity.
Qed.

(** X18. Update, then read: when [addTrackerUpdate] completes for a
    tracker and an instruction [v], the tracker had a last state [last]
    before, and afterwards [getLastTrackerState] returns the new
    instruction [select(combined loop exit mask, v, last)]; so does
    [getTrackerStateForLiveOut] for every live-out value that is mapped to
    this tracker. *)
Theorem X18_tracker_update_then_read (L : Loop) (tracker : InstRef)
    (exiting exit : BlockRef) (v : InstRef) (s s' : State) :
  wfFresh (func s) ->
  addTrackerUpdate L tracker exiting exit (InstValue v) s = Done ((), s') ->
  exists last mask upd,
    getLastTrackerState L tracker s = Done (last, s)
    /\ getCombinedLoopExitMask s L = Some mask
    /\ opcodeOf (func s') upd = Some (SelectInst mask (InstValue v) last)
    /\ getLastTrackerState L tracker s' = Done (InstValue upd, s')
    /\ forall (liveOutPhis : gmap InstRef InstRef) (liveOut : InstRef),
         liveOutPhis !! liveOut = Some tracker ->
         getTrackerStateForLiveOut L liveOutPhis liveOut s' = Done (InstValue upd, s').
Proof.
  intros Hwf H.
  destruct (addTrackerUpdate_Done _ _ _ _ _ _ _ Hwf H)
    as (latch & mask & inc & k & last & l0 & t & Hl & Hm & Hinc & Hk & Hlk & _ & _
        & Hu & _ & _ & Hphi & Hcfg & _).
  assert (Hread : getLastTrackerState L tracker s' = Done (InstValue (fresh (func s)), s')).
  { apply (getLastTrackerState_eval L tracker s' latch
             (<[k := (InstValue (fresh (func s)), latch)]> inc) k _ latch).
    - rewrite (sameCFG_getLoopLatch _ _ _ Hcfg). exact Hl.
    - exact Hphi.
    - rewrite <- Hk. apply getBasicBlockIndex_blocks.
      rewrite list_fmap_insert. simpl. apply list_insert_id.
      rewrite list_lookup_fmap, Hlk. reflexivity.
    - apply list_lookup_insert_eq. eapply lookup_lt_Some, Hlk. }
  exists last, mask, (fresh (func s)). split_and!.
  - exact (getLastTrackerState_eval L tracker s latch inc k last latch Hl Hinc Hk Hlk).
  - exact Hm.
  - unfold opcodeOf. rewrite Hu. reflexivity.
  - exact Hread.
  - intros lo w Hw. unfold getTrackerStateForLiveOut. rewrite Hw. exact Hread.
Qed.

Lemma X18_tracker_update_then_read_witness :
  exists last mask upd,
    getLastTrackerState whileLoopL 50 trackedOnce = Done (last, trackedOnce)
    /\ getCombinedLoopExitMask trackedOnce whileLoopL = Some mask
    /\ opcodeOf (func trackedAndUpdated) upd = Some (SelectInst mask (InstValue 20) last)
    /\ getLastTrackerState whileLoopL 50 trackedAndUpdated
       = Done (InstValue upd, trackedAndUpdated)
    /\ forall (liveOutPhis : gmap InstRef InstRef) (liveOut : InstRef),
         liveOutPhis !! liveOut = Some 50%nat ->
         getTrackerStateForLiveOut whileLoopL liveOutPhis liveOut trackedAndUpdated
         = Done (InstValue upd, trackedAndUpdated).
Proof.
  apply (X18_tracker_update_then_read whileLoopL 50 1 3 20 trackedOnce trackedAndUpdated).
  - apply wfFresh_decide. vm_compute. reflexivity.
  - vm_compute. reflexivity.
Defined.

End TrackerExtras.

(** ** The index that [buildBlockIndex] makes passes [verifyBlockIndex] *)

Section VerifyPasses.
Import Shape IR Lin Linearizer.

Lemma forM_pass {A : Type} (body : A -> Lin unit) (l : list A) (s : State) :
  (forall x, x ∈ l -> body x s = Done ((), s)) -> forM l body s = Done ((), s).
Proof.
  induction l as [|x l IH]; intros H; simpl; [reflexivity|].
  rewrite (bind_Done_l _ _ s s ()) by (apply H; left).
  apply IH. intros y Hy. apply H. right. exact Hy.
Qed.

Lemma range_elem (lo hi i : Z) : i ∈ range lo hi -> lo <= i < hi.
Proof.
  unfold range. intros H. apply list_elem_of_In, in_map_iff in H as (k & <- & Hk).
  apply in_seq in Hk. lia.
Qed.

Lemma foldl_min_elem (g : BlockRef -> Z) (l : list BlockRef) (init : Z) :
  foldl (fun a b => Z.min (g b) a) init l = init
  \/ exists x, x ∈ l /\ foldl (fun a b => Z.min (g b) a) init l = g x.
Proof.
  revert init. induction l as [|y l IH]; intros init; simpl; [auto|].
  destruct (IH (Z.min (g y) init)) as [E|(x & Hx & E)].
  - rewrite E. destruct (Z.min_spec (g y) init) as [[_ ->]|[_ ->]].
    + right. exists y. split; [left|reflexivity].
    + auto.
  - right. exists x. split; [right; exact Hx|exact E].
Qed.

Lemma foldl_max_elem (g : BlockRef -> Z) (l : list BlockRef) (init : Z) :
  foldl (fun a b => Z.max (g b) a) init l = init
  \/ exists x, x ∈ l /\ foldl (fun a b => Z.max (g b) a) init l = g x.
Proof.
  revert init. induction l as [|y l IH]; intros init; simpl; [auto|].
  destruct (IH (Z.max (g y) init)) as [E|(x & Hx & E)].
  - rewrite E. destruct (Z.max_spec (g y) init) as [[_ ->]|[_ ->]].
    + auto.
    + right. exists y. split; [left|reflexivity].
  - right. exists x. split; [right; exact Hx|exact E].
Qed.

Lemma verifyChildren_pass (subs : list Loop) (s : State) :
  Forall (fun L => verifyLoopIndex L s = Done ((), s)) subs ->
  (fix children (ls : list Loop) : Lin unit :=
     match ls with
     | [] => mret ()
     | childLoop :: r => _ ← verifyLoopIndex childLoop; children r
     end) subs s = Done ((), s).
Proof.
  induction subs as [|c rest IH]; intros H; [reflexivity|].
  inversion H as [|? ? Hc Hr]; subst.
  rewrite (bind_Done_l _ _ s s ()) by exact Hc. apply IH, Hr.
Qed.

Lemma verifyLoopIndex_pass (L : Loop) (s : State) :
  (forall M, M ∈ loopsOf L -> getHeader M ∈ loopBlocks M /\ loopVerified s M) ->
  verifyLoopIndex L s = Done ((), s).
Proof.
  induction L as [h bs subs IH] using Loop_nested_ind. intros H.
  cbn [verifyLoopIndex].
  rewrite (bind_Done_l _ _ s s ()).
  2:{ apply verifyChildren_pass. rewrite Forall_forall in IH |- *.
      intros c Hc. apply (IH c Hc). intros M HM. apply H. cbn [loopsOf]. right.
      apply list_elem_of_In, in_flat_map. exists c.
      split; apply list_elem_of_In; assumption. }
  rewrite (bind_Done_l _ _ s s s) by reflexivity.
  destruct (H (MkLoop h bs subs)) as [Hh (latch & Hl & Hb & Hr)]; [cbn [loopsOf]; left|].
  cbn [getHeader loopBlocks] in Hh, Hb, Hr.
  assert (Hlatch : latch ∈ bs).
  { unfold getLoopLatch in Hl.
    destruct (filter _ _) as [|l0 [|? ?]] eqn:Ef; try discriminate. injection Hl as ->.
    assert (Hin : latch ∈ filter (fun p => contains (MkLoop h bs subs) p = true)
                          (predecessors (func s) (getHeader (MkLoop h bs subs))))
      by (rewrite Ef; left).
    apply list_elem_of_filter in Hin as [Hc _]. apply bool_decide_eq_true_1 in Hc. exact Hc. }
  set (startId := foldl (fun a b => Z.min (getIndex s b) a) (getNumBlocks s) bs).
  set (endId := foldl (fun a b => Z.max (getIndex s b) a) 0 bs).
  destruct (Hb h Hh) as [[H0 _] Hhl].
  destruct (Hr (getIndex s h) (conj (Z.le_refl _) Hhl)) as (b0 & Hb0 & _).
  apply getBlock_Done in Hb0 as (_ & Hlt & _).
  apply lookup_lt_Some in Hlt. rewrite length_fmap in Hlt.
  assert (Hstart : startId = getIndex s h).
  { destruct (foldl_min_le (getIndex s) bs (getNumBlocks s)) as [_ Hmin].
    pose proof (Hmin h Hh) as Hle. fold startId in Hle.
    destruct (foldl_min_elem (getIndex s) bs (getNumBlocks s)) as [E|(x & Hx & E)];
      fold startId in E.
    - unfold getNumBlocks in *. lia.
    - destruct (Hb x Hx) as [[_ Hx1] _]. lia. }
  assert (Hend : endId = getIndex s latch).
  { destruct (foldl_max_ge (getIndex s) bs 0) as [_ Hmax].
    pose proof (Hmax latch Hlatch) as Hle. fold endId in Hle.
    destruct (foldl_max_elem (getIndex s) bs 0) as [E|(x & Hx & E)]; fold endId in E.
    - lia.
    - destruct (Hb x Hx) as [_ Hx1]. lia. }
  rewrite (bind_Done_l _ _ s s ()).
  2:{ apply forM_pass. intros i Hi. apply range_elem in Hi.
      destruct (Hr i) as (b & Hgb & Hc); [lia|].
      rewrite (bind_Done_l _ _ s s b) by exact Hgb.
      cbn [getHeader loopBlocks] in Hc. unfold assert. rewrite Hc. reflexivity. }
  rewrite (bind_Done_l _ _ s s ()).
  2:{ unfold assert. rewrite (proj2 (Z.eqb_eq _ _) Hstart). reflexivity. }
  rewrite (bind_Done_l _ _ s s latch).
  2:{ unfold theLatch. rewrite (bind_Done_l _ _ s s (func s)) by reflexivity.
      rewrite Hl. reflexivity. }
  unfold assert. rewrite (proj2 (Z.eqb_eq _ _) Hend). reflexivity.
Qed.

Lemma verifyBlockIndex_pass (li : LoopInfo) (s : State) :
  (forall L, L ∈ allLoops li -> getHeader L ∈ loopBlocks L /\ loopVerified s L) ->
  verifyBlockIndex li s = Done ((), s).
Proof.
  intros H. unfold verifyBlockIndex. apply forM_pass. intros T HT.
  apply verifyLoopIndex_pass. intros M HM. apply H. unfold allLoops.
  apply list_elem_of_In, in_flat_map. exists T. split; apply list_elem_of_In; assumption.
Qed.

(** X19. [verifyBlockIndex] raises no false alarm: when every loop of the
    loop tree contains its header, has a latch, has all its blocks indexed
    between the header's and the latch's index, and every index in that
    interval belongs to a block of the loop, then every assertion holds and
    the state is left as it is. *)
Theorem X19_verifyBlockIndex_passes (li : LoopInfo) (s : State) :
  (forall L, L ∈ allLoops li -> getHeader L ∈ loopBlocks L /\ loopVerified s L) ->
  verifyBlockIndex li s = Done ((), s).
Proof. apply verifyBlockIndex_pass. Qed.

Lemma indexOK_loopVerified (li : LoopInfo) (region : gset nat) (s0 s : State)
    (rank : BlockRef -> nat) (L : Loop) :
  wfRegion li region s0 rank -> indexOK li region s0 s -> indexConsistent s ->
  L ∈ allLoops li -> loopVerified s L.
Proof.
  intros W (Hnodes & Hrange & _ & Hsurj & Hloops) [Hc _] HL.
  destruct (Hloops L HL) as (l & Hl & Hseg). exists l. split; [exact Hl|].
  assert (Hidx : forall b, b ∈ nodes region s0 ->
            exists i, blockIndex s !! b = Some i /\ getIndex s b = i
              /\ 0 <= i < getNumBlocks s).
  { intros b Hb. apply Hnodes in Hb as [i Hi]. exists i. split; [exact Hi|].
    split; [unfold getIndex; rewrite Hi; reflexivity|apply (Hrange b i Hi)]. }
  assert (Hh : getHeader L ∈ nodes region s0).
  { eapply wf_blocks; [exact W|exact HL|]. eapply wf_hdr_in; eauto. }
  assert (Hlin : l ∈ loopBlocks L).
  { unfold getLoopLatch in Hl.
    destruct (filter _ _) as [|l0 [|? ?]] eqn:Ef; try discriminate. injection Hl as ->.
    assert (Hin : l ∈ filter (fun p => contains L p = true)
                        (predecessors (func s) (getHeader L))) by (rewrite Ef; left).
    apply list_elem_of_filter in Hin as [Hcl _]. apply bool_decide_eq_true_1 in Hcl.
    exact Hcl. }
  assert (Hln : l ∈ nodes region s0) by (eapply wf_blocks; eauto).
  destruct (Hidx _ Hh) as (ih & _ & Eh & Hih).
  destruct (Hidx _ Hln) as (il & _ & El & Hil).
  split.
  - intros b Hb. assert (Hbn : b ∈ nodes region s0) by (eapply wf_blocks; eauto).
    apply (Hseg b Hbn) in Hb. lia.
  - intros i Hi. destruct (Hsurj i) as [b Hb]; [lia|].
    assert (Hbn : b ∈ nodes region s0) by (apply Hnodes; eauto).
    exists b. split.
    + destruct (Hc b i Hb) as [H0 Hlk]. apply getBlock_lookup; assumption.
    + apply bool_decide_eq_true_2. apply (Hseg b Hbn).
      replace (getIndex s b) with i by (unfold getIndex; rewrite Hb; reflexivity).
      exact Hi.
Qed.

(** X20. On a well-formed region (natural loops in canonical form, properly
    nested, the graph without back edges acyclic) that has no index yet,
    the first two steps of [run] never fail: with enough fuel
    [buildBlockIndex] completes, and the index it has made passes every
    assertion of [verifyBlockIndex]. *)
Theorem X20_buildBlockIndex_passes_verification (li : LoopInfo) (region : gset nat)
    (s0 : State) (rank : BlockRef -> nat) :
  relays s0 = [] -> blockIndex s0 = ∅ ->
  wfRegion li region s0 rank ->
  exists N s',
    forall fuel, (N <= fuel)%nat ->
      buildBlockIndex li region fuel s0 = Done ((), s')
      /\ verifyBlockIndex li s' = Done ((), s').
Proof.
  intros Hrel Hidx W.
  destruct (buildBlockIndex_indexOK li region s0 Hrel Hidx rank W)
    as (N & ord & Hrun & Hok).
  exists N, (st s0 ord). intros fuel Hf. split; [apply Hrun, Hf|].
  pose proof (buildBlockIndex_built li region N s0 _ Hrel Hidx (Hrun N (le_n N)))
    as (_ & _ & Hcons & _).
  simpl in Hcons. apply verifyBlockIndex_pass. intros L HL. split.
  - eapply wf_hdr_in; eauto.
  - eapply indexOK_loopVerified; eauto.
Qed.

Lemma X19_verifyBlockIndex_passes_witness :
  verifyBlockIndex [outerL] nestIndexed = Done ((), nestIndexed).
Proof.
  apply (X19_verifyBlockIndex_passes [outerL] nestIndexed).
  assert (E1 : getIndex nestIndexed 1 = 1) by (vm_compute; reflexivity).
  assert (E2 : getIndex nestIndexed 2 = 2) by (vm_compute; reflexivity).
  assert (E3 : getIndex nestIndexed 3 = 3) by (vm_compute; reflexivity).
  assert (E4 : getIndex nestIndexed 4 = 4) by (vm_compute; reflexivity).
  intros L HL. cbn in HL.
  apply elem_of_cons in HL as [->|HL]; [|apply elem_of_cons in HL as [->|HL]; [|inversion HL]].
  - split; [cbn; left|]. exists 4%nat. split; [vm_compute; reflexivity|].
    cbn [getHeader loopBlocks outerL]. rewrite E1, E4. split.
    + intros b Hb. repeat (apply elem_of_cons in Hb as [->|Hb]; [lia|]). inversion Hb.
    + intros i Hi.
      assert (Hc : i = 1 \/ i = 2 \/ i = 3 \/ i = 4) by lia. clear Hi.
      destruct Hc as [Hc|[Hc|[Hc|Hc]]]; rewrite Hc;
        [exists 1%nat|exists 2%nat|exists 3%nat|exists 4%nat];
        (split; vm_compute; reflexivity).
  - split; [cbn; left|]. exists 3%nat. split; [vm_compute; reflexivity|].
    cbn [getHeader loopBlocks innerL]. rewrite E2, E3. split.
    + intros b Hb. repeat (apply elem_of_cons in Hb as [->|Hb]; [lia|]). inversion Hb.
    + intros i Hi.
      assert (Hc : i = 2 \/ i = 3) by lia. clear Hi.
      destruct Hc as [Hc|Hc]; rewrite Hc; [exists 2%nat|exists 3%nat];
        (split; vm_compute; reflexivity).
Defined.

Lemma X20_buildBlockIndex_passes_verification_witness :
  exists N s',
    forall fuel, (N <= fuel)%nat ->
      buildBlockIndex [outerL] nestRegion fuel nestState = Done ((), s')
      /\ verifyBlockIndex [outerL] s' = Done ((), s').
Proof.
  apply (X20_buildBlockIndex_passes_verification [outerL] nestRegion nestState
           (fun b => b) eq_refl eq_refl).
  apply wfRegion_decide. vm_compute. reflexivity.
Defined.

End VerifyPasses.

(** ** The block index during the run *)

Section IndexKept.
Import Shape IR Lin Linearizer.

(** X21. [run] never renumbers a block. When it completes, the index in
    force is the one [buildBlockIndex] made at the start and
    [verifyBlockIndex] accepted: the same blocks have the same indices, the
    block of every index is the same, and [getBlock] and [getIndex] are
    still inverse to each other. On a region of at most one block [run]
    stops there and leaves the function and the vectorization info as they
    were. *)
Theorem X21_run_keeps_block_index (li : LoopInfo) (region : gset nat) (fuel : nat)
    (s s' : State) :
  relays s = [] -> blockIndex s = ∅ ->
  listedFresh (func s) -> oneTerminator (func s) ->
  noRelayTarget (fresh (func s)) s -> uniformBackEdges li s ->
  run li region fuel s = Done ((), s') ->
  exists s1,
    buildBlockIndex li region fuel s = Done ((), s1)
    /\ verifyBlockIndex li s1 = Done ((), s1)
    /\ blockIndex s' = blockIndex s1
    /\ rhead <$> relays s' = rhead <$> relays s1
    /\ (forall b, indexed s' b = true -> getBlock (getIndex s' b) s' = Done (b, s'))
    /\ (getNumBlocks s1 <= 1 -> s' = s1 /\ func s' = func s /\ vecInfo s' = vecInfo s).
Proof.
  intros Hr Hx H1 H2 H3 H4 H. unfold run in H.
  apply bind_Done in H as ([] & s1 & Hb1 & H).
  pose proof (buildBlockIndex_built _ _ _ _ _ Hr Hx Hb1) as Hbuilt. simpl in Hbuilt.
  pose proof (built_InvT li s s1 H1 H2 H3 H4 Hbuilt) as Hi1.
  apply bind_Done in H as ([] & s2 & Hv & H).
  pose proof (verifyBlockIndex_same _ _ _ Hv) as Hs2. simpl in Hs2. subst s2.
  apply bind_Done in H as (s0 & s2 & H0 & H). apply getState_Done in H0 as [= -> ->].
  exists s1. split; [exact Hb1|]. split; [exact Hv|].
  assert (Hround : forall s2, blockIndex s2 = blockIndex s1 ->
            rhead <$> relays s2 = rhead <$> relays s1 ->
            forall b, indexed s2 b = true -> getBlock (getIndex s2 b) s2 = Done (b, s2)).
  { intros s2 E1 E2 b Hb. unfold indexed in Hb. apply bool_decide_eq_true in Hb as [i Hbi].
    unfold getIndex. rewrite Hbi. simpl. rewrite E1 in Hbi.
    destruct (proj1 (i_idx _ _ _ Hi1) _ _ Hbi) as [Hi0 Hlk].
    apply getBlock_lookup; [exact Hi0|]. rewrite E2. exact Hlk. }
  destruct (getNumBlocks s1 <=? 1) eqn:En.
  - apply ret_Done in H as [= <-]. split_and!; auto.
    intros _. destruct Hbuilt as (Hf & Hvi & _). auto.
  - apply bind_Done in H as ([] & s2 & Hl & H).
    unfold linearizeControl in Hl.
    apply bind_Done in Hl as (s0 & s3 & H0 & Hl). apply getState_Done in H0 as [= -> ->].
    apply bind_Done in Hl as (lastId & s3 & Hp & Hl).
    apply bind_Done in Hl as (s0 & s4 & H0 & Hl). apply getState_Done in H0 as [= -> ->].
    apply assert_Done in Hl as [_ [= ->]].
    destruct (proj1 (process_ok li (fresh (func s)) fuel) _ _ _ _ _ _ Hi1 Hp)
      as (Hi2 & Hc2 & _).
    destruct (keeps_cleanup (fresh (func s)) li _ _ _ H Hi2) as [_ Hc3].
    assert (Hc : stepCore s1 s') by (etransitivity; eauto).
    split_and!.
    + apply (sc_index _ _ Hc).
    + apply (sc_heads _ _ Hc).
    + apply Hround; [apply (sc_index _ _ Hc)|apply (sc_heads _ _ Hc)].
    + intros Hle. apply Z.leb_gt in En. lia.
Qed.

Lemma X21_run_keeps_block_index_witness :
  exists s1,
    buildBlockIndex [whileLoopL] whileLoopRegion 50 whileLoopInput = Done ((), s1)
    /\ verifyBlockIndex [whileLoopL] s1 = Done ((), s1)
    /\ blockIndex whileLoopLinearized = blockIndex s1
    /\ rhead <$> relays whileLoopLinearized = rhead <$> relays s1
    /\ (forall b, indexed whileLoopLinearized b = true ->
          getBlock (getIndex whileLoopLinearized b) whileLoopLinearized
          = Done (b, whileLoopLinearized))
    /\ (getNumBlocks s1 <= 1 ->
        whileLoopLinearized = s1 /\ func whileLoopLinearized = func whileLoopInput
        /\ vecInfo whileLoopLinearized = vecInfo whileLoopInput).
Proof.
  destruct (wfInput_spec [whileLoopL] whileLoopInput) as (W1 & W2 & W3 & W4).
  { apply wfInput_decide. vm_compute. reflexivity. }
  apply (X21_run_keeps_block_index [whileLoopL] whileLoopRegion 50 whileLoopInput
           whileLoopLinearized eq_refl eq_refl W1 W2 W3 W4).
  vm_compute. reflexivity.
Defined.

End IndexKept.

(** ** The closed-SSA phi nodes of the old exit blocks, eliminated *)

Section LcssaRepair.
Import Shape IR Lin Linearizer.

Lemma dominatedBySlowTreeWalk_dt (fuel : nat) (s s' : State) (a b : BlockRef) :
  dt s' = dt s ->
  dominatedBySlowTreeWalk fuel s' a b = dominatedBySlowTreeWalk fuel s a b.
Proof.
  intros E. revert b. induction fuel as [|fuel IH]; intros b; simpl; [reflexivity|].
  unfold getIDom. rewrite E. destruct (dt s !! b) as [[d|]|]; [|reflexivity..].
  rewrite IH. reflexivity.
Qed.

Lemma dominates_dt (s s' : State) (a b : BlockRef) :
  dt s' = dt s -> dominates s' a b = dominates s a b.
Proof.
  intros E. unfold dominates. rewrite E.
  rewrite (dominatedBySlowTreeWalk_dt _ _ _ _ _ E). reflexivity.
Qed.

(** An incoming value that needs no promotion over blocks: it is no
    instruction, or it is an instruction of the loop whose block dominates
    the exit block [block] or has the index of the latch. *)
Definition availableAt (L : Loop) (latchIndex : Z) (s : State) (block : BlockRef)
    (v : Value) : bool :=
  match v with
  | InstValue j =>
      match insts (func s) !! j with
      | Some x =>
          contains L (parent x)
          && (dominates s (parent x) block || (getIndex s (parent x) =? latchIndex))
      | None => false
      end
  | _ => true
  end.

(** A phi node [p] listed in the exit block [block]: it lies outside the
    loop and all its incoming values are available. *)
Definition phiAvailable (L : Loop) (latchIndex : Z) (s : State) (block : BlockRef)
    (p : InstRef) : bool :=
  match insts (func s) !! p with
  | Some y =>
      match opcode y with
      | PHINode inc =>
          negb (contains L (parent y))
          && forallb (fun q => availableAt L latchIndex s block q.1) inc
      | _ => true
      end
  | None => true
  end.

(** All phi nodes of the old exit blocks, the kept one apart. *)
Definition lcssaAvailable (L : Loop) (latchIndex : Z) (kept : option BlockRef)
    (exitBlocks : list BlockRef) (s : State) : bool :=
  forallb (fun b => bool_decide (kept = Some b)
                    || forallb (phiAvailable L latchIndex s b) (instsOf (func s) b))
          exitBlocks.

Lemma availableAt_ext L latchIndex s s' block v :
  dt s' = dt s -> blockIndex s' = blockIndex s ->
  (forall j, v = InstValue j ->
     parent <$> insts (func s') !! j = parent <$> insts (func s) !! j) ->
  availableAt L latchIndex s' block v = availableAt L latchIndex s block v.
Proof.
  intros Ed Eb Hp. destruct v as [| | | |j|]; try reflexivity. simpl.
  specialize (Hp j eq_refl).
  destruct (insts (func s') !! j) as [x'|], (insts (func s) !! j) as [x|];
    simpl in Hp; try discriminate; [|reflexivity].
  injection Hp as ->. rewrite (dominates_dt _ _ _ _ Ed). unfold getIndex. rewrite Eb.
  reflexivity.
Qed.

Lemma setOpcode_parent i o f j :
  parent <$> insts (setOpcode i o f) !! j = parent <$> insts f !! j.
Proof.
  rewrite setOpcode_insts. case_decide; [|reflexivity]. subst j.
  destruct (insts f !! i) as [x|]; [destruct x|]; reflexivity.
Qed.

Lemma phiAvailable_spec L latchIndex s block p y inc :
  phiAvailable L latchIndex s block p = true ->
  insts (func s) !! p = Some y -> opcode y = PHINode inc ->
  contains L (parent y) = false
  /\ forall q, q ∈ inc -> availableAt L latchIndex s block q.1 = true.
Proof.
  unfold phiAvailable. intros H Hy Ho. rewrite Hy, Ho in H.
  apply andb_true_iff in H as [H1 H2]. apply negb_true_iff in H1.
  split; [exact H1|]. intros q Hq. rewrite forallb_forall in H2.
  apply H2, list_elem_of_In, Hq.
Qed.

Section Repair.
Context (L : Loop) (latch block : BlockRef) (latchIndex : Z) (lcPhi : InstRef).

(** The repair of an available incoming value only touches the incoming
    blocks of the phi node: a definition in the latch is promoted from the
    latch to the latch, which yields the definition itself. *)
Lemma repairIncoming_available (i : nat) (s s' : State) (inc : list (Value * BlockRef)) :
  opcodeOf (func s) lcPhi = Some (PHINode inc) ->
  (forall q, q ∈ inc -> availableAt L latchIndex s block q.1 = true) ->
  repairIncoming L latch block latchIndex lcPhi i s = Done ((), s') ->
  exists inc', inc'.*1 = inc.*1
    /\ s' = withFunc (setOpcode lcPhi (PHINode inc')) s.
Proof.
  intros Hop Hav H. unfold repairIncoming in H.
  apply bind_Done in H as (inc0 & s0 & H0 & H). apply getIncoming_Done in H0 as [Hinc Hs].
  simpl in Hinc, Hs. subst s0. rewrite Hop in Hinc. injection Hinc as <-.
  apply bind_Done in H as ([v inBlock] & s0 & H0 & H). apply at_Done in H0 as (_ & Hv & Hs).
  simpl in Hv, Hs. subst s0. rewrite Nat2Z.id in Hv.
  apply bind_Done in H as (u & s0 & H0 & H). apply assert_Done in H0 as [_ [= -> ->]].
  assert (Hid : s = withFunc (setOpcode lcPhi (PHINode inc)) s).
  { symmetry. apply withFunc_same, setOpcode_same, Hop. }
  pose proof (Hav _ (list_elem_of_lookup_2 _ _ _ Hv)) as Hq. simpl in Hq.
  destruct v as [ty|ty c|g|ty n|inst|c a b];
    try (apply ret_Done in H; injection H as <-; exists inc; split; [reflexivity|exact Hid]).
  apply bind_Done in H as (f & s0 & H0 & H). apply gets_Done in H0 as [= -> ->].
  apply bind_Done in H as (x & s0 & H0 & H). apply deref_Done in H0 as [Hx Hs].
  simpl in Hx, Hs. subst s0.
  unfold availableAt in Hq. rewrite Hx in Hq.
  apply andb_true_iff in Hq as [_ Hq].
  apply bind_Done in H as (u' & s1 & H0 & H).
  apply setIncomingBlock_Done in H0 as (inc0 & v & old & Hop0 & _ & Hv0 & Hr).
  injection Hr as Hr; subst s1. clear Hr. rewrite Nat2Z.id in H.
  rewrite Hop in Hop0. injection Hop0 as <-. rewrite Nat2Z.id in Hv0.
  rewrite Hv in Hv0. injection Hv0 as <- <-.
  set (inc1 := <[i := (InstValue inst, latch)]> inc) in *.
  assert (Hinc1 : inc1.*1 = inc.*1) by (eapply insert_same_value; exact Hv).
  apply bind_Done in H as (s2 & s0 & H0 & H). apply getState_Done in H0 as [= -> ->].
  rewrite (dominates_dt s) in H by reflexivity.
  destruct (dominates s (parent x) block) eqn:Edom.
  - apply ret_Done in H. injection H as ->. exists inc1. split; [exact Hinc1|reflexivity].
  - simpl in Hq. apply Z.eqb_eq in Hq.
    apply bind_Done in H as (u2 & s0 & H0 & H). apply assert_Done in H0 as [_ [= -> ->]].
    apply bind_Done in H as (dd & s0 & H0 & H).
    change (getIndex (withFunc (setOpcode lcPhi (PHINode inc1)) s) (parent x))
      with (getIndex s (parent x)) in H0.
    rewrite Hq, promoteDefinition_same in H0. injection H0 as <- <-.
    apply setIncomingValue_Done in H as (inc2 & old & b & Hop2 & _ & Hv2 & Hr).
    injection Hr as Hr; subst s'.
    simpl_state. rewrite setOpcode_opcodeOf in Hop2.
    case_decide; [|congruence].
    unfold opcodeOf in Hop. destruct (insts (func s) !! lcPhi) as [y|]; [|discriminate].
    simpl in Hop2. injection Hop2 as <-. rewrite Nat2Z.id in Hv2.
    exists (<[i := (InstValue inst, b)]> inc1). split.
    + rewrite <- Hinc1.
      assert (Hl : inc1 !! i = Some (InstValue inst, latch)).
      { unfold inc1. apply list_lookup_insert_eq. eapply lookup_lt_Some, Hv. }
      eapply insert_same_value, Hl.
    + unfold withFunc. simpl. rewrite setOpcode_twice, Nat2Z.id. reflexivity.
Qed.

Lemma repairLoop_available (l : list nat) :
  forall (s s' : State) (inc : list (Value * BlockRef)),
  opcodeOf (func s) lcPhi = Some (PHINode inc) ->
  (forall q, q ∈ inc -> availableAt L latchIndex s block q.1 = true) ->
  forM l (repairIncoming L latch block latchIndex lcPhi) s = Done ((), s') ->
  exists inc', inc'.*1 = inc.*1
    /\ s' = withFunc (setOpcode lcPhi (PHINode inc')) s.
Proof.
  induction l as [|i l IH]; intros s s' inc Hop Hav H.
  - simpl in H. apply ret_Done in H. injection H as <-. exists inc. split; [reflexivity|].
    symmetry. apply withFunc_same, setOpcode_same, Hop.
  - simpl in H. apply bind_Done in H as ([] & s1 & H1 & H).
    destruct (repairIncoming_available _ _ _ _ Hop Hav H1) as (inc1 & Hv1 & ->).
    assert (Hop1 : opcodeOf (func (withFunc (setOpcode lcPhi (PHINode inc1)) s)) lcPhi
                   = Some (PHINode inc1)).
    { simpl_state. rewrite setOpcode_opcodeOf. case_decide; [|congruence].
      unfold opcodeOf in Hop. destruct (insts (func s) !! lcPhi); [reflexivity|discriminate]. }
    assert (Hav1 : forall q, q ∈ inc1 ->
              availableAt L latchIndex (withFunc (setOpcode lcPhi (PHINode inc1)) s) block q.1
              = true).
    { intros q Hq.
      assert (Hq1 : q.1 ∈ inc.*1).
      { rewrite <- Hv1. apply list_elem_of_fmap. exists q. auto. }
      apply list_elem_of_fmap in Hq1 as (q0 & E0 & Hq0).
      rewrite availableAt_ext with (s := s); [rewrite E0; apply Hav, Hq0|reflexivity..|].
      intros j _. simpl_state. apply setOpcode_parent. }
    destruct (IH _ _ _ Hop1 Hav1 H) as (inc2 & Hv2 & ->).
    exists inc2. split; [congruence|].
    unfold withFunc. simpl. rewrite setOpcode_twice. reflexivity.
Qed.

(** A closed-SSA phi node of an old exit block whose incoming values are
    available is eliminated. *)
Lemma eliminateLCSSAPhi_available (s s' : State) :
  (forall inc, opcodeOf (func s) lcPhi = Some (PHINode inc) ->
     forall q, q ∈ inc -> availableAt L latchIndex s block q.1 = true) ->
  eliminateLCSSAPhi L latch block latchIndex lcPhi s = Done ((), s') ->
  eliminated lcPhi s s'.
Proof.
  intros Hav H. unfold eliminateLCSSAPhi in H.
  apply bind_Done in H as (inc & s0 & H0 & H). apply getIncoming_Done in H0 as [Hop Hs].
  simpl in Hop, Hs. subst s0.
  apply bind_Done in H as ([] & s1 & H0 & H).
  destruct (repairLoop_available _ _ _ _ Hop (Hav _ Hop) H0) as (inc1 & Hv1 & ->).
  apply bind_Done in H as (inc2 & s0 & H1 & H). apply getIncoming_Done in H1 as [Hop2 Hs].
  simpl in Hop2, Hs. subst s0. simpl_state. rewrite setOpcode_opcodeOf in Hop2.
  case_decide as Hdd; [clear Hdd|congruence].
  pose proof Hop as Hop'. unfold opcodeOf in Hop'.
  destruct (insts (func s) !! lcPhi) as [y|]; [|discriminate].
  simpl in Hop2. injection Hop2 as <-.
  apply bind_Done in H as ([v0 b0] & s0 & H1 & H). apply at_Done in H1 as (_ & Hv & Hs).
  simpl in Hv, Hs. subst s0.
  apply bind_Done in H as (u & s0 & H2 & H). apply assert_Done in H2 as [Hne [= -> ->]].
  apply negb_true_iff, bool_decide_eq_false in Hne.
  apply bind_Done in H as (u' & s0 & H3 & H). apply modify_Done in H3 as [= -> ->].
  apply modify_Done in H as [= ->].
  destruct inc1 as [|[v0' b0'] rest1]; [discriminate|]. injection Hv as -> ->.
  destruct inc as [|[v0' b0'] rest]; [discriminate|]. injection Hv1 as -> Hrest.
  exists v0', b0', rest. split; [exact Hop|]. split; [exact Hne|].
  unfold withFunc. simpl. f_equal. apply eliminatePhi_setOpcode.
Qed.

End Repair.

(** What [lcssaAvailable] says, and that an elimination keeps it. *)
Definition allAvailable (L : Loop) (latchIndex : Z) (kept : option BlockRef)
    (exitBlocks : list BlockRef) (s : State) : Prop :=
  forall b p, b ∈ exitBlocks -> kept <> Some b -> p ∈ instsOf (func s) b ->
    phiAvailable L latchIndex s b p = true.

Lemma lcssaAvailable_all L latchIndex kept exitBlocks s :
  lcssaAvailable L latchIndex kept exitBlocks s = true ->
  allAvailable L latchIndex kept exitBlocks s.
Proof.
  unfold lcssaAvailable. rewrite forallb_forall. intros H b p Hb Hk Hp.
  apply list_elem_of_In in Hb. apply H in Hb. apply orb_true_iff in Hb as [Hb|Hb].
  - apply bool_decide_eq_true_1 in Hb. contradiction.
  - rewrite forallb_forall in Hb. apply Hb, list_elem_of_In, Hp.
Qed.

Lemma eliminated_available L latchIndex kept exitBlocks phi b0 s s' :
  b0 ∈ exitBlocks -> kept <> Some b0 -> phi ∈ instsOf (func s) b0 ->
  eliminated phi s s' ->
  allAvailable L latchIndex kept exitBlocks s ->
  allAvailable L latchIndex kept exitBlocks s'.
Proof.
  intros Hb0 Hk0 Hphi He Hall b p Hb Hk Hp.
  pose proof (eliminated_instsOf _ _ _ _ _ He Hp) as Hp0.
  destruct He as (v0 & c0 & rest & Hop & Hne & ->). simpl_state.
  (* the phi node that goes lies outside the loop *)
  assert (Hout : forall x, insts (func s) !! phi = Some x -> contains L (parent x) = false).
  { intros x Hx. unfold opcodeOf in Hop. rewrite Hx in Hop. simpl in Hop.
    injection Hop as Hop.
    apply (phiAvailable_spec _ _ _ _ _ _ _ (Hall b0 phi Hb0 Hk0 Hphi) Hx Hop). }
  pose proof (Hall b p Hb Hk Hp0) as Hav.
  unfold phiAvailable. simpl_state. rewrite eliminatePhi_insts.
  case_decide as Hd; [reflexivity|].
  destruct (insts (func s) !! p) as [y|] eqn:Ey; [|reflexivity]. simpl.
  destruct (opcode y) as [inc| | | | | | | |] eqn:Eo; simpl; try reflexivity.
  destruct (phiAvailable_spec _ _ _ _ _ _ _ Hav Ey Eo) as [Hc Hq].
  rewrite Hc. simpl. apply forallb_forall. intros q' Hq'.
  apply in_map_iff in Hq' as (q & <- & Hin). apply list_elem_of_In in Hin. simpl.
  specialize (Hq q Hin).
  assert (Hn : q.1 <> InstValue phi).
  { intros E. rewrite E in Hq. simpl in Hq.
    destruct (insts (func s) !! phi) as [x|] eqn:Ex; [|discriminate].
    rewrite (Hout x eq_refl) in Hq. discriminate. }
  unfold substValue. rewrite decide_False by exact Hn.
  rewrite availableAt_ext with (s := s); [exact Hq|reflexivity..|].
  intros j Ej. simpl_state. rewrite eliminatePhi_insts.
  rewrite decide_False by congruence.
  destruct (insts (func s) !! j) as [x|]; [destruct x|]; reflexivity.
Qed.

Lemma eliminateLCSSAPhis_available L latch block latchIndex kept exitBlocks (fuel : nat) :
  block ∈ exitBlocks -> kept <> Some block ->
  forall s s',
  allAvailable L latchIndex kept exitBlocks s ->
  eliminateLCSSAPhis fuel L latch block latchIndex s = Done ((), s') ->
  eliminatedAll block s s' /\ allAvailable L latchIndex kept exitBlocks s'.
Proof.
  intros Hb Hk.
  assert (Hstep : forall s s1 i l, allAvailable L latchIndex kept exitBlocks s ->
            instsOf (func s) block = i :: l ->
            eliminateLCSSAPhi L latch block latchIndex i s = Done ((), s1) ->
            eliminated i s s1 /\ allAvailable L latchIndex kept exitBlocks s1).
  { intros s s1 i l Hall El H1.
    assert (Hi : i ∈ instsOf (func s) block) by (rewrite El; left).
    assert (He : eliminated i s s1).
    { eapply eliminateLCSSAPhi_available; [|exact H1].
      intros inc Hop. unfold opcodeOf in Hop.
      destruct (insts (func s) !! i) as [y|] eqn:Ey; [|discriminate].
      injection Hop as Hop.
      apply (phiAvailable_spec _ _ _ _ _ _ _ (Hall block i Hb Hk Hi) Ey Hop). }
    split; [exact He|]. eapply eliminated_available; eauto. }
  induction fuel as [|fuel IH]; intros s s' Hall H.
  - simpl in H. apply bind_Done in H as (f & s0 & H0 & H). apply gets_Done in H0 as [= -> ->].
    destruct (instsOf (func s) block) as [|i l] eqn:El; [discriminate|].
    destruct (isPHIRef (func s) i) eqn:Ei; [discriminate|].
    apply ret_Done in H. injection H as <-. split; [|exact Hall].
    apply (elim_done _ _ i); [rewrite El; reflexivity|exact Ei].
  - simpl in H. apply bind_Done in H as (f & s0 & H0 & H). apply gets_Done in H0 as [= -> ->].
    destruct (instsOf (func s) block) as [|i l] eqn:El; [discriminate|].
    destruct (isPHIRef (func s) i) eqn:Ei.
    + apply bind_Done in H as ([] & s1 & H1 & H).
      destruct (Hstep _ _ _ _ Hall El H1) as [He Hall1].
      destruct (IH _ _ Hall1 H) as [Hrest Hall'].
      split; [|exact Hall'].
      apply (elim_step _ _ s1 _ i); [rewrite El; reflexivity|exact Ei|exact He|exact Hrest].
    + apply ret_Done in H. injection H as <-. split; [|exact Hall].
      apply (elim_done _ _ i); [rewrite El; reflexivity|exact Ei].
Qed.

Lemma moveLCSSANodes_available L latch latchIndex (exitBlocks : list BlockRef)
    (relay : option RelayNode) (bs : list BlockRef) :
  (forall b, b ∈ bs -> b ∈ exitBlocks) ->
  forall s s',
  allAvailable L latchIndex (relay ≫= rblock) exitBlocks s ->
  moveLCSSANodes L latch latchIndex bs relay s = Done ((), s') ->
  movedLCSSA (relay ≫= rblock) bs s s'.
Proof.
  unfold moveLCSSANodes.
  induction bs as [|b bs IH]; intros Hsub s s' Hall H.
  - simpl in H. apply ret_Done in H. injection H as <-. constructor.
  - simpl in H. apply bind_Done in H as ([] & s1 & H1 & H).
    assert (Hsub' : forall b', b' ∈ bs -> b' ∈ exitBlocks)
      by (intros b' Hb'; apply Hsub; right; exact Hb').
    destruct (bool_decide (relay ≫= rblock = Some b)) eqn:Ek.
    + apply bool_decide_eq_true_1 in Ek. apply ret_Done in H1. injection H1 as <-.
      apply moved_kept; [exact Ek|]. apply IH; assumption.
    + apply bool_decide_eq_false_1 in Ek.
      apply bind_Done in H1 as (f & s0 & H0 & H1). apply gets_Done in H0 as [= -> ->].
      eapply eliminateLCSSAPhis_available in H1 as [He Hall1];
        [|apply Hsub; left|exact Ek|exact Hall].
      eapply moved_elim; [exact Ek|exact He|]. apply IH; assumption.
Qed.

(** The promotion that [repairIncoming] asks for: an incoming instruction
    of the loop whose block does not dominate the exit block gets the latch
    as its incoming block and is handed to [promoteDefinition], from the
    index of its block to the index of the latch; what that returns becomes
    the incoming value. *)
Lemma repairIncoming_promotes (L : Loop) (latch block : BlockRef) (latchIndex : Z)
    (lcPhi : InstRef) (i : nat) (s : State) (inc : list (Value * BlockRef))
    (inst : InstRef) (inBlock : BlockRef) (x : Instruction) :
  opcodeOf (func s) lcPhi = Some (PHINode inc) ->
  inc !! i = Some (InstValue inst, inBlock) -> contains L inBlock = true ->
  insts (func s) !! inst = Some x ->
  dominates s (parent x) block = false ->
  getIndex s (getHeader L) <= getIndex s (parent x) <= latchIndex ->
  repairIncoming L latch block latchIndex lcPhi i s
  = (promoteDefinition (InstValue inst) (getIndex s (parent x)) latchIndex
       ≫= setIncomingValue lcPhi (Z.of_nat i))
      (withFunc (setOpcode lcPhi (PHINode (<[i := (InstValue inst, latch)]> inc))) s).
Proof.
  intros Hop Hv Hc Hx Hdom [Hlo Hhi]. unfold repairIncoming.
  assert (Hlt : (i < length inc)%nat) by (eapply lookup_lt_Some, Hv).
  assert (E1 : getIncoming lcPhi s = Done (inc, s)).
  { unfold getIncoming, getOpcode, mbind, Lin_bind, getState. rewrite Hop. reflexivity. }
  rewrite (bind_Done_l _ _ _ _ _ E1).
  assert (E2 : at_ inc (Z.of_nat i) "incoming" s = Done ((InstValue inst, inBlock), s)).
  { unfold at_. replace ((0 <=? Z.of_nat i) && (Z.of_nat i <? Z.of_nat (length inc)))
      with true by (symmetry; apply andb_true_iff; split; lia).
    rewrite Nat2Z.id, Hv. reflexivity. }
  rewrite (bind_Done_l _ _ _ _ _ E2). cbn beta iota.
  rewrite Hc. rewrite (bind_Done_l _ _ s s tt) by reflexivity.
  rewrite (bind_Done_l (gets func) _ s s (func s)) by reflexivity.
  rewrite (bind_Done_l (deref (insts (func s) !! inst) "getParent") _ s s x)
    by (rewrite Hx; reflexivity).
  assert (E3 : setIncomingBlock lcPhi (Z.of_nat i) latch s
               = Done ((), withFunc (setOpcode lcPhi
                             (PHINode (<[i := (InstValue inst, latch)]> inc))) s)).
  { unfold setIncomingBlock. rewrite (bind_Done_l _ _ _ _ _ E1).
    rewrite (bind_Done_l _ _ _ _ _ E2). cbn beta iota. rewrite Nat2Z.id. reflexivity. }
  rewrite (bind_Done_l _ _ _ _ _ E3).
  set (s1 := withFunc _ s).
  rewrite (bind_Done_l getState _ s1 s1 s1) by reflexivity.
  rewrite (dominates_dt s s1) by reflexivity. rewrite Hdom.
  change (getIndex s1) with (getIndex s).
  replace ((getIndex s (getHeader L) <=? getIndex s (parent x))
           && (getIndex s (parent x) <=? latchIndex)) with true
    by (symmetry; apply andb_true_iff; split; lia).
  rewrite (bind_Done_l _ _ s1 s1 tt) by reflexivity.
  reflexivity.
Qed.

(** C7 (corrected). The loop "move LCSSA nodes to exitBlockRelay" of
    [convertToSingleExitLoop] over the old exit blocks, the block of the
    exit relay apart. When the incoming values of their phi nodes are
    constants, globals, arguments or instructions of the loop whose block
    dominates the exit block or is the latch (as the tracker states are),
    a run that completes eliminates the phi nodes at the head of each of
    these blocks one after the other: every use is replaced by the first
    incoming value and the phi node is deleted. Afterwards none of these
    blocks starts with a phi node and no block, the relay block included,
    has gained an instruction: nothing is migrated. An incoming
    instruction whose block does not dominate the exit block is handed to
    [promoteDefinition] from the index of its block to the index of the
    latch, and the result becomes the incoming value. *)
Theorem C7_lcssa_phis_eliminated :
  (forall (L : Loop) (latch : BlockRef) (latchIndex : Z) (exitBlocks : list BlockRef)
          (relay : option RelayNode) (s s' : State),
     lcssaAvailable L latchIndex (relay ≫= rblock) exitBlocks s = true ->
     moveLCSSANodes L latch latchIndex exitBlocks relay s = Done ((), s') ->
     movedLCSSA (relay ≫= rblock) exitBlocks s s'
     /\ (forall b, b ∈ exitBlocks -> relay ≫= rblock <> Some b -> phisOf (func s') b = [])
     /\ (forall b i, i ∈ instsOf (func s') b -> i ∈ instsOf (func s) b))
  /\ (forall (L : Loop) (latch block : BlockRef) (latchIndex : Z) (lcPhi : InstRef)
             (i : nat) (s : State) (inc : list (Value * BlockRef)) (inst : InstRef)
             (inBlock : BlockRef) (x : Instruction),
        opcodeOf (func s) lcPhi = Some (PHINode inc) ->
        inc !! i = Some (InstValue inst, inBlock) -> contains L inBlock = true ->
        insts (func s) !! inst = Some x ->
        dominates s (parent x) block = false ->
        getIndex s (getHeader L) <= getIndex s (parent x) <= latchIndex ->
        repairIncoming L latch block latchIndex lcPhi i s
        = (promoteDefinition (InstValue inst) (getIndex s (parent x)) latchIndex
             ≫= setIncomingValue lcPhi (Z.of_nat i))
            (withFunc (setOpcode lcPhi (PHINode (<[i := (InstValue inst, latch)]> inc))) s)).
Proof.
  split.
  - intros L latch latchIndex exitBlocks relay s s' Hav H.
    apply lcssaAvailable_all in Hav.
    eapply moveLCSSANodes_available in H; [|intros b Hb; exact Hb|exact Hav].
    split; [exact H|].
    destruct (movedLCSSA_phisOf _ _ _ _ H) as (H1 & _ & H3). split; assumption.
  - apply repairIncoming_promotes.
Qed.

Lemma C7_lcssa_phis_eliminated_witness :
  opcodeOf (func trackedState.2) 40 = Some (PHINode [(InstValue 53, 1%nat)])
  /\ phisOf (func movedState) 3 = []
  /\ forall i, i ∈ instsOf (func movedState) 51 -> i ∈ instsOf (func trackedState.2) 51.
Proof.
  split; [vm_compute; reflexivity|].
  destruct (proj1 C7_lcssa_phis_eliminated whileLoopL 2%nat 2 [3%nat] trackedState.1
              trackedState.2 movedState) as (_ & H1 & H2).
  - vm_compute. reflexivity.
  - vm_compute. reflexivity.
  - split.
    + apply H1; [left|vm_compute; discriminate].
    + apply H2.
Defined.

End LcssaRepair.

(** ** Components of the state that the loop normalizer leaves alone *)

Section Kept.
Import Shape IR Lin Linearizer.
Context {A : Type} (proj : State -> A).

(** The component [proj] of the state is as before. *)
Definition keptOf (s s' : State) : Prop := proj s' = proj s.

#[global] Instance keptOf_preorder : PreOrder keptOf.
Proof.
  split; [intros s; reflexivity|].
  intros a b c H1 H2. unfold keptOf in *. congruence.
Qed.

Lemma keeps_kept_modify (g : State -> State) :
  (forall s, proj (g s) = proj s) -> keeps keptOf (modify g).
Proof. intros H. apply keeps_modify. exact H. Qed.

End Kept.

Ltac keeps_extra ::=
  first [ solve [apply keeps_wf_other; intros ?; reflexivity]
        | solve [apply keeps_kept_modify; intros ?; auto] ].

Section KeptFunctions.
Import Shape IR Lin Linearizer.
Context {A : Type} (proj : State -> A) (li : LoopInfo).
Hypothesis Hfunc : forall g s, proj (withFunc g s) = proj s.
Hypothesis Hvec : forall g s, proj (withVecInfo g s) = proj s.
Hypothesis Hrel : forall g s, proj (withRelays g s) = proj s.

Lemma keeps_kept_createInst b pos ty name o :
  keeps (keptOf proj) (createInst b pos ty name o).
Proof using Hfunc.
  intros s a s' H. apply createInst_Done in H as [= _ ->]. apply Hfunc.
Qed.

Lemma keeps_kept_createBlock : keeps (keptOf proj) createBlock.
Proof using Hfunc. intros s a s' H. injection H as _ <-. apply Hfunc. Qed.
#[local] Hint Resolve keeps_kept_createInst keeps_kept_createBlock : keeps.

Lemma keeps_kept_setIncoming phi inc : keeps (keptOf proj) (setIncoming phi inc).
Proof using Hfunc. unfold setIncoming. keeps_tac. Qed.
#[local] Hint Resolve keeps_kept_setIncoming : keeps.

Lemma keeps_kept_addIncoming phi v b : keeps (keptOf proj) (addIncoming phi v b).
Proof using Hfunc. unfold addIncoming. keeps_tac. Qed.

Lemma keeps_kept_setIncomingValue phi idx v :
  keeps (keptOf proj) (setIncomingValue phi idx v).
Proof using Hfunc. unfold setIncomingValue. keeps_tac. Qed.

Lemma keeps_kept_setIncomingBlock phi idx b :
  keeps (keptOf proj) (setIncomingBlock phi idx b).
Proof using Hfunc. unfold setIncomingBlock. keeps_tac. Qed.
#[local] Hint Resolve keeps_kept_addIncoming keeps_kept_setIncomingValue
  keeps_kept_setIncomingBlock : keeps.

Lemma keeps_kept_setVectorShape i sh : keeps (keptOf proj) (setVectorShape i sh).
Proof using Hvec. apply keeps_kept_modify. intros s. apply Hvec. Qed.

Lemma keeps_kept_dropVectorShape i : keeps (keptOf proj) (dropVectorShape i).
Proof using Hvec. apply keeps_kept_modify. intros s. apply Hvec. Qed.
#[local] Hint Resolve keeps_kept_setVectorShape keeps_kept_dropVectorShape : keeps.

Lemma keeps_kept_createSelect b pos c x y name :
  keeps (keptOf proj) (createSelect b pos c x y name).
Proof using Hfunc. unfold createSelect. destruct (_ && _); keeps_tac. Qed.

Lemma keeps_kept_setValueShape v sh : keeps (keptOf proj) (setValueShape v sh).
Proof using Hvec. unfold setValueShape. destruct v; keeps_tac. Qed.
#[local] Hint Resolve keeps_kept_createSelect keeps_kept_setValueShape : keeps.

Lemma keeps_kept_promoteIncoming type defBlockId blockId block preds defs acc kp :
  keeps (keptOf proj) (promoteIncoming type defBlockId blockId block preds defs acc kp).
Proof using Hfunc.
  unfold promoteIncoming. destruct acc as [localDef localPhi], kp as [k predBlock].
  keeps_tac.
Qed.
#[local] Hint Resolve keeps_kept_promoteIncoming : keeps.

Lemma keeps_kept_promoteBlock type defBlockId defs i :
  keeps (keptOf proj) (promoteBlock type defBlockId defs i).
Proof using Hfunc. unfold promoteBlock. keeps_tac. Qed.
#[local] Hint Resolve keeps_kept_promoteBlock : keeps.

Lemma keeps_kept_promoteDefinition inst defBlockId destBlockId :
  keeps (keptOf proj) (promoteDefinition inst defBlockId destBlockId).
Proof using Hfunc. unfold promoteDefinition. keeps_tac. Qed.
#[local] Hint Resolve keeps_kept_promoteDefinition : keeps.

Lemma keeps_kept_requestTracker L preHeader liveOutPhis inst :
  keeps (keptOf proj) (requestTracker L preHeader liveOutPhis inst).
Proof using Hfunc Hvec. unfold requestTracker. keeps_tac. Qed.

Lemma keeps_kept_addTrackerUpdate L tracker exiting exit val :
  keeps (keptOf proj) (addTrackerUpdate L tracker exiting exit val).
Proof using Hfunc Hvec. unfold addTrackerUpdate. keeps_tac. Qed.

Lemma keeps_kept_getLastTrackerState L tracker :
  keeps (keptOf proj) (getLastTrackerState L tracker).
Proof using Type. unfold getLastTrackerState. keeps_tac. Qed.
#[local] Hint Resolve keeps_kept_requestTracker keeps_kept_addTrackerUpdate
  keeps_kept_getLastTrackerState : keeps.

Lemma keeps_kept_getTrackerStateForLiveOut L liveOutPhis liveOutInst :
  keeps (keptOf proj) (getTrackerStateForLiveOut L liveOutPhis liveOutInst).
Proof using Type. unfold getTrackerStateForLiveOut. keeps_tac. Qed.
#[local] Hint Resolve keeps_kept_getTrackerStateForLiveOut : keeps.

Lemma keeps_kept_replaceOutsideUses L inInst liveOut :
  keeps (keptOf proj) (replaceOutsideUses L inInst liveOut).
Proof using Hfunc. unfold replaceOutsideUses. keeps_tac. Qed.
#[local] Hint Resolve keeps_kept_replaceOutsideUses : keeps.

Lemma keeps_kept_trackLiveOut L preHeader exitingBlock exitBlock finalExit liveOutPhis lcPhi :
  keeps (keptOf proj)
        (trackLiveOut L preHeader exitingBlock exitBlock finalExit liveOutPhis lcPhi).
Proof using Hfunc Hvec. unfold trackLiveOut. keeps_tac. Qed.
#[local] Hint Resolve keeps_kept_trackLiveOut : keeps.

Lemma keeps_kept_trackLiveOuts L preHeader liveOutPhis exitBlock :
  keeps (keptOf proj) (trackLiveOuts L preHeader liveOutPhis exitBlock).
Proof using Hfunc Hvec. unfold trackLiveOuts. keeps_tac. Qed.
#[local] Hint Resolve keeps_kept_trackLiveOuts : keeps.

Lemma keeps_kept_repairIncoming L latch block latchIndex lcPhi i :
  keeps (keptOf proj) (repairIncoming L latch block latchIndex lcPhi i).
Proof using Hfunc. unfold repairIncoming. keeps_tac. Qed.
#[local] Hint Resolve keeps_kept_repairIncoming : keeps.

Lemma keeps_kept_eliminateLCSSAPhi L latch block latchIndex lcPhi :
  keeps (keptOf proj) (eliminateLCSSAPhi L latch block latchIndex lcPhi).
Proof using Hfunc. unfold eliminateLCSSAPhi. keeps_tac. Qed.
#[local] Hint Resolve keeps_kept_eliminateLCSSAPhi : keeps.

Lemma keeps_kept_eliminateLCSSAPhis fuel L latch block latchIndex :
  keeps (keptOf proj) (eliminateLCSSAPhis fuel L latch block latchIndex).
Proof using Hfunc. induction fuel as [|fuel IH]; simpl; keeps_tac. Qed.
#[local] Hint Resolve keeps_kept_eliminateLCSSAPhis : keeps.

Lemma keeps_kept_moveLCSSANodes L latch latchIndex loopExitBlocks loopExitRelay :
  keeps (keptOf proj) (moveLCSSANodes L latch latchIndex loopExitBlocks loopExitRelay).
Proof using Hfunc. unfold moveLCSSANodes. keeps_tac. Qed.

Lemma keeps_kept_dropLoopExit block L : keeps (keptOf proj) (dropLoopExit block L).
Proof using Hfunc Hvec. unfold dropLoopExit. keeps_tac. Qed.
#[local] Hint Resolve keeps_kept_dropLoopExit : keeps.

Lemma keeps_kept_dropExitingBlocks L : keeps (keptOf proj) (dropExitingBlocks L).
Proof using Hfunc Hvec. unfold dropExitingBlocks. keeps_tac. Qed.

(** The steps on the relay chain, for a component that is not the chain. *)
Lemma keeps_kept_setNext id next : keeps (keptOf proj) (setNext id next).
Proof using Hrel. apply keeps_kept_modify. intros s. apply Hrel. Qed.
#[local] Hint Resolve keeps_kept_setNext : keeps.

Lemma keeps_kept_linkChain chain : keeps (keptOf proj) (linkChain chain).
Proof using Hrel. induction chain as [|x [|y r] IH]; simpl; keeps_tac. Qed.
#[local] Hint Resolve keeps_kept_linkChain : keeps.

Lemma keeps_kept_requestRelay id : keeps (keptOf proj) (requestRelay id).
Proof using Hfunc Hrel. unfold requestRelay. keeps_tac. Qed.
#[local] Hint Resolve keeps_kept_requestRelay : keeps.

Lemma keeps_kept_addTargetToRelay anchor targetId :
  keeps (keptOf proj) (addTargetToRelay anchor targetId).
Proof using Hfunc Hrel. unfold addTargetToRelay. keeps_tac. Qed.
#[local] Hint Resolve keeps_kept_addTargetToRelay : keeps.

Lemma keeps_kept_collectExit L preHeader acc exitBlock :
  keeps (keptOf proj) (collectExit li L preHeader acc exitBlock).
Proof using Hfunc Hvec Hrel. unfold collectExit, GetExitingBlock. destruct acc. keeps_tac. Qed.

End KeptFunctions.

(** ** The latch exit of a converted loop *)

Section ExitChain.
Import Shape IR Lin Linearizer.
Context (li : LoopInfo).

(** The relay at position [i] of the table carries the id [i]. *)
Definition relaysNumbered (s : State) : Prop :=
  rid <$> relays s = Z.of_nat <$> seq 0 (length (relays s)).

Lemma relaysNumbered_rid (s : State) (i : nat) (n : RelayNode) :
  relaysNumbered s -> relays s !! i = Some n -> rid n = Z.of_nat i.
Proof.
  intros H Hn.
  assert (E : (rid <$> relays s) !! i = Some (rid n))
    by (rewrite list_lookup_fmap, Hn; reflexivity).
  rewrite H, list_lookup_fmap in E.
  destruct (seq 0 (length (relays s)) !! i) as [k|] eqn:Ek; [|discriminate].
  apply lookup_seq in Ek as [-> _]. simpl in E. congruence.
Qed.

Lemma relaysNumbered_rids (s s' : State) :
  rid <$> relays s' = rid <$> relays s -> relaysNumbered s -> relaysNumbered s'.
Proof.
  unfold relaysNumbered. intros E H. rewrite E, H. do 2 f_equal.
  apply (f_equal length) in E. rewrite !length_fmap in E. congruence.
Qed.

(** What the chain operations never change of a relay: all but the
    pointer to the next relay. *)
Definition relayCore (n : RelayNode) : BlockRef * Z * option BlockRef :=
  (rhead n, rid n, rblock n).

Definition cores (s : State) : list (BlockRef * Z * option BlockRef) :=
  relayCore <$> relays s.

Lemma cores_rids (s s' : State) :
  cores s' = cores s -> rid <$> relays s' = rid <$> relays s.
Proof.
  unfold cores. intros E.
  change (rid <$> relays s') with ((fun c : BlockRef * Z * option BlockRef => c.1.2) ∘ relayCore <$> relays s').
  change (rid <$> relays s) with ((fun c : BlockRef * Z * option BlockRef => c.1.2) ∘ relayCore <$> relays s).
  rewrite !list_fmap_compose, E. reflexivity.
Qed.

Lemma cores_registered (s s' : State) (id : Z) :
  cores s' = cores s -> is_Some (getRelay s id) -> is_Some (getRelay s' id).
Proof.
  unfold cores. intros E [n Hn]. apply getRelay_Some in Hn as (H0 & Hn & [b Hb]).
  assert (E' : (relayCore <$> relays s') !! Z.to_nat id = Some (relayCore n))
    by (rewrite E, list_lookup_fmap, Hn; reflexivity).
  rewrite list_lookup_fmap in E'.
  destruct (relays s' !! Z.to_nat id) as [n'|] eqn:En'; [|discriminate].
  injection E' as E1 E2 E3. unfold getRelay.
  replace (0 <=? id) with true by (symmetry; lia). rewrite En'.
  rewrite E3, Hb. eauto.
Qed.

Lemma keeps_cores_setNext (id : Z) (next : option Z) :
  keeps (keptOf cores) (setNext id next).
Proof.
  apply keeps_kept_modify. intros s. unfold cores. simpl_state.
  destruct (relays s !! Z.to_nat id) as [n|] eqn:E; [|reflexivity].
  rewrite list_fmap_insert. apply list_insert_id.
  rewrite list_lookup_fmap, E. reflexivity.
Qed.

Lemma keeps_cores_linkChain (chain : list Z) : keeps (keptOf cores) (linkChain chain).
Proof.
  induction chain as [|x [|y r] IH]; simpl.
  - apply keeps_ret.
  - apply keeps_cores_setNext.
  - apply keeps_bind; [apply keeps_cores_setNext|intros _; exact IH].
Qed.

(** After [requestRelay] a relay block stands in for the target; the
    relays that were there stay. *)
Lemma requestRelay_registered (id : Z) (s s' : State) (n : RelayNode) :
  0 <= id -> requestRelay id s = Done (n, s') ->
  rid <$> relays s' = rid <$> relays s
  /\ is_Some (getRelay s' id)
  /\ (forall k, is_Some (getRelay s k) -> is_Some (getRelay s' k)).
Proof.
  intros H0 H. unfold requestRelay in H.
  apply bind_Done in H as (s0 & s1 & H1 & H). apply getState_Done in H1 as [= -> ->].
  destruct (getRelay s id) as [n0|] eqn:E.
  - apply ret_Done in H as [= _ <-]. split; [reflexivity|]. split; [rewrite E; eauto|auto].
  - apply bind_Done in H as (rs & s1 & H1 & H). apply gets_Done in H1 as [= -> ->].
    apply bind_Done in H as (n0 & s1 & H1 & H). apply at_Done in H1 as (Hi & Hn0 & Hs).
    simpl in Hn0, Hs. subst s1.
    apply bind_Done in H as (b & s1 & H1 & H). injection H1 as <- <-.
    apply bind_Done in H as ([] & s1 & H1 & H). apply modify_Done in H1 as [= ->].
    apply ret_Done in H as [= _ ->]. simpl_state.
    assert (Hlt : (Z.to_nat id < length (relays s))%nat) by lia.
    split_and!.
    + rewrite list_fmap_insert. apply list_insert_id.
      rewrite list_lookup_fmap, Hn0. reflexivity.
    + unfold getRelay. simpl_state. replace (0 <=? id) with true by (symmetry; lia).
      rewrite list_lookup_insert_eq by exact Hlt. simpl. eauto.
    + intros k [m Hm]. apply getRelay_Some in Hm as (Hk & Hm & [c Hc]).
      unfold getRelay. simpl_state. replace (0 <=? k) with true by (symmetry; lia).
      destruct (decide (k = id)) as [->|Hne].
      * rewrite list_lookup_insert_eq by exact Hlt. simpl. eauto.
      * rewrite list_lookup_insert_ne by lia. rewrite Hm, Hc. eauto.
Qed.

(** The head of a merged chain is its least id. *)
Lemma insertSorted_head (x : Z) (l : list Z) :
  exists h, head (insertSorted x l) = Some h /\ h <= x
    /\ forall y, head l = Some y -> h <= y.
Proof.
  destruct l as [|y r]; simpl.
  - exists x. split; [reflexivity|]. split; [lia|]. intros y [=].
  - destruct (x <? y) eqn:E1; [|destruct (x =? y) eqn:E2]; simpl.
    + exists x. split; [reflexivity|]. split; [lia|]. intros z [= <-]. lia.
    + exists y. split; [reflexivity|]. split; [lia|]. intros z [= <-]. lia.
    + exists y. split; [reflexivity|]. split; [lia|]. intros z [= <-]. lia.
Qed.

Lemma mergeSorted_head (a b : list Z) (t : Z) :
  head b = Some t ->
  exists h, head (mergeSorted a b) = Some h /\ h <= t /\ forall x, x ∈ a -> h <= x.
Proof.
  intros Hb. induction a as [|x a IH]; simpl.
  - exists t. split; [exact Hb|]. split; [lia|]. intros x Hx. inversion Hx.
  - destruct IH as (h0 & E0 & Ht & Ha).
    destruct (insertSorted_head x (mergeSorted a b)) as (h & E & Hx & Hh).
    specialize (Hh h0 E0). exists h. split; [exact E|]. split; [lia|].
    intros y Hy. apply elem_of_cons in Hy as [->|Hy]; [lia|].
    specialize (Ha y Hy). lia.
Qed.

(** [addTargetToRelay] yields the relay that stands first on the chain:
    the one registered under the least id, which is at most the id of the
    target and at most the id of a registered anchor. *)
Lemma addTargetToRelay_head (anchor : option RelayNode) (t : Z) (s s' : State)
    (r : RelayNode) :
  relaysNumbered s -> addTargetToRelay anchor t s = Done (r, s') ->
  relaysNumbered s' /\ getRelay s' (rid r) = Some r /\ rid r <= t
  /\ (forall a, anchor = Some a -> is_Some (getRelay s (rid a)) -> rid r <= rid a).
Proof.
  intros Hnum H. unfold addTargetToRelay in H.
  apply bind_Done in H as ([] & s0 & H1 & H). apply assert_Done in H1 as [H0 [= ->]].
  apply Z.leb_le in H0.
  apply bind_Done in H as (n0 & s1 & H1 & H).
  apply requestRelay_registered in H1 as (Hr1 & [nt Hnt] & Hmono); [|exact H0].
  apply bind_Done in H as (s0 & s2 & H2 & H). apply getState_Done in H2 as [= -> ->].
  cbv zeta in H.
  set (fuel := S (length (relays s1))) in *.
  set (A := chainFrom fuel s1 (rid <$> anchor)) in *.
  set (B := chainFrom fuel s1 (Some t)) in *.
  assert (HB : head B = Some t) by (unfold B, fuel; simpl; rewrite Hnt; reflexivity).
  destruct (mergeSorted_head A B t HB) as (h & Hh & Hht & HhA).
  apply bind_Done in H as ([] & s2 & H2 & H).
  apply keeps_cores_linkChain in H2.
  apply bind_Done in H as (s0 & s3 & H3 & H). apply getState_Done in H3 as [= -> ->].
  apply deref_Done in H as [Hd Hs]. simpl in Hd, Hs. subst s'.
  rewrite Hh in Hd. simpl in Hd.
  assert (Hnum2 : relaysNumbered s2).
  { eapply relaysNumbered_rids; [apply cores_rids, H2|].
    eapply relaysNumbered_rids; [exact Hr1|exact Hnum]. }
  pose proof (getRelay_Some _ _ _ Hd) as (Hh0 & Hl & _).
  assert (Hrid : rid r = h).
  { rewrite (relaysNumbered_rid _ _ _ Hnum2 Hl). lia. }
  split_and!.
  - exact Hnum2.
  - rewrite Hrid. exact Hd.
  - lia.
  - intros a -> Hreg. apply Hmono in Hreg as [na Hna]. rewrite Hrid. apply HhA.
    unfold A, fuel. simpl. rewrite Hna. left.
Qed.

Section OneLoop.
Context (L : Loop) (preHeader : BlockRef).

Lemma collectExit_head (anchor : option RelayNode) (m m' : gmap InstRef InstRef)
    (e : BlockRef) (s s' : State) (r' : option RelayNode) :
  relaysNumbered s ->
  collectExit li L preHeader (anchor, m) e s = Done ((r', m'), s') ->
  relaysNumbered s' /\ blockIndex s' = blockIndex s
  /\ exists r, r' = Some r /\ getRelay s' (rid r) = Some r /\ rid r <= getIndex s e
       /\ (forall a, anchor = Some a -> is_Some (getRelay s (rid a)) -> rid r <= rid a).
Proof.
  intros Hnum H.
  assert (Hidx : blockIndex s' = blockIndex s).
  { apply (keeps_kept_collectExit blockIndex li
             (fun _ _ => eq_refl) (fun _ _ => eq_refl) (fun _ _ => eq_refl) _ _ _ _ _ _ _ H). }
  unfold collectExit in H.
  apply bind_Done in H as (s0 & s1 & H1 & H). apply getState_Done in H1 as [= -> ->].
  apply bind_Done in H as (r & s1 & H1 & H).
  apply addTargetToRelay_head in H1 as (Hnum1 & Hreg & Hle & Hanchor); [|exact Hnum].
  apply bind_Done in H as (exiting & s2 & H2 & H).
  assert (s2 = s1) as ->.
  { unfold GetExitingBlock, getExitingBlock in H2.
    apply (keeps_getExitingBlock (Rel := eq) L e) in H2. congruence. }
  assert (Hfin : forall s3, relays s3 = relays s1 ->
            relaysNumbered s3 /\ getRelay s3 (rid r) = Some r).
  { intros s3 E. split.
    - eapply relaysNumbered_rids; [rewrite E; reflexivity|exact Hnum1].
    - unfold getRelay in *. rewrite E. exact Hreg. }
  destruct (sameLoop _ _).
  - apply bind_Done in H as (m1 & s3 & H3 & H).
    apply (keeps_kept_trackLiveOuts relays (fun _ _ => eq_refl) (fun _ _ => eq_refl)) in H3.
    apply ret_Done in H as [= -> -> ->].
    destruct (Hfin s3 H3) as [Hn3 Hr3].
    split; [exact Hn3|]. split; [exact Hidx|]. exists r. auto.
  - apply ret_Done in H as [= -> -> ->].
    destruct (Hfin s1 eq_refl) as [Hn3 Hr3].
    split; [exact Hn3|]. split; [exact Hidx|]. exists r. auto.
Qed.

(** The loop over the exit blocks ends with the first relay of the chain of
    the exits: none of the exit blocks, and no registered relay the chain
    was started from, has a smaller id. *)
Lemma collectExits_head (l : list BlockRef) :
  forall (anchor : option RelayNode) (m m' : gmap InstRef InstRef) (s s' : State)
         (r' : option RelayNode),
  relaysNumbered s ->
  foldM (collectExit li L preHeader) (anchor, m) l s = Done ((r', m'), s') ->
  relaysNumbered s' /\ blockIndex s' = blockIndex s
  /\ (l = [] -> r' = anchor)
  /\ (l <> [] ->
      exists r, r' = Some r /\ getRelay s' (rid r) = Some r
        /\ (forall e, e ∈ l -> rid r <= getIndex s e)
        /\ (forall a, anchor = Some a -> is_Some (getRelay s (rid a)) -> rid r <= rid a)).
Proof.
  induction l as [|e l IH]; intros anchor m m' s s' r' Hnum H.
  - simpl in H. apply ret_Done in H as [= -> -> ->].
    split_and!; [exact Hnum|reflexivity|reflexivity|congruence].
  - simpl in H. apply bind_Done in H as ([r1 m1] & s1 & H1 & H).
    apply collectExit_head in H1 as (Hnum1 & Hidx1 & r & -> & Hreg & Hle & Hanchor);
      [|exact Hnum].
    destruct (IH _ _ _ _ _ _ Hnum1 H) as (Hnum' & Hidx' & Hnil & Hcons).
    split_and!; [exact Hnum'|congruence|discriminate|]. intros _.
    destruct l as [|e' l'].
    + rewrite (Hnil eq_refl). simpl in H. apply ret_Done in H as [= _ _ ->].
      exists r. split_and!; [reflexivity|exact Hreg| |exact Hanchor].
      intros x Hx. apply list_elem_of_singleton in Hx as ->. exact Hle.
    + destruct (Hcons ltac:(discriminate)) as (r2 & -> & Hreg2 & Hl2 & Ha2).
      assert (Hr : rid r2 <= rid r) by (apply (Ha2 r eq_refl); rewrite Hreg; eauto).
      exists r2. split_and!; [reflexivity|exact Hreg2| |].
      * intros x Hx. apply elem_of_cons in Hx as [->|Hx]; [lia|].
        specialize (Hl2 x Hx). unfold getIndex in *. rewrite Hidx1 in Hl2. exact Hl2.
      * intros a Ea Hreg0. specialize (Hanchor a Ea Hreg0). lia.
Qed.

End OneLoop.

(** C3. When [convertToSingleExitLoop] completes, it has gone through the
    loop over the exit blocks, which ends with the relay [r] that is
    returned: the first relay of the chain of the exits (no exit block, and
    no registered relay the chain was started from, has a smaller id). Once
    the closed-SSA phi nodes are moved and the exiting edges dropped
    (state [s3]), the terminator of the latch is deleted; the live mask is
    the exit mask of the edge from the latch to the header; a call of
    [rv_any] on that mask is appended to the latch, followed by a
    conditional branch on the result of the call whose true successor is
    the header and whose false successor is the block of [r]; call and
    branch get the uniform shape and the loop is no longer flagged
    divergent. *)
Theorem C3_latch_exit (L : Loop) (exitRelay : option RelayNode) (s s' : State)
    (r : RelayNode) :
  wfFresh (func s) -> wfParents (func s) -> relaysNumbered s ->
  convertToSingleExitLoop li L exitRelay s = Done (r, s') ->
  exists latch preHeader tracked s1 s2 s3 latchTerm liveMask call branch relayBlock,
    getLoopLatch (func s) L = Some latch
    /\ foldM (collectExit li L preHeader) (exitRelay, ∅) (getExitBlocks (func s) L) s
       = Done ((Some r, tracked), s1)
    /\ (forall e, e ∈ getExitBlocks (func s) L -> rid r <= getIndex s e)
    /\ (forall a, exitRelay = Some a -> is_Some (getRelay s (rid a)) -> rid r <= rid a)
    /\ rblock r = Some relayBlock
    /\ moveLCSSANodes L latch (getIndex s latch) (getExitBlocks (func s) L) (Some r) s1
       = Done ((), s2)
    /\ dropExitingBlocks L s2 = Done ((), s3)
    /\ getTerminator (func s3) latch = Some latchTerm
    /\ insts (func s') !! latchTerm = None
    /\ getExitMaskTo s latch (getHeader L) = Some liveMask
    /\ instsOf (func s') latch
       = filter (fun j => j <> latchTerm) (instsOf (func s3) latch) ++ [call; branch]
    /\ opcodeOf (func s') call = Some (CallInst "rv_any" [liveMask])
    /\ "rv_any"%string ∈ declared (func s')
    /\ opcodeOf (func s') branch
       = Some (CondBranchInst (InstValue call) (getHeader L) relayBlock)
    /\ getVectorShape s' call = Uniform 1
    /\ getVectorShape s' branch = Uniform 1
    /\ isDivergentLoop s' L = false.
Proof.
  intros Hwf Hpar Hnum H. unfold convertToSingleExitLoop in H.
  apply bind_Done in H as (s0 & s1 & H1 & H). apply getState_Done in H1 as [= -> ->].
  apply bind_Done in H as (relay & s1 & H1 & H). apply deref_Done in H1 as [_ Hs].
  simpl in Hs. subst s1.
  apply bind_Done in H as (rb0 & s1 & H1 & H). apply deref_Done in H1 as [_ Hs].
  simpl in Hs. subst s1.
  apply bind_Done in H as (preHeader & s1 & H1 & H). apply deref_Done in H1 as [_ Hs].
  simpl in Hs. subst s1.
  apply bind_Done in H as (latch & s1 & H1 & H). apply theLatch_Done in H1 as [Hl Hs].
  simpl in Hl, Hs. subst s1.
  apply bind_Done in H as ([] & s1 & H1 & H). apply assert_Done in H1 as [_ [= ->]].
  apply bind_Done in H as ([] & s1 & H1 & H). apply assert_Done in H1 as [_ [= ->]].
  apply bind_Done in H as ([loopExitRelay tracked] & s1 & H1 & H).
  assert (W1 : wfState s1).
  { eapply (keeps_foldM (Rel := wfKept)); [|exact H1|split; assumption].
    intros acc x. apply keeps_wf_collectExit. }
  assert (M1 : maskAnalysis s1 = maskAnalysis s).
  { eapply (keeps_foldM (Rel := keptOf maskAnalysis)); [|exact H1].
    intros acc x. apply keeps_kept_collectExit; reflexivity. }
  apply bind_Done in H as ([] & s2 & H2 & H).
  assert (W2 : wfState s2) by (eapply keeps_wf_moveLCSSANodes; [exact H2|exact W1]).
  assert (M2 : maskAnalysis s2 = maskAnalysis s1).
  { eapply (keeps_kept_moveLCSSANodes maskAnalysis); [reflexivity|exact H2]. }
  apply bind_Done in H as ([] & s3 & H3 & H).
  assert (M3 : maskAnalysis s3 = maskAnalysis s2).
  { eapply (keeps_kept_dropExitingBlocks maskAnalysis); [reflexivity..|exact H3]. }
  destruct W2 as [W2 W2'].
  destruct (dropExitingBlocks_Done L s2 s3 W2 W2' H3) as (W3 & W3' & _).
  destruct (createLatchExit_Done L latch loopExitRelay s3 s' r W3 W3' H)
    as (latchTerm & liveMask & call & branch & relayBlock & Ht & Hgone & Hmask & -> & Hrb
        & Hlist & Hcall & Hdecl & Hbr & Hs1 & Hs2 & Hdiv).
  destruct (collectExits_head L preHeader _ _ _ _ _ _ _ Hnum H1) as (_ & _ & Hnil & Hcons).
  exists latch, preHeader, tracked, s1, s2, s3, latchTerm, liveMask, call, branch, relayBlock.
  split_and!; try assumption.
  - destruct (getExitBlocks (func s) L) as [|e l] eqn:El.
    + intros e He. inversion He.
    + destruct (Hcons ltac:(discriminate)) as (r2 & [= <-] & _ & Hle & _). exact Hle.
  - destruct (getExitBlocks (func s) L) as [|e l] eqn:El.
    + intros a Ea _. rewrite <- (Hnil eq_refl) in Ea. injection Ea as <-. lia.
    + destruct (Hcons ltac:(discriminate)) as (r2 & [= <-] & _ & _ & Ha). exact Ha.
  - unfold getExitMaskTo in *. rewrite <- M1, <- M2, <- M3. exact Hmask.
Qed.

End ExitChain.

Section LatchExitExample.
Import Shape IR Lin Linearizer.

(** The while loop, converted when the linearizer reaches its header: the
    exit block 3 is the only exit, its relay has the fresh block 51; the
    terminator 31 of the latch 2 is gone and the latch ends in the call 55
    of [rv_any] on the mask of the back edge and in the branch 56 to the
    header 1 or to block 51. *)
Example convertToSingleExitLoop_latch :
  convertToSingleExitLoop [whileLoopL] whileLoopL None loopEntryState
  = Done (mkRelay 3 3 (Some 51%nat) None, convertedState)
  /\ getExitBlocks (func loopEntryState) whileLoopL = [3%nat]
  /\ getIndex loopEntryState 3 = 3
  /\ instsOf (func loopEntryState) 2 = [30; 31]%nat
  /\ instsOf (func convertedState) 2 = [30; 53; 55; 56]%nat
  /\ insts (func convertedState) !! 31%nat = None
  /\ getExitMaskTo loopEntryState 2 1 = Some (Argument (IntTy 1) 0)
  /\ opcodeOf (func convertedState) 55
     = Some (CallInst "rv_any" [Argument (IntTy 1) 0])
  /\ opcodeOf (func convertedState) 56 = Some (CondBranchInst (InstValue 55) 1 51).
Proof. split_and!; vm_compute; reflexivity. Qed.

Lemma C3_latch_exit_witness :
  exists latch preHeader tracked s1 s2 s3 latchTerm liveMask call branch relayBlock,
    getLoopLatch (func loopEntryState) whileLoopL = Some latch
    /\ foldM (collectExit [whileLoopL] whileLoopL preHeader) (None, ∅)
             (getExitBlocks (func loopEntryState) whileLoopL) loopEntryState
       = Done ((Some (mkRelay 3 3 (Some 51%nat) None), tracked), s1)
    /\ (forall e, e ∈ getExitBlocks (func loopEntryState) whileLoopL ->
          rid (mkRelay 3 3 (Some 51%nat) None) <= getIndex loopEntryState e)
    /\ (forall a, None = Some a -> is_Some (getRelay loopEntryState (rid a)) ->
          rid (mkRelay 3 3 (Some 51%nat) None) <= rid a)
    /\ rblock (mkRelay 3 3 (Some 51%nat) None) = Some relayBlock
    /\ moveLCSSANodes whileLoopL latch (getIndex loopEntryState latch)
         (getExitBlocks (func loopEntryState) whileLoopL)
         (Some (mkRelay 3 3 (Some 51%nat) None)) s1
       = Done ((), s2)
    /\ dropExitingBlocks whileLoopL s2 = Done ((), s3)
    /\ getTerminator (func s3) latch = Some latchTerm
    /\ insts (func convertedState) !! latchTerm = None
    /\ getExitMaskTo loopEntryState latch (getHeader whileLoopL) = Some liveMask
    /\ instsOf (func convertedState) latch
       = filter (fun j => j <> latchTerm) (instsOf (func s3) latch) ++ [call; branch]
    /\ opcodeOf (func convertedState) call = Some (CallInst "rv_any" [liveMask])
    /\ "rv_any"%string ∈ declared (func convertedState)
    /\ opcodeOf (func convertedState) branch
       = Some (CondBranchInst (InstValue call) (getHeader whileLoopL) relayBlock)
    /\ getVectorShape convertedState call = Uniform 1
    /\ getVectorShape convertedState branch = Uniform 1
    /\ isDivergentLoop convertedState whileLoopL = false.
Proof.
  apply (C3_latch_exit [whileLoopL] whileLoopL None loopEntryState convertedState
           (mkRelay 3 3 (Some 51%nat) None)).
  - apply wfFresh_decide. vm_compute. reflexivity.
  - apply wfParents_decide. vm_compute. reflexivity.
  - vm_compute. reflexivity.
  - vm_compute. reflexivity.
Defined.

End LatchExitExample.

(** ** No divergent terminator after the pass *)

Section RunClaim.
Import Shape IR Lin Linearizer.



(** A region that consists of block 0 alone, which ends in a branch of
    varying shape to two blocks outside the region. *)
Definition singleBlockInput : State :=
  mkState
    (mkFunction [0; 1; 2]%nat
       (list_to_map [(0, [10]); (1, [11]); (2, [12])]%nat)
       (list_to_map
          [(10, mkInst VoidTy "" 0 (CondBranchInst (Argument (IntTy 1) 0) 1 2));
           (11, mkInst VoidTy "" 1 (ReturnInst None));
           (12, mkInst VoidTy "" 2 (ReturnInst None))]%nat)
       13 [])
    (mkVecInfo (list_to_map [(10%nat, Varying 1)]) ∅ ∅) (mkMaskAnalysis ∅ ∅ ∅)
    (list_to_map [(0, None); (1, Some 0); (2, Some 0)]%nat)
    ∅ [] ∅.

Definition singleBlockRun : State :=
  match run [] {[0%nat]} 10 singleBlockInput with
  | Done (_, s) => s
  | Crash _ => singleBlockInput
  end.

Example run_singleBlock :
  run [] {[0%nat]} 10 singleBlockInput = Done ((), singleBlockRun)
  /\ getNumBlocks singleBlockRun = 1
  /\ func singleBlockRun = func singleBlockInput
  /\ getTerminator (func singleBlockRun) 0 = Some 10%nat
  /\ needsFoldingTerm singleBlockRun 10 = Done true.
Proof. split_and!; vm_compute; reflexivity. Qed.

(** A loop that is a single block: block 1 branches back to itself or to
    block 2. The branch 23 has a varying shape, but the loop is not flagged
    divergent. *)
Definition doWhileL : Loop := MkLoop 1 [1]%nat [].

Definition doWhileInput : State :=
  mkState
    (mkFunction [0; 1; 2]%nat
       (list_to_map [(0, [10]); (1, [20; 21; 22; 23]); (2, [30])]%nat)
       (list_to_map
          [(10, mkInst VoidTy "" 0 (BranchInst 1));
           (20, mkInst (IntTy 32) "i" 1
                  (PHINode [(Constant (IntTy 32) 0, 0%nat); (InstValue 21, 1%nat)]));
           (21, mkInst (IntTy 32) "n" 1
                  (OtherInst "add" [InstValue 20; Constant (IntTy 32) 1]));
           (22, mkInst (IntTy 1) "c" 1 (OtherInst "icmp" [InstValue 21]));
           (23, mkInst VoidTy "" 1 (CondBranchInst (InstValue 22) 1 2));
           (30, mkInst VoidTy "" 2 (ReturnInst None))]%nat)
       50 [])
    (mkVecInfo (list_to_map [(23%nat, Varying 1)]) ∅ ∅) (mkMaskAnalysis ∅ ∅ ∅)
    (list_to_map [(0, None); (1, Some 0); (2, Some 1)]%nat)
    ∅ [] ∅.

Definition doWhileRegion : gset nat := list_to_set [0; 1; 2]%nat.

Definition doWhileRun : State :=
  match run [doWhileL] doWhileRegion 50 doWhileInput with
  | Done (_, s) => s
  | Crash _ => doWhileInput
  end.

(** [processLoop] converts no loop that is not flagged and emits the latch
    without [processBranch]: the branch 23 is as it was. *)
Example run_doWhile :
  run [doWhileL] doWhileRegion 50 doWhileInput = Done ((), doWhileRun)
  /\ getNumBlocks doWhileRun = 3
  /\ isDivergentLoop doWhileInput doWhileL = false
  /\ getLoopLatch (func doWhileInput) doWhileL = Some 1%nat
  /\ getTerminator (func doWhileRun) 1 = Some 23%nat
  /\ opcodeOf (func doWhileRun) 23 = Some (CondBranchInst (InstValue 22) 1 2)
  /\ needsFoldingTerm doWhileRun 23 = Done true.
Proof. split_and!; vm_compute; reflexivity. Qed.


End RunClaim.

(** ** One round of [promoteDefinition] *)

Section PromoteRound.
Import Shape IR Lin Linearizer.



Context (type : Ty) (defBlockId blockId : Z) (block : BlockRef)
        (preds : list BlockRef) (defs : list (option Value)) (s0 : State).






End PromoteRound.

Section PromoteBlock.
Import Shape IR Lin Linearizer.


(** A diamond: block 0 branches to the blocks 1 and 2, which both branch
    to block 3. The instruction 21 is defined in block 1. *)
Definition diamondState : State :=
  mkState
    (mkFunction [0; 1; 2; 3]%nat
       (list_to_map [(0, [10]); (1, [21; 20]); (2, [30]); (3, [40])]%nat)
       (list_to_map
          [(10, mkInst VoidTy "" 0 (CondBranchInst (Argument (IntTy 1) 0) 1 2));
           (21, mkInst (IntTy 32) "x" 1
                  (OtherInst "add" [Argument (IntTy 32) 1; Argument (IntTy 32) 1]));
           (20, mkInst VoidTy "" 1 (BranchInst 3));
           (30, mkInst VoidTy "" 2 (BranchInst 3));
           (40, mkInst VoidTy "" 3 (ReturnInst None))]%nat)
       50 [])
    (mkVecInfo ∅ ∅ ∅)
    (mkMaskAnalysis ∅ ∅ ∅)
    ∅
    (list_to_map [(0%nat, 0); (1%nat, 1); (2%nat, 2); (3%nat, 3)])
    [mkRelay 0 0 None None; mkRelay 1 1 None None; mkRelay 2 2 None None;
     mkRelay 3 3 None None]
    ∅.

(** [defs] when the instruction 21 is promoted from block 1 and the round
    of block 2 is over: block 2 is reached from block 0 only. *)
Definition diamondDefs : list (option Value) :=
  [Some (InstValue 21); Some (UndefValue (IntTy 32)); None].

Definition diamondPromoted : State :=
  match promoteBlock (IntTy 32) 1 diamondDefs 2 diamondState with
  | Done (_, s) => s
  | Crash _ => diamondState
  end.

(** The round of block 3 creates the phi node 50 over the instruction 21,
    from block 1, and [undef], from block 2. *)
Example promoteBlock_diamond :
  promoteBlock (IntTy 32) 1 [Some (InstValue 21); None; None] 1 diamondState
  = Done (diamondDefs, diamondState)
  /\ promoteBlock (IntTy 32) 1 diamondDefs 2 diamondState
     = Done ([Some (InstValue 21); Some (UndefValue (IntTy 32)); Some (InstValue 50)],
             diamondPromoted)
  /\ instsOf (func diamondPromoted) 3 = [50; 40]%nat
  /\ insts (func diamondPromoted) !! 50%nat
     = Some (mkInst (IntTy 32) "" 3
               (PHINode [(InstValue 21, 1%nat); (UndefValue (IntTy 32), 2%nat)])).
Proof. split_and!; vm_compute; reflexivity. Qed.


End PromoteBlock.
